(** * A shallow embedding of the CPPN-NEAT genome (cppn.py, graph_util.py)

    The genome of [cppn.py] is embedded as a record of Rocq values, its
    methods as functions over an explicit state.  Numbers that the source
    holds in torch tensors are exact rationals ([Q]); results that the
    source computes in floating point are compared with [==].

    Python dictionaries keep their insertion order.  [node_genome] maps a
    node id to the node holding that id and [connection_genome] maps a key
    [(from, to)] to the connection holding that key (every insertion in the
    source is [d[gene.key] = gene]), so both are embedded as the list of
    their values in insertion order, looked up by the gene's own key. *)

From Stdlib Require Import String List ZArith QArith Qabs Bool Lia Arith.
From Stdlib Require Import Permutation Sorted FinFun Lqa.
Import ListNotations.

Open Scope Z_scope.

(** ** Exceptions and the state monad of the methods *)

Inductive exn : Type :=
| KeyError
| ValueError
| IndexError
| TypeError
| AssertionError
| RuntimeError.

Inductive result (A : Type) : Type :=
| Ok (a : A)
| Raise (e : exn).

Arguments Ok {A} a.
Arguments Raise {A} e.

(** A Python method mutates its object in place: what it has written stays
    written when it raises.  [M S A] therefore returns the state in both
    cases. *)
Definition M (S A : Type) : Type := S -> result A * S.

Definition ret {S A : Type} (a : A) : M S A := fun s => (Ok a, s).

Definition raise {S A : Type} (e : exn) : M S A := fun s => (Raise e, s).

Definition bind {S A B : Type} (m : M S A) (k : A -> M S B) : M S B :=
  fun s =>
    match m s with
    | (Ok a, s') => k a s'
    | (Raise e, s') => (Raise e, s')
    end.

Definition get {S : Type} : M S S := fun s => (Ok s, s).

Definition put {S : Type} (s : S) : M S unit := fun _ => (Ok tt, s).

Definition modify {S : Type} (f : S -> S) : M S unit := fun s => (Ok tt, f s).

Declare Scope monad_scope.
Delimit Scope monad_scope with monad.

Notation "x <- c1 ;; c2" := (bind c1 (fun x => c2))
  (at level 100, c1 at next level, right associativity) : monad_scope.
Notation "c1 ;;; c2" := (bind c1 (fun _ => c2))
  (at level 100, right associativity) : monad_scope.

(** ** Data model *)

Inductive NodeType : Type :=
| INPUT
| OUTPUT
| HIDDEN.

Definition NodeType_eqb (a b : NodeType) : bool :=
  match a, b with
  | INPUT, INPUT | OUTPUT, OUTPUT | HIDDEN, HIDDEN => true
  | _, _ => false
  end.

(** An activation is a named function applied to every element of a
    tensor. *)
Record Activation : Type := mkActivation {
  fn_name : string;
  fn : Q -> Q
}.

(** Modelled from the spec: the activation catalogue is not part of the
    sources; [identity] and [linear] return their argument. *)
Definition identity : Activation := mkActivation "identity" (fun x => x).
Definition linear : Activation := mkActivation "linear" (fun x => x).

(** A tensor held by a node during evaluation: one number in the serial
    path, a [res_h] x [res_w] array in the parallel path. *)
Inductive tensor : Type :=
| Scalar (q : Q)
| Grid (g : list (list Q)).

Record Node : Type := mkNode {
  activation : Activation;
  id : Z;
  type : NodeType;
  layer : Z;
  sum_inputs : option tensor;
  outputs : option tensor
}.

Record Connection : Type := mkConnection {
  key_ : Z * Z;
  weight : Q;
  enabled : bool;
  is_recurrent : bool
}.

Definition key_eqb (k1 k2 : Z * Z) : bool :=
  (fst k1 =? fst k2) && (snd k1 =? snd k2).

(** The configuration object (its class is not part of the sources; the
    fields are those the genome reads). *)
Record Config : Type := mkConfig {
  device : option string;
  seed : Z;
  use_radial_distance : bool;
  use_input_bias : bool;
  color_mode : string;
  num_outputs : nat;
  hidden_nodes_at_start : nat;
  output_activation : option Activation;
  activations : list Activation;
  allow_recurrent : bool;
  allow_input_activation_mutation : bool;
  init_connection_probability : Q;
  max_weight : Q;
  weight_threshold : Q;
  weight_mutation_max : Q;
  prob_weight_reinit : Q;
  prob_reenable_connection : Q;
  prob_add_node : Q;
  prob_add_connection : Q;
  prob_remove_node : Q;
  prob_disable_connection : Q;
  prob_mutate_weight : Q;
  prob_mutate_activation : Q;
  res_h : nat;
  res_w : nat;
  normalize_outputs : bool
}.

(** An image: [(h, w)] for up to two colour channels, [(h, w, channels)]
    otherwise. *)
Inductive image_t : Type :=
| Img2 (px : list (list Q))
| Img3 (px : list (list (list Q))).

Record CPPN : Type := mkCPPN {
  config : Config;
  image : option image_t;
  node_genome : list Node;
  connection_genome : list Connection;
  selected : bool;
  species_id : Z;
  cppn_id : Z;
  parents : Z * Z;
  fitness : Q;
  novelty : Q;
  adjusted_fitness : Q;
  n_inputs : nat;
  n_outputs : nat
}.

Definition set_node_genome (ns : list Node) (g : CPPN) : CPPN :=
  mkCPPN (config g) (image g) ns (connection_genome g) (selected g)
    (species_id g) (cppn_id g) (parents g) (fitness g) (novelty g)
    (adjusted_fitness g) (n_inputs g) (n_outputs g).

Definition set_connection_genome (cs : list Connection) (g : CPPN) : CPPN :=
  mkCPPN (config g) (image g) (node_genome g) cs (selected g)
    (species_id g) (cppn_id g) (parents g) (fitness g) (novelty g)
    (adjusted_fitness g) (n_inputs g) (n_outputs g).

Definition set_image (im : option image_t) (g : CPPN) : CPPN :=
  mkCPPN (config g) im (node_genome g) (connection_genome g) (selected g)
    (species_id g) (cppn_id g) (parents g) (fitness g) (novelty g)
    (adjusted_fitness g) (n_inputs g) (n_outputs g).

Definition set_scores (f a n : Q) (g : CPPN) : CPPN :=
  mkCPPN (config g) (image g) (node_genome g) (connection_genome g)
    (selected g) (species_id g) (cppn_id g) (parents g) f n a
    (n_inputs g) (n_outputs g).

Definition set_parents (p : Z * Z) (g : CPPN) : CPPN :=
  mkCPPN (config g) (image g) (node_genome g) (connection_genome g)
    (selected g) (species_id g) (cppn_id g) p (fitness g) (novelty g)
    (adjusted_fitness g) (n_inputs g) (n_outputs g).

(** ** Dictionary operations on the two genomes *)

Definition set_layer (l : Z) (n : Node) : Node :=
  mkNode (activation n) (id n) (type n) l (sum_inputs n) (outputs n).

Definition set_activation (a : Activation) (n : Node) : Node :=
  mkNode a (id n) (type n) (layer n) (sum_inputs n) (outputs n).

Definition set_state (s o : option tensor) (n : Node) : Node :=
  mkNode (activation n) (id n) (type n) (layer n) s o.

Definition set_enabled (b : bool) (c : Connection) : Connection :=
  mkConnection (key_ c) (weight c) b (is_recurrent c).

Definition set_weight (w : Q) (c : Connection) : Connection :=
  mkConnection (key_ c) w (enabled c) (is_recurrent c).

(** [nodes[k]] *)
Definition find_node (ns : list Node) (k : Z) : option Node :=
  find (fun n => id n =? k) ns.

(** [node = nodes[k]; node.field = ...]: the node is updated in place. *)
Definition update_node (k : Z) (f : Node -> Node) (ns : list Node)
  : list Node :=
  map (fun n => if id n =? k then f n else n) ns.

(** [connection_genome.get(k)] *)
Definition find_cx (cs : list Connection) (k : Z * Z) : option Connection :=
  find (fun c => key_eqb (key_ c) k) cs.

Definition update_cx (k : Z * Z) (f : Connection -> Connection)
  (cs : list Connection) : list Connection :=
  map (fun c => if key_eqb (key_ c) k then f c else c) cs.

(** [d[k] = v]: replaces the value of an existing key where it stands,
    appends a new key. *)
Definition dict_set_cx (c : Connection) (cs : list Connection)
  : list Connection :=
  match find_cx cs (key_ c) with
  | Some _ => update_cx (key_ c) (fun _ => c) cs
  | None => cs ++ [c]
  end.

Definition dict_set_node (n : Node) (ns : list Node) : list Node :=
  match find_node ns (id n) with
  | Some _ => update_node (id n) (fun _ => n) ns
  | None => ns ++ [n]
  end.

(** A dictionary holds each key once. *)
Definition dict_ok (g : CPPN) : Prop :=
  NoDup (map id (node_genome g)) /\ NoDup (map key_ (connection_genome g)).

(** Spec, section 3: every connection's endpoints are nodes of the genome. *)
Definition mem (x : Z) (s : list Z) : bool := existsb (Z.eqb x) s.

Definition endpoints_exist (g : CPPN) : Prop :=
  forall c, In c (connection_genome g) ->
    In (fst (key_ c)) (map id (node_genome g)) /\
    In (snd (key_ c)) (map id (node_genome g)).

(** ** Node views (cppn.py, 665-675) *)

Definition input_nodes (g : CPPN) : list Node :=
  filter (fun n => NodeType_eqb (type n) INPUT) (node_genome g).

Definition output_nodes (g : CPPN) : list Node :=
  filter (fun n => NodeType_eqb (type n) OUTPUT) (node_genome g).

Definition hidden_nodes (g : CPPN) : list Node :=
  filter (fun n => NodeType_eqb (type n) HIDDEN) (node_genome g).

Definition enabled_connections (g : CPPN) : list Connection :=
  filter enabled (connection_genome g).

(** ** graph_util.py *)

(** [is_valid_connection(nodes, key, config)]; [nodes[k]] raises KeyError on
    a missing key. *)
Definition is_valid_connection (nodes : list Node) (key : Z * Z)
  (cfg : Config) : result bool :=
  match find_node nodes (fst key), find_node nodes (snd key) with
  | Some from_node, Some to_node =>
      if layer from_node =? layer to_node then Ok false
      else if negb (allow_recurrent cfg) && (layer from_node >? layer to_node)
           then Ok false
           else Ok true
  | _, _ => Raise KeyError
  end.

Definition get_ids_from_individual (g : CPPN)
  : list Z * list Z * list (Z * Z) :=
  (map id (input_nodes g), map id (output_nodes g),
   map key_ (connection_genome g)).

(** Python sets are embedded as duplicate-free lists; the order in which a
    set is iterated is left open by Python and fixed here by [nodup]. *)
Definition to_set (l : list Z) : list Z := nodup Z.eq_dec l.

Definition get_candidate_nodes (s : list Z) (connections : list (Z * Z))
  : list Z :=
  to_set (map snd
    (filter (fun ab => mem (fst ab) s && negb (mem (snd ab) s)) connections)).

(** [set(a for (a, b) in connections if b in s and a not in s)] *)
Definition consumed_by (s : list Z) (connections : list (Z * Z)) : list Z :=
  to_set (map fst
    (filter (fun ab => mem (snd ab) s && negb (mem (fst ab) s)) connections)).

(** The body of [while 1] in [required_for_output]; [fuel] bounds the number
    of iterations and [None] means the bound was reached. *)
Fixpoint required_loop (fuel : nat) (inputs : list Z)
  (connections : list (Z * Z)) (required s : list Z) : option (list Z) :=
  match fuel with
  | O => None
  | S fuel' =>
      let t := consumed_by s connections in
      match t with
      | [] => Some required
      | _ =>
          let layer_nodes := filter (fun x => negb (mem x inputs)) t in
          match layer_nodes with
          | [] => Some required
          | _ => required_loop fuel' inputs connections
                   (required ++ filter (fun x => negb (mem x required))
                      layer_nodes)
                   (s ++ t)
          end
      end
  end.

Definition required_for_output (inputs outputs : list Z)
  (connections : list (Z * Z)) : list Z :=
  match required_loop (S (List.length connections)) inputs connections
          (to_set outputs) (to_set outputs) with
  | Some r => r
  | None => []
  end.

(** The nodes [t] kept from the candidates: required, and every incoming
    connection leaves a node of [s]. *)
Definition next_layer (required : list Z) (connections : list (Z * Z))
  (s : list Z) : list Z :=
  filter (fun n =>
            mem n required &&
            forallb (fun ab => mem (fst ab) s)
              (filter (fun ab => snd ab =? n) connections))
    (get_candidate_nodes s connections).

(** The body of [while 1] in [feed_forward_layers]. *)
Fixpoint layers_loop (fuel : nat) (required : list Z)
  (connections : list (Z * Z)) (s : list Z) (layers : list (list Z))
  : option (list (list Z)) :=
  match fuel with
  | O => None
  | S fuel' =>
      match next_layer required connections s with
      | [] => Some layers
      | t => layers_loop fuel' required connections (s ++ t) (layers ++ [t])
      end
  end.

Definition feed_forward_layers (g : CPPN) : list (list Z) :=
  let '(inputs, outputs, connections) := get_ids_from_individual g in
  let required := required_for_output inputs outputs connections in
  match layers_loop (S (List.length connections)) required connections
          (to_set inputs) [] with
  | Some l => l
  | None => []
  end.

(** ** Layer assignment (cppn.py, 655-663) *)

(** The writes of the nested loop over [enumerate(layers)]: node [n] of the
    layer at index [k] receives [k + 1]. *)
Fixpoint layer_writes (layer_index : Z) (layers : list (list Z))
  : list (Z * Z) :=
  match layers with
  | [] => []
  | l :: rest =>
      map (fun node_id => (node_id, layer_index + 1)) l
      ++ layer_writes (layer_index + 1) rest
  end.

(** [node = find_node_with_id(nodes, node_id); node.layer = v], in turn;
    a missing id raises KeyError and keeps the writes done so far. *)
Fixpoint write_layers (ws : list (Z * Z)) : M (list Node) unit :=
  match ws with
  | [] => ret tt
  | (node_id, v) :: rest =>
      fun ns =>
        match find_node ns node_id with
        | Some _ => write_layers rest (update_node node_id (set_layer v) ns)
        | None => (Raise KeyError, ns)
        end
  end.

Definition reset_input_layers (ns : list Node) : list Node :=
  map (fun n => if NodeType_eqb (type n) INPUT then set_layer 0 n else n) ns.

Definition update_node_layers : M CPPN unit :=
  fun g =>
    let layers := feed_forward_layers g in
    let '(r, ns) :=
      write_layers (layer_writes 0 layers)
        (reset_input_layers (node_genome g)) in
    (r, set_node_genome ns g).

(** ** Process-wide state: random generators and class attributes *)

(** The random generators are embedded as tapes of the values they will
    return; a statement proved for every tape holds for every seed.
    [rand_tape] feeds [torch.rand(1)[0]] and [pick_tape] feeds the integer
    draws of [torch.randperm] and [random.choice]; an exhausted tape
    returns 0.  [pixel_inputs] is the class attribute [CPPN.pixel_inputs],
    the feature array of the coordinate grid with its shape. *)
Record PixelInputs : Type := mkPixelInputs {
  pi_shape : nat * nat * nat;
  pi_data : list (list (list Q))
}.

Record Globals : Type := mkGlobals {
  rand_tape : list Q;
  pick_tape : list nat;
  node_indexer : option Z;
  current_id : Z;
  pixel_inputs : option PixelInputs
}.

Definition rand_tape_ok (gl : Globals) : Prop :=
  Forall (fun q => (0 <= q)%Q /\ (q < 1)%Q) (rand_tape gl).

Definition St : Type := (CPPN * Globals)%type.

Definition lift_self {A : Type} (m : M CPPN A) : M St A :=
  fun st => let '(r, g) := m (fst st) in (r, (g, snd st)).

Definition lift_glob {A : Type} (m : M Globals A) : M St A :=
  fun st => let '(r, gl) := m (snd st) in (r, (fst st, gl)).

Definition get_self : M St CPPN := fun st => (Ok (fst st), st).

Definition modify_self (f : CPPN -> CPPN) : M St unit :=
  fun st => (Ok tt, (f (fst st), snd st)).

Definition lift_result {S A : Type} (r : result A) : M S A :=
  fun s => (r, s).

(** The value that [torch.rand(1)[0]] returns next, and the generator
    after it. *)
Definition next_rand (gl : Globals) : Q :=
  match rand_tape gl with
  | [] => 0%Q
  | q :: _ => q
  end.

Definition after_rand (gl : Globals) : Globals :=
  mkGlobals (tl (rand_tape gl)) (pick_tape gl) (node_indexer gl)
    (current_id gl) (pixel_inputs gl).

Definition torch_rand : M Globals Q :=
  fun gl => (Ok (next_rand gl), after_rand gl).

(** An integer draw below [n]. *)
Definition draw_index (n : nat) : M Globals nat :=
  fun gl =>
    match pick_tape gl with
    | [] => (Ok O, gl)
    | d :: t =>
        (Ok (Nat.modulo d n),
         mkGlobals (rand_tape gl) t (node_indexer gl) (current_id gl)
           (pixel_inputs gl))
    end.

(** [random_uniform(low, high)] (cppn.py, 25-26) *)
Definition random_uniform (low high : Q) : M Globals Q :=
  (r <- torch_rand ;; ret (r * (high - low) + low)%Q)%monad.

(** [random_choice(choices, 1, False)[0]]: one index of a random
    permutation; indexing the empty result raises IndexError. *)
Definition random_choice1 {A : Type} (choices : list A) : M Globals A :=
  match choices with
  | [] => raise IndexError
  | _ =>
      (i <- draw_index (List.length choices) ;;
       match nth_error choices i with
       | Some a => ret a
       | None => raise IndexError
       end)%monad
  end.

(** [[a, b] = random_choice(choices, 2, False)]: the first two entries of a
    random permutation, two different positions; unpacking fewer than two
    values raises ValueError. *)
Definition random_choice2 {A : Type} (choices : list A) : M Globals (A * A) :=
  match choices with
  | [] | [_] => raise ValueError
  | _ =>
      (i <- draw_index (List.length choices) ;;
       j' <- draw_index (List.length choices - 1) ;;
       let j := if Nat.ltb j' i then j' else S j' in
       match nth_error choices i, nth_error choices j with
       | Some a, Some b => ret (a, b)
       | _, _ => raise ValueError
       end)%monad
  end.

(** [choose_random_function(config)] (graph_util.py, 57-60) *)
Definition choose_random_function (cfg : Config) : M Globals Activation :=
  random_choice1 (activations cfg).

Definition Qltb (a b : Q) : bool := negb (Qle_bool b a).

(** [random_weight] (cppn.py, 471-474) *)
Definition random_weight (cfg : Config) : M Globals Q :=
  random_uniform (- max_weight cfg) (max_weight cfg).

(** [get_new_node_id] (cppn.py, 295-307) *)
Definition get_new_node_id : M St Z :=
  fun st =>
    let '(g, gl) := st in
    let next_from (c : Z) :=
      let gl' := mkGlobals (rand_tape gl) (pick_tape gl) (Some (c + 1))
                   (current_id gl) (pixel_inputs gl) in
      if mem c (map id (node_genome g))
      then (Raise AssertionError, (g, gl'))
      else (Ok c, (g, gl')) in
    match node_indexer gl with
    | Some c => next_from c
    | None =>
        match node_genome g with
        | [] => (Ok 0, st)
        | n :: ns =>
            next_from (fold_left Z.max (map id ns) (id n) + 1)
        end
    end.

(** ** Mutation operators *)

Definition in_key (x : Z) (k : Z * Z) : bool := (x =? fst k) || (x =? snd k).

(** [del d[k]] for the first node, in the given order, whose id is [k]. *)
Fixpoint del_first (k : Z) (ns : list Node) : list Node :=
  match ns with
  | [] => []
  | n :: rest => if id n =? k then rest else n :: del_first k rest
  end.

(** [disable_invalid_connections] (cppn.py, 541-547): the method returns
    at its first statement; the loop after it is never run. *)
Definition disable_invalid_connections : M St unit := ret tt.

(** [remove_node] (cppn.py, 622-644) *)
Definition remove_node : M St unit :=
  (g <- get_self ;;
   let hidden := hidden_nodes g in
   match hidden with
   | [] => ret tt
   | _ =>
       node_id_to_remove <- lift_glob (random_choice1 (map id hidden)) ;;
       modify_self (fun g =>
         set_connection_genome
           (filter (fun cx => negb (in_key node_id_to_remove (key_ cx)))
              (connection_genome g)) g) ;;;
       modify_self (fun g =>
         set_node_genome
           (rev (del_first node_id_to_remove (rev (node_genome g)))) g) ;;;
       lift_self update_node_layers ;;;
       disable_invalid_connections ;;;
       modify_self (set_image None)
   end)%monad.

(** The [for _ in range(n)] loop of [add_connection]; [break] ends the
    recursion. *)
Fixpoint add_connection_attempts (n : nat) : M St unit :=
  match n with
  | O => ret tt
  | S n' =>
      (g <- get_self ;;
       pr <- lift_glob (random_choice2 (node_genome g)) ;;
       let key := (id (fst pr), id (snd pr)) in
       match find_cx (connection_genome g) key with
       | Some existing_cx =>
           if negb (enabled existing_cx)
           then
             r <- lift_glob (random_uniform 0 1) ;;
             if Qltb r (prob_reenable_connection (config g))
             then modify_self (fun g =>
                    set_connection_genome
                      (update_cx key (set_enabled true)
                         (connection_genome g)) g)
             else ret tt
           else ret tt
       | None =>
           valid <- lift_result
                      (is_valid_connection (node_genome g) key (config g)) ;;
           if (valid : bool)
           then
             w <- lift_glob (random_weight (config g)) ;;
             let new_cx := mkConnection key w true false in
             g1 <- get_self ;;
             if existsb (key_eqb key) (map key_ (connection_genome g1))
             then raise AssertionError
             else
               modify_self (fun g =>
                 set_connection_genome
                   (dict_set_cx new_cx (connection_genome g)) g) ;;;
               lift_self update_node_layers
           else add_connection_attempts n'
       end)%monad
  end.

(** [add_connection] (cppn.py, 549-576) *)
Definition add_connection : M St unit :=
  (add_connection_attempts 20 ;;; modify_self (set_image None))%monad.

(** [for x in l: f(x)] *)
Fixpoint for_each {S A : Type} (l : list A) (f : A -> M S unit) : M S unit :=
  match l with
  | [] => ret tt
  | a :: rest => bind (f a) (fun _ => for_each rest f)
  end.

Definition modify_cxs (f : list Connection -> list Connection) : M St unit :=
  modify_self (fun g => set_connection_genome (f (connection_genome g)) g).

Definition modify_nodes (f : list Node -> list Node) : M St unit :=
  modify_self (fun g => set_node_genome (f (node_genome g)) g).

(** [assert key not in self.connection_genome.keys()] *)
Definition assert_new_key (k : Z * Z) : M St unit :=
  (g <- get_self ;;
   if existsb (key_eqb k) (map key_ (connection_genome g))
   then raise AssertionError else ret tt)%monad.

(** [add_node] (cppn.py, 578-620) *)
Definition add_node : M St unit :=
  (g <- get_self ;;
   let eligible_cxs :=
     filter (fun cx => negb (is_recurrent cx)) (connection_genome g) in
   match eligible_cxs with
   | [] => ret tt
   | _ =>
       old_connection <- lift_glob (random_choice1 eligible_cxs) ;;
       new_id <- get_new_node_id ;;
       fn <- lift_glob (choose_random_function (config g)) ;;
       let new_node := mkNode fn new_id HIDDEN 999 None None in
       if mem new_id (map id (node_genome g)) then raise AssertionError
       else
         modify_nodes (dict_set_node new_node) ;;;
         modify_cxs (update_cx (key_ old_connection) (set_enabled false)) ;;;
         let new_cx_1 :=
           mkConnection (fst (key_ old_connection), new_id) 1 true false in
         assert_new_key (key_ new_cx_1) ;;;
         modify_cxs (dict_set_cx new_cx_1) ;;;
         let new_cx_2 :=
           mkConnection (new_id, snd (key_ old_connection))
             (weight old_connection) true false in
         assert_new_key (key_ new_cx_2) ;;;
         modify_cxs (dict_set_cx new_cx_2) ;;;
         lift_self update_node_layers ;;;
         modify_self (set_image None)
   end)%monad.

(** [disable_connection] (cppn.py, 646-653) *)
Definition disable_connection : M St unit :=
  (g <- get_self ;;
   let eligible_cxs := enabled_connections g in
   match eligible_cxs with
   | [] => ret tt
   | _ =>
       cx <- lift_glob (random_choice1 eligible_cxs) ;;
       modify_cxs (update_cx (key_ cx) (set_enabled false)) ;;;
       modify_self (set_image None)
   end)%monad.

(** [mutate_activations] (cppn.py, 482-492) *)
Definition mutate_activations (prob : Q) : M St unit :=
  (g <- get_self ;;
   let eligible_nodes :=
     hidden_nodes g
     ++ (match output_activation (config g) with
         | None => output_nodes g
         | Some _ => []
         end)
     ++ (if allow_input_activation_mutation (config g)
         then input_nodes g else []) in
   for_each eligible_nodes (fun node =>
     r <- lift_glob (random_uniform 0 1) ;;
     if Qltb r prob
     then
       fn <- lift_glob (choose_random_function (config g)) ;;
       modify_nodes (update_node (id node) (set_activation fn))
     else ret tt) ;;;
   modify_self (set_image None))%monad.

(** [torch.clamp(x, lo, hi)] *)
Definition clamp (x lo hi : Q) : Q :=
  let y := if Qltb x lo then lo else x in
  if Qltb hi y then hi else y.

(** [clamp_weights] (cppn.py, 704-712) *)
Definition clamp_weights : M St unit :=
  (g <- get_self ;;
   for_each (connection_genome g) (fun cx0 =>
     modify_cxs (update_cx (key_ cx0) (fun cx =>
       let w :=
         if Qltb (weight cx) (weight_threshold (config g)) &&
            Qltb (- weight_threshold (config g)) (weight cx)
         then 0%Q else weight cx in
       set_weight (clamp w (- max_weight (config g)) (max_weight (config g)))
         cx))))%monad.

(** [mutate_weights] (cppn.py, 494-509) *)
Definition mutate_weights (prob : Q) : M St unit :=
  (g <- get_self ;;
   for_each (connection_genome g) (fun connection =>
     r <- lift_glob (random_uniform 0 1) ;;
     if Qltb r prob
     then
       delta <- lift_glob
                  (random_uniform (- weight_mutation_max (config g))
                     (weight_mutation_max (config g))) ;;
       modify_cxs (update_cx (key_ connection)
                     (fun cx => set_weight (weight cx + delta)%Q cx))
     else
       r' <- lift_glob (random_uniform 0 1) ;;
       if Qltb r' (prob_weight_reinit (config g))
       then
         w <- lift_glob (random_weight (config g)) ;;
         modify_cxs (update_cx (key_ connection) (set_weight w))
       else ret tt) ;;;
   clamp_weights ;;;
   modify_self (set_image None))%monad.

(** The rates handed over by the evolutionary loop, in the order in which
    [mutate] unpacks them. *)
Record Rates : Type := mkRates {
  r_mutate_activations : Q;
  r_mutate_weights : Q;
  r_add_connection : Q;
  r_add_node : Q;
  r_remove_node : Q;
  r_disable_connection : Q;
  r_weight_mutation_max : Q;
  r_prob_reenable_connection : Q
}.

Definition config_rates (cfg : Config) : Rates :=
  mkRates (prob_mutate_activation cfg) (prob_mutate_weight cfg)
    (prob_add_connection cfg) (prob_add_node cfg) (prob_remove_node cfg)
    (prob_disable_connection cfg) (weight_mutation_max cfg)
    (prob_reenable_connection cfg).

(** [if random_uniform(0.0, 1.0) < rate: op()] *)
Definition with_probability (rate : Q) (op : M St unit) : M St unit :=
  (r <- lift_glob (random_uniform 0 1) ;;
   if Qltb r rate then op else ret tt)%monad.

(** What [mutate] does after it has reset the scores. *)
Definition mutate_operators (rates : option Rates) : M St unit :=
  (g <- get_self ;;
   let rs := match rates with
             | None => config_rates (config g)
             | Some rs => rs
             end in
   with_probability (r_add_node rs) add_node ;;;
   with_probability (r_remove_node rs) remove_node ;;;
   with_probability (r_add_connection rs) add_connection ;;;
   with_probability (r_disable_connection rs) disable_connection ;;;
   mutate_activations (r_mutate_activations rs) ;;;
   mutate_weights (r_mutate_weights rs) ;;;
   lift_self update_node_layers ;;;
   modify_self (set_image None))%monad.

(** [mutate] (cppn.py, 512-538) *)
Definition mutate (rates : option Rates) : M St unit :=
  (modify_self (set_scores 0 0 0) ;;;
   mutate_operators rates)%monad.

(** [EvolutionaryAlgorithm.mutate] (evolutionary_algorithm.py, 236-239),
    with the rates it reads from its configuration given as [rates]. *)
Definition ea_mutate (rates : Rates) : M St unit :=
  (modify_self (fun child =>
     set_scores 0 0 (novelty child) child) ;;;
   mutate (Some rates))%monad.

(** ** Construction (cppn.py, 253-378) *)

(** [CPPN.get_id] *)
Definition get_id : M Globals Z :=
  fun gl =>
    (Ok (current_id gl),
     mkGlobals (rand_tape gl) (pick_tape gl) (node_indexer gl)
       (current_id gl + 1) (pixel_inputs gl)).

(** [initialize_node_genome] (cppn.py, 312-331) *)
Definition initialize_node_genome : M St unit :=
  (g <- get_self ;;
   let cfg := config g in
   let total_node_count :=
     (n_inputs g + n_outputs g + hidden_nodes_at_start cfg)%nat in
   for_each (seq 0 (n_inputs g)) (fun idx =>
     let new_node :=
       mkNode identity (- (1 + Z.of_nat idx)) INPUT 0 None None in
     modify_nodes (dict_set_node new_node)) ;;;
   for_each (seq (n_inputs g) (n_outputs g)) (fun idx =>
     output_fn <- match output_activation cfg with
                  | None => lift_glob (choose_random_function cfg)
                  | Some fn => ret fn
                  end ;;
     let new_node :=
       mkNode output_fn (- (1 + Z.of_nat idx)) OUTPUT 2 None None in
     modify_nodes (dict_set_node new_node)) ;;;
   for_each (seq (n_inputs g + n_outputs g)
               (total_node_count - (n_inputs g + n_outputs g)))
     (fun _ =>
        new_id <- get_new_node_id ;;
        fn <- lift_glob (choose_random_function cfg) ;;
        modify_nodes
          (dict_set_node (mkNode fn new_id HIDDEN 1 None None))))%monad.

(** [get_output_layer_index] (cppn.py, 334-338) *)
Definition get_output_layer_index (g : CPPN) : result Z :=
  match output_nodes g with
  | n :: _ => Ok (layer n)
  | [] => Raise AssertionError
  end.

(** [get_layer] (cppn.py, 689-693) *)
Definition get_layer (g : CPPN) (layer_index : Z) : list Node :=
  filter (fun node => layer node =? layer_index) (node_genome g).

(** [range(lo, hi)] *)
Definition range (lo hi : Z) : list Z :=
  map (fun i => lo + Z.of_nat i) (seq 0 (Z.to_nat (hi - lo))).

(** The pairs visited by the four nested loops of
    [initialize_connection_genome], in order. *)
Definition layer_pairs (g : CPPN) (output_layer_idx : Z)
  : list (Node * Node) :=
  flat_map (fun layer_index =>
    flat_map (fun layer_to_index =>
      if layer_index =? layer_to_index then []
      else
        flat_map (fun from_node =>
          map (fun to_node => (from_node, to_node))
            (get_layer g layer_to_index))
          (get_layer g layer_index))
      (range layer_index (output_layer_idx + 1)))
    (range 0 (output_layer_idx + 1)).

(** The body of the innermost loop of [initialize_connection_genome] *)
Definition connect_pair (cfg : Config) (pr : Node * Node) : M St unit :=
  (w <- lift_glob (random_weight cfg) ;;
   let new_cx := mkConnection (id (fst pr), id (snd pr)) w true false in
   modify_cxs (dict_set_cx new_cx) ;;;
   r <- lift_glob torch_rand ;;
   if Qltb (init_connection_probability cfg) r
   then modify_cxs (update_cx (key_ new_cx) (set_enabled false))
   else ret tt)%monad.

(** [initialize_connection_genome] (cppn.py, 366-378) *)
Definition initialize_connection_genome : M St unit :=
  (g <- get_self ;;
   output_layer_idx <- lift_result (get_output_layer_index g) ;;
   for_each (layer_pairs g output_layer_idx) (connect_pair (config g)))%monad.

(** [CPPN.__init__] (cppn.py, 253-288).  [torch.manual_seed] restarts the
    generator; the tape stands for whatever it returns from there on. *)
Definition CPPN_init (cfg : Config) (nodes : option (list Node))
  (connections : option (list Connection)) : M Globals CPPN :=
  fun gl =>
    match device cfg with
    | None => (Raise ValueError, gl)
    | Some _ =>
        let '(_, gl1) := get_id gl in
        let g0 :=
          mkCPPN cfg None [] [] false 0 (current_id gl) (0, 0) 0 0 0
            (2 + (if use_radial_distance cfg then 1 else 0)
               + (if use_input_bias cfg then 1 else 0))%nat
            (String.length (color_mode cfg)) in
        let body : M St unit :=
          ((match nodes with
            | None => initialize_node_genome
            | Some ns => modify_nodes (fun _ => ns)
            end) ;;;
           (match connections with
            | None => initialize_connection_genome
            | Some cs => modify_cxs (fun _ => cs)
            end))%monad in
        match body (g0, gl1) with
        | (Ok _, (g, gl2)) => (Ok g, gl2)
        | (Raise e, (_, gl2)) => (Raise e, gl2)
        end
    end.

(** ** Recombination (cppn.py, 44-74 and 958-998) *)

(** [Gene.copy] for a connection: [Connection(key)] with the gene
    attributes [weight] and [enabled] set from [cx]. *)
Definition Connection_copy (cx : Connection) : Connection :=
  mkConnection (key_ cx) (weight cx) (enabled cx) false.

(** [Gene.copy] for a node: [Node(key)] (hidden type, layer 999) with the
    gene attributes [activation] and [type] set from [n]. *)
Definition Node_copy (n : Node) : Node :=
  mkNode (activation n) (id n) (type n) 999 None None.

(** [if torch.rand(1)[0] < 0.5: mine else: theirs] *)
Definition coin {A : Type} (mine theirs : A) : M Globals A :=
  (r <- torch_rand ;; ret (if Qltb r (1 # 2) then mine else theirs))%monad.

(** [Gene.crossover] (cppn.py, 63-74) *)
Definition Connection_crossover (cx other : Connection)
  : M Globals Connection :=
  if key_eqb (key_ cx) (key_ other)
  then
    (w <- coin (weight cx) (weight other) ;;
     e <- coin (enabled cx) (enabled other) ;;
     ret (mkConnection (key_ cx) w e false))%monad
  else raise AssertionError.

Definition Node_crossover (n other : Node) : M Globals Node :=
  if id n =? id other
  then
    (a <- coin (activation n) (activation other) ;;
     t <- coin (type n) (type other) ;;
     ret (mkNode a (id n) t 999 None None))%monad
  else raise AssertionError.

(** The body of the loop over the connections of the fitter parent. *)
Definition inherit_connection (parent2 : CPPN) (cx1 : Connection)
  : M St unit :=
  match find_cx (connection_genome parent2) (key_ cx1) with
  | None => modify_cxs (dict_set_cx (Connection_copy cx1))
  | Some cx2 =>
      (c <- lift_glob (Connection_crossover cx1 cx2) ;;
       modify_cxs (dict_set_cx c))%monad
  end.

(** The body of the loop over the nodes of the fitter parent. *)
Definition inherit_node (parent2 : CPPN) (node1 : Node) : M St unit :=
  (child <- get_self ;;
   if mem (id node1) (map id (node_genome child))
   then raise AssertionError
   else
     match find_node (node_genome parent2) (id node1) with
     | None => modify_nodes (dict_set_node (Node_copy node1))
     | Some node2 =>
         n <- lift_glob (Node_crossover node1 node2) ;;
         modify_nodes (dict_set_node n)
     end)%monad.

(** The fitter parent first; a coin decides between equally fit ones. *)
Definition order_parents (self other : CPPN) : M Globals (CPPN * CPPN) :=
  if Qltb (fitness other) (fitness self) then ret (self, other)
  else if Qltb (fitness self) (fitness other) then ret (other, self)
  else coin (self, other) (other, self).

(** [CPPN.crossover] (cppn.py, 958-998) *)
Definition crossover (self other : CPPN) : M Globals CPPN :=
  (child <- CPPN_init (config self) (Some []) (Some []) ;;
   pr <- order_parents self other ;;
   let parent1 := fst pr in
   let parent2 := snd pr in
   fun gl =>
     let body : M St unit :=
       (for_each (connection_genome parent1) (inherit_connection parent2) ;;;
        for_each (node_genome parent1) (inherit_node parent2) ;;;
        modify_self (set_parents (cppn_id parent1, cppn_id parent2)) ;;;
        lift_self update_node_layers)%monad in
     match body (child, gl) with
     | (Ok _, (child', gl')) => (Ok child', gl')
     | (Raise e, (_, gl')) => (Raise e, gl')
     end)%monad.

(** ** Genetic distance (cppn.py, 901-951; graph_util.py, 63-88) *)

(** The order of Python tuples *)
Definition key_ltb (k1 k2 : Z * Z) : bool :=
  (fst k1 <? fst k2) || ((fst k1 =? fst k2) && (snd k1 <? snd k2)).

(** [sorted(cxs, key=lambda c: c.key)], a stable sort *)
Fixpoint insert_by_key (c : Connection) (l : list Connection)
  : list Connection :=
  match l with
  | [] => [c]
  | d :: rest =>
      if key_ltb (key_ c) (key_ d) then c :: l
      else d :: insert_by_key c rest
  end.

Definition sorted_by_key (l : list Connection) : list Connection :=
  fold_right insert_by_key [] l.

Definition key_in (k : Z * Z) (ks : list (Z * Z)) : bool :=
  existsb (key_eqb k) ks.

Definition get_disjoint_connections (this_cxs : list Connection)
  (other_innovation : list (Z * Z)) : list Connection :=
  match this_cxs, rev other_innovation with
  | [], _ | _, [] => []
  | _, last_key :: _ =>
      filter (fun t_cx =>
                negb (key_in (key_ t_cx) other_innovation) &&
                key_ltb (key_ t_cx) last_key) this_cxs
  end.

Definition get_excess_connections (this_cxs : list Connection)
  (other_innovation : list (Z * Z)) : list Connection :=
  match this_cxs, rev other_innovation with
  | [], _ | _, [] => []
  | _, last_key :: _ =>
      filter (fun t_cx =>
                negb (key_in (key_ t_cx) other_innovation) &&
                key_ltb last_key (key_ t_cx)) this_cxs
  end.

Definition get_matching_connections (cxs_1 cxs_2 : list Connection)
  : list Connection * list Connection :=
  (sorted_by_key
     (filter (fun c1 => key_in (key_ c1) (map key_ cxs_2)) cxs_1),
   sorted_by_key
     (filter (fun c2 => key_in (key_ c2) (map key_ cxs_1)) cxs_2)).

Definition Qsum (l : list Q) : Q := fold_left Qplus l 0%Q.

(** [torch.mean(torch.stack(l))] *)
Definition mean (l : list Q) : Q :=
  (Qsum l / inject_Z (Z.of_nat (List.length l)))%Q.

Definition nat_to_Q (n : nat) : Q := inject_Z (Z.of_nat n).

(** [genetic_difference] (cppn.py, 901-951) *)
Definition genetic_difference (self other : CPPN) : Q :=
  let this_cxs := sorted_by_key (enabled_connections self) in
  let other_cxs := sorted_by_key (enabled_connections other) in
  let N := Nat.max (List.length this_cxs) (List.length other_cxs) in
  let other_innovation := map key_ other_cxs in
  let n_excess :=
    nat_to_Q
      (List.length (get_excess_connections this_cxs other_innovation)) in
  let n_disjoint :=
    nat_to_Q
      (List.length (get_disjoint_connections this_cxs other_innovation)) in
  let '(this_matching, other_matching) :=
    get_matching_connections this_cxs other_cxs in
  let difference_of_matching_weights :=
    map (fun ot => Qabs (weight (fst ot) - weight (snd ot))%Q)
      (combine other_matching this_matching) in
  let difference_of_matching_weights :=
    match difference_of_matching_weights with
    | [] => 0%Q
    | _ => mean difference_of_matching_weights
    end in
  let n_different_fns :=
    nat_to_Q
      (List.length
         (filter (fun to =>
                    negb (String.eqb (fn_name (activation (fst to)))
                            (fn_name (activation (snd to)))))
            (combine (node_genome self) (node_genome other)))) in
  let n_excess :=
    if (0 <? N)%nat then (n_excess / nat_to_Q N)%Q else n_excess in
  let n_disjoint :=
    if (0 <? N)%nat then (n_disjoint / nat_to_Q N)%Q else n_disjoint in
  let n_excess := (n_excess * 1)%Q in
  let n_disjoint := (n_disjoint * 1)%Q in
  let difference_of_matching_weights :=
    (difference_of_matching_weights * (4 # 10))%Q in
  let n_different_fns := (n_different_fns * 1)%Q in
  (n_excess + n_disjoint + difference_of_matching_weights
   + n_different_fns)%Q.

(** ** Evaluation (cppn.py, 116-129, 677-875) *)

(** Functions of torch, math and skimage that rationals cannot compute. *)
Record Externals : Type := mkExternals {
  ext_sqrt : Q -> Q;
  ext_hsv2rgb : list (list (list Q)) -> list (list (list Q))
}.

Fixpoint zip_with {A B C : Type} (f : A -> B -> C) (l : list A) (m : list B)
  : list C :=
  match l, m with
  | a :: l', b :: m' => f a b :: zip_with f l' m'
  | _, _ => []
  end.

Definition tmap (f : Q -> Q) (t : tensor) : tensor :=
  match t with
  | Scalar q => Scalar (f q)
  | Grid g => Grid (map (map f) g)
  end.

(** [t * w] for a weight [w] *)
Definition tmul (t : tensor) (w : Q) : tensor := tmap (fun x => x * w)%Q t.

(** [a + b]; a number is broadcast over an array, and all the arrays of one
    evaluation have the shape [(res_h, res_w)]. *)
Definition tadd (a b : tensor) : tensor :=
  match a, b with
  | Scalar x, Scalar y => Scalar (x + y)%Q
  | Scalar x, Grid h => Grid (map (map (fun y => x + y)%Q) h)
  | Grid g, Scalar y => Grid (map (map (fun x => x + y)%Q) g)
  | Grid g, Grid h => Grid (zip_with (zip_with Qplus) g h)
  end.

Definition set_sum_inputs (s : option tensor) (n : Node) : Node :=
  set_state s (outputs n) n.

Definition set_outputs (o : option tensor) (n : Node) : Node :=
  set_state (sum_inputs n) o n.

(** [get_incoming_connections] (graph_util.py, 130-133) *)
Definition get_incoming_connections (g : CPPN) (node : Node)
  : list Connection :=
  filter (fun x => snd (key_ x) =? id node) (enabled_connections g).

(** The body of the loop of [Node.activate], for the node of id [k] *)
Definition accumulate (k : Z) (cx : Connection) : M (list Node) unit :=
  (nodes <- get ;;
   match find_node nodes (fst (key_ cx)), find_node nodes k with
   | Some src, Some self =>
       match outputs src, sum_inputs self with
       | Some o, Some s =>
           modify (update_node k
                     (set_sum_inputs (Some (tadd s (tmul o (weight cx))))))
       | _, _ => raise TypeError
       end
   | _, _ => raise KeyError
   end)%monad.

(** [Node.activate] (cppn.py, 116-125) for the node of id [k] *)
Definition activate (k : Z) (incoming_connections : list Connection)
  : M (list Node) unit :=
  (for_each incoming_connections (accumulate k) ;;;
   nodes <- get ;;
   match find_node nodes k with
   | Some self =>
       match sum_inputs self with
       | Some s =>
           modify (update_node k
                     (set_outputs (Some (tmap (fn (activation self)) s))))
       | None => raise TypeError
       end
   | None => raise KeyError
   end)%monad.

Definition lift_nodes {A : Type} (m : M (list Node) A) : M CPPN A :=
  fun g => let '(r, ns) := m (node_genome g) in (r, set_node_genome ns g).

(** [for inp, node in zip(inputs, nodes)] of [set_inputs] *)
Fixpoint assign_inputs (inputs : list Q) (nodes : list Node)
  : M (list Node) unit :=
  match inputs, nodes with
  | inp :: inputs', node :: nodes' =>
      bind (modify (update_node (id node)
              (set_state (Some (Scalar inp))
                 (Some (tmap (fn (activation node)) (Scalar inp))))))
        (fun _ => assign_inputs inputs' nodes')
  | _, _ => ret tt
  end.

(** The features of a coordinate: the two coordinates, their radial
    distance and the bias, as configured. *)
Definition features (ext : Externals) (cfg : Config) (c0 c1 : Q) : list Q :=
  [c0; c1]
  ++ (if use_radial_distance cfg then [ext_sqrt ext (c0 * c0 + c1 * c1)%Q]
      else [])
  ++ (if use_input_bias cfg then [1%Q] else []).

(** [set_inputs] (cppn.py, 677-687) *)
Definition set_inputs (ext : Externals) (c0 c1 : Q) : M CPPN unit :=
  (g <- get ;;
   lift_nodes (assign_inputs (features ext (config g) c0 c1)
                 (input_nodes g)))%monad.

(** [enumerate(layer)] for every layer, the input nodes first *)
Definition evaluation_order (g : CPPN) : list (nat * Z) :=
  flat_map (fun layer => combine (seq 0 (List.length layer)) layer)
    (map id (input_nodes g) :: feed_forward_layers g).

Fixpoint map_m {S A B : Type} (f : A -> M S B) (l : list A) : M S (list B) :=
  match l with
  | [] => ret []
  | a :: rest =>
      bind (f a) (fun b => bind (map_m f rest) (fun bs => ret (b :: bs)))
  end.

(** [torch.stack([node.outputs for node in self.output_nodes().values()])] *)
Definition stack_outputs : M CPPN (list tensor) :=
  (g <- get ;;
   match output_nodes g with
   | [] => raise RuntimeError
   | outs =>
       map_m (fun node => match outputs node with
                          | Some o => ret o
                          | None => raise TypeError
                          end) outs
   end)%monad.

(** One round of the loops of [feed_forward], for the node [snd entry];
    the connections are those of [g], which evaluation does not change. *)
Definition serial_node_step (g : CPPN) (entry : nat * Z)
  : M (list Node) unit :=
  (nodes <- get ;;
   match find_node nodes (snd entry) with
   | None => raise KeyError
   | Some node =>
       let node_inputs := get_incoming_connections g node in
       (if NodeType_eqb (type node) INPUT then ret tt
        else modify (update_node (id node)
                       (set_sum_inputs (Some (Scalar 0))))) ;;;
       activate (id node) node_inputs
   end)%monad.

(** [feed_forward] (cppn.py, 731-755) *)
Definition feed_forward : M CPPN (list tensor) :=
  (g <- get ;;
   lift_nodes (for_each (evaluation_order g) (serial_node_step g)) ;;;
   outs <- stack_outputs ;;
   g' <- get ;;
   if Nat.eqb (List.length outs) (num_outputs (config g')) then ret outs
   else raise AssertionError)%monad.

(** [eval] (cppn.py, 726-729) *)
Definition eval (ext : Externals) (c0 c1 : Q) : M CPPN (list tensor) :=
  (set_inputs ext c0 c1 ;;; feed_forward)%monad.

(** [torch.linspace(-.5, .5, n)] *)
Definition linspace (n : nat) : list Q :=
  match n with
  | O => []
  | S O => [- (1 # 2)]%Q
  | _ => map (fun i => (- (1 # 2) + nat_to_Q i / nat_to_Q (n - 1))%Q)
           (seq 0 n)
  end.

(** Rows of [cols] entries cut from a flat sequence *)
Fixpoint chunks {A : Type} (rows cols : nat) (l : list A) : list (list A) :=
  match rows with
  | O => []
  | S r => firstn cols l :: chunks r cols (skipn cols l)
  end.

(** The loop of [get_image_data_serial] (cppn.py, 800-805): the Python
    list [pixels], which every [eval] extends by one tensor for each output
    node.  [x] runs over [res_w] values in the outer loop and is the first
    input, [y] over [res_h] values in the inner loop. *)
Definition serial_pixels (ext : Externals) : M CPPN (list tensor) :=
  (g <- get ;;
   let cfg := config g in
   pixels <- map_m (fun x =>
               map_m (fun y => eval ext x y) (linspace (res_h cfg)))
               (linspace (res_w cfg)) ;;
   ret (concat (concat pixels)))%monad.

(** [torch.reshape(pixels, shape)] in [get_image_data_serial] (cppn.py,
    806-809): [torch.reshape] takes a tensor and [pixels] is a list, so
    the call raises. *)
Definition reshape_list (pixels : list tensor) (shape : list nat)
  : result image_t :=
  Raise TypeError.

(** [get_image_data_serial] (cppn.py, 796-812) *)
Definition get_image_data_serial (ext : Externals) : M CPPN image_t :=
  (pixels <- serial_pixels ext ;;
   g <- get ;;
   let cfg := config g in
   im <- lift_result
           (if Nat.ltb 2 (String.length (color_mode cfg))
            then reshape_list pixels [res_w cfg; res_h cfg; n_outputs g]
            else reshape_list pixels [res_w cfg; res_h cfg]) ;;
   modify (set_image (Some im)) ;;;
   ret im)%monad.

(** [torch.reshape] of a tensor holding the numbers [flat] to the shape
    that [get_image_data_serial] asks for: row by row, and raising when
    the count does not fit. *)
Definition image_of_pixels (g : CPPN) (flat : list Q) : result image_t :=
  let cfg := config g in
  if Nat.ltb 2 (String.length (color_mode cfg))
  then
    if Nat.eqb (List.length flat) (res_w cfg * res_h cfg * n_outputs g)
    then Ok (Img3 (chunks (res_w cfg) (res_h cfg)
                     (chunks (res_w cfg * res_h cfg) (n_outputs g) flat)))
    else Raise RuntimeError
  else
    if Nat.eqb (List.length flat) (res_w cfg * res_h cfg)
    then Ok (Img2 (chunks (res_w cfg) (res_h cfg) flat))
    else Raise RuntimeError.

(** [CPPN.initialize_inputs] (cppn.py, 231-251): the feature array of
    shape [(res_h, res_w, n_inputs)]; assigning a pixel of another length
    raises. *)
Definition initialize_inputs (ext : Externals) (cfg : Config) (n : nat)
  : M Globals unit :=
  fun gl =>
    let x_vals := linspace (res_w cfg) in
    let y_vals := linspace (res_h cfg) in
    let data :=
      map (fun y => map (fun x => features ext cfg y x) x_vals) y_vals in
    let gl' :=
      mkGlobals (rand_tape gl) (pick_tape gl) (node_indexer gl)
        (current_id gl)
        (Some (mkPixelInputs (res_h cfg, res_w cfg, n) data)) in
    if forallb (forallb (fun px => Nat.eqb (List.length px) n)) data
    then (Ok tt, gl')
    else (Raise RuntimeError, gl').

Definition const_grid (h w : nat) (q : Q) : list (list Q) :=
  repeat (repeat q w) h.

(** [reset_activations] (cppn.py, 715-720), [parallel=True] *)
Definition reset_activations (g : CPPN) : CPPN :=
  let half := Some (Grid (const_grid (res_h (config g)) (res_w (config g))
                            (1 # 2))) in
  set_node_genome (map (set_state half half) (node_genome g)) g.

(** [CPPN.pixel_inputs[:, :, k]] *)
Definition feature_plane (p : PixelInputs) (k : nat) : result tensor :=
  if Nat.ltb k (snd (pi_shape p))
  then Ok (Grid (map (map (fun px => nth k px 0%Q)) (pi_data p)))
  else Raise IndexError.

Definition Qlist_max (q : Q) (l : list Q) : Q :=
  fold_left (fun a b => if Qltb a b then b else a) l q.

Definition Qlist_min (q : Q) (l : list Q) : Q :=
  fold_left (fun a b => if Qltb b a then b else a) l q.

(** [normalize_image] (cppn.py, 877-896) on the channels-last array *)
Definition normalize_pixels (ext : Externals) (cfg : Config)
  (px : list (list (list Q))) : result (list (list (list Q))) :=
  match concat (concat px) with
  | [] => Raise RuntimeError
  | q :: rest =>
      let max_value := Qlist_max q rest in
      let min_value := Qlist_min q rest in
      let image_range := (max_value - min_value)%Q in
      let shifted := map (map (map (fun v => v - min_value)%Q)) px in
      let scaled :=
        if Qeq_bool image_range 0 then shifted
        else map (map (map (fun v => v / image_range)%Q)) shifted in
      Ok (if String.eqb (color_mode cfg) "HSL" then ext_hsv2rgb ext scaled
          else scaled)
  end.

Definition normalize_image (ext : Externals) (cfg : Config) (im : image_t)
  : result image_t :=
  match im with
  | Img3 px =>
      match normalize_pixels ext cfg px with
      | Ok px' => Ok (Img3 px')
      | Raise e => Raise e
      end
  | Img2 px =>
      match normalize_pixels ext cfg (map (map (fun v => [v])) px) with
      | Ok px' => Ok (Img2 (map (map (fun c => nth 0 c 0%Q)) px'))
      | Raise e => Raise e
      end
  end.

Definition grid_of (t : tensor) (h w : nat) : list (list Q) :=
  match t with
  | Grid g => g
  | Scalar q => const_grid h w q
  end.

(** [outputs.permute(1, 2, 0)]: entry [r][c] collects the channels. *)
Definition channels_last (h w : nat) (planes : list (list (list Q)))
  : list (list (list Q)) :=
  map (fun r =>
         map (fun c => map (fun plane => nth c (nth r plane []) 0%Q) planes)
           (seq 0 w))
    (seq 0 h).

(** One round of the loops of [get_image_data_parallel], for the node
    [snd entry] at position [fst entry] of its layer. *)
Definition parallel_node_step (g : CPPN) (p : option PixelInputs)
  (entry : nat * Z) : M (list Node) unit :=
  (nodes <- get ;;
   match find_node nodes (snd entry) with
   | None => raise KeyError
   | Some node =>
       let node_inputs := get_incoming_connections g node in
       starting_input <-
         (if NodeType_eqb (type node) INPUT
          then match p with
               | Some p => lift_result (feature_plane p (fst entry))
               | None => raise TypeError
               end
          else ret (Grid (const_grid (res_h (config g)) (res_w (config g))
                            0))) ;;
       modify (update_node (id node)
                 (set_sum_inputs (Some starting_input))) ;;;
       activate (id node) node_inputs
   end)%monad.

(** The image that [get_image_data_parallel] makes of the stacked outputs *)
Definition image_of_planes (cfg : Config) (planes : list (list (list Q)))
  : result image_t :=
  if Nat.ltb 2 (String.length (color_mode cfg))
  then Ok (Img3 (channels_last (res_h cfg) (res_w cfg) planes))
  else
    if Nat.eqb (List.length (concat (concat planes)))
         (res_h cfg * res_w cfg)
    then Ok (Img2 (chunks (res_h cfg) (res_w cfg) (concat (concat planes))))
    else Raise RuntimeError.

(** [get_image_data_parallel] (cppn.py, 814-875) *)
Definition get_image_data_parallel (ext : Externals) : M St image_t :=
  (g <- get_self ;;
   let cfg := config g in
   gl <- lift_glob get ;;
   (match pixel_inputs gl with
    | Some p =>
        if Nat.eqb (fst (fst (pi_shape p))) (res_h cfg) &&
           Nat.eqb (snd (fst (pi_shape p))) (res_w cfg)
        then ret tt
        else lift_glob (initialize_inputs ext cfg (n_inputs g))
    | None => lift_glob (initialize_inputs ext cfg (n_inputs g))
    end) ;;;
   modify_self reset_activations ;;;
   gl' <- lift_glob get ;;
   lift_self (lift_nodes
     (for_each (evaluation_order g)
        (parallel_node_step g (pixel_inputs gl')))) ;;;
   outs <- lift_self stack_outputs ;;
   let planes := map (fun t => grid_of t (res_h cfg) (res_w cfg)) outs in
   im <- lift_result (image_of_planes cfg planes) ;;
   modify_self (set_image (Some im)) ;;;
   if normalize_outputs cfg
   then
     im' <- lift_result (normalize_image ext cfg im) ;;
     modify_self (set_image (Some im')) ;;;
     ret im'
   else ret im)%monad.

(** ** Notions used to state the properties of layering *)

(** The connections whose target is not yet placed. *)
Definition pending (s : list Z) (cs : list (Z * Z)) : nat :=
  List.length (filter (fun ab => negb (mem (snd ab) s)) cs).

(** The sources of connections not yet visited by the backward closure. *)
Definition unvisited (s : list Z) (cs : list (Z * Z)) : nat :=
  List.length (filter (fun ab => negb (mem (fst ab) s)) cs).

(** [layering required cs s L]: [L] is the sequence of layers that
    [feed_forward_layers] emits from the frontier [s]. *)
Inductive layering (required : list Z) (cs : list (Z * Z))
  : list Z -> list (list Z) -> Prop :=
| layering_stop (s : list Z) :
    next_layer required cs s = [] -> layering required cs s []
| layering_step (s : list Z) (L : list (list Z)) :
    next_layer required cs s <> [] ->
    layering required cs (s ++ next_layer required cs s) L ->
    layering required cs s (next_layer required cs s :: L).

(** The layer that the writes [ws] leave in a node of id [k] whose layer
    was [old]. *)
Fixpoint final_layer (ws : list (Z * Z)) (k old : Z) : Z :=
  match ws with
  | [] => old
  | (k', v) :: rest => final_layer rest k (if k' =? k then v else old)
  end.

Definition apply_writes (ws : list (Z * Z)) (ns : list Node) : list Node :=
  map (fun n => set_layer (final_layer ws (id n) (layer n)) n) ns.

(** The writes that precede the first one naming a missing node. *)
Fixpoint served (ids : list Z) (ws : list (Z * Z)) : list (Z * Z) :=
  match ws with
  | [] => []
  | w :: rest => if mem (fst w) ids then w :: served ids rest else []
  end.

(** The layer of the node of id [k] *)
Definition layer_of (g : CPPN) (k : Z) : option Z :=
  option_map layer (find_node (node_genome g) k).

Definition ids_required (g : CPPN) : list Z :=
  let '(inputs, outputs, connections) := get_ids_from_individual g in
  required_for_output inputs outputs connections.

(** The state in which [update_node_layers] leaves the nodes. *)
Definition layered_nodes (g : CPPN) : list Node :=
  apply_writes
    (served (map id (node_genome g))
       (layer_writes 0 (feed_forward_layers g)))
    (reset_input_layers (node_genome g)).

(** A node id is placed when some emitted layer holds it. *)
Definition placed (g : CPPN) (k : Z) : Prop :=
  exists l, In l (feed_forward_layers g) /\ In k l.

(** ** Example genomes *)

Definition example_config : Config :=
  mkConfig (Some "cpu"%string) 0 false false "L"%string 1 0 (Some linear)
    [identity; linear] false false 1 3 (1 # 100) (1 # 2) (1 # 10) (1 # 2)
    (1 # 2) (1 # 2) (1 # 2) (1 # 2) (1 # 2) (1 # 2) 2 2 false.

Definition example_node (k : Z) (t : NodeType) (l : Z) : Node :=
  mkNode identity k t l None None.

Definition example_cx (a b : Z) (e : bool) : Connection :=
  mkConnection (a, b) 1 e false.

Definition example_genome (ns : list Node) (cs : list Connection) : CPPN :=
  mkCPPN example_config None ns cs false 0 1 (0, 0) 0 0 0 2 1.

(** A genome reached from the initial one (inputs -1 and -2, output -3) by
    splitting (-1,-3) into node 0, splitting (0,-3) into node 1, removing
    node 0, and splitting (-2,-3), (2,-3) and (3,-3) into nodes 2, 3
    and 4.  Node 1 has lost its only incoming connection, so the output is
    never placed again and keeps layer 3. *)
Definition stale_genome : CPPN :=
  example_genome
    [example_node (-1) INPUT 0; example_node (-2) INPUT 0;
     example_node (-3) OUTPUT 3; example_node 1 HIDDEN 2;
     example_node 2 HIDDEN 1; example_node 3 HIDDEN 2;
     example_node 4 HIDDEN 3]
    [example_cx (-1) (-3) false; example_cx (-2) (-3) false;
     example_cx 1 (-3) true; example_cx (-2) 2 true;
     example_cx 2 (-3) false; example_cx 2 3 true;
     example_cx 3 (-3) false; example_cx 3 4 true; example_cx 4 (-3) true].

(** ** Notions used to state the properties of [add_connection] *)

(** Each of the next [n] attempts draws a pair that is not connected and
    that the validity check rejects. *)
Fixpoint all_attempts_fail (n : nat) (g : CPPN) (gl : Globals) : Prop :=
  match n with
  | O => True
  | S n' =>
      exists a b gl1,
        random_choice2 (node_genome g) gl = (Ok (a, b), gl1) /\
        find_cx (connection_genome g) (id a, id b) = None /\
        is_valid_connection (node_genome g) (id a, id b) (config g)
        = Ok false /\
        all_attempts_fail n' g gl1
  end.

(** No pair of nodes that is not yet connected passes the validity
    check. *)
Definition no_valid_new_connection (g : CPPN) : Prop :=
  forall a b,
    In a (node_genome g) -> In b (node_genome g) ->
    find_cx (connection_genome g) (id a, id b) = None ->
    is_valid_connection (node_genome g) (id a, id b) (config g) <> Ok true.

(** What one call of [add_connection] may do to the connections of [g]:
    nothing, enable one disabled connection, or append one enabled
    connection under a key that was absent and passed the validity
    check. *)
Definition add_connection_outcome (g g' : CPPN) : Prop :=
  connection_genome g' = connection_genome g
  \/ (exists k c,
        find_cx (connection_genome g) k = Some c /\ enabled c = false /\
        connection_genome g' =
          update_cx k (set_enabled true) (connection_genome g))
  \/ (exists a b w,
        In a (node_genome g) /\ In b (node_genome g) /\
        find_cx (connection_genome g) (id a, id b) = None /\
        is_valid_connection (node_genome g) (id a, id b) (config g)
        = Ok true /\
        connection_genome g' =
          connection_genome g ++ [mkConnection (id a, id b) w true false]).

(** The genome after the two deletion loops of [remove_node], when ids are
    unique. *)
Definition without_node (k : Z) (g : CPPN) : CPPN :=
  set_node_genome (filter (fun n => negb (id n =? k)) (node_genome g))
    (set_connection_genome
       (filter (fun cx => negb (in_key k (key_ cx))) (connection_genome g))
       g).

Definition example_globals (picks : list nat) : Globals :=
  mkGlobals [] picks None 1 None.

(** The initial genome of two inputs and one output, fully connected,
    after a first layering. *)
Definition full_genome : CPPN :=
  example_genome
    [example_node (-1) INPUT 0; example_node (-2) INPUT 0;
     example_node (-3) OUTPUT 1]
    [example_cx (-1) (-3) true; example_cx (-2) (-3) true].

(** ** Notions used to state the properties of [crossover] *)

(** [c] carries the key of [c1] and, attribute by attribute, the value of
    [c1] or of the connection of the same key in [p2]; with no such
    connection, the values of [c1]. *)
Definition cx_inherited (p2 : list Connection) (c1 c : Connection) : Prop :=
  key_ c = key_ c1 /\
  match find_cx p2 (key_ c1) with
  | None => weight c = weight c1 /\ enabled c = enabled c1
  | Some c2 =>
      (weight c = weight c1 \/ weight c = weight c2) /\
      (enabled c = enabled c1 \/ enabled c = enabled c2)
  end.

Definition node_inherited (p2 : list Node) (n1 n : Node) : Prop :=
  id n = id n1 /\
  match find_node p2 (id n1) with
  | None => activation n = activation n1 /\ type n = type n1
  | Some n2 =>
      (activation n = activation n1 \/ activation n = activation n2) /\
      (type n = type n1 \/ type n = type n2)
  end.

(** ** Notions used to state the properties of [mutate] *)

Definition scores (g : CPPN) : Q * Q * Q :=
  (fitness g, adjusted_fitness g, novelty g).

(** [m] never assigns [fitness], [adjusted_fitness] or [novelty]. *)
Definition keeps_scores {A : Type} (m : M St A) : Prop :=
  forall st, scores (fst (snd (m st))) = scores (fst st).

(** The genome that the constructor builds in the scenario, up to its
    weights. *)
Definition scenario_nodes : list Node :=
  [mkNode identity (-1) INPUT 0 None None;
   mkNode identity (-2) INPUT 0 None None;
   mkNode linear (-3) OUTPUT 2 None None].

Definition scenario_connections (w0 w1 : Q) : list Connection :=
  [mkConnection (-1, -3) w0 true false; mkConnection (-2, -3) w1 true false].

(** ** Notions used to state the agreement of the two evaluation paths *)

(** The feature array that [initialize_inputs] computes *)
Definition grid_features (ext : Externals) (cfg : Config)
  : list (list (list Q)) :=
  map (fun y => map (fun x => features ext cfg y x) (linspace (res_w cfg)))
    (linspace (res_h cfg)).

(** A genome that both paths can evaluate: unique keys; connections join
    nodes of the genome; the input nodes are those of the configured
    features and no enabled connection ends at one; every output node is
    placed by the layering; and there are as many output nodes as the
    configuration and the colour mode announce. *)
Definition evaluable (g : CPPN) : Prop :=
  dict_ok g /\ endpoints_exist g /\
  n_inputs g =
    (2 + (if use_radial_distance (config g) then 1 else 0)
       + (if use_input_bias (config g) then 1 else 0))%nat /\
  (List.length (input_nodes g) <= n_inputs g)%nat /\
  (forall c n, In c (enabled_connections g) -> In n (input_nodes g) ->
               snd (key_ c) <> id n) /\
  (forall n, In n (output_nodes g) -> placed g (id n)) /\
  List.length (output_nodes g) = num_outputs (config g) /\
  List.length (output_nodes g) = n_outputs g /\
  (if Nat.ltb 2 (String.length (color_mode (config g)))
   then (1 <= n_outputs g)%nat else n_outputs g = 1%nat).

(** The class attribute [CPPN.pixel_inputs] is absent, or of another
    resolution, or holds the features of this configuration. *)
Definition cache_coherent (ext : Externals) (g : CPPN) (gl : Globals)
  : Prop :=
  match pixel_inputs gl with
  | None => True
  | Some p =>
      (Nat.eqb (fst (fst (pi_shape p))) (res_h (config g)) &&
       Nat.eqb (snd (fst (pi_shape p))) (res_w (config g))) = false
      \/ (snd (pi_shape p) = n_inputs g /\
          pi_data p = grid_features ext (config g))
  end.

(** What evaluation never writes in a node *)
Definition statics (ns : list Node) : list (Z * NodeType * Activation) :=
  map (fun n => (id n, type n, activation n)) ns.

Definition out_of (ns : list Node) (k : Z) : option tensor :=
  match find_node ns k with
  | Some n => outputs n
  | None => None
  end.

Definition sum_of (ns : list Node) (k : Z) : option tensor :=
  match find_node ns k with
  | Some n => sum_inputs n
  | None => None
  end.

Definition shape (h w : nat) (G : list (list Q)) : Prop :=
  List.length G = h /\ Forall (fun row => List.length row = w) G.

(** The entry of an array at row [r] and column [c] *)
Definition pixel (r c : nat) (G : list (list Q)) : Q :=
  nth c (nth r G []) 0%Q.

(** The entry of an image at row [r] and column [c] for the output node of
    index [k] *)
Definition image_value (im : image_t) (r c k : nat) : Q :=
  match im with
  | Img2 px => pixel r c px
  | Img3 px => nth k (nth c (nth r px []) []) 0%Q
  end.

(** The values of an image in the order in which the loop of the serial
    path collects them: first index outermost, output node innermost. *)
Definition image_values (g : CPPN) (im : image_t) : list tensor :=
  concat (concat
    (map (fun r =>
            map (fun c =>
                   map (fun k => Scalar (image_value im r c k))
                     (seq 0 (n_outputs g)))
              (seq 0 (res_h (config g))))
       (seq 0 (res_w (config g))))).

(** The parallel pass has evaluated the nodes [done]: each holds an output
    array of the image resolution. *)
Definition par_inv (g : CPPN) (done : list Z) (P : list Node) : Prop :=
  statics P = statics (node_genome g) /\
  forall k, In k done ->
    exists G, out_of P k = Some (Grid G) /\
              shape (res_h (config g)) (res_w (config g)) G.

(** The serial pass for the features [feats] agrees with the parallel pass
    at the pixel [(r, c)] on the nodes [done], and its input nodes hold
    their features. *)
Definition ser_rel (g : CPPN) (r c : nat) (feats : list Q) (done : list Z)
  (P S : list Node) : Prop :=
  statics S = statics (node_genome g) /\
  (forall k G, In k done -> out_of P k = Some (Grid G) ->
               out_of S k = Some (Scalar (pixel r c G))) /\
  (forall idx k, nth_error (map id (input_nodes g)) idx = Some k ->
                 sum_of S k = Some (Scalar (nth idx feats 0%Q))).

(** The node [snd entry] can be evaluated once the nodes [done] are. *)
Definition ready (g : CPPN) (done : list Z) (entry : nat * Z) : Prop :=
  In (snd entry) (map id (node_genome g)) /\
  (forall cx, In cx (enabled_connections g) ->
              snd (key_ cx) = snd entry -> In (fst (key_ cx)) done) /\
  (nth_error (map id (input_nodes g)) (fst entry) = Some (snd entry) \/
   ~ In (snd entry) (map id (input_nodes g))).

(** [full_genome] under a configuration that normalizes the outputs *)
Definition normalizing_genome : CPPN :=
  mkCPPN
    (mkConfig (Some "cpu"%string) 0 false false "L"%string 1 0 (Some linear)
       [identity; linear] false false 1 3 (1 # 100) (1 # 2) (1 # 10) (1 # 2)
       (1 # 2) (1 # 2) (1 # 2) (1 # 2) (1 # 2) (1 # 2) 2 2 true)
    None (node_genome full_genome) (connection_genome full_genome)
    false 0 1 (0, 0) 0 0 0 2 1.

(** The nodes of [full_genome] with the weights 1 and 2, under a
    resolution of one row and two columns *)
Definition wide_genome : CPPN :=
  mkCPPN
    (mkConfig (Some "cpu"%string) 0 false false "L"%string 1 0 (Some linear)
       [identity; linear] false false 1 3 (1 # 100) (1 # 2) (1 # 10) (1 # 2)
       (1 # 2) (1 # 2) (1 # 2) (1 # 2) (1 # 2) (1 # 2) 1 2 false)
    None (node_genome full_genome)
    [mkConnection (-1, -3) 1 true false; mkConnection (-2, -3) 2 true false]
    false 0 1 (0, 0) 0 0 0 2 1.

(** ** Notions used to state the properties of the graph utilities *)

(** [a] reaches [b] along connections of [cs]. *)
Inductive feeds (cs : list (Z * Z)) : Z -> Z -> Prop :=
| feeds_here (a : Z) : feeds cs a a
| feeds_step (a b c : Z) : In (a, b) cs -> feeds cs b c -> feeds cs a c.

(** [species_comparision] (cppn.py, 953-955) *)
Definition species_comparision (self other : CPPN) (threshold : Q) : bool :=
  Qltb (genetic_difference self other) threshold.

(** What the loop of [required_for_output] keeps true of [required] and
    of the visited set [s]. *)
Definition required_inv (inputs outputs : list Z) (cs : list (Z * Z))
  (required s : list Z) : Prop :=
  incl required s /\
  (forall x, In x s -> ~ In x inputs -> In x required) /\
  (forall x, In x s -> exists o, In o outputs /\ feeds cs x o) /\
  (forall o, In o outputs -> In o required) /\
  (forall x, In x required -> In x outputs \/ ~ In x inputs) /\
  NoDup required.

(** The strict order of Python tuples *)
Definition key_lt (a b : Z * Z) : Prop := key_ltb a b = true.

(** ** Notions used to state what the mutation operators keep *)

(** Total correctness of a method: from a state of [P] it returns, in a
    state of [Q]. *)
Definition hoare {S A : Type} (P : S -> Prop) (m : M S A)
  (Q : A -> S -> Prop) : Prop :=
  forall s, P s -> exists a s', m s = (Ok a, s') /\ Q a s'.

(** The class attributes that no random draw touches. *)
Definition same_class (gl gl' : Globals) : Prop :=
  node_indexer gl' = node_indexer gl /\
  current_id gl' = current_id gl /\
  pixel_inputs gl' = pixel_inputs gl.

(** The class-wide node indexer, once started, is above every node id of
    the genome. *)
Definition indexer_fresh (st : St) : Prop :=
  match node_indexer (snd st) with
  | Some c => forall k, In k (map id (node_genome (fst st))) -> k < c
  | None => True
  end.

(** A genome that the mutation operators can work on: unique keys,
    connections between its own nodes, at least two nodes that are not
    hidden, a non-empty catalogue of activations, and node ids below the
    indexer. *)
Definition well_formed (st : St) : Prop :=
  dict_ok (fst st) /\ endpoints_exist (fst st) /\ indexer_fresh st /\
  (2 <= List.length (input_nodes (fst st))
        + List.length (output_nodes (fst st)))%nat /\
  activations (config (fst st)) <> [].

Definition set_indexer (c : option Z) (gl : Globals) : Globals :=
  mkGlobals (rand_tape gl) (pick_tape gl) c (current_id gl) (pixel_inputs gl).

(** The genome in which the connection [old] is split by a new hidden node
    [c] of activation [fn], before the layers are updated. *)
Definition with_split (old : Connection) (c : Z) (fn : Activation)
  (g : CPPN) : CPPN :=
  set_connection_genome
    (update_cx (key_ old) (set_enabled false) (connection_genome g)
     ++ [mkConnection (fst (key_ old), c) 1 true false;
         mkConnection (c, snd (key_ old)) (weight old) true false])
    (set_node_genome
       (node_genome g ++ [mkNode fn c HIDDEN 999 None None]) g).

(** The id and the type of every node, in dictionary order *)
Definition node_kinds (ns : list Node) : list (Z * NodeType) :=
  map (fun n => (id n, type n)) ns.

(** [P] does not look at the random tapes. *)
Definition class_stable (P : St -> Prop) : Prop :=
  forall g gl gl', P (g, gl) -> same_class gl gl' -> P (g, gl').

(** The states on which [mutate] works for the configuration [cfg]. *)
Definition mutable_state (cfg : Config) (st : St) : Prop :=
  well_formed st /\ config (fst st) = cfg.

(** What the weight mutations never write in a connection *)
Definition cx_frame (c : Connection) : Z * Z * bool * bool :=
  (key_ c, enabled c, is_recurrent c).

(** The weight that [clamp_weights] leaves in place of [w] *)
Definition clamped (cfg : Config) (w : Q) : Q :=
  clamp (if Qltb w (weight_threshold cfg) && Qltb (- weight_threshold cfg) w
         then 0%Q else w)
    (- max_weight cfg) (max_weight cfg).

(** The nodes whose activation [mutate_activations] may replace *)
Definition mutable_node (g : CPPN) (n : Node) : Prop :=
  match type n with
  | HIDDEN => True
  | OUTPUT => output_activation (config g) = None
  | INPUT => allow_input_activation_mutation (config g) = true
  end.

(** [n'] is [n], or [n] with an activation of the catalogue in case [n]
    is open to mutation. *)
Definition activation_mutated (g : CPPN) (n n' : Node) : Prop :=
  n' = n \/
  (mutable_node g n /\
   exists fn, In fn (activations (config g)) /\ n' = set_activation fn n).

(** What the loop of [mutate_weights] keeps of the genome [g0] it started
    from: everything but the weights. *)
Definition weights_only (g0 : CPPN) (gl0 : Globals) (st : St) : Prop :=
  map cx_frame (connection_genome (fst st))
  = map cx_frame (connection_genome g0) /\
  fst st = set_connection_genome (connection_genome (fst st)) g0 /\
  same_class gl0 (snd st).

(** What the loop of [mutate_activations] keeps of the genome [g0] it
    started from: everything but the activations of the nodes open to
    mutation. *)
Definition activations_only (g0 : CPPN) (gl0 : Globals) (st : St) : Prop :=
  Forall2 (activation_mutated g0) (node_genome g0) (node_genome (fst st)) /\
  fst st = set_node_genome (node_genome (fst st)) g0 /\
  same_class gl0 (snd st).

(** ** Notions used to state the properties of the constructor *)

(** The node list while [initialize_node_genome] runs: the [n_in] input
    nodes, then the output nodes made so far, for the indices from [n_in]
    on, then the hidden nodes made so far. *)
Definition nodes_so_far (n_in : nat) (out_idx : list nat) (n_hid : nat)
  (ns : list Node) : Prop :=
  exists outs hid,
    ns = map (fun idx => mkNode identity (- (1 + Z.of_nat idx)) INPUT 0
                           None None) (seq 0 n_in)
         ++ outs ++ hid /\
    Forall2 (fun idx n => id n = - (1 + Z.of_nat idx) /\ type n = OUTPUT /\
                          layer n = 2)
      out_idx outs /\
    List.length hid = n_hid /\
    Forall (fun n => type n = HIDDEN /\ layer n = 1 /\ 0 <= id n) hid /\
    NoDup (map id hid).

(** The first record of [CPPN.__init__], before the genomes are filled *)
Definition blank_genome (cfg : Config) (cid : Z) : CPPN :=
  mkCPPN cfg None [] [] false 0 cid (0, 0) 0 0 0
    (2 + (if use_radial_distance cfg then 1 else 0)
       + (if use_input_bias cfg then 1 else 0))%nat
    (String.length (color_mode cfg)).

(** The state while the node genome is built from [g0]: only the node
    list and the random tapes have changed. *)
Definition building_nodes (g0 : CPPN) (gl0 : Globals) (out_idx : list nat)
  (n_hid : nat) (st : St) : Prop :=
  nodes_so_far (n_inputs g0) out_idx n_hid (node_genome (fst st)) /\
  fst st = set_node_genome (node_genome (fst st)) g0 /\
  current_id (snd st) = current_id gl0 /\
  pixel_inputs (snd st) = pixel_inputs gl0 /\
  indexer_fresh st /\
  (forall c, node_indexer (snd st) = Some c -> 0 <= c).

(** The state while the connection genome is built over the nodes of
    [g1]: the keys are those of the pairs connected so far. *)
Definition building_connections (g1 : CPPN) (gl1 : Globals)
  (pairs : list (Node * Node)) (st : St) : Prop :=
  fst st = set_connection_genome (connection_genome (fst st)) g1 /\
  NoDup (map key_ (connection_genome (fst st))) /\
  (forall k, In k (map key_ (connection_genome (fst st))) <->
             In k (map (fun pr => (id (fst pr), id (snd pr))) pairs)) /\
  same_class gl1 (snd st).


(** A configuration whose colour mode names no channel, with two hidden
    nodes at the start *)
Definition colourless_config : Config :=
  mkConfig (Some "cpu"%string) 0 false false EmptyString 1 2 (Some linear)
    [identity; linear] false false 1 3 (1 # 100) (1 # 2) (1 # 10) (1 # 2)
    (1 # 2) (1 # 2) (1 # 2) (1 # 2) (1 # 2) (1 # 2) 2 2 false.

(** ** Notions used to state the properties of [normalize_image] *)

(** The values of an image, in row-major order *)
Definition pixel_values (im : image_t) : list Q :=
  match im with
  | Img2 px => concat px
  | Img3 px => concat (concat px)
  end.

(** ** Notions used to state the properties of evaluation *)

(** The nodes without the activations that evaluation writes *)
Definition at_rest (ns : list Node) : list Node :=
  map (set_state None None) ns.

(** ** [get_image] (cppn.py, 757-794) *)

Definition set_config (cfg : Config) (g : CPPN) : CPPN :=
  mkCPPN cfg (image g) (node_genome g) (connection_genome g) (selected g)
    (species_id g) (cppn_id g) (parents g) (fitness g) (novelty g)
    (adjusted_fitness g) (n_inputs g) (n_outputs g).

(** [config.res_h = h; config.res_w = w] *)
Definition set_res (h w : nat) (cfg : Config) : Config :=
  mkConfig (device cfg) (seed cfg) (use_radial_distance cfg)
    (use_input_bias cfg) (color_mode cfg) (num_outputs cfg)
    (hidden_nodes_at_start cfg) (output_activation cfg) (activations cfg)
    (allow_recurrent cfg) (allow_input_activation_mutation cfg)
    (init_connection_probability cfg) (max_weight cfg)
    (weight_threshold cfg) (weight_mutation_max cfg)
    (prob_weight_reinit cfg) (prob_reenable_connection cfg)
    (prob_add_node cfg) (prob_add_connection cfg) (prob_remove_node cfg)
    (prob_disable_connection cfg) (prob_mutate_weight cfg)
    (prob_mutate_activation cfg) h w (normalize_outputs cfg).

(** The configuration after the size overrides of [get_image] *)
Definition overridden (override_h override_w : option nat) (cfg : Config)
  : Config :=
  set_res (match override_h with Some h => h | None => res_h cfg end)
    (match override_w with Some w => w | None => res_w cfg end) cfg.

(** [image.shape[0]] and [image.shape[1]]; the second is read off the
    first row. *)
Definition image_shape (im : image_t) : nat * nat :=
  match im with
  | Img2 px => (List.length px, List.length (nth 0 px []))
  | Img3 px => (List.length px, List.length (nth 0 px []))
  end.

(** The evaluation that [get_image] runs when it recalculates *)
Definition recalculated (ext : Externals) : M St image_t :=
  (g <- get_self ;;
   im <- (if allow_recurrent (config g)
          then lift_self (get_image_data_serial ext)
          else get_image_data_parallel ext) ;;
   modify_self (set_image (Some im)) ;;;
   ret im)%monad.

(** [get_image]; [dry_run] is the flag of that name of the configuration,
    under which the image is drawn from the random generator. *)
Definition get_image (ext : Externals) (dry_run force_recalculate : bool)
  (override_h override_w : option nat) : M St image_t :=
  (modify_self (fun g =>
     set_config (overridden override_h override_w (config g)) g) ;;;
   g <- get_self ;;
   let cfg := config g in
   if dry_run
   then
     px <- lift_glob
             (map_m (fun _ =>
                map_m (fun _ =>
                  map_m (fun _ => torch_rand)
                    (seq 0 (String.length (color_mode cfg))))
                  (seq 0 (res_w cfg)))
                (seq 0 (res_h cfg))) ;;
     modify_self (set_image (Some (Img3 px))) ;;;
     ret (Img3 px)
   else
     match image g with
     | Some im =>
         let recalculate :=
           force_recalculate
           || Nat.eqb (res_h cfg) (fst (image_shape im))
           || Nat.eqb (res_w cfg) (snd (image_shape im)) in
         if recalculate then recalculated ext else ret im
     | None => recalculated ext
     end)%monad.

(** ** The evolutionary loop (evolutionary_algorithm.py) *)

(** The fields of the configuration that only the loop reads *)
Record Schedule : Type := mkSchedule {
  use_dynamic_mutation_rates : bool;
  num_generations : Z;
  dynamic_mutation_rate_end_modifier : Q
}.

(** The outcome of arithmetic on Python numbers *)
Inductive arith (A : Type) : Type :=
| Value (a : A)
| ZeroDivisionError.

Arguments Value {A} a.
Arguments ZeroDivisionError {A}.

(** [p - (p - end_mod * p) * run_progress], in exact arithmetic as all
    numbers here; the source computes it in binary floating point, whose
    rounding is monotone and exact at 0, so it keeps the order of a result
    with 0 and with [p] but not its order with [end_mod * p]. *)
Definition scheduled (end_mod run_progress p : Q) : Q :=
  (p - (p - end_mod * p) * run_progress)%Q.

(** [get_mutation_rates] (evolutionary_algorithm.py, 50-78) in generation
    [gen] *)
Definition get_mutation_rates (cfg : Config) (sch : Schedule) (gen : Z)
  : arith Rates :=
  if use_dynamic_mutation_rates sch
  then
    if num_generations sch =? 0 then ZeroDivisionError
    else
      let run_progress := (inject_Z gen / inject_Z (num_generations sch))%Q in
      let end_mod := dynamic_mutation_rate_end_modifier sch in
      Value
        (mkRates
           (scheduled end_mod run_progress (prob_mutate_activation cfg))
           (scheduled end_mod run_progress (prob_mutate_weight cfg))
           (scheduled end_mod run_progress (prob_add_connection cfg))
           (scheduled end_mod run_progress (prob_add_node cfg))
           (scheduled end_mod run_progress (prob_remove_node cfg))
           (scheduled end_mod run_progress (prob_disable_connection cfg))
           (scheduled end_mod run_progress (weight_mutation_max cfg))
           (scheduled end_mod run_progress (prob_reenable_connection cfg)))
  else Value (config_rates cfg).

(** The rates as the tuple that [get_mutation_rates] returns *)
Definition rates_list (rs : Rates) : list Q :=
  [r_mutate_activations rs; r_mutate_weights rs; r_add_connection rs;
   r_add_node rs; r_remove_node rs; r_disable_connection rs;
   r_weight_mutation_max rs; r_prob_reenable_connection rs].

(** [sorted(solution_archive, reverse=True, key=lambda s: s.novelty)]:
    the most novel first, equally novel ones in their former order. *)
Fixpoint insert_by_novelty (x : CPPN) (l : list CPPN) : list CPPN :=
  match l with
  | [] => [x]
  | d :: rest =>
      if Qltb (novelty x) (novelty d) then d :: insert_by_novelty x rest
      else x :: l
  end.

Definition sorted_by_novelty (l : list CPPN) : list CPPN :=
  fold_right insert_by_novelty [] l.

(** [update_solution_archive] (evolutionary_algorithm.py, 194-204) *)
Definition update_solution_archive (solution_archive : list CPPN)
  (genome : CPPN) (max_archive_length novelty_k : Z) : result (list CPPN) :=
  let solution_archive := sorted_by_novelty solution_archive in
  if max_archive_length <=? Z.of_nat (List.length solution_archive)
  then
    match rev solution_archive with
    | [] => Raise IndexError
    | least :: _ =>
        if Qltb (novelty least) (novelty genome)
        then Ok (removelast solution_archive ++ [genome])
        else Ok solution_archive
    end
  else Ok (solution_archive ++ [genome]).

(** [get_best] (evolutionary_algorithm.py, 241-245): [max] keeps the first
    of the fittest. *)
Definition get_best (population : list CPPN) : option CPPN :=
  match population with
  | [] => None
  | x :: rest =>
      Some (fold_left (fun best y =>
                         if Qltb (fitness best) (fitness y) then y else best)
              rest x)
  end.

(** ** [clone] (cppn.py, 1021-1043) *)

(** [set_id] (cppn.py, 309-310) *)
Definition set_id (i : Z) (g : CPPN) : CPPN :=
  mkCPPN (config g) (image g) (node_genome g) (connection_genome g)
    (selected g) (species_id g) i (parents g) (fitness g) (novelty g)
    (adjusted_fitness g) (n_inputs g) (n_outputs g).

(** [clone(deepcopy, cpu, new_id)]; the flag [cpu] moves the tensors to
    another device and changes no value. *)
Definition clone (self : CPPN) (deepcopy new_id : bool) : M Globals CPPN :=
  (i <- (if new_id then get_id else ret (cppn_id self)) ;;
   if deepcopy then ret (set_id i self)
   else
     child <- CPPN_init (config self) (Some []) (Some []) ;;
     let child :=
       set_node_genome (map Node_copy (node_genome self))
         (set_connection_genome
            (map Connection_copy (connection_genome self)) child) in
     match update_node_layers child with
     | (Ok _, child') => ret (set_id i child')
     | (Raise e, _) => raise e
     end)%monad.

(** ** [get_layers] (cppn.py, 695-702) *)

(** [layers[k].append(node)], with [layers[k] = []] first for a new [k] *)
Fixpoint append_to_layer (k : Z) (node : Node)
  (layers : list (Z * list Node)) : list (Z * list Node) :=
  match layers with
  | [] => [(k, [node])]
  | (k', ns) :: rest =>
      if k' =? k then (k', ns ++ [node]) :: rest
      else (k', ns) :: append_to_layer k node rest
  end.

Definition get_layers (g : CPPN) : list (Z * list Node) :=
  fold_left (fun layers node => append_to_layer (layer node) node layers)
    (node_genome g) [].

(** ** Notions used to state which nodes the layering places *)

(** The nodes that the forward layering reaches: no input node, required
    for an output, with an incoming connection, and every incoming
    connection leaves an input node or a node that is reached in turn. *)
Inductive grounded (g : CPPN) : Z -> Prop :=
| grounded_node (k : Z) :
    ~ In k (map id (input_nodes g)) ->
    In k (ids_required g) ->
    (exists a, In (a, k) (map key_ (connection_genome g))) ->
    (forall a, In (a, k) (map key_ (connection_genome g)) ->
       ~ In a (map id (input_nodes g)) -> grounded g a) ->
    grounded g k.

(** The first [n] attempts of [add_connection] from the generator [gl]
    draw pairs that are not connected and that the validity check rejects,
    and leave the generator [gl']. *)
Fixpoint attempts_fail_to (n : nat) (g : CPPN) (gl gl' : Globals) : Prop :=
  match n with
  | O => gl' = gl
  | S n' =>
      exists a b gl1,
        random_choice2 (node_genome g) gl = (Ok (a, b), gl1) /\
        find_cx (connection_genome g) (id a, id b) = None /\
        is_valid_connection (node_genome g) (id a, id b) (config g)
        = Ok false /\
        attempts_fail_to n' g gl1 gl'
  end.

(** A genome of three inputs and one output, fully connected with weights
    1, whose third input is the radial distance or the bias, at a
    resolution of 2 by 2. *)
Definition three_input_genome (radial bias : bool) : CPPN :=
  mkCPPN
    (mkConfig (Some "cpu"%string) 0 radial bias "L"%string 1 0 (Some linear)
       [identity; linear] false false 1 3 (1 # 100) (1 # 2) (1 # 10) (1 # 2)
       (1 # 2) (1 # 2) (1 # 2) (1 # 2) (1 # 2) (1 # 2) 2 2 false)
    None
    [example_node (-1) INPUT 0; example_node (-2) INPUT 0;
     example_node (-3) INPUT 0; example_node (-4) OUTPUT 1]
    [example_cx (-1) (-4) true; example_cx (-2) (-4) true;
     example_cx (-3) (-4) true]
    false 0 1 (0, 0) 0 0 0 3 1.

(** * Properties *)

(** ** Keys and sets *)

Lemma key_eqb_eq (k1 k2 : Z * Z) : key_eqb k1 k2 = true <-> k1 = k2.
Proof.
  destruct k1 as [a b], k2 as [c d]; unfold key_eqb; simpl.
  rewrite andb_true_iff, !Z.eqb_eq. split.
  - intros [-> ->]; reflexivity.
  - intros E; injection E; auto.
Qed.

Lemma key_eqb_refl (k : Z * Z) : key_eqb k k = true.
Proof. apply key_eqb_eq; reflexivity. Qed.

Lemma mem_In (x : Z) (s : list Z) : mem x s = true <-> In x s.
Proof.
  unfold mem. rewrite existsb_exists. split.
  - intros [y [Hy E]]. apply Z.eqb_eq in E. subst; assumption.
  - intros H. exists x. split; [assumption | apply Z.eqb_refl].
Qed.

Lemma mem_app (x : Z) (s t : list Z) : mem x (s ++ t) = mem x s || mem x t.
Proof. unfold mem. apply existsb_app. Qed.



(** ** Termination of the two loops *)

Lemma filter_length_le {A : Type} (p q : A -> bool) (l : list A) :
  (forall x, In x l -> q x = true -> p x = true) ->
  (List.length (filter q l) <= List.length (filter p l))%nat.
Proof.
  induction l as [|a l IH]; intros H; simpl; [lia|].
  assert (IH' := IH (fun x Hx => H x (or_intror Hx))).
  destruct (q a) eqn:Eq.
  - rewrite (H a (or_introl eq_refl) Eq). simpl. lia.
  - destruct (p a); simpl; lia.
Qed.

Lemma filter_length_lt {A : Type} (p q : A -> bool) (l : list A) (x : A) :
  (forall y, In y l -> q y = true -> p y = true) ->
  In x l -> p x = true -> q x = false ->
  (List.length (filter q l) < List.length (filter p l))%nat.
Proof.
  induction l as [|a l IH]; intros H Hin Hp Hq; [contradiction|].
  simpl. destruct Hin as [->|Hin].
  - rewrite Hp, Hq. simpl.
    assert (Hle := filter_length_le p q l (fun y Hy => H y (or_intror Hy))).
    lia.
  - assert (IH' := IH (fun y Hy => H y (or_intror Hy)) Hin Hp Hq).
    destruct (q a) eqn:Eq.
    + rewrite (H a (or_introl eq_refl) Eq). simpl. lia.
    + destruct (p a); simpl; lia.
Qed.

Lemma to_set_In (x : Z) (l : list Z) : In x (to_set l) <-> In x l.
Proof. apply nodup_In. Qed.

Lemma not_mem_In (x : Z) (s : list Z) : mem x s = false <-> ~ In x s.
Proof.
  rewrite <- mem_In. destruct (mem x s); split; congruence.
Qed.

(** What membership in the next layer means. *)
Lemma next_layer_In (required : list Z) (cs : list (Z * Z)) (s : list Z)
  (n : Z) :
  In n (next_layer required cs s) <->
  In n required /\ ~ In n s /\
  (exists a, In (a, n) cs /\ In a s) /\
  (forall a, In (a, n) cs -> In a s).
Proof.
  unfold next_layer, get_candidate_nodes.
  rewrite filter_In, to_set_In, in_map_iff, andb_true_iff, mem_In,
    forallb_forall.
  split.
  - intros [[[a b] [E Hab]] [Hreq Hall]]. simpl in E. subst b.
    apply filter_In in Hab. destruct Hab as [Hab Hc].
    apply andb_true_iff in Hc. destruct Hc as [Ha Hn]. simpl in Ha, Hn.
    apply mem_In in Ha. apply negb_true_iff, not_mem_In in Hn.
    repeat split; auto.
    + exists a; auto.
    + intros a' Ha'. apply mem_In.
      apply (Hall (a', n)). apply filter_In. split; [assumption|].
      simpl. apply Z.eqb_refl.
  - intros [Hreq [Hn [[a [Hab Ha]] Hall]]]. repeat split; auto.
    + exists (a, n). split; [reflexivity|].
      apply filter_In. split; [assumption|]. simpl.
      apply andb_true_iff. split; [apply mem_In; assumption|].
      apply negb_true_iff, not_mem_In; assumption.
    + intros [a' b'] Hf. apply filter_In in Hf. destruct Hf as [Hf E].
      simpl in E. apply Z.eqb_eq in E. subst b'. simpl.
      apply mem_In. apply Hall. assumption.
Qed.



Lemma pending_le (cs : list (Z * Z)) (s : list Z) :
  (pending s cs <= List.length cs)%nat.
Proof.
  unfold pending. induction cs as [|c cs IH]; simpl; [lia|].
  destruct (negb _); simpl; lia.
Qed.

Lemma unvisited_le (cs : list (Z * Z)) (s : list Z) :
  (unvisited s cs <= List.length cs)%nat.
Proof.
  unfold unvisited. induction cs as [|c cs IH]; simpl; [lia|].
  destruct (negb _); simpl; lia.
Qed.

Lemma pending_decreases (required : list Z) (cs : list (Z * Z)) (s : list Z)
  (n : Z) :
  In n (next_layer required cs s) ->
  (pending (s ++ next_layer required cs s) cs < pending s cs)%nat.
Proof.
  intros Hn. assert (Hn' := Hn).
  apply next_layer_In in Hn'.
  destruct Hn' as [_ [Hs [[a [Hab _]] _]]].
  unfold pending. apply filter_length_lt with (x := (a, n)).
  - intros [a' b'] _. simpl. rewrite mem_app, negb_orb, andb_true_iff.
    tauto.
  - assumption.
  - simpl. apply negb_true_iff, not_mem_In. assumption.
  - simpl. apply negb_false_iff. apply mem_In, in_or_app. right. assumption.
Qed.

Lemma layers_loop_terminates (fuel : nat) :
  forall required cs s acc,
    (pending s cs < fuel)%nat ->
    exists L, layers_loop fuel required cs s acc = Some L.
Proof.
  induction fuel as [|fuel IH]; intros required cs s acc Hlt; [lia|].
  simpl. destruct (next_layer required cs s) as [|n t] eqn:E.
  - eexists; reflexivity.
  - apply IH. rewrite <- E.
    assert (Hd : In n (next_layer required cs s))
      by (rewrite E; left; reflexivity).
    apply pending_decreases in Hd. lia.
Qed.

Lemma layers_loop_more_fuel (fuel : nat) :
  forall required cs s acc L k,
    layers_loop fuel required cs s acc = Some L ->
    layers_loop (fuel + k) required cs s acc = Some L.
Proof.
  induction fuel as [|fuel IH]; intros required cs s acc L k H;
    [discriminate|].
  simpl in *. destruct (next_layer required cs s); [assumption|].
  apply IH. assumption.
Qed.


Lemma consumed_by_In (s : list Z) (cs : list (Z * Z)) (a : Z) :
  In a (consumed_by s cs) <->
  ~ In a s /\ exists b, In (a, b) cs /\ In b s.
Proof.
  unfold consumed_by. rewrite to_set_In, in_map_iff. split.
  - intros [[a' b] [E H]]. simpl in E. subst a'.
    apply filter_In in H. destruct H as [H Hc].
    apply andb_true_iff in Hc. simpl in Hc. destruct Hc as [Hb Ha].
    apply mem_In in Hb. apply negb_true_iff, not_mem_In in Ha.
    split; [assumption|]. exists b; auto.
  - intros [Ha [b [Hab Hb]]]. exists (a, b). split; [reflexivity|].
    apply filter_In. split; [assumption|]. simpl.
    apply andb_true_iff. split; [apply mem_In; assumption|].
    apply negb_true_iff, not_mem_In; assumption.
Qed.

Lemma unvisited_decreases (cs : list (Z * Z)) (s : list Z) (a : Z) :
  In a (consumed_by s cs) ->
  (unvisited (s ++ consumed_by s cs) cs < unvisited s cs)%nat.
Proof.
  intros Ha. assert (Ha' := Ha). apply consumed_by_In in Ha'.
  destruct Ha' as [Hs [b [Hab _]]].
  unfold unvisited. apply filter_length_lt with (x := (a, b)).
  - intros [a' b'] _. simpl. rewrite mem_app, negb_orb, andb_true_iff.
    tauto.
  - assumption.
  - simpl. apply negb_true_iff, not_mem_In. assumption.
  - simpl. apply negb_false_iff. apply mem_In, in_or_app. right. assumption.
Qed.

Lemma required_loop_terminates (fuel : nat) :
  forall inputs cs required s,
    (unvisited s cs < fuel)%nat ->
    exists r, required_loop fuel inputs cs required s = Some r.
Proof.
  induction fuel as [|fuel IH]; intros inputs cs required s Hlt; [lia|].
  simpl. destruct (consumed_by s cs) as [|a t] eqn:E.
  - eexists; reflexivity.
  - destruct (filter (fun x => negb (mem x inputs)) (a :: t)) eqn:F.
    + eexists; reflexivity.
    + apply IH. rewrite <- E.
      assert (Hd : In a (consumed_by s cs))
        by (rewrite E; left; reflexivity).
      apply unvisited_decreases in Hd. lia.
Qed.

Lemma required_loop_more_fuel (fuel : nat) :
  forall inputs cs required s r k,
    required_loop fuel inputs cs required s = Some r ->
    required_loop (fuel + k) inputs cs required s = Some r.
Proof.
  induction fuel as [|fuel IH]; intros inputs cs required s r k H;
    [discriminate|].
  simpl in *. destruct (consumed_by s cs); [assumption|].
  destruct (filter _ _); [assumption|].
  apply IH. assumption.
Qed.

(** ** The layers emitted by [feed_forward_layers] *)

Lemma layers_loop_layering (fuel : nat) :
  forall required cs s acc L,
    layers_loop fuel required cs s acc = Some L ->
    exists L', L = acc ++ L' /\ layering required cs s L'.
Proof.
  induction fuel as [|fuel IH]; intros required cs s acc L H;
    [discriminate|].
  simpl in H. destruct (next_layer required cs s) as [|n t] eqn:E.
  - injection H as <-. exists []. rewrite app_nil_r.
    split; [reflexivity | constructor; assumption].
  - apply IH in H. destruct H as [L' [-> HL]].
    exists ((n :: t) :: L'). rewrite <- app_assoc. split; [reflexivity|].
    rewrite <- E in *. constructor; [rewrite E; discriminate | assumption].
Qed.

Lemma feed_forward_layers_fuel (g : CPPN) (fuel : nat) :
  (List.length (connection_genome g) < fuel)%nat ->
  layers_loop fuel (ids_required g) (map key_ (connection_genome g))
    (to_set (map id (input_nodes g))) [] = Some (feed_forward_layers g).
Proof.
  intros Hf. unfold feed_forward_layers, ids_required, get_ids_from_individual.
  set (cs := map key_ (connection_genome g)).
  set (req := required_for_output _ _ _).
  set (s := to_set _).
  assert (Hp : (pending s cs < S (List.length cs))%nat)
    by (assert (H := pending_le cs s); lia).
  destruct (layers_loop_terminates _ req cs s [] Hp) as [L HL].
  rewrite HL.
  replace fuel with (S (List.length cs) + (fuel - S (List.length cs)))%nat.
  - apply layers_loop_more_fuel. assumption.
  - unfold cs. rewrite length_map. lia.
Qed.

Lemma feed_forward_layers_layering (g : CPPN) :
  layering (ids_required g) (map key_ (connection_genome g))
    (to_set (map id (input_nodes g))) (feed_forward_layers g).
Proof.
  assert (H := feed_forward_layers_fuel g (S (List.length (connection_genome g)))
                 (Nat.lt_succ_diag_r _)).
  apply layers_loop_layering in H. destruct H as [L' [E HL]].
  simpl in E. subst L'. assumption.
Qed.

Lemma layering_fresh (required : list Z) (cs : list (Z * Z)) (s : list Z)
  (L : list (list Z)) :
  layering required cs s L ->
  forall l n, In l L -> In n l -> ~ In n s.
Proof.
  induction 1 as [s E | s L Hne HL IH]; intros l n Hl Hn; [contradiction|].
  destruct Hl as [<-|Hl].
  - apply next_layer_In in Hn. tauto.
  - intros Hs. apply (IH l n Hl Hn). apply in_or_app. left. assumption.
Qed.

(** A node is placed in one layer only. *)
Lemma layering_disjoint (required : list Z) (cs : list (Z * Z)) (s : list Z)
  (L : list (list Z)) :
  layering required cs s L ->
  forall j k l l' n,
    nth_error L j = Some l -> nth_error L k = Some l' ->
    In n l -> In n l' -> j = k.
Proof.
  induction 1 as [s E | s L Hne HL IH]; intros j k l l' n Hj Hk Hl Hl'.
  - destruct j; discriminate.
  - destruct j as [|j], k as [|k]; simpl in Hj, Hk.
    + reflexivity.
    + injection Hj as <-. exfalso.
      apply (layering_fresh _ _ _ _ HL l' n (nth_error_In _ _ Hk) Hl').
      apply in_or_app. right. assumption.
    + injection Hk as <-. exfalso.
      apply (layering_fresh _ _ _ _ HL l n (nth_error_In _ _ Hj) Hl).
      apply in_or_app. right. assumption.
    + f_equal. eapply IH; eauto.
Qed.

(** Every connection into a placed node leaves the frontier or an earlier
    layer. *)
Lemma layering_sources (required : list Z) (cs : list (Z * Z)) (s : list Z)
  (L : list (list Z)) :
  layering required cs s L ->
  forall k l n a,
    nth_error L k = Some l -> In n l -> In (a, n) cs ->
    In a s \/
    exists j l', (j < k)%nat /\ nth_error L j = Some l' /\ In a l'.
Proof.
  induction 1 as [s E | s L Hne HL IH]; intros k l n a Hk Hn Ha.
  - destruct k; discriminate.
  - destruct k as [|k]; simpl in Hk.
    + injection Hk as <-. apply next_layer_In in Hn.
      left. apply Hn. assumption.
    + destruct (IH k l n a Hk Hn Ha) as [Hs | [j [l' [Hj [Hl' Hal']]]]].
      * apply in_app_or in Hs. destruct Hs as [Hs|Hs]; [left; assumption|].
        right. exists O, (next_layer required cs s).
        split; [lia|]. split; [reflexivity | assumption].
      * right. exists (S j), l'. split; [lia|]. split; assumption.
Qed.

(** ** The writes of [update_node_layers] *)

Lemma final_layer_app (ws1 ws2 : list (Z * Z)) (k old : Z) :
  final_layer (ws1 ++ ws2) k old = final_layer ws2 k (final_layer ws1 k old).
Proof.
  revert old. induction ws1 as [|[k' v] ws1 IH]; intros old; simpl;
    [reflexivity | apply IH].
Qed.

Lemma final_layer_untouched (ws : list (Z * Z)) (k old : Z) :
  ~ In k (map fst ws) -> final_layer ws k old = old.
Proof.
  revert old. induction ws as [|[k' v] ws IH]; intros old H; simpl;
    [reflexivity|].
  simpl in H. destruct (Z.eqb_spec k' k) as [E|E]; [tauto|].
  apply IH. tauto.
Qed.

(** Replaying the writes on their own result changes nothing. *)
Lemma final_layer_idem (ws : list (Z * Z)) (k : Z) :
  forall old, final_layer ws k (final_layer ws k old) = final_layer ws k old.
Proof.
  assert (H : (forall x, final_layer ws k x = x) \/
              (forall x y, final_layer ws k x = final_layer ws k y)).
  { induction ws as [|[k' v] ws IH]; simpl; [left; reflexivity|].
    destruct (Z.eqb_spec k' k) as [E|E].
    - right. reflexivity.
    - destruct IH as [IH|IH]; [left | right]; auto. }
  intros old. destruct H as [H|H]; [rewrite !H; reflexivity | apply H].
Qed.

Lemma set_layer_same (n : Node) : set_layer (layer n) n = n.
Proof. destruct n; reflexivity. Qed.

Lemma map_id_update_node (k : Z) (f : Node -> Node) (ns : list Node) :
  (forall n, id (f n) = id n) ->
  map id (update_node k f ns) = map id ns.
Proof.
  intros Hf. unfold update_node. rewrite map_map. apply map_ext.
  intros n. destruct (id n =? k); [apply Hf | reflexivity].
Qed.

Lemma find_node_Some (ns : list Node) (k : Z) :
  (exists n, find_node ns k = Some n) <-> In k (map id ns).
Proof.
  unfold find_node. split.
  - intros [n H]. apply find_some in H. destruct H as [H E].
    apply Z.eqb_eq in E. subst k. apply in_map. assumption.
  - intros H. apply in_map_iff in H. destruct H as [n [E H]].
    destruct (find (fun n0 => id n0 =? k) ns) eqn:F; [eexists; reflexivity|].
    exfalso. apply (find_none _ _ F) in H. rewrite E, Z.eqb_refl in H.
    discriminate.
Qed.

Lemma find_node_id (ns : list Node) (k : Z) (n : Node) :
  find_node ns k = Some n -> In n ns /\ id n = k.
Proof.
  unfold find_node. intros H. apply find_some in H.
  rewrite Z.eqb_eq in H. assumption.
Qed.

Lemma update_node_set_layer (k v : Z) (ns : list Node) :
  update_node k (set_layer v) ns = apply_writes [(k, v)] ns.
Proof.
  unfold update_node, apply_writes. apply map_ext. intros n. simpl.
  rewrite (Z.eqb_sym k). destruct (id n =? k);
    [reflexivity | symmetry; apply set_layer_same].
Qed.

Lemma apply_writes_app (ws1 ws2 : list (Z * Z)) (ns : list Node) :
  apply_writes ws2 (apply_writes ws1 ns) = apply_writes (ws1 ++ ws2) ns.
Proof.
  unfold apply_writes. rewrite map_map. apply map_ext. intros n. simpl.
  rewrite final_layer_app. reflexivity.
Qed.

Lemma map_id_apply_writes (ws : list (Z * Z)) (ns : list Node) :
  map id (apply_writes ws ns) = map id ns.
Proof. unfold apply_writes. rewrite map_map. reflexivity. Qed.

Lemma map_type_apply_writes (ws : list (Z * Z)) (ns : list Node) :
  map type (apply_writes ws ns) = map type ns.
Proof. unfold apply_writes. rewrite map_map. reflexivity. Qed.

(** [write_layers] performs the served prefix of its writes and raises
    KeyError when a write is left. *)
Lemma write_layers_spec (ws : list (Z * Z)) :
  forall ns,
    write_layers ws ns =
    (if forallb (fun w => mem (fst w) (map id ns)) ws
     then Ok tt else Raise KeyError,
     apply_writes (served (map id ns) ws) ns).
Proof.
  induction ws as [|[k v] ws IH]; intros ns.
  - simpl. unfold ret, apply_writes. simpl. f_equal.
    rewrite <- (map_id ns) at 1. apply map_ext. intros n.
    symmetry. apply set_layer_same.
  - simpl. destruct (find_node ns k) eqn:F.
    + assert (Hk : mem k (map id ns) = true).
      { apply mem_In, find_node_Some. eexists; eassumption. }
      rewrite Hk. simpl. rewrite IH.
      rewrite map_id_update_node by reflexivity.
      f_equal. rewrite update_node_set_layer, apply_writes_app. reflexivity.
    + assert (Hk : mem k (map id ns) = false).
      { apply not_mem_In. intros H. apply find_node_Some in H.
        destruct H as [n H]. congruence. }
      rewrite Hk. simpl. f_equal. unfold apply_writes. simpl.
      rewrite <- (map_id ns) at 1. apply map_ext. intros n.
      symmetry. apply set_layer_same.
Qed.

Lemma served_incl (ids : list Z) (ws : list (Z * Z)) (w : Z * Z) :
  In w (served ids ws) -> In w ws.
Proof.
  induction ws as [|w' ws IH]; simpl; [tauto|].
  destruct (mem (fst w') ids); simpl; [|tauto].
  intros [H|H]; [left; assumption | right; apply IH; assumption].
Qed.

Lemma served_all (ids : list Z) (ws : list (Z * Z)) :
  forallb (fun w => mem (fst w) ids) ws = true -> served ids ws = ws.
Proof.
  induction ws as [|w ws IH]; simpl; [reflexivity|].
  intros H. apply andb_true_iff in H. destruct H as [H1 H2].
  rewrite H1, IH by assumption. reflexivity.
Qed.

Lemma layer_writes_In (L : list (list Z)) :
  forall b k, In k (map fst (layer_writes b L)) ->
    exists l, In l L /\ In k l.
Proof.
  induction L as [|l L IH]; intros b k H; simpl in H; [contradiction|].
  rewrite map_app, map_map in H. simpl in H. rewrite map_id in H.
  apply in_app_or in H. destruct H as [H|H].
  - exists l. split; [left; reflexivity | assumption].
  - apply IH in H. destruct H as [l' [Hl Hk]].
    exists l'. split; [right; assumption | assumption].
Qed.

Lemma final_layer_same_value (l : list Z) (v k old : Z) :
  In k l -> final_layer (map (fun n => (n, v)) l) k old = v.
Proof.
  revert old. induction l as [|n l IH]; intros old H; [contradiction|].
  simpl. destruct (Z.eqb_spec n k) as [E|E].
  - destruct (in_dec Z.eq_dec k l) as [Hin|Hout]; [apply IH; assumption|].
    apply final_layer_untouched. rewrite map_map. simpl. rewrite map_id.
    assumption.
  - apply IH. destruct H; [contradiction | assumption].
Qed.

(** The node placed in the layer of index [k] ends with layer [k + 1]. *)
Lemma final_layer_writes (required : list Z) (cs : list (Z * Z)) (s : list Z)
  (L : list (list Z)) :
  layering required cs s L ->
  forall b k l i old,
    nth_error L k = Some l -> In i l ->
    final_layer (layer_writes b L) i old = b + Z.of_nat k + 1.
Proof.
  induction 1 as [s E | s L Hne HL IH]; intros b k l i old Hk Hi.
  - destruct k; discriminate.
  - simpl. rewrite final_layer_app. destruct k as [|k]; simpl in Hk.
    + injection Hk as <-.
      rewrite final_layer_untouched.
      * rewrite final_layer_same_value by assumption. lia.
      * intros Hw. apply layer_writes_In in Hw.
        destruct Hw as [l' [Hl' Hi']].
        apply (layering_fresh _ _ _ _ HL l' i Hl' Hi').
        apply in_or_app. right. assumption.
    + rewrite (IH (b + 1) k l i _ Hk Hi). lia.
Qed.

(** ** Fields that [update_node_layers] does not write *)

Lemma filter_static (f : Node -> Node) (t : NodeType) (ns : list Node) :
  (forall n, id (f n) = id n) -> (forall n, type (f n) = type n) ->
  map id (filter (fun n => NodeType_eqb (type n) t) (map f ns)) =
  map id (filter (fun n => NodeType_eqb (type n) t) ns).
Proof.
  intros Hid Hty. induction ns as [|n ns IH]; simpl; [reflexivity|].
  rewrite Hty. destruct (NodeType_eqb (type n) t); simpl;
    rewrite ?Hid, IH; reflexivity.
Qed.

Lemma feed_forward_layers_static (g g' : CPPN) (f : Node -> Node) :
  (forall n, id (f n) = id n) -> (forall n, type (f n) = type n) ->
  node_genome g' = map f (node_genome g) ->
  connection_genome g' = connection_genome g ->
  feed_forward_layers g' = feed_forward_layers g.
Proof.
  intros Hid Hty Hn Hc.
  unfold feed_forward_layers, get_ids_from_individual, input_nodes,
    output_nodes.
  rewrite Hn, Hc, !(filter_static f) by assumption. reflexivity.
Qed.

Lemma reset_input_layers_map (ns : list Node) :
  reset_input_layers ns =
  map (fun n => if NodeType_eqb (type n) INPUT then set_layer 0 n else n) ns.
Proof. reflexivity. Qed.

Lemma map_id_reset (ns : list Node) :
  map id (reset_input_layers ns) = map id ns.
Proof.
  unfold reset_input_layers. rewrite map_map. apply map_ext.
  intros n. destruct (NodeType_eqb (type n) INPUT); reflexivity.
Qed.

Lemma update_node_layers_spec (g : CPPN) :
  update_node_layers g =
  (if forallb (fun w => mem (fst w) (map id (node_genome g)))
        (layer_writes 0 (feed_forward_layers g))
   then Ok tt else Raise KeyError,
   set_node_genome (layered_nodes g) g).
Proof.
  unfold update_node_layers, layered_nodes.
  rewrite write_layers_spec, map_id_reset. reflexivity.
Qed.

Lemma layered_nodes_as_map (g : CPPN) :
  layered_nodes g =
  map (fun n =>
         set_layer
           (final_layer
              (served (map id (node_genome g))
                 (layer_writes 0 (feed_forward_layers g)))
              (id n)
              (if NodeType_eqb (type n) INPUT then 0 else layer n))
           n)
    (node_genome g).
Proof.
  unfold layered_nodes, apply_writes, reset_input_layers.
  rewrite map_map. apply map_ext. intros n.
  destruct (NodeType_eqb (type n) INPUT); reflexivity.
Qed.

(** No write names an input node. *)
Lemma writes_miss_inputs (g : CPPN) (n : Node) (w : Z * Z) :
  In n (node_genome g) -> type n = INPUT ->
  In w (layer_writes 0 (feed_forward_layers g)) -> fst w <> id n.
Proof.
  intros Hn Ht Hw E.
  apply (in_map fst) in Hw. apply layer_writes_In in Hw.
  destruct Hw as [l [Hl Hk]].
  apply (layering_fresh _ _ _ _ (feed_forward_layers_layering g) l _ Hl Hk).
  apply to_set_In. rewrite E. apply in_map.
  unfold input_nodes. apply filter_In. split; [assumption|].
  rewrite Ht. reflexivity.
Qed.

Lemma input_layer_kept (g : CPPN) (n : Node) :
  In n (node_genome g) -> type n = INPUT ->
  final_layer
    (served (map id (node_genome g))
       (layer_writes 0 (feed_forward_layers g))) (id n) 0 = 0.
Proof.
  intros Hn Ht. apply final_layer_untouched. intros H.
  apply in_map_iff in H. destruct H as [w [E Hw]].
  apply served_incl in Hw.
  apply (writes_miss_inputs g n w Hn Ht Hw). assumption.
Qed.

(** C9. Layering is idempotent: a second run of [update_node_layers], with
    no mutation in between, computes the same layers as the first and
    leaves every node (hence every layer field) as the first run left it,
    with the same outcome. *)
Theorem update_node_layers_idempotent (g : CPPN) :
  feed_forward_layers (snd (update_node_layers g)) = feed_forward_layers g /\
  update_node_layers (snd (update_node_layers g)) = update_node_layers g.
Proof.
  rewrite (update_node_layers_spec g). cbn [snd].
  set (g1 := set_node_genome (layered_nodes g) g).
  assert (Hn1 : node_genome g1 = layered_nodes g) by reflexivity.
  assert (Hff : feed_forward_layers g1 = feed_forward_layers g).
  { eapply feed_forward_layers_static;
      [| | rewrite Hn1; apply layered_nodes_as_map | reflexivity];
      reflexivity. }
  split; [exact Hff|].
  assert (Hids : map id (layered_nodes g) = map id (node_genome g)).
  { unfold layered_nodes. rewrite map_id_apply_writes. apply map_id_reset. }
  rewrite (update_node_layers_spec g1), Hn1, Hids, Hff. f_equal.
  assert (Hl : layered_nodes g1 = layered_nodes g).
  { unfold layered_nodes at 1. rewrite Hn1, Hids, Hff.
    rewrite layered_nodes_as_map.
    unfold apply_writes, reset_input_layers. rewrite !map_map.
    apply map_ext_in. intros n Hn. simpl.
    destruct (NodeType_eqb (type n) INPUT) eqn:Ht; simpl.
    - assert (Ht' : type n = INPUT)
        by (destruct (type n); try discriminate; reflexivity).
      rewrite (input_layer_kept g n Hn Ht'). reflexivity.
    - rewrite final_layer_idem. reflexivity. }
  rewrite Hl. reflexivity.
Qed.

(** ** Layers after [update_node_layers] *)

Lemma ids_required_fuel (g : CPPN) (fuel : nat) :
  (List.length (connection_genome g) < fuel)%nat ->
  required_loop fuel (map id (input_nodes g))
    (map key_ (connection_genome g))
    (to_set (map id (output_nodes g))) (to_set (map id (output_nodes g)))
  = Some (ids_required g).
Proof.
  intros Hf. unfold ids_required, get_ids_from_individual, required_for_output.
  set (cs := map key_ (connection_genome g)).
  set (inputs := map id (input_nodes g)).
  set (s := to_set _).
  assert (Hp : (unvisited s cs < S (List.length cs))%nat)
    by (assert (H := unvisited_le cs s); lia).
  destruct (required_loop_terminates _ inputs cs s s Hp) as [r Hr].
  rewrite Hr.
  replace fuel with (S (List.length cs) + (fuel - S (List.length cs)))%nat.
  - apply required_loop_more_fuel. assumption.
  - unfold cs. rewrite length_map. lia.
Qed.

Lemma NoDup_id_eq (ns : list Node) (a b : Node) :
  NoDup (map id ns) -> In a ns -> In b ns -> id a = id b -> a = b.
Proof.
  induction ns as [|n ns IH]; intros Hnd Ha Hb E; [contradiction|].
  simpl in Hnd. inversion Hnd as [|x xs Hx Hnd']; subst.
  destruct Ha as [->|Ha], Hb as [->|Hb].
  - reflexivity.
  - exfalso. apply Hx. rewrite E. apply in_map. assumption.
  - exfalso. apply Hx. rewrite <- E. apply in_map. assumption.
  - apply IH; assumption.
Qed.

(** Every placed node is the target of a connection. *)
Lemma placed_is_target (g : CPPN) (k : Z) :
  placed g k -> exists a, In (a, k) (map key_ (connection_genome g)).
Proof.
  intros [l [Hl Hk]].
  assert (H := feed_forward_layers_layering g).
  revert H Hl. generalize (feed_forward_layers g) (to_set (map id (input_nodes g))).
  intros L s H. induction H as [s E | s L Hne HL IH]; intros Hl;
    [contradiction|].
  destruct Hl as [<-|Hl]; [|apply IH; assumption].
  apply next_layer_In in Hk. destruct Hk as [_ [_ [[a [Ha _]] _]]].
  exists a. assumption.
Qed.

Lemma writes_served (g : CPPN) :
  endpoints_exist g ->
  forallb (fun w => mem (fst w) (map id (node_genome g)))
    (layer_writes 0 (feed_forward_layers g)) = true.
Proof.
  intros He. apply forallb_forall. intros w Hw. apply mem_In.
  apply (in_map fst) in Hw. apply layer_writes_In in Hw.
  destruct (placed_is_target g (fst w) Hw) as [a Ha].
  apply in_map_iff in Ha. destruct Ha as [c [E Hc]].
  destruct (He c Hc) as [_ Ht]. rewrite E in Ht. assumption.
Qed.

Lemma update_node_layers_ok (g : CPPN) :
  endpoints_exist g ->
  update_node_layers g =
  (Ok tt,
   set_node_genome
     (map (fun n =>
             set_layer
               (final_layer (layer_writes 0 (feed_forward_layers g)) (id n)
                  (if NodeType_eqb (type n) INPUT then 0 else layer n)) n)
        (node_genome g)) g).
Proof.
  intros He. rewrite update_node_layers_spec, layered_nodes_as_map.
  rewrite (writes_served g He), (served_all _ _ (writes_served g He)).
  reflexivity.
Qed.

Lemma NodeType_eqb_eq (a b : NodeType) : NodeType_eqb a b = true <-> a = b.
Proof. destruct a, b; simpl; split; congruence. Qed.

(** What [update_node_layers] writes.  On a genome whose connections join
    nodes of the genome, both loops of the layering end within
    [length connections + 1] rounds and [update_node_layers] returns; it
    leaves every input node at layer 0 and every node placed in the layer
    of index [k] at layer [k + 1] >= 1; and every connection whose target
    was placed has layer(source) < layer(target).  Nodes that are not
    placed keep the layer they had. *)
Lemma update_node_layers_assigns (g : CPPN) :
  dict_ok g -> endpoints_exist g ->
  (forall fuel, (List.length (connection_genome g) < fuel)%nat ->
     required_loop fuel (map id (input_nodes g))
       (map key_ (connection_genome g))
       (to_set (map id (output_nodes g))) (to_set (map id (output_nodes g)))
     = Some (ids_required g) /\
     layers_loop fuel (ids_required g) (map key_ (connection_genome g))
       (to_set (map id (input_nodes g))) [] = Some (feed_forward_layers g)) /\
  exists g',
    update_node_layers g = (Ok tt, g') /\
    connection_genome g' = connection_genome g /\
    map id (node_genome g') = map id (node_genome g) /\
    (forall n, In n (node_genome g') -> type n = INPUT -> layer n = 0) /\
    (forall k l n,
       nth_error (feed_forward_layers g) k = Some l ->
       In n (node_genome g') -> In (id n) l ->
       layer n = Z.of_nat k + 1 /\ 1 <= layer n) /\
    (forall n, In n (node_genome g') -> type n <> INPUT ->
       ~ placed g (id n) -> In n (node_genome g)) /\
    (forall c a b,
       In c (connection_genome g') ->
       In a (node_genome g') -> In b (node_genome g') ->
       id a = fst (key_ c) -> id b = snd (key_ c) ->
       placed g (id b) -> layer a < layer b).
Proof.
  intros [Hnd _] He. split.
  { intros fuel Hf. split;
      [apply ids_required_fuel | apply feed_forward_layers_fuel]; assumption. }
  eexists. split; [apply update_node_layers_ok; assumption|].
  set (W := layer_writes 0 (feed_forward_layers g)).
  assert (HL := feed_forward_layers_layering g).
  assert (Hin : forall n, In n (node_genome g) -> type n = INPUT ->
                          final_layer W (id n) 0 = 0).
  { intros n Hn Ht. apply final_layer_untouched. intros H.
    apply in_map_iff in H. destruct H as [w [E Hw]].
    apply (writes_miss_inputs g n w Hn Ht Hw). assumption. }
  assert (Hpl : forall k l n old, nth_error (feed_forward_layers g) k = Some l ->
                  In (id n) l -> final_layer W (id n) old = Z.of_nat k + 1).
  { intros k l n old Hk Hl. unfold W.
    rewrite (final_layer_writes _ _ _ _ HL 0 k l (id n) old Hk Hl). lia. }
  simpl. split; [reflexivity|]. split.
  { rewrite map_map. reflexivity. }
  split; [|split; [|split]].
  - intros n Hn Ht. apply in_map_iff in Hn. destruct Hn as [n0 [<- Hn0]].
    simpl in *. rewrite Ht. simpl. apply Hin; assumption.
  - intros k l n Hk Hn Hl. apply in_map_iff in Hn.
    destruct Hn as [n0 [<- Hn0]]. simpl in *.
    rewrite (Hpl k l n0 _ Hk Hl). lia.
  - intros n Hn Ht Hp. apply in_map_iff in Hn.
    destruct Hn as [n0 [<- Hn0]]. simpl in *.
    destruct (NodeType_eqb (type n0) INPUT) eqn:E;
      [apply NodeType_eqb_eq in E; contradiction|].
    rewrite final_layer_untouched, set_layer_same; [assumption|].
    intros H. apply Hp. apply layer_writes_In in H. exact H.
  - intros c a b Hc Ha Hb Ea Eb [l [Hl Hbl]].
    apply In_nth_error in Hl. destruct Hl as [k Hk].
    apply in_map_iff in Ha. destruct Ha as [a0 [<- Ha0]].
    apply in_map_iff in Hb. destruct Hb as [b0 [<- Hb0]].
    simpl in *. rewrite (Hpl k l b0 _ Hk Hbl).
    assert (Hkey : In (id a0, id b0) (map key_ (connection_genome g))).
    { apply in_map_iff. exists c. split; [|assumption].
      rewrite Ea, Eb. destruct (key_ c); reflexivity. }
    destruct (layering_sources _ _ _ _ HL k l (id b0) (id a0) Hk Hbl Hkey)
      as [Hs | [j [l' [Hj [Hl' Hal']]]]].
    + apply to_set_In, in_map_iff in Hs. destruct Hs as [i [Ei Hi]].
      apply filter_In in Hi. destruct Hi as [Hi Hti].
      apply NodeType_eqb_eq in Hti.
      assert (i = a0) by (apply (NoDup_id_eq _ _ _ Hnd Hi Ha0 Ei)). subst i.
      rewrite Hti. simpl. rewrite (Hin a0 Ha0 Hti). lia.
    + rewrite (Hpl j l' a0 _ Hl' Hal'). lia.
Qed.

(** ** Concrete genomes *)

Ltac solve_NoDup :=
  repeat (apply NoDup_cons; [simpl; intuition congruence|]); apply NoDup_nil.

Ltac solve_dict_ok := split; simpl; solve_NoDup.

Ltac solve_endpoints :=
  let c := fresh "c" in
  let H := fresh "H" in
  intros c H; simpl in H;
  repeat (destruct H as [<-|H]; [simpl; intuition congruence|]);
  contradiction.

(** C2 (counterexample). With recurrence disallowed, [update_node_layers]
    returns on [stale_genome] and leaves the enabled connection (4,-3) with
    layer(source) = 3 >= layer(target) = 3: the output node, required and
    reachable from the inputs, is not placed and keeps its layer. *)
Lemma update_node_layers_stale_counterexample :
  allow_recurrent (config stale_genome) = false /\
  exists g',
    update_node_layers stale_genome = (Ok tt, g') /\
    exists c a b,
      In c (connection_genome g') /\
      find_node (node_genome g') (fst (key_ c)) = Some a /\
      find_node (node_genome g') (snd (key_ c)) = Some b /\
      layer a >= layer b.
Proof.
  split; [reflexivity|].
  eexists. split; [vm_compute; reflexivity|].
  exists (example_cx 4 (-3) true), (example_node 4 HIDDEN 3),
    (example_node (-3) OUTPUT 3).
  split; [simpl; tauto|].
  split; [reflexivity|]. split; [reflexivity|].
  simpl. lia.
Qed.

(** ** Random draws *)

Lemma draw_index_lt (n : nat) (gl : Globals) :
  (0 < n)%nat ->
  exists i gl', draw_index n gl = (Ok i, gl') /\ (i < n)%nat.
Proof.
  intros Hn. unfold draw_index. destruct (pick_tape gl) as [|d t].
  - exists O, gl. split; [reflexivity | assumption].
  - eexists _, _. split; [reflexivity|].
    apply Nat.mod_upper_bound. lia.
Qed.

Lemma random_choice1_In {A : Type} (choices : list A) (gl : Globals) :
  choices <> [] ->
  exists a gl', random_choice1 choices gl = (Ok a, gl') /\ In a choices.
Proof.
  intros Hne. destruct choices as [|c cs]; [contradiction|].
  unfold random_choice1, bind.
  destruct (draw_index_lt (List.length (c :: cs)) gl) as [i [gl' [E Hi]]];
    [simpl; lia|].
  rewrite E.
  destruct (nth_error (c :: cs) i) as [a|] eqn:Hnth.
  - exists a, gl'. split; [reflexivity|].
    apply nth_error_In in Hnth. assumption.
  - apply nth_error_None in Hnth. lia.
Qed.

(** ** [remove_node] *)

Lemma del_first_filter (k : Z) (ns : list Node) :
  NoDup (map id ns) ->
  del_first k ns = filter (fun n => negb (id n =? k)) ns.
Proof.
  induction ns as [|n ns IH]; intros Hnd; simpl; [reflexivity|].
  inversion Hnd as [|x xs Hx Hnd']; subst.
  destruct (Z.eqb_spec (id n) k) as [E|E]; simpl.
  - symmetry. apply forallb_filter_id. apply forallb_forall.
    intros m Hm. apply negb_true_iff, Z.eqb_neq. intros E'.
    apply Hx. rewrite E, <- E'. apply in_map. assumption.
  - rewrite IH by assumption. reflexivity.
Qed.

Lemma filter_rev' {A : Type} (f : A -> bool) (l : list A) :
  filter f (rev l) = rev (filter f l).
Proof.
  induction l as [|a l IH]; simpl; [reflexivity|].
  rewrite filter_app, IH. simpl.
  destruct (f a); simpl; [reflexivity | apply app_nil_r].
Qed.

(** Under unique ids, deleting from the back leaves the other nodes in
    place. *)
Lemma del_node_filter (k : Z) (ns : list Node) :
  NoDup (map id ns) ->
  rev (del_first k (rev ns)) = filter (fun n => negb (id n =? k)) ns.
Proof.
  intros Hnd. rewrite del_first_filter.
  - rewrite filter_rev', rev_involutive. reflexivity.
  - rewrite map_rev. apply NoDup_rev. assumption.
Qed.

Lemma NoDup_map_filter {V K : Type} (key : V -> K) (keep : V -> bool)
  (d : list V) :
  NoDup (map key d) -> NoDup (map key (filter keep d)).
Proof.
  intros H. induction d as [|v d IH]; simpl; [constructor|].
  inversion H as [|x xs Hx H']; subst.
  destruct (keep v); simpl; [|apply IH; assumption].
  constructor; [|apply IH; assumption].
  intros Hin. apply Hx. apply in_map_iff in Hin.
  destruct Hin as [u [E Hu]]. apply filter_In in Hu.
  rewrite <- E. apply in_map. tauto.
Qed.

Lemma without_node_endpoints (k : Z) (g : CPPN) :
  endpoints_exist g -> endpoints_exist (without_node k g).
Proof.
  intros He c Hc. simpl in Hc. apply filter_In in Hc.
  destruct Hc as [Hc Hk]. apply negb_true_iff in Hk.
  unfold in_key in Hk. apply orb_false_iff in Hk.
  destruct Hk as [Hk1 Hk2]. apply Z.eqb_neq in Hk1, Hk2.
  destruct (He c Hc) as [H1 H2]. simpl.
  split.
  - apply in_map_iff in H1. destruct H1 as [n [E Hn]].
    apply in_map_iff. exists n. split; [assumption|].
    apply filter_In. split; [assumption|].
    apply negb_true_iff, Z.eqb_neq. congruence.
  - apply in_map_iff in H2. destruct H2 as [n [E Hn]].
    apply in_map_iff. exists n. split; [assumption|].
    apply filter_In. split; [assumption|].
    apply negb_true_iff, Z.eqb_neq. congruence.
Qed.

Lemma without_node_dict_ok (k : Z) (g : CPPN) :
  dict_ok g -> dict_ok (without_node k g).
Proof.
  intros [H1 H2]. split; simpl; apply NoDup_map_filter; assumption.
Qed.

Lemma update_node_layers_endpoints (g : CPPN) :
  endpoints_exist g ->
  endpoints_exist (snd (update_node_layers g)) /\
  (dict_ok g -> dict_ok (snd (update_node_layers g))).
Proof.
  intros He. rewrite update_node_layers_spec. simpl.
  assert (Hids : map id (layered_nodes g) = map id (node_genome g)).
  { unfold layered_nodes. rewrite map_id_apply_writes. apply map_id_reset. }
  split.
  - intros c Hc. simpl in *. rewrite Hids. apply He. assumption.
  - intros [H1 H2]. split; simpl; [rewrite Hids|]; assumption.
Qed.

(** What [remove_node] does to a genome with unique keys whose connections
    join nodes of the genome. *)
Lemma remove_node_spec (g : CPPN) (gl : Globals) :
  dict_ok g -> endpoints_exist g ->
  (hidden_nodes g = [] /\ remove_node (g, gl) = (Ok tt, (g, gl))) \/
  (exists k gl',
     In k (map id (hidden_nodes g)) /\
     random_choice1 (map id (hidden_nodes g)) gl = (Ok k, gl') /\
     remove_node (g, gl) =
     (Ok tt,
      (set_image None (snd (update_node_layers (without_node k g))), gl'))).
Proof.
  intros Hd He. unfold remove_node, bind, get_self. cbn [fst snd].
  destruct (hidden_nodes g) as [|h hs] eqn:Eh.
  - left. split; reflexivity.
  - right. rewrite <- Eh.
    destruct (random_choice1_In (map id (hidden_nodes g)) gl)
      as [k [gl' [E Hk]]]; [rewrite Eh; discriminate|].
    exists k, gl'. split; [assumption|]. split; [assumption|].
    unfold lift_glob, modify_self, lift_self, disable_invalid_connections,
      ret. cbn [fst snd].
    rewrite E. cbn [fst snd node_genome connection_genome
                      set_connection_genome set_node_genome].
    rewrite (del_node_filter k (node_genome g)) by apply Hd.
    fold (without_node k g).
    assert (Hw : endpoints_exist (without_node k g))
      by (apply without_node_endpoints; assumption).
    change (set_node_genome _ (set_connection_genome _ g))
      with (without_node k g).
    rewrite (update_node_layers_ok _ Hw). reflexivity.
Qed.

(** C6. On a genome with unique keys whose connections join nodes of the
    genome, [remove_node] returns, and every connection that remains has
    both endpoints among the remaining nodes: with no hidden node the
    genome is unchanged; otherwise a hidden node [k] is gone together with
    exactly the connections that touch it. *)
Theorem remove_node_no_dangling (g : CPPN) (gl : Globals) :
  dict_ok g -> endpoints_exist g ->
  exists g' gl',
    remove_node (g, gl) = (Ok tt, (g', gl')) /\
    endpoints_exist g' /\ dict_ok g' /\
    (hidden_nodes g = [] -> g' = g) /\
    (hidden_nodes g <> [] ->
     exists k,
       In k (map id (hidden_nodes g)) /\
       connection_genome g' =
         filter (fun cx => negb (in_key k (key_ cx))) (connection_genome g) /\
       map id (node_genome g') =
         filter (fun x => negb (x =? k)) (map id (node_genome g)) /\
       ~ In k (map id (node_genome g')) /\
       forall c, In c (connection_genome g') ->
         fst (key_ c) <> k /\ snd (key_ c) <> k).
Proof.
  intros Hd He.
  destruct (remove_node_spec g gl Hd He) as [[Hh E] | [k [gl' [Hk [_ E]]]]].
  - exists g, gl. split; [assumption|]. split; [assumption|].
    split; [assumption|]. split; [reflexivity|].
    intros Hne. contradiction.
  - assert (Hw : endpoints_exist (without_node k g))
      by (apply without_node_endpoints; assumption).
    assert (Hwd : dict_ok (without_node k g))
      by (apply without_node_dict_ok; assumption).
    destruct (update_node_layers_endpoints _ Hw) as [Hu1 Hu2].
    specialize (Hu2 Hwd).
    eexists _, gl'. split; [exact E|].
    split; [exact Hu1|]. split; [exact Hu2|].
    split.
    + intros Hh. rewrite Hh in Hk. contradiction.
    + intros _. exists k. split; [assumption|].
      rewrite update_node_layers_spec. simpl.
      assert (Hids : map id (layered_nodes (without_node k g))
                     = map id (node_genome (without_node k g))).
      { unfold layered_nodes. rewrite map_id_apply_writes.
        apply map_id_reset. }
      rewrite Hids. simpl.
      assert (Hf : map id (filter (fun n => negb (id n =? k)) (node_genome g))
                   = filter (fun x => negb (x =? k)) (map id (node_genome g))).
      { induction (node_genome g) as [|n ns IH]; simpl; [reflexivity|].
        destruct (negb (id n =? k)); simpl; rewrite IH; reflexivity. }
      rewrite Hf. split; [reflexivity|]. split; [reflexivity|]. split.
      * intros Hin. apply filter_In in Hin. destruct Hin as [_ Hin].
        rewrite Z.eqb_refl in Hin. discriminate.
      * intros c Hc. apply filter_In in Hc. destruct Hc as [_ Hc].
        apply negb_true_iff, orb_false_iff in Hc.
        destruct Hc as [H1 H2]. apply Z.eqb_neq in H1, H2.
        split; congruence.
Qed.

(** C6 (witness) *)
Lemma remove_node_no_dangling_witness :
  dict_ok stale_genome /\ endpoints_exist stale_genome /\
  exists g' gl',
    remove_node (stale_genome, example_globals [1%nat]) = (Ok tt, (g', gl'))
    /\ endpoints_exist g'.
Proof.
  assert (H1 : dict_ok stale_genome) by solve_dict_ok.
  assert (H2 : endpoints_exist stale_genome) by solve_endpoints.
  split; [exact H1|]. split; [exact H2|].
  destruct (remove_node_no_dangling stale_genome (example_globals [1%nat])
              H1 H2) as [g' [gl' [E [He _]]]].
  exists g', gl'. split; assumption.
Defined.

(** C3 (the code at the failing input).  [remove_node], drawing node 2 of
    [stale_genome], returns and leaves the connection (4,-3) enabled
    although the validity check rejects it: both ends are on layer 3. *)
Lemma remove_node_keeps_rejected_connection :
  exists g' gl',
    remove_node (stale_genome, example_globals [1%nat]) = (Ok tt, (g', gl'))
    /\ hidden_nodes stale_genome <> []
    /\ ~ In 2 (map id (node_genome g'))
    /\ exists c,
         In c (connection_genome g') /\ enabled c = true /\
         is_valid_connection (node_genome g') (key_ c) (config g')
         = Ok false.
Proof.
  eexists _, _. split; [vm_compute; reflexivity|].
  split; [discriminate|]. split.
  - simpl. intuition congruence.
  - exists (example_cx 4 (-3) true).
    split; [simpl; tauto|]. split; reflexivity.
Qed.

Lemma disable_invalid_connections_noop (st : St) :
  disable_invalid_connections st = (Ok tt, st).
Proof. reflexivity. Qed.

(** ** [add_connection] *)

Lemma random_choice2_In {A : Type} (choices : list A) (gl gl' : Globals)
  (a b : A) :
  random_choice2 choices gl = (Ok (a, b), gl') ->
  In a choices /\ In b choices.
Proof.
  unfold random_choice2. destruct choices as [|c1 [|c2 cs]];
    try discriminate.
  unfold bind. destruct (draw_index _ gl) as [[i|e] gl1]; [|discriminate].
  destruct (draw_index _ gl1) as [[j|e] gl2]; [|discriminate].
  set (l := c1 :: c2 :: cs).
  destruct (nth_error l i) as [x|] eqn:Hi; [|discriminate].
  match goal with
  | |- context [nth_error l ?k] =>
      destruct (nth_error l k) as [y|] eqn:Hj; [|discriminate]
  end.
  unfold ret. intros E. inversion E; subst.
  split; eapply nth_error_In; eassumption.
Qed.

(** One round of the loop of [add_connection]. *)
Lemma add_connection_attempts_S (n : nat) (g : CPPN) (gl : Globals) :
  add_connection_attempts (S n) (g, gl) =
  match random_choice2 (node_genome g) gl with
  | (Raise e, gl1) => (Raise e, (g, gl1))
  | (Ok pr, gl1) =>
      let key := (id (fst pr), id (snd pr)) in
      match find_cx (connection_genome g) key with
      | Some existing_cx =>
          if enabled existing_cx then (Ok tt, (g, gl1))
          else if Qltb (next_rand gl1 * (1 - 0) + 0)
                    (prob_reenable_connection (config g))
               then (Ok tt,
                     (set_connection_genome
                        (update_cx key (set_enabled true)
                           (connection_genome g)) g,
                      after_rand gl1))
               else (Ok tt, (g, after_rand gl1))
      | None =>
          match is_valid_connection (node_genome g) key (config g) with
          | Raise e => (Raise e, (g, gl1))
          | Ok false => add_connection_attempts n (g, gl1)
          | Ok true =>
              let new_cx :=
                mkConnection key
                  (next_rand gl1 * (max_weight (config g)
                                    - - max_weight (config g))
                   + - max_weight (config g)) true false in
              let '(r, g') :=
                update_node_layers
                  (set_connection_genome
                     (connection_genome g ++ [new_cx]) g) in
              (r, (g', after_rand gl1))
          end
      end
  end.
Proof.
  cbn [add_connection_attempts]. unfold bind at 1. unfold get_self at 1.
  cbn [fst snd]. unfold bind at 1. unfold lift_glob at 1. cbn [fst snd].
  destruct (random_choice2 (node_genome g) gl) as [[[a b]|e] gl1];
    [|reflexivity].
  cbn [fst snd]. set (key := (id a, id b)).
  destruct (find_cx (connection_genome g) key) as [cx|] eqn:Ef.
  - destruct (enabled cx); [reflexivity|]. cbn [negb].
    unfold bind, lift_glob, random_uniform, bind, torch_rand, ret,
      modify_self. cbn [fst snd].
    destruct (Qltb _ _); reflexivity.
  - unfold bind at 1. unfold lift_result at 1.
    destruct (is_valid_connection (node_genome g) key (config g))
      as [[|]|e]; [|reflexivity|reflexivity].
    unfold bind, lift_glob, random_weight, random_uniform, bind, torch_rand,
      ret, get_self, modify_self, lift_self. cbn [fst snd].
    assert (Hex : existsb (key_eqb key) (map key_ (connection_genome g))
                  = false).
    { apply not_true_is_false. intros H. apply existsb_exists in H.
      destruct H as [k [Hk E]]. apply in_map_iff in Hk.
      destruct Hk as [c [<- Hc]].
      unfold find_cx in Ef. apply (find_none _ _ Ef) in Hc.
      rewrite key_eqb_eq in E. rewrite <- E, key_eqb_refl in Hc.
      discriminate. }
    rewrite Hex. unfold dict_set_cx. cbn [key_ fst snd]. rewrite Ef.
    cbn [connection_genome set_connection_genome].
    destruct (update_node_layers _) as [r g']. reflexivity.
Qed.

Lemma update_node_layers_connections (g : CPPN) :
  connection_genome (snd (update_node_layers g)) = connection_genome g.
Proof. rewrite update_node_layers_spec. reflexivity. Qed.

Lemma add_connection_attempts_outcome (n : nat) :
  forall g gl,
    add_connection_outcome g
      (fst (snd (add_connection_attempts n (g, gl)))).
Proof.
  induction n as [|n IH]; intros g gl; [left; reflexivity|].
  rewrite add_connection_attempts_S.
  destruct (random_choice2 (node_genome g) gl) as [[[a b]|e] gl1] eqn:Er;
    [|left; reflexivity].
  cbn [fst snd].
  destruct (find_cx (connection_genome g) (id a, id b)) as [cx|] eqn:Ef.
  - destruct (enabled cx) eqn:Ee; [left; reflexivity|].
    destruct (Qltb _ _); [|left; reflexivity].
    right. left. exists (id a, id b), cx. repeat split; assumption.
  - destruct (is_valid_connection (node_genome g) (id a, id b) (config g))
      as [[|]|e] eqn:Ev; [| apply IH | left; reflexivity].
    right. right.
    destruct (random_choice2_In _ _ _ _ _ Er) as [Ha Hb].
    eexists a, b, _. split; [assumption|]. split; [assumption|].
    split; [assumption|]. split; [assumption|].
    match goal with
    | |- context [update_node_layers ?x] =>
        assert (Hc := update_node_layers_connections x);
        destruct (update_node_layers x) as [r g']
    end.
    exact Hc.
Qed.

Lemma add_connection_run (g : CPPN) (gl : Globals) :
  add_connection (g, gl) =
  match add_connection_attempts 20 (g, gl) with
  | (Ok _, (g', gl')) => (Ok tt, (set_image None g', gl'))
  | (Raise e, st) => (Raise e, st)
  end.
Proof.
  unfold add_connection, bind.
  destruct (add_connection_attempts 20 (g, gl)) as [[[]|e] [g' gl']];
    reflexivity.
Qed.

Lemma all_attempts_fail_run (n : nat) :
  forall g gl,
    all_attempts_fail n g gl ->
    exists gl', add_connection_attempts n (g, gl) = (Ok tt, (g, gl')).
Proof.
  induction n as [|n IH]; intros g gl H.
  - exists gl. reflexivity.
  - destruct H as [a [b [gl1 [Er [Ef [Ev H]]]]]].
    rewrite add_connection_attempts_S, Er. cbn [fst snd].
    rewrite Ef, Ev. apply IH. assumption.
Qed.

(** Failed attempts only move the generator. *)
Lemma attempts_fail_to_run (k : nat) :
  forall g gl gl',
    attempts_fail_to k g gl gl' ->
    forall m,
      add_connection_attempts (k + m) (g, gl)
      = add_connection_attempts m (g, gl').
Proof.
  induction k as [|k IH]; intros g gl gl' H m.
  - cbn in H. subst gl'. reflexivity.
  - destruct H as [a [b [gl1 [Er [Ef [Ev H]]]]]].
    cbn [Nat.add]. rewrite add_connection_attempts_S, Er. cbn [fst snd].
    rewrite Ef, Ev. apply IH. assumption.
Qed.

(** C7. One call of [add_connection] (1) leaves the connections as they
    are, or enables one disabled connection, or appends one connection
    under a key that was absent and that the validity check accepts;
    (2) at whichever attempt it first draws a pair that is already
    connected, the attempts before having failed, it stops there: it draws
    no further pair and enables the connection exactly when it was
    disabled and the draw falls below [prob_reenable_connection]; (3) when all 20 attempts draw pairs
    that are neither connected nor valid the genome is unchanged (only the
    cached image is dropped); (4) when no unconnected pair is valid the
    number of connections is unchanged. *)
Theorem add_connection_spec (g : CPPN) (gl : Globals) :
  add_connection_outcome g (fst (snd (add_connection (g, gl)))) /\
  (forall k gl_k a b gl1 cx,
     (k < 20)%nat -> attempts_fail_to k g gl gl_k ->
     random_choice2 (node_genome g) gl_k = (Ok (a, b), gl1) ->
     find_cx (connection_genome g) (id a, id b) = Some cx ->
     add_connection (g, gl) =
     (Ok tt,
      if enabled cx then (set_image None g, gl1)
      else if Qltb (next_rand gl1 * (1 - 0) + 0)
                (prob_reenable_connection (config g))
           then (set_image None
                   (set_connection_genome
                      (update_cx (id a, id b) (set_enabled true)
                         (connection_genome g)) g),
                 after_rand gl1)
           else (set_image None g, after_rand gl1))) /\
  (all_attempts_fail 20 g gl ->
   exists gl', add_connection (g, gl) = (Ok tt, (set_image None g, gl'))) /\
  (no_valid_new_connection g ->
   List.length (connection_genome (fst (snd (add_connection (g, gl)))))
   = List.length (connection_genome g)).
Proof.
  assert (Hout : add_connection_outcome g
                   (fst (snd (add_connection (g, gl))))).
  { rewrite add_connection_run.
    assert (H := add_connection_attempts_outcome 20 g gl).
    destruct (add_connection_attempts 20 (g, gl)) as [[[]|e] [g' gl']];
      exact H. }
  split; [exact Hout|]. split; [|split].
  - intros k gl_k a b gl1 cx Hk Hfail Er Ef.
    rewrite add_connection_run.
    replace 20%nat with (k + S (19 - k))%nat by lia.
    rewrite (attempts_fail_to_run k g gl gl_k Hfail),
      add_connection_attempts_S, Er.
    cbn [fst snd]. rewrite Ef.
    destruct (enabled cx); [reflexivity|].
    destruct (Qltb _ _); reflexivity.
  - intros H. apply all_attempts_fail_run in H. destruct H as [gl' E].
    exists gl'. rewrite add_connection_run, E. reflexivity.
  - intros Hno.
    destruct Hout as [E | [[k [c [_ [_ E]]]] | [a [b [w [Ha [Hb [Ef [Ev _]]]]]]]]].
    + rewrite E. reflexivity.
    + rewrite E. unfold update_cx. apply length_map.
    + exfalso. apply (Hno a b Ha Hb Ef Ev).
Qed.

Lemma full_genome_no_valid_new : no_valid_new_connection full_genome.
Proof.
  intros a b Ha Hb. simpl in Ha, Hb.
  destruct Ha as [<-|[<-|[<-|[]]]]; destruct Hb as [<-|[<-|[<-|[]]]];
    vm_compute; congruence.
Defined.

Lemma full_genome_attempts_fail :
  all_attempts_fail 20 full_genome (example_globals []).
Proof.
  do 20 (exists (example_node (-1) INPUT 0), (example_node (-2) INPUT 0),
           (example_globals []);
         split; [reflexivity|]; split; [reflexivity|];
         split; [reflexivity|]).
  exact I.
Defined.

(** C7 (witness) *)
Lemma add_connection_spec_witness :
  no_valid_new_connection full_genome /\
  all_attempts_fail 20 full_genome (example_globals []) /\
  (exists gl',
     add_connection (full_genome, example_globals [])
     = (Ok tt, (set_image None full_genome, gl'))) /\
  List.length
    (connection_genome
       (fst (snd (add_connection (full_genome, example_globals [])))))
  = 2%nat /\
  attempts_fail_to 1 full_genome (example_globals [0; 0; 0; 1]%nat)
    (example_globals [0; 1]%nat) /\
  add_connection (full_genome, example_globals [0; 0; 0; 1]%nat)
  = (Ok tt, (set_image None full_genome, example_globals [])).
Proof.
  split; [exact full_genome_no_valid_new|].
  split; [exact full_genome_attempts_fail|].
  assert (Hfail : attempts_fail_to 1 full_genome
                    (example_globals [0; 0; 0; 1]%nat)
                    (example_globals [0; 1]%nat)).
  { exists (example_node (-1) INPUT 0), (example_node (-2) INPUT 0),
      (example_globals [0; 1]%nat).
    split; [reflexivity|]. split; [reflexivity|]. split; reflexivity. }
  destruct (add_connection_spec full_genome (example_globals []))
    as [_ [_ [H3 H4]]].
  split; [exact (H3 full_genome_attempts_fail)|].
  split; [rewrite (H4 full_genome_no_valid_new); reflexivity|].
  split; [exact Hfail|].
  destruct (add_connection_spec full_genome
              (example_globals [0; 0; 0; 1]%nat)) as [_ [H2 _]].
  exact (H2 1%nat (example_globals [0; 1]%nat) (example_node (-1) INPUT 0)
           (example_node (-3) OUTPUT 1) (example_globals [])
           (example_cx (-1) (-3) true) ltac:(lia) Hfail eq_refl eq_refl).
Defined.

(** ** The scores across the mutation operators *)

Section KeepsScores.

Context {A B : Type}.

Lemma ks_ret (a : A) : keeps_scores (ret a).
Proof. intros st. reflexivity. Qed.

Lemma ks_raise (e : exn) : keeps_scores (@raise St A e).
Proof. intros st. reflexivity. Qed.

Lemma ks_bind (m : M St A) (k : A -> M St B) :
  keeps_scores m -> (forall a, keeps_scores (k a)) ->
  keeps_scores (bind m k).
Proof.
  intros Hm Hk st. unfold bind. specialize (Hm st).
  destruct (m st) as [[a|e] st']; simpl in *.
  - rewrite (Hk a st'). assumption.
  - assumption.
Qed.

Lemma ks_lift_glob (m : M Globals A) : keeps_scores (lift_glob m).
Proof.
  intros st. unfold lift_glob. destruct (m (snd st)). reflexivity.
Qed.

Lemma ks_lift_result (r : result A) : keeps_scores (lift_result r).
Proof. intros st. reflexivity. Qed.

Lemma ks_lift_self (m : M CPPN A) :
  (forall g, scores (snd (m g)) = scores g) -> keeps_scores (lift_self m).
Proof.
  intros H st. unfold lift_self. specialize (H (fst st)).
  destruct (m (fst st)). assumption.
Qed.

End KeepsScores.

Lemma ks_for_each {A : Type} (l : list A) (f : A -> M St unit) :
  (forall a, keeps_scores (f a)) -> keeps_scores (for_each l f).
Proof.
  intros H. induction l as [|a l IH]; simpl.
  - apply ks_ret.
  - apply ks_bind; [apply H | intros _; exact IH].
Qed.

Lemma ks_get_self : keeps_scores get_self.
Proof. intros st. reflexivity. Qed.

Lemma ks_modify_self (f : CPPN -> CPPN) :
  (forall g, scores (f g) = scores g) -> keeps_scores (modify_self f).
Proof. intros H st. apply H. Qed.

Lemma ks_modify_cxs (f : list Connection -> list Connection) :
  keeps_scores (modify_cxs f).
Proof. apply ks_modify_self. reflexivity. Qed.

Lemma ks_modify_nodes (f : list Node -> list Node) :
  keeps_scores (modify_nodes f).
Proof. apply ks_modify_self. reflexivity. Qed.

Lemma ks_set_image (im : option image_t) :
  keeps_scores (modify_self (set_image im)).
Proof. apply ks_modify_self. reflexivity. Qed.

Lemma ks_update_node_layers : keeps_scores (lift_self update_node_layers).
Proof.
  apply ks_lift_self. intros g. rewrite update_node_layers_spec. reflexivity.
Qed.

Lemma ks_get_new_node_id : keeps_scores get_new_node_id.
Proof.
  intros [g gl]. unfold get_new_node_id.
  destruct (node_indexer gl).
  - destruct (mem _ _); reflexivity.
  - destruct (node_genome g); [reflexivity|].
    destruct (mem _ _); reflexivity.
Qed.

Lemma ks_assert_new_key (k : Z * Z) : keeps_scores (assert_new_key k).
Proof.
  apply ks_bind; [apply ks_get_self|]. intros g.
  destruct (existsb _ _); [apply ks_raise | apply ks_ret].
Qed.

Ltac ks_step :=
  first
    [ apply ks_bind; [|intros ?]
    | apply ks_ret
    | apply ks_raise
    | apply ks_lift_glob
    | apply ks_lift_result
    | apply ks_get_self
    | apply ks_modify_cxs
    | apply ks_modify_nodes
    | apply ks_set_image
    | apply ks_update_node_layers
    | apply ks_get_new_node_id
    | apply ks_assert_new_key
    | apply ks_for_each; intros ?
    | match goal with
      | |- keeps_scores (match ?x with _ => _ end) => destruct x
      end ].

Ltac ks := repeat ks_step.

Lemma ks_add_node : keeps_scores add_node.
Proof. unfold add_node. ks. Qed.

Lemma ks_remove_node : keeps_scores remove_node.
Proof. unfold remove_node, disable_invalid_connections. ks. Qed.

Lemma ks_add_connection_attempts (n : nat) :
  keeps_scores (add_connection_attempts n).
Proof.
  induction n as [|n IH]; cbn [add_connection_attempts]; ks;
    try exact IH; apply ks_modify_self; reflexivity.
Qed.

Lemma ks_add_connection : keeps_scores add_connection.
Proof.
  unfold add_connection.
  apply ks_bind; [apply ks_add_connection_attempts|].
  intros _. apply ks_set_image.
Qed.

Lemma ks_disable_connection : keeps_scores disable_connection.
Proof. unfold disable_connection. ks. Qed.

Lemma ks_mutate_activations (prob : Q) :
  keeps_scores (mutate_activations prob).
Proof. unfold mutate_activations. ks. Qed.

Lemma ks_clamp_weights : keeps_scores clamp_weights.
Proof. unfold clamp_weights. ks. Qed.

Lemma ks_mutate_weights (prob : Q) : keeps_scores (mutate_weights prob).
Proof. unfold mutate_weights. ks. Qed.

Lemma ks_with_probability (rate : Q) (op : M St unit) :
  keeps_scores op -> keeps_scores (with_probability rate op).
Proof. intros H. unfold with_probability. ks. exact H. Qed.

Lemma ks_mutate_operators (rates : option Rates) :
  keeps_scores (mutate_operators rates).
Proof.
  unfold mutate_operators.
  apply ks_bind; [apply ks_get_self|]. intros g. cbv zeta.
  apply ks_bind; [apply ks_with_probability, ks_add_node|]. intros _.
  apply ks_bind; [apply ks_with_probability, ks_remove_node|]. intros _.
  apply ks_bind; [apply ks_with_probability, ks_add_connection|]. intros _.
  apply ks_bind; [apply ks_with_probability, ks_disable_connection|].
  intros _.
  apply ks_bind; [apply ks_mutate_activations|]. intros _.
  apply ks_bind; [apply ks_mutate_weights|]. intros _.
  apply ks_bind; [apply ks_update_node_layers|]. intros _.
  apply ks_set_image.
Qed.

(** C10. Whatever the rates and the random draws, [mutate] first sets
    fitness, adjusted fitness and novelty to zero and then runs the
    operators, none of which assigns a score: after the call the three
    scores are zero, also when an operator raised. *)
Theorem mutate_resets_scores (rates : option Rates) (st : St) :
  mutate rates st
  = mutate_operators rates (set_scores 0 0 0 (fst st), snd st) /\
  scores (set_scores 0 0 0 (fst st)) = (0%Q, 0%Q, 0%Q) /\
  keeps_scores (mutate_operators rates) /\
  fitness (fst (snd (mutate rates st))) = 0%Q /\
  adjusted_fitness (fst (snd (mutate rates st))) = 0%Q /\
  novelty (fst (snd (mutate rates st))) = 0%Q.
Proof.
  assert (E : mutate rates st
              = mutate_operators rates (set_scores 0 0 0 (fst st), snd st))
    by reflexivity.
  split; [exact E|]. split; [reflexivity|].
  split; [apply ks_mutate_operators|].
  assert (H := ks_mutate_operators rates (set_scores 0 0 0 (fst st), snd st)).
  rewrite <- E in H. unfold scores in H. cbn [fst snd] in H.
  injection H as H1 H2 H3. auto.
Qed.

(** The evolutionary loop's [mutate] ends with the three scores at zero
    as well. *)
Lemma ea_mutate_resets_scores (rates : Rates) (st : St) :
  scores (fst (snd (ea_mutate rates st))) = (0%Q, 0%Q, 0%Q).
Proof.
  unfold ea_mutate, bind, modify_self. cbn [fst snd].
  destruct (mutate_resets_scores (Some rates)
              (set_scores 0 0 (novelty (fst st)) (fst st), snd st))
    as [_ [_ [_ [H1 [H2 H3]]]]].
  unfold scores. rewrite H1, H2, H3. reflexivity.
Qed.

(** ** [crossover] *)

Lemma Qltb_lt (a b : Q) : Qltb a b = true <-> (a < b)%Q.
Proof.
  unfold Qltb. rewrite negb_true_iff. split.
  - intros H. apply Qnot_le_lt. intros Hle.
    apply Qle_bool_iff in Hle. congruence.
  - intros H. apply not_true_is_false. intros Hle.
    apply Qle_bool_iff in Hle. apply (Qlt_not_le _ _ H). assumption.
Qed.

Lemma find_cx_None (cs : list Connection) (k : Z * Z) :
  find_cx cs k = None <-> ~ In k (map key_ cs).
Proof.
  unfold find_cx. split.
  - intros H Hin. apply in_map_iff in Hin. destruct Hin as [c [E Hc]].
    apply (find_none _ _ H) in Hc. rewrite E, key_eqb_refl in Hc.
    discriminate.
  - intros H. destruct (find _ cs) as [c|] eqn:F; [|reflexivity].
    exfalso. apply find_some in F. destruct F as [Hc E].
    apply key_eqb_eq in E. apply H. rewrite <- E. apply in_map. assumption.
Qed.

Lemma find_cx_key (cs : list Connection) (k : Z * Z) (c : Connection) :
  find_cx cs k = Some c -> In c cs /\ key_ c = k.
Proof.
  unfold find_cx. intros H. apply find_some in H.
  rewrite key_eqb_eq in H. assumption.
Qed.

Lemma find_node_None (ns : list Node) (k : Z) :
  find_node ns k = None <-> ~ In k (map id ns).
Proof.
  rewrite <- find_node_Some. split.
  - intros H [n Hn]. congruence.
  - intros H. destruct (find_node ns k) as [n|] eqn:F; [|reflexivity].
    exfalso. apply H. exists n. reflexivity.
Qed.

Lemma CPPN_init_empty (cfg : Config) (gl : Globals) (d : string) :
  device cfg = Some d ->
  exists child gl',
    CPPN_init cfg (Some []) (Some []) gl = (Ok child, gl') /\
    node_genome child = [] /\ connection_genome child = [] /\
    config child = cfg /\
    rand_tape gl' = rand_tape gl.
Proof.
  intros Hd. unfold CPPN_init. rewrite Hd. simpl.
  eexists _, _. split; [reflexivity|]. repeat split.
Qed.

Lemma order_parents_spec (self other : CPPN) (gl : Globals) :
  exists p1 p2 gl',
    order_parents self other gl = (Ok (p1, p2), gl') /\
    ((p1 = self /\ p2 = other) \/ (p1 = other /\ p2 = self)) /\
    ~ (fitness p1 < fitness p2)%Q /\
    ((fitness other < fitness self)%Q -> p1 = self) /\
    ((fitness self < fitness other)%Q -> p1 = other).
Proof.
  unfold order_parents.
  destruct (Qltb (fitness other) (fitness self)) eqn:E1.
  - apply Qltb_lt in E1. exists self, other, gl.
    split; [reflexivity|]. split; [left; auto|].
    split; [apply Qle_not_lt, Qlt_le_weak; assumption|].
    split; [reflexivity|].
    intros H. exfalso. apply (Qlt_irrefl (fitness self)).
    eapply Qlt_trans; eassumption.
  - assert (N1 : ~ (fitness other < fitness self)%Q)
      by (rewrite <- Qltb_lt; congruence).
    destruct (Qltb (fitness self) (fitness other)) eqn:E2.
    + apply Qltb_lt in E2. exists other, self, gl.
      split; [reflexivity|]. split; [right; auto|].
      split; [assumption|]. split; [intros H; contradiction | reflexivity].
    + assert (N2 : ~ (fitness self < fitness other)%Q)
        by (rewrite <- Qltb_lt; congruence).
      unfold coin, bind, torch_rand, ret.
      destruct (Qltb (next_rand gl) (1 # 2)).
      * exists self, other, (after_rand gl).
        split; [reflexivity|]. split; [left; auto|].
        split; [assumption|]. split; intros H; contradiction.
      * exists other, self, (after_rand gl).
        split; [reflexivity|]. split; [right; auto|].
        split; [assumption|]. split; intros H; contradiction.
Qed.

Lemma Connection_crossover_spec (c1 c2 : Connection) (gl : Globals) :
  key_ c2 = key_ c1 ->
  exists c gl',
    Connection_crossover c1 c2 gl = (Ok c, gl') /\
    key_ c = key_ c1 /\
    (weight c = weight c1 \/ weight c = weight c2) /\
    (enabled c = enabled c1 \/ enabled c = enabled c2).
Proof.
  intros E. unfold Connection_crossover. rewrite E, key_eqb_refl.
  unfold bind, coin, bind, torch_rand, ret.
  eexists _, _. split; [reflexivity|]. simpl.
  split; [reflexivity|].
  split; match goal with |- context [Qltb ?a ?b] => destruct (Qltb a b) end;
    auto.
Qed.

Lemma Node_crossover_spec (n1 n2 : Node) (gl : Globals) :
  id n2 = id n1 ->
  exists n gl',
    Node_crossover n1 n2 gl = (Ok n, gl') /\
    id n = id n1 /\
    (activation n = activation n1 \/ activation n = activation n2) /\
    (type n = type n1 \/ type n = type n2).
Proof.
  intros E. unfold Node_crossover. rewrite E, Z.eqb_refl.
  unfold bind, coin, bind, torch_rand, ret.
  eexists _, _. split; [reflexivity|]. simpl.
  split; [reflexivity|].
  split; match goal with |- context [Qltb ?a ?b] => destruct (Qltb a b) end;
    auto.
Qed.

(** The loop over the connections of the fitter parent appends one
    inherited connection per connection, in order. *)
Lemma inherit_connections_spec (p2 : CPPN) (l : list Connection) :
  forall child gl,
    NoDup (map key_ l) ->
    (forall c, In c l -> ~ In (key_ c) (map key_ (connection_genome child))) ->
    exists l' gl',
      for_each l (inherit_connection p2) (child, gl) =
      (Ok tt,
       (set_connection_genome (connection_genome child ++ l') child, gl')) /\
      Forall2 (cx_inherited (connection_genome p2)) l l'.
Proof.
  induction l as [|c1 l IH]; intros child gl Hnd Hfresh.
  - exists [], gl. split; [|constructor]. simpl. unfold ret.
    rewrite app_nil_r. destruct child; reflexivity.
  - inversion Hnd as [|x xs Hx Hnd']; subst.
    assert (Hstep : exists c gl1,
               inherit_connection p2 c1 (child, gl) =
               (Ok tt,
                (set_connection_genome (connection_genome child ++ [c])
                   child, gl1)) /\
               cx_inherited (connection_genome p2) c1 c).
    { unfold inherit_connection, cx_inherited.
      assert (Hf : forall c, key_ c = key_ c1 ->
                     dict_set_cx c (connection_genome child)
                     = connection_genome child ++ [c]).
      { intros c E. unfold dict_set_cx.
        assert (Hn : find_cx (connection_genome child) (key_ c) = None).
        { apply find_cx_None. rewrite E. apply Hfresh. left. reflexivity. }
        rewrite Hn. reflexivity. }
      destruct (find_cx (connection_genome p2) (key_ c1)) as [c2|] eqn:F.
      - apply find_cx_key in F. destruct F as [_ Ek].
        destruct (Connection_crossover_spec c1 c2 gl Ek)
          as [c [gl1 [Ec [Hk [Hw He]]]]].
        exists c, gl1. split; [|auto].
        unfold bind, lift_glob, modify_cxs, modify_self. cbn [fst snd].
        rewrite Ec. cbn [fst snd]. rewrite (Hf c Hk). reflexivity.
      - exists (Connection_copy c1), gl. split; [|simpl; auto].
        unfold modify_cxs, modify_self. cbn [fst snd].
        rewrite (Hf (Connection_copy c1) eq_refl). reflexivity. }
    destruct Hstep as [c [gl1 [Es Hc]]].
    destruct (IH (set_connection_genome (connection_genome child ++ [c]) child)
                gl1 Hnd') as [l' [gl' [El Hl]]].
    { intros d Hd Hin. simpl in Hin. rewrite map_app in Hin.
      apply in_app_or in Hin. destruct Hin as [Hin|Hin].
      - apply (Hfresh d (or_intror Hd) Hin).
      - simpl in Hin. destruct Hin as [Hin|[]].
        destruct Hc as [Hk _]. apply Hx. rewrite <- Hk, Hin.
        apply in_map. assumption. }
    exists (c :: l'), gl'. split; [|constructor; assumption].
    cbn [for_each]. unfold bind at 1. rewrite Es, El.
    cbn [connection_genome set_connection_genome].
    rewrite <- app_assoc. reflexivity.
Qed.

Lemma inherit_nodes_spec (p2 : CPPN) (l : list Node) :
  forall child gl,
    NoDup (map id l) ->
    (forall n, In n l -> ~ In (id n) (map id (node_genome child))) ->
    exists l' gl',
      for_each l (inherit_node p2) (child, gl) =
      (Ok tt, (set_node_genome (node_genome child ++ l') child, gl')) /\
      Forall2 (node_inherited (node_genome p2)) l l'.
Proof.
  induction l as [|n1 l IH]; intros child gl Hnd Hfresh.
  - exists [], gl. split; [|constructor]. simpl. unfold ret.
    rewrite app_nil_r. destruct child; reflexivity.
  - inversion Hnd as [|x xs Hx Hnd']; subst.
    assert (Hstep : exists n gl1,
               inherit_node p2 n1 (child, gl) =
               (Ok tt,
                (set_node_genome (node_genome child ++ [n]) child, gl1)) /\
               node_inherited (node_genome p2) n1 n).
    { unfold inherit_node, node_inherited.
      assert (Hn1 : ~ In (id n1) (map id (node_genome child)))
        by (apply Hfresh; left; reflexivity).
      assert (Hf : forall n, id n = id n1 ->
                     dict_set_node n (node_genome child)
                     = node_genome child ++ [n]).
      { intros n E. unfold dict_set_node.
        assert (Hn : find_node (node_genome child) (id n) = None)
          by (apply find_node_None; rewrite E; assumption).
        rewrite Hn. reflexivity. }
      unfold bind at 1. unfold get_self at 1. cbn [fst snd].
      apply not_mem_In in Hn1. rewrite Hn1.
      destruct (find_node (node_genome p2) (id n1)) as [n2|] eqn:F.
      - apply find_node_id in F. destruct F as [_ Ek].
        destruct (Node_crossover_spec n1 n2 gl Ek)
          as [n [gl1 [Ec [Hk [Ha Ht]]]]].
        exists n, gl1. split; [|auto].
        unfold bind, lift_glob, modify_nodes, modify_self. cbn [fst snd].
        rewrite Ec. cbn [fst snd]. rewrite (Hf n Hk). reflexivity.
      - exists (Node_copy n1), gl. split; [|simpl; auto].
        unfold modify_nodes, modify_self. cbn [fst snd].
        rewrite (Hf (Node_copy n1) eq_refl). reflexivity. }
    destruct Hstep as [n [gl1 [Es Hc]]].
    destruct (IH (set_node_genome (node_genome child ++ [n]) child)
                gl1 Hnd') as [l' [gl' [El Hl]]].
    { intros d Hd Hin. simpl in Hin. rewrite map_app in Hin.
      apply in_app_or in Hin. destruct Hin as [Hin|Hin].
      - apply (Hfresh d (or_intror Hd) Hin).
      - simpl in Hin. destruct Hin as [Hin|[]].
        destruct Hc as [Hk _]. apply Hx. rewrite <- Hk, Hin.
        apply in_map. assumption. }
    exists (n :: l'), gl'. split; [|constructor; assumption].
    cbn [for_each]. unfold bind at 1. rewrite Es, El.
    cbn [node_genome set_node_genome].
    rewrite <- app_assoc. reflexivity.
Qed.

Lemma Forall2_cx_keys (p2 l l' : list Connection) :
  Forall2 (cx_inherited p2) l l' -> map key_ l' = map key_ l.
Proof.
  induction 1 as [|c1 c l l' [Hk _] _ IH]; simpl; [reflexivity|].
  rewrite Hk, IH. reflexivity.
Qed.

Lemma Forall2_node_ids (p2 l l' : list Node) :
  Forall2 (node_inherited p2) l l' -> map id l' = map id l.
Proof.
  induction 1 as [|n1 n l l' [Hk _] _ IH]; simpl; [reflexivity|].
  rewrite Hk, IH. reflexivity.
Qed.

Lemma Forall2_map_r {A B : Type} (R : A -> B -> Prop) (f : B -> B)
  (l : list A) (l' : list B) :
  (forall a b, R a b -> R a (f b)) ->
  Forall2 R l l' -> Forall2 R l (map f l').
Proof.
  intros Hf. induction 1; simpl; constructor; auto.
Qed.

(** C4. For parents with unique keys whose connections join their own
    nodes, [crossover] returns a child.  With [p1] the parent the code
    ranks first (the strictly fitter one; either one when the fitnesses are
    equal) and [p2] the other: the child has exactly the connection keys
    and node ids of [p1], so none found only in [p2]; and each attribute of
    each gene (weight and enabled flag; activation and type) is the value
    of the gene of that key in [p1] or in [p2], the value of [p1] when [p2]
    has no such gene. *)
Theorem crossover_inherits (self other : CPPN) (gl : Globals) :
  device (config self) <> None ->
  dict_ok self -> dict_ok other ->
  endpoints_exist self -> endpoints_exist other ->
  exists child gl' p1 p2,
    crossover self other gl = (Ok child, gl') /\
    ((p1 = self /\ p2 = other) \/ (p1 = other /\ p2 = self)) /\
    ~ (fitness p1 < fitness p2)%Q /\
    ((fitness other < fitness self)%Q -> p1 = self) /\
    ((fitness self < fitness other)%Q -> p1 = other) /\
    map key_ (connection_genome child) = map key_ (connection_genome p1) /\
    map id (node_genome child) = map id (node_genome p1) /\
    Forall2 (cx_inherited (connection_genome p2))
      (connection_genome p1) (connection_genome child) /\
    Forall2 (node_inherited (node_genome p2))
      (node_genome p1) (node_genome child) /\
    parents child = (cppn_id p1, cppn_id p2).
Proof.
  intros Hdev Hds Hdo Hes Heo.
  destruct (device (config self)) as [d|] eqn:Ed; [|contradiction].
  destruct (CPPN_init_empty (config self) gl d Ed)
    as [child0 [gl0 [Ei [Hn0 [Hc0 _]]]]].
  destruct (order_parents_spec self other gl0)
    as [p1 [p2 [gl1 [Eo [Hp [Hfit [Hgt Hlt]]]]]]].
  assert (Hd1 : dict_ok p1) by (destruct Hp as [[-> _]|[-> _]]; assumption).
  assert (He1 : endpoints_exist p1)
    by (destruct Hp as [[-> _]|[-> _]]; assumption).
  destruct Hd1 as [Hnd_n Hnd_c].
  destruct (inherit_connections_spec p2 (connection_genome p1) child0 gl1
              Hnd_c) as [lc [gl2 [Ec Hlc]]].
  { intros c _. rewrite Hc0. simpl. tauto. }
  set (child1 := set_connection_genome (connection_genome child0 ++ lc)
                   child0) in *.
  destruct (inherit_nodes_spec p2 (node_genome p1) child1 gl2 Hnd_n)
    as [ln [gl3 [En Hln]]].
  { intros n _. unfold child1. simpl. rewrite Hn0. simpl. tauto. }
  set (child2 := set_node_genome (node_genome child1 ++ ln) child1) in *.
  set (child3 := set_parents (cppn_id p1, cppn_id p2) child2).
  assert (Hcx3 : connection_genome child3 = lc)
    by (unfold child3, child2, child1; simpl; rewrite Hc0; reflexivity).
  assert (Hnd3 : node_genome child3 = ln)
    by (unfold child3, child2, child1; simpl; rewrite Hn0; reflexivity).
  assert (Hk3 : map key_ lc = map key_ (connection_genome p1))
    by (eapply Forall2_cx_keys; eassumption).
  assert (Hi3 : map id ln = map id (node_genome p1))
    by (eapply Forall2_node_ids; eassumption).
  assert (He3 : endpoints_exist child3).
  { intros c Hc. rewrite Hnd3, Hi3. rewrite Hcx3 in Hc.
    assert (Hin : In (key_ c) (map key_ (connection_genome p1)))
      by (rewrite <- Hk3; apply in_map; assumption).
    apply in_map_iff in Hin. destruct Hin as [c' [E Hc']].
    rewrite <- E. apply He1. assumption. }
  eexists _, gl3, p1, p2. split.
  { unfold crossover, bind. rewrite Ei, Eo. cbn [fst snd].
    unfold bind. rewrite Ec. fold child1. rewrite En. fold child2.
    unfold modify_self, lift_self. cbn [fst snd]. fold child3.
    rewrite (update_node_layers_ok child3 He3). reflexivity. }
  split; [assumption|]. split; [assumption|].
  split; [assumption|]. split; [assumption|].
  cbn [connection_genome node_genome set_node_genome parents].
  rewrite Hcx3, Hnd3.
  split; [assumption|]. split; [rewrite map_map; exact Hi3|].
  split; [assumption|]. split; [|reflexivity].
  apply Forall2_map_r; [|assumption].
  intros a b H. exact H.
Qed.

(** C4 (witness) *)
Lemma crossover_inherits_witness :
  device (config stale_genome) <> None /\
  dict_ok stale_genome /\ dict_ok full_genome /\
  endpoints_exist stale_genome /\ endpoints_exist full_genome /\
  exists child gl',
    crossover stale_genome full_genome (example_globals []) = (Ok child, gl')
    /\ (map key_ (connection_genome child)
        = map key_ (connection_genome stale_genome)
        \/ map key_ (connection_genome child)
           = map key_ (connection_genome full_genome)).
Proof.
  assert (H0 : device (config stale_genome) <> None) by discriminate.
  assert (H1 : dict_ok stale_genome) by solve_dict_ok.
  assert (H2 : dict_ok full_genome) by solve_dict_ok.
  assert (H3 : endpoints_exist stale_genome) by solve_endpoints.
  assert (H4 : endpoints_exist full_genome) by solve_endpoints.
  repeat (split; [assumption|]).
  destruct (crossover_inherits stale_genome full_genome (example_globals [])
              H0 H1 H2 H3 H4)
    as [child [gl' [p1 [p2 [E [Hp [_ [_ [_ [Hk _]]]]]]]]]].
  exists child, gl'. split; [exact E|].
  destruct Hp as [[-> _]|[-> _]]; [left | right]; exact Hk.
Defined.

(** ** Genetic distance *)

Lemma filter_none {A : Type} (f : A -> bool) (l : list A) :
  (forall x, In x l -> f x = false) -> filter f l = [].
Proof.
  induction l as [|a l IH]; intros H; simpl; [reflexivity|].
  rewrite (H a (or_introl eq_refl)). apply IH.
  intros x Hx. apply H. right. assumption.
Qed.

Lemma key_in_own (c : Connection) (l : list Connection) :
  In c l -> key_in (key_ c) (map key_ l) = true.
Proof.
  intros H. unfold key_in. apply existsb_exists. exists (key_ c).
  split; [apply in_map; assumption | apply key_eqb_refl].
Qed.

Lemma get_excess_connections_self (l : list Connection) :
  get_excess_connections l (map key_ l) = [].
Proof.
  unfold get_excess_connections. destruct l as [|c l]; [reflexivity|].
  destruct (rev (map key_ (c :: l))); [reflexivity|].
  apply filter_none. intros x Hx. rewrite (key_in_own x _ Hx). reflexivity.
Qed.

Lemma get_disjoint_connections_self (l : list Connection) :
  get_disjoint_connections l (map key_ l) = [].
Proof.
  unfold get_disjoint_connections. destruct l as [|c l]; [reflexivity|].
  destruct (rev (map key_ (c :: l))); [reflexivity|].
  apply filter_none. intros x Hx. rewrite (key_in_own x _ Hx). reflexivity.
Qed.

Lemma fold_Qplus_zeros (l : list Q) (a : Q) :
  Forall (fun q => q == 0)%Q l -> (fold_left Qplus l a == a)%Q.
Proof.
  intros H. revert a. induction H as [|q l Hq _ IH]; intros a; simpl.
  - reflexivity.
  - rewrite IH, Hq. apply Qplus_0_r.
Qed.

Lemma mean_zeros (l : list Q) :
  Forall (fun q => q == 0)%Q l -> (mean l == 0)%Q.
Proof.
  intros H. unfold mean, Qsum, Qdiv.
  rewrite (fold_Qplus_zeros l 0 H). apply Qmult_0_l.
Qed.

Lemma weight_differences_self (l : list Connection) :
  Forall (fun q => q == 0)%Q
    (map (fun ot => Qabs (weight (fst ot) - weight (snd ot))%Q)
       (combine l l)).
Proof.
  induction l as [|c l IH]; simpl; constructor; [|assumption].
  simpl. assert (E : (weight c - weight c == 0)%Q) by apply Qplus_opp_r.
  rewrite (Qabs_wd _ _ E). reflexivity.
Qed.

Lemma activation_differences_self (l : list Node) :
  filter (fun to => negb (String.eqb (fn_name (activation (fst to)))
                            (fn_name (activation (snd to)))))
    (combine l l) = [].
Proof.
  apply filter_none. intros [a b] H.
  assert (E : a = b).
  { clear -H. induction l as [|n l IH]; simpl in H; [contradiction|].
    destruct H as [H|H]; [injection H as <- <-; reflexivity | auto]. }
  subst b. simpl. rewrite String.eqb_refl. reflexivity.
Qed.

(** C8. The genetic distance of a genome to itself is zero: no excess and
    no disjoint connection, every matching weight difference is zero and no
    activation differs, so the weighted sum is 0. *)
Theorem genetic_difference_self (g : CPPN) :
  let cxs := sorted_by_key (enabled_connections g) in
  get_excess_connections cxs (map key_ cxs) = [] /\
  get_disjoint_connections cxs (map key_ cxs) = [] /\
  Forall (fun q => q == 0)%Q
    (map (fun ot => Qabs (weight (fst ot) - weight (snd ot))%Q)
       (combine (snd (get_matching_connections cxs cxs))
          (fst (get_matching_connections cxs cxs)))) /\
  (genetic_difference g g == 0)%Q.
Proof.
  intros cxs.
  split; [apply get_excess_connections_self|].
  split; [apply get_disjoint_connections_self|].
  split; [apply weight_differences_self|].
  unfold genetic_difference. fold cxs.
  rewrite get_excess_connections_self, get_disjoint_connections_self.
  unfold get_matching_connections. cbv zeta.
  rewrite activation_differences_self.
  set (m := sorted_by_key _).
  assert (Hd := weight_differences_self m).
  set (D := map _ (combine m m)) in *.
  assert (HD : (match D with [] => 0 | _ :: _ => mean D end == 0)%Q).
  { destruct D eqn:ED; [reflexivity|]. rewrite <- ED in *.
    apply mean_zeros. assumption. }
  rewrite HD. simpl List.length. unfold nat_to_Q at 1 2 3 4 5.
  simpl Z.of_nat.
  destruct (0 <? Nat.max _ _)%nat.
  - unfold Qdiv. rewrite !Qmult_0_l. reflexivity.
  - reflexivity.
Qed.

(** ** Construction scenario *)

Lemma rand_tape_ok_next (gl : Globals) :
  rand_tape_ok gl ->
  (0 <= next_rand gl)%Q /\ (next_rand gl < 1)%Q /\ rand_tape_ok (after_rand gl).
Proof.
  unfold rand_tape_ok, next_rand, after_rand. intros H.
  destruct (rand_tape gl) as [|q t]; simpl.
  - repeat split; [apply Qle_refl | constructor].
  - inversion H as [|x xs [H0 H1] Ht]; subst. repeat split; assumption.
Qed.

Lemma never_above_one (p r : Q) :
  (p == 1)%Q -> (r < 1)%Q -> Qltb p r = false.
Proof.
  intros Hp Hr. apply not_true_is_false. intros H.
  apply Qltb_lt in H. rewrite Hp in H.
  apply (Qlt_irrefl r). eapply Qlt_trans; eassumption.
Qed.

(** One round of the loop of [initialize_connection_genome] when the
    connection probability is 1: a new enabled connection. *)
Lemma connect_pair_enabled (cfg : Config) (g : CPPN) (gl : Globals)
  (a b : Node) :
  (init_connection_probability cfg == 1)%Q ->
  rand_tape_ok gl ->
  find_cx (connection_genome g) (id a, id b) = None ->
  exists w gl',
    connect_pair cfg (a, b) (g, gl)
    = (Ok tt,
       (set_connection_genome
          (connection_genome g ++ [mkConnection (id a, id b) w true false])
          g, gl')) /\
    rand_tape_ok gl'.
Proof.
  intros Hp Hok Hf.
  destruct (rand_tape_ok_next gl Hok) as [_ [_ Hok1]].
  destruct (rand_tape_ok_next _ Hok1) as [_ [Hlt Hok2]].
  eexists _, (after_rand (after_rand gl)). split; [|assumption].
  unfold connect_pair, bind, lift_glob, random_weight, random_uniform, bind,
    torch_rand, ret, modify_cxs, modify_self. cbn [fst snd].
  rewrite (never_above_one _ _ Hp Hlt).
  unfold dict_set_cx. cbn [key_]. rewrite Hf. reflexivity.
Qed.

Lemma scenario_construction (cfg : Config) (gl : Globals) (d : string) :
  device cfg = Some d ->
  use_radial_distance cfg = false -> use_input_bias cfg = false ->
  String.length (color_mode cfg) = 1%nat ->
  hidden_nodes_at_start cfg = 0%nat ->
  output_activation cfg = Some linear ->
  (init_connection_probability cfg == 1)%Q ->
  rand_tape_ok gl ->
  exists g gl' w0 w1,
    CPPN_init cfg None None gl = (Ok g, gl') /\
    config g = cfg /\
    node_genome g = scenario_nodes /\
    connection_genome g = scenario_connections w0 w1.
Proof.
  intros Hdev Hrad Hbias Hcol Hhid Hact Hp Hok.
  unfold CPPN_init. rewrite Hdev, Hrad, Hbias, Hcol.
  cbn [get_id Nat.add].
  set (gl1 := mkGlobals _ _ _ _ _).
  assert (Hok1 : rand_tape_ok gl1) by exact Hok.
  set (g0 := mkCPPN cfg None [] [] false 0 (current_id gl) (0, 0) 0 0 0 2 1).
  assert (En : initialize_node_genome (g0, gl1)
               = (Ok tt, (set_node_genome scenario_nodes g0, gl1))).
  { unfold initialize_node_genome, bind, get_self. cbn [fst snd].
    cbn [config g0 n_inputs n_outputs]. rewrite Hhid, Hact.
    reflexivity. }
  set (g1 := set_node_genome scenario_nodes g0) in *.
  set (a := mkNode identity (-1) INPUT 0 None None).
  set (b := mkNode identity (-2) INPUT 0 None None).
  set (o := mkNode linear (-3) OUTPUT 2 None None).
  destruct (connect_pair_enabled cfg g1 gl1 a o Hp Hok1 eq_refl)
    as [w0 [gl2 [E0 Hok2]]].
  set (g2 := set_connection_genome
               (connection_genome g1 ++ [mkConnection (id a, id o) w0 true false])
               g1) in *.
  destruct (connect_pair_enabled cfg g2 gl2 b o Hp Hok2 eq_refl)
    as [w1 [gl3 [E1 _]]].
  exists (set_connection_genome (scenario_connections w0 w1) g1), gl3, w0, w1.
  split; [|repeat split].
  unfold bind at 1. rewrite En.
  unfold initialize_connection_genome, bind at 1, get_self at 1.
  cbn [fst snd]. unfold bind at 1, lift_result at 1.
  change (get_output_layer_index g1) with (@Ok Z 2).
  change (layer_pairs g1 2) with [(a, o); (b, o)].
  cbn [for_each]. change (config g1) with cfg.
  change (layer_pairs g1 2) with [(a, o); (b, o)]. cbn [for_each].
  unfold bind. rewrite E0. cbv beta iota. rewrite E1. reflexivity.
Qed.

Lemma scenario_eval (ext : Externals) (g : CPPN) (w0 w1 : Q) :
  node_genome g = scenario_nodes ->
  connection_genome g = scenario_connections w0 w1 ->
  use_radial_distance (config g) = false ->
  use_input_bias (config g) = false ->
  num_outputs (config g) = 1%nat ->
  exists g',
    eval ext 0 0 g = (Ok [Scalar (0 + 0 * w0 + 0 * w1)%Q], g').
Proof.
  intros Hn Hc Hr Hb Ho. destruct g as [cfg im ns cs sel sp i pa f nv af ni no].
  simpl in *. subst ns cs.
  unfold eval, bind at 1, set_inputs, bind at 1, get. cbn [fst snd config].
  unfold features. rewrite Hr, Hb.
  eexists.
  unfold lift_nodes, input_nodes, scenario_nodes.
  cbn -[Qplus Qmult feed_forward].
  unfold feed_forward, bind at 1, get.
  unfold evaluation_order, feed_forward_layers, get_ids_from_individual,
    input_nodes, output_nodes, required_for_output, lift_nodes,
    serial_node_step.
  cbn -[Qplus Qmult stack_outputs].
  unfold stack_outputs, output_nodes.
  cbn -[Qplus Qmult]. rewrite Ho. cbn -[Qplus Qmult].
  reflexivity.
Qed.

(** C5 (amended). With 2 inputs, 1 output, no hidden node at start, a
    linear output activation and [init_connection_probability] = 1, the
    constructor returns a genome with exactly the two connections (-1,-3)
    and (-2,-3), both enabled; the output node is created on layer 2 (the
    constructor does not run the layering, which puts it on layer 1); and
    whatever the two weights, evaluating at (0,0) returns
    0 + 0*w0 + 0*w1 = 0. *)
Theorem construction_scenario (cfg : Config) (gl : Globals) (d : string)
  (ext : Externals) :
  device cfg = Some d ->
  use_radial_distance cfg = false -> use_input_bias cfg = false ->
  String.length (color_mode cfg) = 1%nat ->
  num_outputs cfg = 1%nat ->
  hidden_nodes_at_start cfg = 0%nat ->
  output_activation cfg = Some linear ->
  (init_connection_probability cfg == 1)%Q ->
  rand_tape_ok gl ->
  exists g gl' w0 w1,
    CPPN_init cfg None None gl = (Ok g, gl') /\
    map id (input_nodes g) = [-1; -2] /\
    map id (output_nodes g) = [-3] /\
    hidden_nodes g = [] /\
    Forall (fun n => activation n = identity) (input_nodes g) /\
    connection_genome g = scenario_connections w0 w1 /\
    layer_of g (-3) = Some 2 /\
    layer_of (snd (update_node_layers g)) (-3) = Some 1 /\
    forall v0 v1,
      exists q g',
        eval ext 0 0 (set_connection_genome (scenario_connections v0 v1) g)
        = (Ok [Scalar q], g') /\
        (q == 0)%Q.
Proof.
  intros Hdev Hrad Hbias Hcol Hout Hhid Hact Hp Hok.
  destruct (scenario_construction cfg gl d Hdev Hrad Hbias Hcol Hhid Hact
              Hp Hok) as [g [gl' [w0 [w1 [E [Hcfg [Hn Hc]]]]]]].
  exists g, gl', w0, w1. split; [exact E|].
  unfold input_nodes, output_nodes, hidden_nodes, layer_of.
  rewrite update_node_layers_spec. unfold layered_nodes, feed_forward_layers,
    get_ids_from_individual, input_nodes, output_nodes.
  cbn [snd node_genome set_node_genome]. rewrite Hn, Hc.
  split; [reflexivity|]. split; [reflexivity|]. split; [reflexivity|].
  split; [repeat constructor|]. split; [reflexivity|].
  split; [reflexivity|]. split; [vm_compute; reflexivity|].
  intros v0 v1.
  destruct (scenario_eval ext
              (set_connection_genome (scenario_connections v0 v1) g) v0 v1)
    as [g' Ee]; try reflexivity; try (simpl; congruence).
  exists (0 + 0 * v0 + 0 * v1)%Q, g'. split; [exact Ee | ring].
Qed.

Lemma example_globals_tape_ok (picks : list nat) :
  rand_tape_ok (example_globals picks).
Proof. constructor. Defined.

(** C5 (witness) *)
Lemma construction_scenario_witness :
  rand_tape_ok (example_globals []) /\
  exists g gl',
    CPPN_init example_config None None (example_globals []) = (Ok g, gl') /\
    layer_of g (-3) = Some 2.
Proof.
  split; [apply example_globals_tape_ok|].
  destruct (construction_scenario example_config (example_globals [])
              "cpu"%string (mkExternals (fun x => x) (fun x => x))
              eq_refl eq_refl eq_refl eq_refl eq_refl eq_refl eq_refl
              (Qeq_refl 1) (example_globals_tape_ok []))
    as [g [gl' [w0 [w1 [E [_ [_ [_ [_ [_ [Hl _]]]]]]]]]]].
  exists g, gl'. split; assumption.
Defined.

(** C5 (counterexample).  The genome constructed in the scenario has its
    output node on layer 2, not 1. *)
Lemma construction_output_layer_counterexample :
  exists g gl',
    CPPN_init example_config None None (example_globals []) = (Ok g, gl') /\
    map (fun c => (key_ c, enabled c)) (connection_genome g)
    = [((-1, -3), true); ((-2, -3), true)] /\
    layer_of g (-3) = Some 2 /\
    layer_of g (-3) <> Some 1.
Proof.
  eexists _, _. split; [vm_compute; reflexivity|].
  split; [reflexivity|]. split; [reflexivity|]. discriminate.
Qed.

(** ** Agreement of the serial and the parallel evaluation *)

(** ** Arrays *)

Lemma nth_map_in {A B : Type} (f : A -> B) (l : list A) (i : nat) (d : A)
  (e : B) :
  (i < List.length l)%nat -> nth i (map f l) e = f (nth i l d).
Proof.
  intros H. rewrite (nth_indep (map f l) e (f d)) by (rewrite length_map; lia).
  apply map_nth.
Qed.

Lemma zip_with_length {A B C : Type} (f : A -> B -> C) (l : list A)
  (m : list B) :
  List.length l = List.length m ->
  List.length (zip_with f l m) = List.length l.
Proof.
  revert m. induction l as [|a l IH]; intros [|b m] H; simpl in *;
    try reflexivity; try discriminate.
  f_equal. apply IH. lia.
Qed.

Lemma nth_zip_with {A B C : Type} (f : A -> B -> C) (l : list A)
  (m : list B) (i : nat) (da : A) (db : B) (dc : C) :
  (i < List.length l)%nat -> List.length l = List.length m ->
  nth i (zip_with f l m) dc = f (nth i l da) (nth i m db).
Proof.
  revert m i. induction l as [|a l IH]; intros [|b m] i Hi H; simpl in *;
    try lia.
  destruct i as [|i]; [reflexivity|]. apply IH; lia.
Qed.

Lemma shape_row (h w r : nat) (G : list (list Q)) :
  shape h w G -> (r < h)%nat -> List.length (nth r G []) = w.
Proof.
  intros [Hl Hr] H. rewrite Forall_forall in Hr. apply Hr.
  apply nth_In. lia.
Qed.

Lemma shape_const_grid (h w : nat) (q : Q) : shape h w (const_grid h w q).
Proof.
  unfold shape, const_grid. split; [apply repeat_length|].
  apply Forall_forall. intros row H. apply repeat_spec in H. subst row.
  apply repeat_length.
Qed.

Lemma shape_map (h w : nat) (f : Q -> Q) (G : list (list Q)) :
  shape h w G -> shape h w (map (map f) G).
Proof.
  intros [Hl Hr]. split; [rewrite length_map; assumption|].
  apply Forall_forall. intros row H. apply in_map_iff in H.
  destruct H as [row0 [<- H0]]. rewrite length_map.
  rewrite Forall_forall in Hr. apply Hr. assumption.
Qed.

Lemma shape_zip (h w : nat) (G1 G2 : list (list Q)) :
  shape h w G1 -> shape h w G2 ->
  shape h w (zip_with (zip_with Qplus) G1 G2).
Proof.
  intros [Hl1 Hr1] [Hl2 Hr2]. split.
  - rewrite zip_with_length; lia.
  - subst h. revert G2 Hl2 Hr2.
    induction G1 as [|a G1 IH]; intros [|b G2] Hl2 Hr2; simpl;
      try constructor; try discriminate.
    + inversion Hr1; inversion Hr2; subst. rewrite zip_with_length; lia.
    + inversion Hr1; inversion Hr2; subst. apply IH; auto.
Qed.

Lemma pixel_map (h w r c : nat) (f : Q -> Q) (G : list (list Q)) :
  shape h w G -> (r < h)%nat -> (c < w)%nat ->
  pixel r c (map (map f) G) = f (pixel r c G).
Proof.
  intros HG Hr Hc. unfold pixel.
  rewrite (nth_map_in (map f) G r [] []) by (destruct HG; lia).
  apply nth_map_in. rewrite (shape_row h w r G HG Hr). assumption.
Qed.

Lemma pixel_zip (h w r c : nat) (G1 G2 : list (list Q)) :
  shape h w G1 -> shape h w G2 -> (r < h)%nat -> (c < w)%nat ->
  pixel r c (zip_with (zip_with Qplus) G1 G2)
  = (pixel r c G1 + pixel r c G2)%Q.
Proof.
  intros H1 H2 Hr Hc. unfold pixel.
  rewrite (nth_zip_with (zip_with Qplus) G1 G2 r [] [] [])
    by (destruct H1, H2; lia).
  apply nth_zip_with;
    rewrite ?(shape_row h w r G1 H1 Hr), ?(shape_row h w r G2 H2 Hr); lia.
Qed.

Lemma pixel_const_grid (h w r c : nat) (q : Q) :
  (r < h)%nat -> (c < w)%nat -> pixel r c (const_grid h w q) = q.
Proof.
  intros Hr Hc. unfold pixel, const_grid.
  rewrite (nth_indep _ [] (repeat q w)) by (rewrite repeat_length; lia).
  rewrite nth_repeat.
  rewrite (nth_indep _ 0%Q q) by (rewrite repeat_length; lia).
  apply nth_repeat.
Qed.

(** ** Nodes under evaluation *)

Lemma find_node_update (k k' : Z) (f : Node -> Node) (ns : list Node) :
  (forall n, id (f n) = id n) ->
  find_node (update_node k f ns) k' =
  if k' =? k then option_map f (find_node ns k) else find_node ns k'.
Proof.
  intros Hf. unfold find_node, update_node.
  induction ns as [|n ns IH]; simpl.
  - destruct (k' =? k); reflexivity.
  - destruct (Z.eqb_spec (id n) k) as [E|E].
    + rewrite Hf. destruct (Z.eqb_spec k' k) as [E'|E'].
      * subst. rewrite Z.eqb_refl. reflexivity.
      * destruct (Z.eqb_spec (id n) k') as [E''|E'']; [congruence|].
        rewrite IH. destruct (Z.eqb_spec k' k); [contradiction|reflexivity].
    + destruct (Z.eqb_spec (id n) k') as [E''|E''].
      * subst k'. destruct (Z.eqb_spec (id n) k); [contradiction|reflexivity].
      * exact IH.
Qed.

Lemma statics_update (k : Z) (f : Node -> Node) (ns : list Node) :
  (forall n, (id (f n), type (f n), activation (f n))
             = (id n, type n, activation n)) ->
  statics (update_node k f ns) = statics ns.
Proof.
  intros Hf. unfold statics, update_node. rewrite map_map.
  apply map_ext. intros n. destruct (id n =? k); [apply Hf | reflexivity].
Qed.

Lemma statics_find (P S : list Node) (k : Z) (nP : Node) :
  statics P = statics S -> find_node P k = Some nP ->
  exists nS, find_node S k = Some nS /\ id nS = id nP /\
             type nS = type nP /\ activation nS = activation nP.
Proof.
  unfold statics, find_node. revert S.
  induction P as [|p P IH]; intros [|s S] E H; simpl in *;
    try discriminate.
  injection E as E1 E2 E3 E. rewrite <- E1.
  destruct (id p =? k).
  - injection H as <-. exists s. auto.
  - apply IH; assumption.
Qed.

Lemma statics_ids (P S : list Node) :
  statics P = statics S -> map id P = map id S.
Proof.
  unfold statics. intros H.
  apply (f_equal (map (fun x : Z * NodeType * Activation => fst (fst x))))
    in H.
  rewrite !map_map in H. exact H.
Qed.

Lemma statics_filter (P S : list Node) (t : NodeType) :
  statics P = statics S ->
  statics (filter (fun n => NodeType_eqb (type n) t) P)
  = statics (filter (fun n => NodeType_eqb (type n) t) S).
Proof.
  unfold statics. revert S.
  induction P as [|p P IH]; intros [|s S] E; simpl in *; try discriminate;
    [reflexivity|].
  injection E as E1 E2 E3 E. rewrite E2.
  destruct (NodeType_eqb (type s) t); simpl; rewrite ?E1, ?E2, ?E3;
    [f_equal|]; apply IH; assumption.
Qed.

Lemma out_of_update (k k' : Z) (f : Node -> Node) (ns : list Node) :
  (forall n, id (f n) = id n) ->
  out_of (update_node k f ns) k' =
  if k' =? k then match find_node ns k with
                  | Some n => outputs (f n)
                  | None => None
                  end
  else out_of ns k'.
Proof.
  intros Hf. unfold out_of. rewrite find_node_update by assumption.
  destruct (k' =? k); [|reflexivity].
  destruct (find_node ns k); reflexivity.
Qed.

Lemma sum_of_update (k k' : Z) (f : Node -> Node) (ns : list Node) :
  (forall n, id (f n) = id n) ->
  sum_of (update_node k f ns) k' =
  if k' =? k then match find_node ns k with
                  | Some n => sum_inputs (f n)
                  | None => None
                  end
  else sum_of ns k'.
Proof.
  intros Hf. unfold sum_of. rewrite find_node_update by assumption.
  destruct (k' =? k); [|reflexivity].
  destruct (find_node ns k); reflexivity.
Qed.

Lemma out_of_Some (ns : list Node) (k : Z) (t : tensor) :
  out_of ns k = Some t ->
  exists n, find_node ns k = Some n /\ outputs n = Some t.
Proof.
  unfold out_of. destruct (find_node ns k) as [n|]; [|discriminate].
  intros H. exists n. auto.
Qed.

Lemma sum_of_Some (ns : list Node) (k : Z) (t : tensor) :
  sum_of ns k = Some t ->
  exists n, find_node ns k = Some n /\ sum_inputs n = Some t.
Proof.
  unfold sum_of. destruct (find_node ns k) as [n|]; [|discriminate].
  intros H. exists n. auto.
Qed.

Lemma accumulate_run (k : Z) (cx : Connection) (ns : list Node)
  (o s : tensor) :
  out_of ns (fst (key_ cx)) = Some o -> sum_of ns k = Some s ->
  accumulate k cx ns =
  (Ok tt,
   update_node k (set_sum_inputs (Some (tadd s (tmul o (weight cx))))) ns).
Proof.
  intros Ho Hs. apply out_of_Some in Ho. apply sum_of_Some in Hs.
  destruct Ho as [src [Fo Ho]]. destruct Hs as [self [Fs Hs]].
  unfold accumulate, bind, get. rewrite Fo, Fs, Ho, Hs. reflexivity.
Qed.

Lemma set_sum_inputs_effect (k : Z) (s : option tensor) (ns : list Node) :
  statics (update_node k (set_sum_inputs s) ns) = statics ns /\
  (forall k', out_of (update_node k (set_sum_inputs s) ns) k' = out_of ns k')
  /\ (forall k', k' <> k ->
        sum_of (update_node k (set_sum_inputs s) ns) k' = sum_of ns k') /\
  (In k (map id ns) -> sum_of (update_node k (set_sum_inputs s) ns) k = s).
Proof.
  split; [apply statics_update; reflexivity|].
  split; [|split].
  - intros k'. rewrite out_of_update by reflexivity.
    destruct (Z.eqb_spec k' k) as [->|E]; [|reflexivity].
    unfold out_of. destruct (find_node ns k); reflexivity.
  - intros k' E. rewrite sum_of_update by reflexivity.
    destruct (Z.eqb_spec k' k); [contradiction | reflexivity].
  - intros Hk. rewrite sum_of_update by reflexivity. rewrite Z.eqb_refl.
    apply find_node_Some in Hk. destruct Hk as [n ->]. reflexivity.
Qed.

Lemma sum_of_In (ns : list Node) (k : Z) (t : tensor) :
  sum_of ns k = Some t -> In k (map id ns).
Proof.
  intros H. apply sum_of_Some in H. destruct H as [n [F _]].
  apply find_node_Some. exists n. assumption.
Qed.

(** The loop of [Node.activate] in the two passes: the parallel pass adds
    arrays, the serial pass adds their entries at the pixel. *)
Lemma accumulate_sim (g : CPPN) (k : Z) (incoming : list Connection) :
  forall done P Gs,
    par_inv g done P ->
    sum_of P k = Some (Grid Gs) ->
    shape (res_h (config g)) (res_w (config g)) Gs ->
    (forall cx, In cx incoming -> In (fst (key_ cx)) done) ->
    exists P1 Gs1,
      for_each incoming (accumulate k) P = (Ok tt, P1) /\
      statics P1 = statics P /\
      (forall k', out_of P1 k' = out_of P k') /\
      sum_of P1 k = Some (Grid Gs1) /\
      shape (res_h (config g)) (res_w (config g)) Gs1 /\
      (forall k', k' <> k -> sum_of P1 k' = sum_of P k') /\
      (incoming = [] -> Gs1 = Gs) /\
      forall r c S,
        (r < res_h (config g))%nat -> (c < res_w (config g))%nat ->
        (forall a G, In a done -> out_of P a = Some (Grid G) ->
                     out_of S a = Some (Scalar (pixel r c G))) ->
        sum_of S k = Some (Scalar (pixel r c Gs)) ->
        exists S1,
          for_each incoming (accumulate k) S = (Ok tt, S1) /\
          statics S1 = statics S /\
          (forall k', out_of S1 k' = out_of S k') /\
          sum_of S1 k = Some (Scalar (pixel r c Gs1)) /\
          (forall k', k' <> k -> sum_of S1 k' = sum_of S k').
Proof.
  induction incoming as [|cx rest IH]; intros done P Gs HP Hs HGs Hsrc.
  - exists P, Gs. split; [reflexivity|]. split; [reflexivity|].
    split; [reflexivity|]. split; [assumption|]. split; [assumption|].
    split; [reflexivity|]. split; [reflexivity|].
    intros r c S Hr Hc Hrel HsS. exists S.
    split; [reflexivity|]. split; [reflexivity|]. split; [reflexivity|].
    split; [assumption | reflexivity].
  - destruct HP as [Hst Hdone].
    destruct (Hdone (fst (key_ cx)) (Hsrc cx (or_introl eq_refl)))
      as [G [Ho HG]].
    set (Gs' := zip_with (zip_with Qplus) Gs
                  (map (map (fun x => x * weight cx)%Q) G)).
    assert (HGs' : shape (res_h (config g)) (res_w (config g)) Gs')
      by (apply shape_zip; [assumption | apply shape_map; assumption]).
    set (P' := update_node k (set_sum_inputs (Some (Grid Gs'))) P).
    assert (EP : accumulate k cx P = (Ok tt, P'))
      by (rewrite (accumulate_run k cx P _ _ Ho Hs); reflexivity).
    destruct (set_sum_inputs_effect k (Some (Grid Gs')) P)
      as [E1 [E2 [E3 E4]]]. fold P' in E1, E2, E3, E4.
    specialize (E4 (sum_of_In _ _ _ Hs)).
    destruct (IH done P' Gs') as [P1 [Gs1 [R1 [R2 [R3 [R4 [R5 [R6 [_ R7]]]]]]]]].
    { split; [congruence|]. intros a Ha. rewrite E2. apply Hdone. assumption. }
    { exact E4. }
    { exact HGs'. }
    { intros cx' Hcx'. apply Hsrc. right. assumption. }
    exists P1, Gs1. split.
    { cbn [for_each]. unfold bind. rewrite EP. exact R1. }
    split; [congruence|].
    split; [intros k'; rewrite R3; apply E2|].
    split; [assumption|]. split; [assumption|].
    split; [intros k' Hk'; rewrite R6 by assumption; apply E3; assumption|].
    split; [discriminate|].
    intros r c S Hr Hc Hrel HsS.
    assert (HoS := Hrel _ _ (Hsrc cx (or_introl eq_refl)) Ho).
    set (S' := update_node k
                 (set_sum_inputs
                    (Some (Scalar (pixel r c Gs
                                   + pixel r c G * weight cx)%Q))) S).
    assert (ES : accumulate k cx S = (Ok tt, S'))
      by (rewrite (accumulate_run k cx S _ _ HoS HsS); reflexivity).
    destruct (set_sum_inputs_effect k
                (Some (Scalar (pixel r c Gs + pixel r c G * weight cx)%Q)) S)
      as [F1 [F2 [F3 F4]]]. fold S' in F1, F2, F3, F4.
    specialize (F4 (sum_of_In _ _ _ HsS)).
    destruct (R7 r c S' Hr Hc) as [S1 [T1 [T2 [T3 [T4 T5]]]]].
    { intros a Ga Ha HoP. rewrite F2. apply Hrel; [assumption|].
      rewrite <- E2. assumption. }
    { rewrite F4. unfold Gs'.
      rewrite (pixel_zip _ _ r c Gs _ HGs (shape_map _ _ _ _ HG) Hr Hc).
      rewrite (pixel_map _ _ r c _ G HG Hr Hc). reflexivity. }
    exists S1. split.
    { cbn [for_each]. unfold bind. rewrite ES. exact T1. }
    split; [congruence|].
    split; [intros k'; rewrite T3; apply F2|].
    split; [assumption|].
    intros k' Hk'. rewrite T5 by assumption. apply F3. assumption.
Qed.

Lemma set_outputs_effect (k : Z) (o : option tensor) (ns : list Node) :
  statics (update_node k (set_outputs o) ns) = statics ns /\
  (forall k', sum_of (update_node k (set_outputs o) ns) k' = sum_of ns k') /\
  (forall k', k' <> k ->
     out_of (update_node k (set_outputs o) ns) k' = out_of ns k') /\
  (In k (map id ns) -> out_of (update_node k (set_outputs o) ns) k = o).
Proof.
  split; [apply statics_update; reflexivity|].
  split; [|split].
  - intros k'. rewrite sum_of_update by reflexivity.
    destruct (Z.eqb_spec k' k) as [->|E]; [|reflexivity].
    unfold sum_of. destruct (find_node ns k); reflexivity.
  - intros k' E. rewrite out_of_update by reflexivity.
    destruct (Z.eqb_spec k' k); [contradiction | reflexivity].
  - intros Hk. rewrite out_of_update by reflexivity. rewrite Z.eqb_refl.
    apply find_node_Some in Hk. destruct Hk as [n ->]. reflexivity.
Qed.

Lemma activate_run (k : Z) (incoming : list Connection) (ns ns1 : list Node)
  (self : Node) (s : tensor) :
  for_each incoming (accumulate k) ns = (Ok tt, ns1) ->
  find_node ns1 k = Some self -> sum_inputs self = Some s ->
  activate k incoming ns =
  (Ok tt,
   update_node k (set_outputs (Some (tmap (fn (activation self)) s))) ns1).
Proof.
  intros E F Hs. unfold activate, bind. rewrite E. unfold get.
  rewrite F, Hs. reflexivity.
Qed.

(** [Node.activate] in the two passes *)
Lemma activate_sim (g : CPPN) (k : Z) (incoming : list Connection)
  (done : list Z) (P : list Node) (Gs : list (list Q)) :
  par_inv g done P ->
  sum_of P k = Some (Grid Gs) ->
  shape (res_h (config g)) (res_w (config g)) Gs ->
  (forall cx, In cx incoming -> In (fst (key_ cx)) done) ->
  exists P2,
    activate k incoming P = (Ok tt, P2) /\
    par_inv g (k :: done) P2 /\
    forall r c feats S,
      (r < res_h (config g))%nat -> (c < res_w (config g))%nat ->
      ser_rel g r c feats done P S ->
      sum_of S k = Some (Scalar (pixel r c Gs)) ->
      incoming = [] \/ ~ In k (map id (input_nodes g)) ->
      exists S2,
        activate k incoming S = (Ok tt, S2) /\
        ser_rel g r c feats (k :: done) P2 S2.
Proof.
  intros HP Hs HGs Hsrc.
  destruct (accumulate_sim g k incoming done P Gs HP Hs HGs Hsrc)
    as [P1 [Gs1 [R1 [R2 [R3 [R4 [R5 [R6 [R8 R7]]]]]]]]].
  destruct HP as [Hst Hdone].
  destruct (sum_of_Some _ _ _ R4) as [self [Fs Hss]].
  set (act := fn (activation self)).
  set (P2 := update_node k (set_outputs (Some (tmap act (Grid Gs1)))) P1).
  assert (EP : activate k incoming P = (Ok tt, P2))
    by (apply (activate_run k incoming P P1 self _ R1 Fs Hss)).
  destruct (set_outputs_effect k (Some (tmap act (Grid Gs1))) P1)
    as [E1 [E2 [E3 E4]]]. fold P2 in E1, E2, E3, E4.
  specialize (E4 (sum_of_In _ _ _ R4)).
  assert (HP2 : forall k' G, In k' (k :: done) ->
            out_of P2 k' = Some (Grid G) ->
            (k' = k /\ G = map (map act) Gs1) \/
            (k' <> k /\ In k' done /\ out_of P k' = Some (Grid G))).
  { intros k' G Hin Ho. destruct (Z.eq_dec k' k) as [->|Hne].
    - left. split; [reflexivity|]. rewrite E4 in Ho. simpl in Ho.
      congruence.
    - right. split; [assumption|]. destruct Hin as [Hin|Hin]; [congruence|].
      split; [assumption|]. rewrite E3, R3 in Ho by assumption.
      assumption. }
  exists P2. split; [exact EP|]. split.
  { split; [congruence|]. intros k' Hin.
    destruct (Z.eq_dec k' k) as [->|Hne].
    - exists (map (map act) Gs1). split; [exact E4|].
      apply shape_map. assumption.
    - destruct Hin as [Hin|Hin]; [congruence|].
      rewrite E3, R3 by assumption. apply Hdone. assumption. }
  intros r c feats S Hr Hc [HsS [Hout Hin]] HsumS Hcase.
  destruct (R7 r c S Hr Hc Hout HsumS) as [S1 [T1 [T2 [T3 [T4 T5]]]]].
  destruct (sum_of_Some _ _ _ T4) as [selfS [FsS HssS]].
  assert (Hact : activation selfS = activation self).
  { destruct (statics_find P1 S1 k self) as [n' [Fn' [_ [_ Ea]]]];
      [congruence | assumption |].
    rewrite FsS in Fn'. injection Fn' as <-. assumption. }
  set (S2 := update_node k
               (set_outputs (Some (tmap act (Scalar (pixel r c Gs1))))) S1).
  assert (ES : activate k incoming S = (Ok tt, S2)).
  { rewrite (activate_run k incoming S S1 selfS _ T1 FsS HssS).
    rewrite Hact. reflexivity. }
  destruct (set_outputs_effect k
              (Some (tmap act (Scalar (pixel r c Gs1)))) S1)
    as [F1 [F2 [F3 F4]]]. fold S2 in F1, F2, F3, F4.
  specialize (F4 (sum_of_In _ _ _ T4)).
  exists S2. split; [exact ES|]. split; [congruence|]. split.
  - intros k' G Hk' Ho.
    destruct (HP2 k' G Hk' Ho) as [[-> ->] | [Hne [Hd HoP]]].
    + rewrite F4. simpl. rewrite (pixel_map _ _ r c act Gs1 R5 Hr Hc).
      reflexivity.
    + rewrite F3, T3 by assumption. apply Hout; assumption.
  - intros idx ki Hki. rewrite F2.
    destruct (Z.eq_dec ki k) as [->|Hne].
    + destruct Hcase as [Hnil | Hnot].
      * rewrite T4, (R8 Hnil), <- HsumS. apply Hin. assumption.
      * exfalso. apply Hnot. eapply nth_error_In. eassumption.
    + rewrite T5 by assumption. apply Hin. assumption.
Qed.

Lemma linspace_length (n : nat) : List.length (linspace n) = n.
Proof.
  destruct n as [|[|n]]; [reflexivity | reflexivity |].
  unfold linspace. rewrite length_map, length_seq. reflexivity.
Qed.

Lemma find_node_NoDup (ns : list Node) (n : Node) :
  NoDup (map id ns) -> In n ns -> find_node ns (id n) = Some n.
Proof.
  intros Hnd Hin.
  destruct (find_node ns (id n)) as [m|] eqn:F.
  - apply find_node_id in F. destruct F as [Hm E].
    f_equal. apply (NoDup_id_eq ns m n Hnd Hm Hin E).
  - exfalso. apply find_node_None in F. apply F. apply in_map. assumption.
Qed.

(** The plane of feature [idx] has the image resolution and holds, at each
    pixel, that feature of the pixel's coordinates. *)
Lemma feature_plane_spec (ext : Externals) (g : CPPN) (p : PixelInputs)
  (idx : nat) :
  pi_data p = grid_features ext (config g) ->
  (idx < snd (pi_shape p))%nat ->
  exists G,
    feature_plane p idx = Ok (Grid G) /\
    shape (res_h (config g)) (res_w (config g)) G /\
    forall r c,
      (r < res_h (config g))%nat -> (c < res_w (config g))%nat ->
      pixel r c G =
      nth idx (features ext (config g)
                 (nth r (linspace (res_h (config g))) 0%Q)
                 (nth c (linspace (res_w (config g))) 0%Q)) 0%Q.
Proof.
  intros Hd Hi. unfold feature_plane.
  apply Nat.ltb_lt in Hi. rewrite Hi, Hd.
  eexists. split; [reflexivity|]. unfold grid_features. split.
  - split.
    + rewrite !length_map. apply linspace_length.
    + apply Forall_forall. intros row H. apply in_map_iff in H.
      destruct H as [row0 [<- H0]]. apply in_map_iff in H0.
      destruct H0 as [y [<- _]]. rewrite !length_map.
      apply linspace_length.
  - intros r c Hr Hc. unfold pixel.
    rewrite map_map.
    rewrite (nth_map_in _ (linspace (res_h (config g))) r 0%Q [])
      by (rewrite linspace_length; assumption).
    rewrite map_map.
    rewrite (nth_map_in _ (linspace (res_w (config g))) c 0%Q 0%Q)
      by (rewrite linspace_length; assumption).
    reflexivity.
Qed.

Lemma ser_rel_same_outputs (g : CPPN) (r c : nat) (feats : list Q)
  (done : list Z) (P P' S : list Node) :
  (forall k, out_of P' k = out_of P k) ->
  ser_rel g r c feats done P S -> ser_rel g r c feats done P' S.
Proof.
  intros H [H1 [H2 H3]]. split; [assumption|]. split; [|assumption].
  intros k G Hk Ho. rewrite H in Ho. apply H2; assumption.
Qed.

Lemma par_inv_find (g : CPPN) (done : list Z) (P : list Node) (k : Z) :
  dict_ok g -> statics P = statics (node_genome g) ->
  In k (map id (node_genome g)) ->
  exists node n0,
    find_node P k = Some node /\ In n0 (node_genome g) /\
    id node = k /\ id n0 = k /\ type node = type n0.
Proof.
  intros [Hnd _] Hst Hk. apply in_map_iff in Hk.
  destruct Hk as [n0 [E Hn0]].
  assert (F0 := find_node_NoDup _ _ Hnd Hn0). rewrite E in F0.
  destruct (statics_find (node_genome g) P k n0 (eq_sym Hst) F0)
    as [node [F [Ei [Et _]]]].
  exists node, n0. repeat split; try assumption; congruence.
Qed.

(** One round of the evaluation loop in the two passes *)
Lemma node_step_sim (ext : Externals) (g : CPPN) (p : PixelInputs)
  (entry : nat * Z) (done : list Z) (P : list Node) :
  evaluable g ->
  pi_data p = grid_features ext (config g) ->
  snd (pi_shape p) = n_inputs g ->
  par_inv g done P -> ready g done entry ->
  exists P2,
    parallel_node_step g (Some p) entry P = (Ok tt, P2) /\
    par_inv g (snd entry :: done) P2 /\
    forall r c S,
      (r < res_h (config g))%nat -> (c < res_w (config g))%nat ->
      ser_rel g r c
        (features ext (config g) (nth r (linspace (res_h (config g))) 0%Q)
           (nth c (linspace (res_w (config g))) 0%Q)) done P S ->
      exists S2,
        serial_node_step g entry S = (Ok tt, S2) /\
        ser_rel g r c
          (features ext (config g)
             (nth r (linspace (res_h (config g))) 0%Q)
             (nth c (linspace (res_w (config g))) 0%Q))
          (snd entry :: done) P2 S2.
Proof.
  intros Hev Hd Hn HP [Hk [Hsrc Hkind]].
  destruct entry as [idx k]. cbn [fst snd] in *.
  destruct Hev as [Hdict [Hend [Hni [Hlen [Hnoin _]]]]].
  assert (HstP := proj1 HP).
  destruct (par_inv_find g done P k Hdict HstP Hk)
    as [node [n0 [F [Hn0 [Ei [Ei0 Et]]]]]].
  assert (Hinc : forall cx, In cx (get_incoming_connections g node) ->
                   In (fst (key_ cx)) done).
  { intros cx Hcx. unfold get_incoming_connections in Hcx.
    apply filter_In in Hcx. destruct Hcx as [Hcx E].
    apply Z.eqb_eq in E. apply Hsrc; [assumption | congruence]. }
  unfold parallel_node_step, serial_node_step, bind, get.
  cbn [fst snd]. rewrite F.
  destruct (NodeType_eqb (type node) INPUT) eqn:Hty.
  - (* an input node *)
    apply NodeType_eqb_eq in Hty.
    assert (Hinp : In n0 (input_nodes g)).
    { apply filter_In. split; [assumption|]. apply NodeType_eqb_eq.
      congruence. }
    destruct Hkind as [Hidx | Hnot];
      [| exfalso; apply Hnot; rewrite <- Ei0; apply in_map; assumption].
    assert (Hi : (idx < snd (pi_shape p))%nat).
    { assert (H := nth_error_Some (map id (input_nodes g)) idx).
      rewrite Hidx in H. rewrite length_map in H.
      assert (idx < List.length (input_nodes g))%nat
        by (apply H; discriminate).
      lia. }
    destruct (feature_plane_spec ext g p idx Hd Hi) as [G [EG [HG HpixG]]].
    unfold lift_result. rewrite EG. unfold modify. rewrite Ei.
    assert (Hnil : get_incoming_connections g node = []).
    { unfold get_incoming_connections. apply filter_none.
      intros cx Hcx. apply Z.eqb_neq. rewrite Ei, <- Ei0.
      apply Hnoin; assumption. }
    rewrite Hnil.
    set (P' := update_node k (set_sum_inputs (Some (Grid G))) P).
    destruct (set_sum_inputs_effect k (Some (Grid G)) P)
      as [E1 [E2 [E3 E4]]]. fold P' in E1, E2, E3, E4.
    assert (HkP : In k (map id P))
      by (apply find_node_Some; eexists; eassumption).
    specialize (E4 HkP).
    destruct (activate_sim g k [] done P' G) as [P2 [EP [HP2 Hser]]].
    { split; [congruence|]. intros a Ha. rewrite E2.
      apply (proj2 HP). assumption. }
    { exact E4. }
    { exact HG. }
    { intros cx []. }
    exists P2. split; [exact EP|]. split; [exact HP2|].
    intros r c S Hr Hc HS.
    destruct (statics_find P S k node) as [nodeS [FS [_ [EtS _]]]];
      [rewrite (proj1 HS); assumption | assumption |].
    rewrite FS, EtS, Hty. cbn [NodeType_eqb]. unfold ret.
    assert (EiS : id nodeS = k).
    { apply find_node_id in FS. tauto. }
    assert (Einc : get_incoming_connections g nodeS = []).
    { rewrite <- Hnil. unfold get_incoming_connections.
      rewrite EiS, Ei. reflexivity. }
    rewrite EiS, Einc. cbv beta iota.
    apply (Hser r c _ S Hr Hc).
    + apply (ser_rel_same_outputs g r c _ done P P' S E2 HS).
    + rewrite (HpixG r c Hr Hc). apply (proj2 (proj2 HS)). assumption.
    + left. reflexivity.
  - (* a node of a layer *)
    assert (Hnot : ~ In k (map id (input_nodes g))).
    { intros Hin. apply in_map_iff in Hin. destruct Hin as [m [Em Hm]].
      apply filter_In in Hm. destruct Hm as [Hm Htm].
      apply NodeType_eqb_eq in Htm.
      assert (m = n0)
        by (apply (NoDup_id_eq _ _ _ (proj1 Hdict) Hm Hn0); congruence).
      subst m. rewrite Et, Htm in Hty. discriminate. }
    unfold ret, modify. rewrite Ei.
    set (Z0 := const_grid (res_h (config g)) (res_w (config g)) 0).
    set (P' := update_node k (set_sum_inputs (Some (Grid Z0))) P).
    destruct (set_sum_inputs_effect k (Some (Grid Z0)) P)
      as [E1 [E2 [E3 E4]]]. fold P' in E1, E2, E3, E4.
    assert (HkP : In k (map id P))
      by (apply find_node_Some; eexists; eassumption).
    specialize (E4 HkP).
    destruct (activate_sim g k (get_incoming_connections g node) done P' Z0)
      as [P2 [EP [HP2 Hser]]].
    { split; [congruence|]. intros a Ha. rewrite E2.
      apply (proj2 HP). assumption. }
    { exact E4. }
    { apply shape_const_grid. }
    { exact Hinc. }
    exists P2. split; [exact EP|]. split; [exact HP2|].
    intros r c S Hr Hc HS.
    destruct (statics_find P S k node) as [nodeS [FS [EiS' [EtS _]]]];
      [rewrite (proj1 HS); assumption | assumption |].
    rewrite FS, EtS, Hty.
    assert (EiS : id nodeS = k) by congruence.
    rewrite EiS.
    assert (Einc : get_incoming_connections g nodeS
                   = get_incoming_connections g node).
    { unfold get_incoming_connections. rewrite EiS, Ei. reflexivity. }
    rewrite Einc. cbv beta iota.
    set (S' := update_node k (set_sum_inputs (Some (Scalar 0))) S).
    destruct (set_sum_inputs_effect k (Some (Scalar 0)) S)
      as [F1 [F2 [F3 F4]]]. fold S' in F1, F2, F3, F4.
    assert (HkS : In k (map id S))
      by (apply find_node_Some; eexists; eassumption).
    specialize (F4 HkS).
    apply (Hser r c _ S' Hr Hc).
    + destruct HS as [H1 [H2 H3]]. split; [congruence|]. split.
      * intros a G Ha Ho. rewrite F2. apply H2; [assumption|].
        rewrite <- E2. assumption.
      * intros i ki Hki. rewrite F3; [apply H3; assumption|].
        intros ->. apply Hnot. eapply nth_error_In. eassumption.
    + rewrite F4. unfold Z0. rewrite pixel_const_grid by assumption.
      reflexivity.
    + right. assumption.
Qed.

Lemma par_inv_incl (g : CPPN) (d1 d2 : list Z) (P : list Node) :
  (forall k, In k d2 -> In k d1) -> par_inv g d1 P -> par_inv g d2 P.
Proof.
  intros H [H1 H2]. split; [assumption|]. intros k Hk. apply H2, H, Hk.
Qed.

Lemma ser_rel_incl (g : CPPN) (r c : nat) (feats : list Q) (d1 d2 : list Z)
  (P S : list Node) :
  (forall k, In k d2 -> In k d1) ->
  ser_rel g r c feats d1 P S -> ser_rel g r c feats d2 P S.
Proof.
  intros H [H1 [H2 H3]]. split; [assumption|]. split; [|assumption].
  intros k G Hk. apply H2, H, Hk.
Qed.

Lemma ready_incl (g : CPPN) (d1 d2 : list Z) (e : nat * Z) :
  (forall k, In k d1 -> In k d2) -> ready g d1 e -> ready g d2 e.
Proof.
  intros H [H1 [H2 H3]]. split; [assumption|]. split; [|assumption].
  intros cx Hcx E. apply H, H2; assumption.
Qed.

Lemma for_each_app {S A : Type} (f : A -> M S unit) (l1 l2 : list A)
  (s : S) :
  for_each (l1 ++ l2) f s =
  match for_each l1 f s with
  | (Ok _, s') => for_each l2 f s'
  | (Raise e, s') => (Raise e, s')
  end.
Proof.
  revert s. induction l1 as [|a l1 IH]; intros s; [reflexivity|].
  cbn [for_each app]. unfold bind. destruct (f a s) as [[[]|e] s'];
    [apply IH | reflexivity].
Qed.

Section EvaluationPasses.

Variable ext : Externals.
Variable g : CPPN.
Variable p : PixelInputs.
Hypothesis Hev : evaluable g.
Hypothesis Hdata : pi_data p = grid_features ext (config g).
Hypothesis Hplanes : snd (pi_shape p) = n_inputs g.

(** The features of the pixel [(r, c)] *)
Let feats (r c : nat) : list Q :=
  features ext (config g) (nth r (linspace (res_h (config g))) 0%Q)
    (nth c (linspace (res_w (config g))) 0%Q).

(** A run of rounds, each ready when its turn comes *)
Lemma steps_sim (entries : list (nat * Z)) :
  forall done P,
    par_inv g done P ->
    (forall e, In e entries -> ready g done e) ->
    exists P2,
      for_each entries (parallel_node_step g (Some p)) P = (Ok tt, P2) /\
      par_inv g (map snd entries ++ done) P2 /\
      forall r c S,
        (r < res_h (config g))%nat -> (c < res_w (config g))%nat ->
        ser_rel g r c (feats r c) done P S ->
        exists S2,
          for_each entries (serial_node_step g) S = (Ok tt, S2) /\
          ser_rel g r c (feats r c) (map snd entries ++ done) P2 S2.
Proof.
  induction entries as [|e rest IH]; intros done P HP Hready.
  - exists P. split; [reflexivity|]. split; [exact HP|].
    intros r c S _ _ HS. exists S. split; [reflexivity | exact HS].
  - destruct (node_step_sim ext g p e done P Hev Hdata Hplanes HP
                (Hready e (or_introl eq_refl))) as [P1 [E1 [HP1 Hs1]]].
    destruct (IH (snd e :: done) P1 HP1) as [P2 [E2 [HP2 Hs2]]].
    { intros e' He'. apply (ready_incl g done); [intros k Hk; right; exact Hk|].
      apply Hready. right. exact He'. }
    assert (Hsub : forall k, In k (map snd (e :: rest) ++ done) ->
                             In k (map snd rest ++ snd e :: done)).
    { intros k Hk. simpl in Hk. apply in_or_app.
      destruct Hk as [Hk|Hk]; [right; left; exact Hk|].
      apply in_app_or in Hk. destruct Hk; [left | right; right]; assumption. }
    exists P2. split.
    { cbn [for_each]. unfold bind. rewrite E1. exact E2. }
    split; [apply (par_inv_incl g _ _ P2 Hsub HP2)|].
    intros r c S Hr Hc HS.
    destruct (Hs1 r c S Hr Hc HS) as [S1 [F1 HS1]].
    destruct (Hs2 r c S1 Hr Hc HS1) as [S2 [F2 HS2]].
    exists S2. split.
    { cbn [for_each]. unfold bind. rewrite F1. exact F2. }
    apply (ser_rel_incl g r c _ _ _ P2 S2 Hsub HS2).
Qed.

Lemma combine_seq_In {A : Type} (l : list A) (i : nat) (a : A) (b : nat) :
  In (i, a) (combine (seq b (List.length l)) l) ->
  (b <= i)%nat /\ nth_error l (i - b) = Some a.
Proof.
  revert b. induction l as [|x l IH]; intros b H; simpl in H;
    [contradiction|].
  destruct H as [H|H].
  - injection H as <- <-. rewrite Nat.sub_diag. split; [lia | reflexivity].
  - apply IH in H. destruct H as [Hb Hn]. split; [lia|].
    replace (i - b)%nat with (S (i - S b)) by lia. exact Hn.
Qed.

Lemma map_snd_combine_seq {A : Type} (l : list A) (b : nat) :
  map snd (combine (seq b (List.length l)) l) = l.
Proof.
  revert b. induction l as [|x l IH]; intros b; simpl; [reflexivity|].
  rewrite IH. reflexivity.
Qed.

(** The rounds of the layers, layer by layer *)
Lemma layers_sim (s : list Z) (L : list (list Z)) :
  layering (ids_required g) (map key_ (connection_genome g)) s L ->
  forall done P,
    (forall x, In x (map id (input_nodes g)) -> In x s) ->
    (forall x, In x s -> In x done) ->
    par_inv g done P ->
    exists P2,
      for_each
        (flat_map (fun l => combine (seq 0 (List.length l)) l) L)
        (parallel_node_step g (Some p)) P = (Ok tt, P2) /\
      par_inv g (concat L ++ done) P2 /\
      forall r c S,
        (r < res_h (config g))%nat -> (c < res_w (config g))%nat ->
        ser_rel g r c (feats r c) done P S ->
        exists S2,
          for_each
            (flat_map (fun l => combine (seq 0 (List.length l)) l) L)
            (serial_node_step g) S = (Ok tt, S2) /\
          ser_rel g r c (feats r c) (concat L ++ done) P2 S2.
Proof.
  induction 1 as [s E | s L Hne HL IH]; intros done P Hin Hs HP.
  - exists P. split; [reflexivity|]. split; [exact HP|].
    intros r c S _ _ HS. exists S. split; [reflexivity | exact HS].
  - set (t := next_layer (ids_required g) (map key_ (connection_genome g)) s)
      in *.
    destruct (steps_sim (combine (seq 0 (List.length t)) t) done P HP)
      as [P1 [E1 [HP1 Hs1]]].
    { intros [i k] He. apply combine_seq_In in He. destruct He as [_ Hn].
      apply nth_error_In in Hn. apply next_layer_In in Hn.
      destruct Hn as [_ [Hks [[a [Ha _]] Hall]]].
      split; [|split]; cbn [fst snd].
      - apply in_map_iff in Ha. destruct Ha as [cx [Ecx Hcx]].
        destruct Hev as [_ [Hend _]]. destruct (Hend cx Hcx) as [_ Ht].
        rewrite Ecx in Ht. exact Ht.
      - intros cx Hcx Ek. apply Hs, Hall. apply in_map_iff. exists cx.
        split; [|apply filter_In in Hcx; tauto].
        rewrite <- Ek. destruct (key_ cx); reflexivity.
      - right. intros Hk. apply Hks, Hin, Hk. }
    rewrite map_snd_combine_seq in HP1.
    destruct (IH (t ++ done) P1) as [P2 [E2 [HP2 Hs2]]].
    { intros x Hx. apply in_or_app. left. apply Hin, Hx. }
    { intros x Hx. apply in_or_app. apply in_app_or in Hx.
      destruct Hx as [Hx|Hx]; [right; apply Hs, Hx | left; exact Hx]. }
    { exact HP1. }
    assert (Hsub : forall k, In k (concat (t :: L) ++ done) ->
                             In k (concat L ++ t ++ done)).
    { intros k Hk. cbn [concat] in Hk. rewrite !in_app_iff in *. tauto. }
    exists P2. split.
    { cbn [flat_map]. rewrite for_each_app, E1. exact E2. }
    split; [apply (par_inv_incl g _ _ P2 Hsub HP2)|].
    intros r c S Hr Hc HS.
    destruct (Hs1 r c S Hr Hc HS) as [S1 [F1 HS1]].
    rewrite map_snd_combine_seq in HS1.
    destruct (Hs2 r c S1 Hr Hc HS1) as [S2 [F2 HS2]].
    exists S2. split.
    { cbn [flat_map]. rewrite for_each_app, F1. exact F2. }
    apply (ser_rel_incl g r c _ _ _ P2 S2 Hsub HS2).
Qed.

(** The whole evaluation order: the input nodes, then the layers *)
Lemma evaluation_sim (P : list Node) :
  statics P = statics (node_genome g) ->
  exists P2,
    for_each (evaluation_order g) (parallel_node_step g (Some p)) P
    = (Ok tt, P2) /\
    par_inv g (map id (output_nodes g)) P2 /\
    forall r c S,
      (r < res_h (config g))%nat -> (c < res_w (config g))%nat ->
      ser_rel g r c (feats r c) [] P S ->
      exists S2,
        for_each (evaluation_order g) (serial_node_step g) S = (Ok tt, S2) /\
        ser_rel g r c (feats r c) (map id (output_nodes g)) P2 S2.
Proof.
  intros HstP.
  set (inputs := map id (input_nodes g)).
  assert (HP0 : par_inv g [] P) by (split; [assumption | intros k []]).
  destruct (steps_sim (combine (seq 0 (List.length inputs)) inputs) [] P HP0)
    as [P1 [E1 [HP1 Hs1]]].
  { intros [i k] He. apply combine_seq_In in He. destruct He as [_ Hn].
    rewrite Nat.sub_0_r in Hn.
    destruct Hev as [_ [_ [_ [_ [Hnoin _]]]]].
    split; [|split]; cbn [fst snd].
    - apply nth_error_In in Hn. unfold inputs in Hn.
      apply in_map_iff in Hn. destruct Hn as [n [<- Hn]].
      apply in_map. apply filter_In in Hn. tauto.
    - intros cx Hcx Ek. exfalso. apply nth_error_In in Hn.
      unfold inputs in Hn. apply in_map_iff in Hn.
      destruct Hn as [n [En Hn]]. apply (Hnoin cx n Hcx Hn). congruence.
    - left. exact Hn. }
  rewrite map_snd_combine_seq in HP1.
  destruct (layers_sim _ _ (feed_forward_layers_layering g) (inputs ++ []) P1)
    as [P2 [E2 [HP2 Hs2]]].
  { intros x Hx. apply to_set_In. exact Hx. }
  { intros x Hx. apply (proj1 (to_set_In _ _)) in Hx.
    apply in_or_app. left. exact Hx. }
  { exact HP1. }
  assert (Hsub : forall k, In k (map id (output_nodes g)) ->
            In k (concat (feed_forward_layers g) ++ inputs ++ [])).
  { intros k Hk. apply in_map_iff in Hk. destruct Hk as [n [<- Hn]].
    destruct Hev as [_ [_ [_ [_ [_ [Hpl _]]]]]].
    destruct (Hpl n Hn) as [l [Hl Hkl]].
    apply in_or_app. left. apply in_concat. exists l. split; assumption. }
  exists P2. split.
  { unfold evaluation_order. cbn [flat_map]. fold inputs.
    rewrite for_each_app, E1. exact E2. }
  split; [apply (par_inv_incl g _ _ P2 Hsub HP2)|].
  intros r c S Hr Hc HS.
  destruct (Hs1 r c S Hr Hc HS) as [S1 [F1 HS1]].
  rewrite map_snd_combine_seq in HS1.
  destruct (Hs2 r c S1 Hr Hc HS1) as [S2 [F2 HS2]].
  exists S2. split.
  { unfold evaluation_order. cbn [flat_map]. fold inputs.
    rewrite for_each_app, F1. exact F2. }
  apply (ser_rel_incl g r c _ _ _ P2 S2 Hsub HS2).
Qed.

End EvaluationPasses.

(** ** Inputs and outputs of an evaluation *)

Lemma statics_types (g1 g2 : CPPN) :
  statics (node_genome g1) = statics (node_genome g2) ->
  connection_genome g1 = connection_genome g2 ->
  map id (input_nodes g1) = map id (input_nodes g2) /\
  map id (output_nodes g1) = map id (output_nodes g2) /\
  feed_forward_layers g1 = feed_forward_layers g2 /\
  evaluation_order g1 = evaluation_order g2.
Proof.
  intros Hs Hc.
  assert (Hi : map id (input_nodes g1) = map id (input_nodes g2))
    by (apply statics_ids, statics_filter; assumption).
  assert (Ho : map id (output_nodes g1) = map id (output_nodes g2))
    by (apply statics_ids, statics_filter; assumption).
  assert (Hf : feed_forward_layers g1 = feed_forward_layers g2).
  { unfold feed_forward_layers, get_ids_from_individual.
    rewrite Hi, Ho, Hc. reflexivity. }
  repeat split; try assumption.
  unfold evaluation_order. rewrite Hi, Hf. reflexivity.
Qed.

Lemma map_m_outputs (l : list Node) (ts : list tensor) (s : CPPN) :
  map outputs l = map Some ts ->
  map_m (fun node => match outputs node with
                     | Some o => ret o
                     | None => raise TypeError
                     end) l s = (Ok ts, s).
Proof.
  revert ts. induction l as [|n l IH]; intros [|t ts] H; simpl in H;
    try discriminate; [reflexivity|].
  injection H as H1 H2. cbn [map_m]. unfold bind. rewrite H1.
  unfold ret at 1. rewrite (IH ts H2). reflexivity.
Qed.

(** The outputs that [stack_outputs] collects are those found under the
    ids of the output nodes. *)
Lemma stack_outputs_spec (g gx : CPPN) (ts : list tensor) :
  dict_ok g ->
  statics (node_genome gx) = statics (node_genome g) ->
  map (out_of (node_genome gx)) (map id (output_nodes g)) = map Some ts ->
  output_nodes g <> [] ->
  stack_outputs gx = (Ok ts, gx).
Proof.
  intros [Hnd _] Hst Hout Hne.
  assert (Hids : map id (output_nodes gx) = map id (output_nodes g))
    by (apply statics_ids, statics_filter; assumption).
  assert (Hndx : NoDup (map id (node_genome gx)))
    by (rewrite (statics_ids _ _ Hst); assumption).
  assert (Hmap : map outputs (output_nodes gx) = map Some ts).
  { rewrite <- Hout, <- Hids, map_map. apply map_ext_in.
    intros n Hn. unfold out_of.
    rewrite (find_node_NoDup _ n Hndx); [reflexivity|].
    apply filter_In in Hn. tauto. }
  unfold stack_outputs, bind, get.
  destruct (output_nodes gx) as [|o os] eqn:Eo.
  - exfalso. apply Hne. destruct (output_nodes g); [reflexivity|].
    discriminate.
  - apply map_m_outputs. assumption.
Qed.

Lemma planes_exist (h w : nat) (P : list Node) (ks : list Z) :
  (forall k, In k ks ->
     exists G, out_of P k = Some (Grid G) /\ shape h w G) ->
  exists planes,
    map (out_of P) ks = map (fun G => Some (Grid G)) planes /\
    Forall (shape h w) planes.
Proof.
  induction ks as [|k ks IH]; intros H.
  - exists []. split; [reflexivity | constructor].
  - destruct (H k (or_introl eq_refl)) as [G [Ho HG]].
    destruct IH as [planes [Hm Hf]];
      [intros k' Hk'; apply H; right; assumption|].
    exists (G :: planes). split; [simpl; rewrite Ho, Hm; reflexivity|].
    constructor; assumption.
Qed.

Lemma planes_pixels (g : CPPN) (r c : nat) (feats : list Q)
  (P S : list Node) (ks : list Z) (planes : list (list (list Q))) :
  (forall k G, In k ks -> out_of P k = Some (Grid G) ->
               out_of S k = Some (Scalar (pixel r c G))) ->
  map (out_of P) ks = map (fun G => Some (Grid G)) planes ->
  map (out_of S) ks = map (fun G => Some (Scalar (pixel r c G))) planes.
Proof.
  revert planes. induction ks as [|k ks IH]; intros [|G planes] H E;
    simpl in E; try discriminate; [reflexivity|].
  injection E as E1 E2. simpl.
  rewrite (H k G (or_introl eq_refl) E1).
  rewrite (IH planes); [reflexivity | | assumption].
  intros k' G' Hk'. apply H. right. assumption.
Qed.

Lemma assign_inputs_keeps (ins : list Node) :
  forall fs S k,
    ~ In k (map id ins) ->
    sum_of (snd (assign_inputs fs ins S)) k = sum_of S k.
Proof.
  induction ins as [|n ins IH]; intros fs S k Hk.
  - destruct fs; reflexivity.
  - destruct fs as [|f fs]; [reflexivity|].
    cbn [assign_inputs]. unfold bind, modify. rewrite IH.
    + rewrite sum_of_update by reflexivity.
      destruct (Z.eqb_spec k (id n)) as [E|E]; [|reflexivity].
      exfalso. apply Hk. left. congruence.
    + intros H. apply Hk. right. assumption.
Qed.

(** [set_inputs] gives each input node its feature. *)
Lemma assign_inputs_spec (ins : list Node) :
  forall fs S,
    NoDup (map id ins) ->
    (forall n, In n ins -> In (id n) (map id S)) ->
    (List.length ins <= List.length fs)%nat ->
    fst (assign_inputs fs ins S) = Ok tt /\
    statics (snd (assign_inputs fs ins S)) = statics S /\
    forall idx k,
      nth_error (map id ins) idx = Some k ->
      sum_of (snd (assign_inputs fs ins S)) k
      = Some (Scalar (nth idx fs 0%Q)).
Proof.
  induction ins as [|n ins IH]; intros fs S Hnd Hin Hlen.
  - destruct fs; (split; [reflexivity|]; split; [reflexivity|]);
      intros [|idx] k H; discriminate.
  - destruct fs as [|f fs]; [simpl in Hlen; lia|].
    inversion Hnd as [|x xs Hx Hnd']; subst.
    cbn [assign_inputs]. unfold bind, modify.
    set (S' := update_node (id n) _ S).
    assert (HidS : map id S' = map id S)
      by (apply map_id_update_node; reflexivity).
    destruct (IH fs S' Hnd') as [I1 [I2 I3]].
    { intros m Hm. rewrite HidS. apply Hin. right. assumption. }
    { simpl in Hlen. lia. }
    split; [exact I1|]. split.
    { rewrite I2. apply statics_update. reflexivity. }
    intros [|idx] k Hk; simpl in Hk.
    + injection Hk as <-. rewrite assign_inputs_keeps by assumption.
      unfold S'. rewrite sum_of_update by reflexivity.
      rewrite Z.eqb_refl.
      assert (Hn : In (id n) (map id S))
        by (apply Hin; left; reflexivity).
      apply find_node_Some in Hn. destruct Hn as [m ->]. reflexivity.
    + simpl. apply I3. assumption.
Qed.

Lemma features_length (ext : Externals) (cfg : Config) (c0 c1 : Q) :
  List.length (features ext cfg c0 c1) =
  (2 + (if use_radial_distance cfg then 1 else 0)
     + (if use_input_bias cfg then 1 else 0))%nat.
Proof.
  unfold features. destruct (use_radial_distance cfg),
    (use_input_bias cfg); reflexivity.
Qed.

Section PixelByPixel.

Variable ext : Externals.
Variable g : CPPN.
Variable p : PixelInputs.
Hypothesis Hev : evaluable g.
Hypothesis Hdata : pi_data p = grid_features ext (config g).
Hypothesis Hplanes : snd (pi_shape p) = n_inputs g.

(** From any state of the parallel pass with the nodes of [g], the pass
    ends with an output array per output node; and from any state of the
    serial pass with the nodes of [g], evaluating the coordinates of the
    pixel [(r, c)] returns the entries of those arrays at [(r, c)]. *)
Lemma passes_agree (P : list Node) :
  statics P = statics (node_genome g) ->
  exists P2 planes,
    for_each (evaluation_order g) (parallel_node_step g (Some p)) P
    = (Ok tt, P2) /\
    statics P2 = statics (node_genome g) /\
    map (out_of P2) (map id (output_nodes g))
    = map (fun G => Some (Grid G)) planes /\
    Forall (shape (res_h (config g)) (res_w (config g))) planes /\
    List.length planes = List.length (output_nodes g) /\
    forall r c S,
      (r < res_h (config g))%nat -> (c < res_w (config g))%nat ->
      statics S = statics (node_genome g) ->
      exists S2,
        eval ext (nth r (linspace (res_h (config g))) 0%Q)
          (nth c (linspace (res_w (config g))) 0%Q) (set_node_genome S g)
        = (Ok (map (fun G => Scalar (pixel r c G)) planes),
           set_node_genome S2 g) /\
        statics S2 = statics (node_genome g).
Proof.
  intros HstP.
  destruct (evaluation_sim ext g p Hev Hdata Hplanes P HstP)
    as [P2 [EP [HP2 Hser]]].
  destruct (planes_exist _ _ P2 (map id (output_nodes g)) (proj2 HP2))
    as [planes [Hpl Hsh]].
  assert (Hlen : List.length planes = List.length (output_nodes g)).
  { apply (f_equal (@List.length _)) in Hpl.
    rewrite !length_map in Hpl. congruence. }
  exists P2, planes. split; [exact EP|]. split; [exact (proj1 HP2)|].
  split; [exact Hpl|]. split; [exact Hsh|]. split; [exact Hlen|].
  intros r c S Hr Hc HstS.
  destruct Hev as [Hdict [Hend [Hni [Hle [Hnoin [Hplaced [Hno [Hno' Hcol]]]]]]]].
  set (gS := set_node_genome S g).
  set (fs := features ext (config g)
               (nth r (linspace (res_h (config g))) 0%Q)
               (nth c (linspace (res_w (config g))) 0%Q)).
  assert (HT := statics_types gS g HstS eq_refl).
  destruct HT as [Hin [Hout [Hff Hord]]].
  assert (HndS : NoDup (map id S))
    by (rewrite (statics_ids _ _ HstS); apply Hdict).
  destruct (assign_inputs_spec (input_nodes gS) fs S) as [A1 [A2 A3]].
  { apply NoDup_map_filter. exact HndS. }
  { intros n Hn. apply in_map. apply filter_In in Hn. tauto. }
  { unfold fs. rewrite features_length, <- Hni.
    apply (f_equal (@List.length _)) in Hin. rewrite !length_map in Hin.
    rewrite Hin. exact Hle. }
  set (S0 := snd (assign_inputs fs (input_nodes gS) S)) in *.
  assert (Hrel : ser_rel g r c fs [] P S0).
  { split; [congruence|]. split; [intros k G []|].
    intros idx k Hk. apply A3. rewrite Hin. exact Hk. }
  destruct (Hser r c S0 Hr Hc Hrel) as [S2 [ES HS2]].
  exists S2. split; [|exact (proj1 HS2)].
  assert (Hts : map (out_of S2) (map id (output_nodes g))
                = map Some (map (fun G => Scalar (pixel r c G)) planes)).
  { rewrite (map_map (fun G => Scalar (pixel r c G)) Some).
    apply (planes_pixels g r c fs P2 S2 _ planes); [|exact Hpl].
    intros k G Hk. apply (proj1 (proj2 HS2)). exact Hk. }
  assert (Hne : output_nodes g <> []).
  { intros E. rewrite E in Hno'. simpl in Hno'.
    destruct (Nat.ltb 2 _); lia. }
  unfold eval, bind at 1, set_inputs, bind at 1, get.
  cbn [fst snd]. change (config gS) with (config g). fold fs.
  unfold lift_nodes at 1. change (node_genome gS) with S.
  destruct (assign_inputs fs (input_nodes gS) S) as [ra Sa] eqn:EA.
  cbn [fst snd] in A1, S0. subst ra. subst S0.
  cbv beta iota.
  unfold feed_forward, bind at 1, get. cbn [fst snd].
  unfold bind at 1, lift_nodes at 1.
  change (node_genome (set_node_genome Sa gS)) with Sa.
  assert (Hord' : evaluation_order (set_node_genome Sa gS)
                  = evaluation_order g).
  { apply statics_types; [|reflexivity].
    change (node_genome (set_node_genome Sa gS)) with Sa. congruence. }
  rewrite Hord'.
  change (serial_node_step (set_node_genome Sa gS))
    with (serial_node_step g).
  rewrite ES. cbv beta iota.
  change (set_node_genome S2 (set_node_genome Sa gS))
    with (set_node_genome S2 g).
  unfold bind at 1.
  rewrite (stack_outputs_spec g (set_node_genome S2 g) _ Hdict
             (proj1 HS2) Hts Hne).
  unfold bind, get. cbn [fst snd config set_node_genome].
  rewrite !length_map, Hlen, Hno, Nat.eqb_refl. reflexivity.
Qed.

End PixelByPixel.

(** ** Laying the numbers out as an image *)

Lemma firstn_skipn_row {A : Type} (row rest : list A) :
  firstn (List.length row) (row ++ rest) = row /\
  skipn (List.length row) (row ++ rest) = rest.
Proof.
  induction row as [|a row [IH1 IH2]]; simpl; [split; reflexivity|].
  rewrite IH1, IH2. split; reflexivity.
Qed.

Lemma chunks_concat {A : Type} (k : nat) (L : list (list A)) :
  Forall (fun row => List.length row = k) L ->
  chunks (List.length L) k (concat L) = L /\
  List.length (concat L) = (List.length L * k)%nat.
Proof.
  induction 1 as [|row L Hrow _ [IH1 IH2]]; [split; reflexivity|].
  cbn [List.length concat chunks]. split.
  - subst k. destruct (firstn_skipn_row row (concat L)) as [-> ->].
    rewrite IH1. reflexivity.
  - rewrite length_app, IH2, Hrow. reflexivity.
Qed.

Lemma concat_singletons {A B : Type} (f : A -> B) (l : list A) :
  concat (map (fun x => [f x]) l) = map f l.
Proof.
  induction l as [|a l IH]; simpl; [reflexivity | rewrite IH; reflexivity].
Qed.

Lemma list_eta {A : Type} (l : list A) (d : A) :
  l = map (fun i => nth i l d) (seq 0 (List.length l)).
Proof.
  induction l as [|a l IH]; [reflexivity|].
  cbn [List.length seq map nth]. f_equal.
  rewrite <- seq_shift, map_map. exact IH.
Qed.

(** An array of shape [(h, w)] is the table of its entries. *)
Lemma grid_eta (h w : nat) (G : list (list Q)) :
  shape h w G ->
  G = map (fun r => map (fun c => pixel r c G) (seq 0 w)) (seq 0 h).
Proof.
  intros [Hh Hw]. rewrite (list_eta G []) at 1. rewrite Hh.
  apply map_ext_in. intros r Hr. apply in_seq in Hr.
  assert (Hrow : List.length (nth r G []) = w).
  { rewrite Forall_forall in Hw. apply Hw. apply nth_In. lia. }
  rewrite (list_eta (nth r G []) 0%Q) at 1. rewrite Hrow. reflexivity.
Qed.

(** A loop that collects one value per position of [l] *)
Lemma map_m_indexed {St' A B : Type} (Inv : St' -> Prop) (f : A -> M St' B)
  (d : A) (l : list A) :
  forall (F : nat -> B),
    (forall i s, (i < List.length l)%nat -> Inv s ->
       exists s', f (nth i l d) s = (Ok (F i), s') /\ Inv s') ->
    forall s, Inv s ->
      exists s',
        map_m f l s = (Ok (map F (seq 0 (List.length l))), s') /\ Inv s'.
Proof.
  induction l as [|a l IH]; intros F H s Hs.
  - exists s. split; [reflexivity | assumption].
  - destruct (H O s (Nat.lt_0_succ _) Hs) as [s1 [E1 Hs1]].
    destruct (IH (fun i => F (S i))) with (s := s1) as [s2 [E2 Hs2]].
    { intros i s' Hi Hs'. apply (H (S i) s'); [simpl; lia | assumption]. }
    { assumption. }
    exists s2. split; [|assumption].
    cbn [map_m List.length seq map]. unfold bind. simpl in E1.
    rewrite E1, E2. unfold ret. rewrite <- seq_shift, map_map. reflexivity.
Qed.

(** ** The two paths *)

Lemma initialize_inputs_spec (ext : Externals) (g : CPPN) (gl : Globals) :
  n_inputs g =
    (2 + (if use_radial_distance (config g) then 1 else 0)
       + (if use_input_bias (config g) then 1 else 0))%nat ->
  exists gl',
    initialize_inputs ext (config g) (n_inputs g) gl = (Ok tt, gl') /\
    pixel_inputs gl'
    = Some (mkPixelInputs
              (res_h (config g), res_w (config g), n_inputs g)
              (grid_features ext (config g))).
Proof.
  intros Hn. unfold initialize_inputs.
  fold (grid_features ext (config g)).
  assert (Hall : forallb (forallb (fun px => Nat.eqb (List.length px)
                                               (n_inputs g)))
                   (grid_features ext (config g)) = true).
  { apply forallb_forall. intros row Hrow. apply forallb_forall.
    intros px Hpx. apply Nat.eqb_eq. unfold grid_features in Hrow.
    apply in_map_iff in Hrow. destruct Hrow as [y [<- _]].
    apply in_map_iff in Hpx. destruct Hpx as [x [<- _]].
    rewrite features_length. symmetry. assumption. }
  rewrite Hall. eexists. split; reflexivity.
Qed.

(** The feature array that the parallel path works with *)
Lemma pixel_inputs_ready (ext : Externals) (g : CPPN) (gl : Globals) :
  evaluable g -> cache_coherent ext g gl ->
  exists gl1 p,
    (match pixel_inputs gl with
     | Some p =>
         if Nat.eqb (fst (fst (pi_shape p))) (res_h (config g)) &&
            Nat.eqb (snd (fst (pi_shape p))) (res_w (config g))
         then ret tt
         else lift_glob (initialize_inputs ext (config g) (n_inputs g))
     | None => lift_glob (initialize_inputs ext (config g) (n_inputs g))
     end) (g, gl) = (Ok tt, (g, gl1)) /\
    pixel_inputs gl1 = Some p /\
    pi_data p = grid_features ext (config g) /\
    snd (pi_shape p) = n_inputs g.
Proof.
  intros Hev Hc. unfold cache_coherent in Hc.
  assert (Hn := proj1 (proj2 (proj2 Hev))).
  destruct (initialize_inputs_spec ext g gl Hn) as [gl' [Ei Hp]].
  assert (Hinit : lift_glob (initialize_inputs ext (config g) (n_inputs g))
                    (g, gl) = (Ok tt, (g, gl'))).
  { unfold lift_glob. cbn [fst snd]. rewrite Ei. reflexivity. }
  destruct (pixel_inputs gl) as [p0|] eqn:Ep.
  - destruct (Nat.eqb _ _ && Nat.eqb _ _) eqn:Es.
    + destruct Hc as [Hc | [Hc1 Hc2]]; [discriminate|].
      exists gl, p0. repeat split; assumption.
    + eexists gl', _. split; [exact Hinit|]. split; [exact Hp|].
      split; reflexivity.
  - eexists gl', _. split; [exact Hinit|]. split; [exact Hp|].
    split; reflexivity.
Qed.

Lemma concat_concat_singletons {A B C : Type} (f : A -> B -> C)
  (l1 : list A) (l2 : list B) :
  concat (concat (map (fun i => map (fun j => [f i j]) l2) l1))
  = concat (map (fun i => map (f i) l2) l1).
Proof.
  induction l1 as [|a l1 IH]; [reflexivity|].
  cbn [map concat]. rewrite concat_app, IH, concat_singletons. reflexivity.
Qed.

(** On a square resolution, reshaping the values that the serial loop
    collects gives the image that the parallel path makes of the output
    arrays. *)
Lemma images_agree (g : CPPN) (planes : list (list (list Q))) (n : nat) :
  res_h (config g) = n -> res_w (config g) = n ->
  Forall (shape n n) planes ->
  List.length planes = n_outputs g ->
  (if Nat.ltb 2 (String.length (color_mode (config g)))
   then (1 <= n_outputs g)%nat else n_outputs g = 1%nat) ->
  exists im,
    image_of_planes (config g) planes = Ok im /\
    image_of_pixels g
      (concat (concat
         (map (fun i => map (fun j => map (pixel i j) planes) (seq 0 n))
            (seq 0 n)))) = Ok im.
Proof.
  intros Hh Hw Hsh Hlen Hcol.
  unfold image_of_planes, image_of_pixels. cbv zeta. rewrite Hh, Hw.
  set (pixels := map (fun i => map (fun j => map (pixel i j) planes)
                                (seq 0 n)) (seq 0 n)).
  destruct (Nat.ltb 2 (String.length (color_mode (config g)))).
  - eexists. split; [reflexivity|].
    assert (Hp : Forall (fun row => List.length row = n) pixels).
    { apply Forall_forall. intros row Hrow. apply in_map_iff in Hrow.
      destruct Hrow as [i [<- _]]. rewrite length_map, length_seq.
      reflexivity. }
    assert (Hpl : List.length pixels = n)
      by (unfold pixels; rewrite length_map, length_seq; reflexivity).
    destruct (chunks_concat n pixels Hp) as [C1 C2].
    rewrite Hpl in C1, C2.
    assert (Hr : Forall (fun row => List.length row = n_outputs g)
                   (concat pixels)).
    { apply Forall_forall. intros row Hrow. apply in_concat in Hrow.
      destruct Hrow as [rows [Hrows Hrow]]. apply in_map_iff in Hrows.
      destruct Hrows as [i [<- _]]. apply in_map_iff in Hrow.
      destruct Hrow as [j [<- _]]. rewrite length_map. assumption. }
    destruct (chunks_concat (n_outputs g) (concat pixels) Hr) as [D1 D2].
    rewrite C2 in D1, D2. rewrite D2, Nat.eqb_refl, D1, C1.
    reflexivity.
  - destruct planes as [|G [|G' planes]]; simpl in Hlen; try lia.
    inversion Hsh as [|x xs HG _]; subst x xs.
    unfold pixels. cbn [map].
    rewrite (concat_concat_singletons (fun i j => pixel i j G)).
    rewrite <- (grid_eta n n G HG).
    cbn [concat]. rewrite app_nil_r.
    assert (HGr : Forall (fun row => List.length row = n) G)
      by (destruct HG; assumption).
    destruct (chunks_concat n G HGr) as [C1 C2].
    assert (HGl : List.length G = n) by (destruct HG; assumption).
    rewrite HGl in C1, C2. rewrite C2, Nat.eqb_refl, C1.
    eexists. split; reflexivity.
Qed.

(** The image of the parallel path holds, at each pixel, the entries of
    the output arrays at that pixel. *)
Lemma plane_values (cfg : Config) (planes : list (list (list Q)))
  (im : image_t) (n_out r c : nat) :
  image_of_planes cfg planes = Ok im ->
  Forall (shape (res_h cfg) (res_w cfg)) planes ->
  List.length planes = n_out ->
  (if Nat.ltb 2 (String.length (color_mode cfg))
   then (1 <= n_out)%nat else n_out = 1%nat) ->
  (r < res_h cfg)%nat -> (c < res_w cfg)%nat ->
  map (pixel r c) planes = map (image_value im r c) (seq 0 n_out).
Proof.
  intros Him Hsh Hlen Hcol Hr Hc. unfold image_of_planes in Him.
  destruct (Nat.ltb 2 (String.length (color_mode cfg))).
  - inversion Him; subst im; clear Him. subst n_out.
    rewrite (list_eta planes []) at 1. rewrite map_map.
    apply map_ext_in. intros k Hk. apply in_seq in Hk.
    cbn [image_value]. unfold channels_last.
    rewrite (nth_map_in _ (seq 0 (res_h cfg)) r O)
      by (rewrite length_seq; exact Hr).
    rewrite seq_nth by exact Hr.
    rewrite (nth_map_in _ (seq 0 (res_w cfg)) c O)
      by (rewrite length_seq; exact Hc).
    rewrite seq_nth by exact Hc. cbn [Nat.add].
    rewrite (nth_map_in _ planes k []) by lia. reflexivity.
  - rewrite Hcol in Hlen |- *.
    destruct planes as [|G [|G' planes]]; simpl in Hlen; try lia.
    inversion Hsh as [|x xs HG _]; subst x xs.
    cbn [concat] in Him. rewrite app_nil_r in Him.
    assert (HGr : Forall (fun row => List.length row = res_w cfg) G)
      by (destruct HG; assumption).
    destruct (chunks_concat (res_w cfg) G HGr) as [C1 C2].
    assert (HGl : List.length G = res_h cfg) by (destruct HG; assumption).
    rewrite HGl in C1, C2. rewrite C2, Nat.eqb_refl, C1 in Him.
    inversion Him; subst im. reflexivity.
Qed.

Lemma set_node_genome_same (g : CPPN) : set_node_genome (node_genome g) g = g.
Proof. destruct g; reflexivity. Qed.

Lemma statics_reset (g : CPPN) :
  statics (node_genome (reset_activations g)) = statics (node_genome g).
Proof.
  unfold reset_activations, statics. cbn [node_genome set_node_genome].
  rewrite map_map. reflexivity.
Qed.

(** Both paths in terms of the output arrays [planes] of the parallel
    pass: the parallel path returns their image, the serial loop collects
    their entries pixel by pixel. *)
Lemma paths_in_planes (ext : Externals) (g : CPPN) (gl : Globals) :
  evaluable g -> cache_coherent ext g gl ->
  normalize_outputs (config g) = false ->
  res_h (config g) = res_w (config g) ->
  exists planes im st2 g1,
    get_image_data_parallel ext (g, gl) = (Ok im, st2) /\
    image_of_planes (config g) planes = Ok im /\
    Forall (shape (res_h (config g)) (res_w (config g))) planes /\
    List.length planes = n_outputs g /\
    image_of_pixels g
      (concat (concat
         (map (fun i => map (fun j => map (pixel i j) planes)
                          (seq 0 (res_h (config g))))
            (seq 0 (res_w (config g)))))) = Ok im /\
    serial_pixels ext g
    = (Ok (concat (concat
             (map (fun i =>
                     map (fun j => map (fun G => Scalar (pixel i j G)) planes)
                       (seq 0 (res_h (config g))))
                (seq 0 (res_w (config g)))))), g1).
Proof.
  intros Hev Hcache Hnorm Hsq.
  destruct (pixel_inputs_ready ext g gl Hev Hcache)
    as [gl1 [p [Ecache [Hp [Hdata Hplanes]]]]].
  destruct (passes_agree ext g p Hev Hdata Hplanes
              (node_genome (reset_activations g)) (statics_reset g))
    as [P2 [planes [EP [HstP2 [Hpl [Hsh [Hlen Hpix]]]]]]].
  assert (Hev' := Hev).
  destruct Hev' as [Hdict [_ [_ [_ [_ [_ [Hno [Hno' Hcol]]]]]]]].
  assert (Hw : res_w (config g) = res_h (config g))
    by (symmetry; exact Hsq).
  assert (Hsh' := Hsh). rewrite Hw in Hsh', Hpix.
  destruct (images_agree g planes (res_h (config g)) eq_refl Hw Hsh'
              (eq_trans Hlen Hno') Hcol) as [im [Epar Eser]].
  assert (Hne : output_nodes g <> []).
  { intros E. rewrite E in Hno'. simpl in Hno'.
    destruct (Nat.ltb 2 _); lia. }
  (* the serial loop *)
  set (n := res_h (config g)) in Hpix.
  set (Inv := fun s : CPPN =>
                exists S, s = set_node_genome S g /\
                          statics S = statics (node_genome g)).
  assert (Hrow : forall i s, (i < n)%nat -> Inv s ->
            exists s',
              map_m (fun y => eval ext (nth i (linspace n) 0%Q) y)
                (linspace n) s
              = (Ok (map (fun j => map (fun G => Scalar (pixel i j G)) planes)
                       (seq 0 n)), s')
              /\ Inv s').
  { intros i s Hi Hs.
    destruct (map_m_indexed Inv
                (fun y => eval ext (nth i (linspace n) 0%Q) y)
                0%Q (linspace n)
                (fun j => map (fun G => Scalar (pixel i j G)) planes))
      with (s := s) as [s' [E Hs']].
    - intros j s0 Hj [S [-> HS]]. rewrite linspace_length in Hj.
      destruct (Hpix i j S Hi Hj HS) as [S2 [Ee HS2]].
      exists (set_node_genome S2 g). split; [exact Ee | exists S2; auto].
    - exact Hs.
    - rewrite linspace_length in E. exists s'. auto. }
  destruct (map_m_indexed Inv
              (fun x => map_m (fun y => eval ext x y) (linspace n))
              0%Q (linspace n)
              (fun i => map (fun j => map (fun G => Scalar (pixel i j G))
                                        planes) (seq 0 n)))
    with (s := g) as [s' [Epix Hs']].
  { intros i s Hi Hs. rewrite linspace_length in Hi. apply Hrow; assumption. }
  { exists (node_genome g). split;
      [symmetry; apply set_node_genome_same | reflexivity]. }
  rewrite linspace_length in Epix. subst n.
  exists planes, im. eexists. exists s'.
  split; [|split; [exact Epar|split; [exact Hsh|split;
             [exact (eq_trans Hlen Hno')|split]]]].
  - (* the parallel path *)
    unfold get_image_data_parallel.
    unfold bind at 1, get_self at 1. cbn [fst snd].
    unfold bind at 1, lift_glob at 1, get at 1. cbn [fst snd].
    unfold bind at 1. rewrite Ecache.
    unfold bind at 1, modify_self at 1. cbn [fst snd].
    unfold bind at 1, lift_glob at 1, get at 1. cbn [fst snd].
    rewrite Hp.
    unfold bind at 1, lift_self at 1, lift_nodes. cbn [fst snd].
    rewrite EP. cbn [fst snd].
    unfold bind at 1, lift_self at 1. cbn [fst snd].
    rewrite (stack_outputs_spec g
               (set_node_genome P2 (reset_activations g))
               (map Grid planes) Hdict HstP2).
    + rewrite map_map.
      rewrite (map_ext _ (fun G => G) (fun G => eq_refl)), map_id.
      unfold bind at 1, lift_result at 1. rewrite Epar.
      unfold bind at 1, modify_self at 1. cbn [fst snd].
      rewrite Hnorm. reflexivity.
    + rewrite (map_map Grid Some). exact Hpl.
    + exact Hne.
  - rewrite Hw. exact Eser.
  - unfold serial_pixels, bind at 1, get. cbn [fst snd].
    rewrite Hw. unfold bind at 1. rewrite Epix. reflexivity.
Qed.

(** Where the two paths agree.  For a genome that both paths can evaluate
    (unique keys, connections between its own nodes, input nodes as
    configured and free of incoming enabled connections, every output node
    placed by the layering, as many output nodes as announced), a
    configuration with [normalize_outputs] off and a square resolution,
    and a feature cache that is absent, of another resolution or of this
    configuration: the parallel path returns an image, the loop of the
    serial path returns its list of values, and that list holds, pixel by
    pixel and output node by output node, the values of the image. *)
Lemma serial_parallel_agree (ext : Externals) (g : CPPN) (gl : Globals) :
  evaluable g -> cache_coherent ext g gl ->
  normalize_outputs (config g) = false ->
  res_h (config g) = res_w (config g) ->
  exists im st2 g1,
    get_image_data_parallel ext (g, gl) = (Ok im, st2) /\
    serial_pixels ext g = (Ok (image_values g im), g1).
Proof.
  intros Hev Hcache Hnorm Hsq.
  destruct (paths_in_planes ext g gl Hev Hcache Hnorm Hsq)
    as [planes [im [st2 [g1 [Epar [Him [Hsh [Hlen [_ Eser]]]]]]]]].
  destruct Hev as [_ [_ [_ [_ [_ [_ [_ [_ Hcol]]]]]]]].
  exists im, st2, g1. split; [exact Epar|].
  rewrite Eser. unfold image_values. do 4 f_equal.
  apply map_ext_in. intros r Hr. apply in_seq in Hr.
  apply map_ext_in. intros c Hc. apply in_seq in Hc.
  rewrite <- (map_map (pixel r c) Scalar).
  rewrite <- (map_map (image_value im r c) Scalar). f_equal.
  apply (plane_values (config g) planes im (n_outputs g) r c
           Him Hsh Hlen Hcol); lia.
Qed.

(** Reshaped as the serial path asks, the values that its loop collects
    are the image of the parallel path. *)
Lemma reshaped_values_agree (ext : Externals) (g : CPPN) (gl : Globals) :
  evaluable g -> cache_coherent ext g gl ->
  normalize_outputs (config g) = false ->
  res_h (config g) = res_w (config g) ->
  exists im st2 g1 flat,
    get_image_data_parallel ext (g, gl) = (Ok im, st2) /\
    serial_pixels ext g = (Ok (map Scalar flat), g1) /\
    image_of_pixels g flat = Ok im.
Proof.
  intros Hev Hcache Hnorm Hsq.
  destruct (paths_in_planes ext g gl Hev Hcache Hnorm Hsq)
    as [planes [im [st2 [g1 [Epar [_ [_ [_ [Hres Eser]]]]]]]]].
  exists im, st2, g1. eexists. split; [exact Epar|].
  split; [|exact Hres].
  rewrite Eser. do 2 f_equal. rewrite !concat_map, !map_map. do 2 f_equal.
  apply map_ext. intros i. rewrite map_map. apply map_ext. intros j.
  rewrite map_map. reflexivity.
Qed.

(** [get_image_data_serial] itself never returns: when its loop has
    collected the values, the reshape of the list raises. *)
Lemma get_image_data_serial_raises (ext : Externals) (g : CPPN) :
  exists e g1, get_image_data_serial ext g = (Raise e, g1).
Proof.
  unfold get_image_data_serial, bind at 1.
  destruct (serial_pixels ext g) as [[pixels|e] g1].
  - exists TypeError, g1. unfold bind at 1, get. cbn [fst snd].
    unfold reshape_list.
    destruct (Nat.ltb 2 (String.length (color_mode (config g1))));
      reflexivity.
  - exists e, g1. reflexivity.
Qed.

Lemma full_genome_evaluable : evaluable full_genome.
Proof.
  split; [solve_dict_ok|]. split; [solve_endpoints|].
  split; [reflexivity|]. split; [simpl; lia|].
  split.
  { intros c n Hc Hn. simpl in Hc, Hn.
    destruct Hc as [<-|[<-|[]]]; destruct Hn as [<-|[<-|[]]];
      simpl; discriminate. }
  split.
  { intros n Hn. simpl in Hn. destruct Hn as [<-|[]].
    exists [(-3)]. split; [vm_compute|simpl]; auto. }
  split; [reflexivity|]. split; reflexivity.
Qed.

Lemma serial_parallel_agree_witness :
  normalize_outputs (config full_genome) = false /\
  res_h (config full_genome) = res_w (config full_genome) /\
  exists im st2 g1,
    get_image_data_parallel (mkExternals (fun x => x) (fun x => x))
      (full_genome, example_globals []) = (Ok im, st2) /\
    serial_pixels (mkExternals (fun x => x) (fun x => x)) full_genome
    = (Ok (image_values full_genome im), g1).
Proof.
  split; [reflexivity|]. split; [reflexivity|].
  apply (serial_parallel_agree (mkExternals (fun x => x) (fun x => x))
           full_genome (example_globals [])
           full_genome_evaluable I eq_refl eq_refl).
Defined.

(** With [normalize_outputs] on, the parallel path
    rescales the image to the range from 0 to 1 and the serial path does
    not: on the fully connected genome of two inputs and one output, at a
    resolution of 2 by 2, the first value of the serial path is -1 and the
    image of the parallel path has 0 at row 0 and column 0. *)
Lemma normalized_outputs_counterexample :
  exists q flat g1 im st2,
    serial_pixels (mkExternals (fun x => x) (fun x => x))
      normalizing_genome = (Ok (Scalar q :: flat), g1) /\
    get_image_data_parallel (mkExternals (fun x => x) (fun x => x))
      (normalizing_genome, example_globals []) = (Ok im, st2) /\
    (q == -1)%Q /\ (image_value im 0 0 0 == 0)%Q /\
    ~ (q == image_value im 0 0 0)%Q.
Proof.
  eexists _, _, _, _, _. split; [vm_compute; reflexivity|].
  split; [vm_compute; reflexivity|].
  split; [vm_compute; reflexivity|]. split; [vm_compute; reflexivity|].
  vm_compute. discriminate.
Qed.

(** Off the square resolutions the two paths evaluate different points:
    the serial path feeds the column coordinate to the first input node,
    the parallel path the row coordinate.  With one row and two columns
    and the weights 1 and 2, the second value is -1/2 on the serial path
    and 1/2 on the parallel one. *)
Lemma wide_genome_values :
  exists q0 q1 g1 im st2,
    serial_pixels (mkExternals (fun x => x) (fun x => x)) wide_genome
    = (Ok [Scalar q0; Scalar q1], g1) /\
    get_image_data_parallel (mkExternals (fun x => x) (fun x => x))
      (wide_genome, example_globals []) = (Ok im, st2) /\
    (q1 == - (1 # 2))%Q /\ (image_value im 0 1 0 == 1 # 2)%Q.
Proof.
  eexists _, _, _, _, _. split; [vm_compute; reflexivity|].
  split; [vm_compute; reflexivity|]. split; vm_compute; reflexivity.
Qed.

(** An output node that the layering does not place is never evaluated:
    the serial path finds no output to stack, the parallel path returns
    the value 1/2 that [reset_activations] left there. *)
Lemma stale_genome_paths :
  exists g1 st2,
    serial_pixels (mkExternals (fun x => x) (fun x => x)) stale_genome
    = (Raise TypeError, g1) /\
    get_image_data_parallel (mkExternals (fun x => x) (fun x => x))
      (stale_genome, example_globals [])
    = (Ok (Img2 (const_grid 2 2 (1 # 2))), st2).
Proof.
  eexists _, _. split; vm_compute; reflexivity.
Qed.

(** The feature array of the class is kept for the next genome of the
    same resolution, whatever its features: after a genome whose third
    input is the radial distance, the parallel path of a genome whose
    third input is the bias reads the distances.  With the weights 1 the
    serial loop collects 0, 1, 1, 2 and the image of the parallel path
    holds -1/2, 1/2, 1/2, 3/2. *)
Lemma stale_features_values :
  exists im0 g0 gl1 im st2 q0 q1 q2 q3 g1,
    get_image_data_parallel (mkExternals (fun x => x) (fun x => x))
      (three_input_genome true false, example_globals [])
    = (Ok im0, (g0, gl1)) /\
    get_image_data_parallel (mkExternals (fun x => x) (fun x => x))
      (three_input_genome false true, gl1) = (Ok im, st2) /\
    serial_pixels (mkExternals (fun x => x) (fun x => x))
      (three_input_genome false true)
    = (Ok [Scalar q0; Scalar q1; Scalar q2; Scalar q3], g1) /\
    (q0 == 0)%Q /\ (q1 == 1)%Q /\ (q2 == 1)%Q /\ (q3 == 2)%Q /\
    (image_value im 0 0 0 == - (1 # 2))%Q /\
    (image_value im 0 1 0 == 1 # 2)%Q /\
    (image_value im 1 0 0 == 1 # 2)%Q /\
    (image_value im 1 1 0 == 3 # 2)%Q.
Proof.
  eexists _, _, _, _, _, _, _, _, _, _.
  split; [vm_compute; reflexivity|].
  split; [vm_compute; reflexivity|].
  split; [vm_compute; reflexivity|].
  repeat split; vm_compute; reflexivity.
Qed.

(** C1. [get_image_data_serial] returns on no genome: it hands its list of
    values to [torch.reshape], which raises.  On a genome that both paths
    can evaluate, with [normalize_outputs] off, a square resolution and a
    feature cache that is absent, of another resolution or of this
    configuration, the parallel path returns an image and the serial path
    raises TypeError, so the two paths do not produce equal arrays. *)
Theorem serial_path_never_returns (ext : Externals) (g : CPPN) (gl : Globals) :
  (exists e g1, get_image_data_serial ext g = (Raise e, g1)) /\
  (evaluable g -> cache_coherent ext g gl ->
   normalize_outputs (config g) = false ->
   res_h (config g) = res_w (config g) ->
   exists im st2 g1,
     get_image_data_parallel ext (g, gl) = (Ok im, st2) /\
     get_image_data_serial ext g = (Raise TypeError, g1)).
Proof.
  split; [apply get_image_data_serial_raises|].
  intros Hev Hcache Hnorm Hsq.
  destruct (paths_in_planes ext g gl Hev Hcache Hnorm Hsq)
    as [planes [im [st2 [g1 [Epar [_ [_ [_ [_ Eser]]]]]]]]].
  exists im, st2, g1. split; [exact Epar|].
  unfold get_image_data_serial, bind at 1. rewrite Eser.
  unfold bind at 1, get. cbn [fst snd]. unfold reshape_list.
  destruct (Nat.ltb 2 (String.length (color_mode (config g1))));
    reflexivity.
Qed.

(** C1 (witness) *)
Lemma serial_path_never_returns_witness :
  exists im st2 g1,
    get_image_data_parallel (mkExternals (fun x => x) (fun x => x))
      (full_genome, example_globals []) = (Ok im, st2) /\
    get_image_data_serial (mkExternals (fun x => x) (fun x => x)) full_genome
    = (Raise TypeError, g1).
Proof.
  apply (proj2 (serial_path_never_returns
                  (mkExternals (fun x => x) (fun x => x))
                  full_genome (example_globals []))).
  - exact full_genome_evaluable.
  - exact I.
  - reflexivity.
  - reflexivity.
Defined.

(** * Graph utilities, mutation, construction, evaluation and the
    evolutionary loop *)

(** ** The backward closure of [required_for_output] *)

Section RequiredLoop.

Variable inputs outputs : list Z.
Variable cs : list (Z * Z).

Lemma required_loop_closure (fuel : nat) :
  forall required s r,
    required_loop fuel inputs cs required s = Some r ->
    required_inv inputs outputs cs required s ->
    (forall o, In o outputs -> In o r) /\
    (forall a, In a r ->
       (In a outputs \/ ~ In a inputs) /\
       exists o, In o outputs /\ feeds cs a o) /\
    (forall a b, In (a, b) cs -> In b r -> ~ In a inputs -> In a r) /\
    NoDup r.
Proof.
  induction fuel as [|fuel IH]; intros required s r H Hinv; [discriminate|].
  cbn [required_loop] in H.
  destruct Hinv as [Hincl [Hfull [Hfeed [Hout [Hkind Hnd]]]]].
  assert (Hexit : (forall a, In a (consumed_by s cs) -> In a inputs) ->
            forall a b, In (a, b) cs -> In b required -> ~ In a inputs ->
                        In a required).
  { intros Hall a b Hab Hb Ha. apply Hfull; [|assumption].
    destruct (in_dec Z.eq_dec a s) as [Hs|Hs]; [assumption|].
    exfalso. apply Ha, Hall. apply consumed_by_In.
    split; [assumption|]. exists b. split; [assumption|].
    apply Hincl. assumption. }
  assert (Hdone : (forall a, In a (consumed_by s cs) -> In a inputs) ->
            (forall o, In o outputs -> In o required) /\
            (forall a, In a required ->
               (In a outputs \/ ~ In a inputs) /\
               exists o, In o outputs /\ feeds cs a o) /\
            (forall a b, In (a, b) cs -> In b required -> ~ In a inputs ->
                         In a required) /\
            NoDup required).
  { intros Hall. split; [assumption|].
    split; [|split; [exact (Hexit Hall)|assumption]].
    intros a Ha. split; [apply Hkind; assumption|].
    apply Hfeed, Hincl. assumption. }
  destruct (consumed_by s cs) as [|a0 t] eqn:Et.
  - injection H as <-. apply Hdone. intros a [].
  - set (ts := a0 :: t) in *.
    destruct (filter (fun x => negb (mem x inputs)) ts) as [|b0 u] eqn:El.
    + injection H as <-. apply Hdone. intros a Ha.
      destruct (in_dec Z.eq_dec a inputs) as [Hi|Hi]; [assumption|].
      exfalso.
      assert (Hf : In a (filter (fun x => negb (mem x inputs)) ts)).
      { apply filter_In. split; [assumption|].
        apply negb_true_iff, not_mem_In. assumption. }
      rewrite El in Hf. exact Hf.
    + rewrite <- El in H. apply (IH _ _ _ H). clear IH H.
      assert (Htin : forall x, In x ts ->
                ~ In x s /\ exists b, In (x, b) cs /\ In b s).
      { intros x Hx. apply consumed_by_In. rewrite Et. exact Hx. }
      assert (Hntd : NoDup ts).
      { rewrite <- Et. unfold consumed_by, to_set.
        apply NoDup_nodup. }
      split; [|split; [|split; [|split; [|split]]]].
      * intros x Hx. apply in_or_app. apply in_app_or in Hx.
        destruct Hx as [Hx|Hx]; [left; apply Hincl; assumption|].
        right. apply filter_In in Hx. destruct Hx as [Hx _].
        apply filter_In in Hx. tauto.
      * intros x Hx Hni. apply in_or_app. apply in_app_or in Hx.
        destruct Hx as [Hx|Hx]; [left; apply Hfull; assumption|].
        destruct (in_dec Z.eq_dec x required) as [Hr|Hr]; [left; assumption|].
        right. apply filter_In. split.
        -- apply filter_In. split; [assumption|].
           apply negb_true_iff, not_mem_In. assumption.
        -- apply negb_true_iff, not_mem_In. assumption.
      * intros x Hx. apply in_app_or in Hx.
        destruct Hx as [Hx|Hx]; [apply Hfeed; assumption|].
        destruct (Htin x Hx) as [_ [b [Hxb Hb]]].
        destruct (Hfeed b Hb) as [o [Ho Hbo]].
        exists o. split; [assumption|]. eapply feeds_step; eassumption.
      * intros o Ho. apply in_or_app. left. apply Hout. assumption.
      * intros x Hx. apply in_app_or in Hx.
        destruct Hx as [Hx|Hx]; [apply Hkind; assumption|].
        right. apply filter_In in Hx. destruct Hx as [Hx _].
        apply filter_In in Hx. destruct Hx as [_ Hx].
        apply negb_true_iff, not_mem_In in Hx. assumption.
      * apply NoDup_app; [assumption | |].
        -- apply NoDup_filter, NoDup_filter. assumption.
        -- intros x Hx Hx'. apply filter_In in Hx'.
           destruct Hx' as [_ Hx']. apply negb_true_iff, not_mem_In in Hx'.
           contradiction.
Qed.

End RequiredLoop.

(** X1 (required_for_output).  The set that [required_for_output] returns
    holds every output; each member is an output or is no input, and
    reaches an output along connections; and the set is closed backwards:
    the source of a connection into a member is a member unless it is an
    input.  No identifier is listed twice. *)
Theorem required_for_output_closure (inputs outputs : list Z)
  (cs : list (Z * Z)) :
  (forall o, In o outputs -> In o (required_for_output inputs outputs cs)) /\
  (forall a, In a (required_for_output inputs outputs cs) ->
     (In a outputs \/ ~ In a inputs) /\
     exists o, In o outputs /\ feeds cs a o) /\
  (forall a b, In (a, b) cs ->
     In b (required_for_output inputs outputs cs) ->
     ~ In a inputs -> In a (required_for_output inputs outputs cs)) /\
  NoDup (required_for_output inputs outputs cs).
Proof.
  unfold required_for_output.
  destruct (required_loop_terminates (S (List.length cs)) inputs cs
              (to_set outputs) (to_set outputs)) as [r Hr].
  { assert (H := unvisited_le cs (to_set outputs)). lia. }
  rewrite Hr.
  apply (required_loop_closure inputs outputs cs _ _ _ _ Hr).
  split; [apply incl_refl|]. split; [auto|].
  split.
  { intros x Hx. apply (proj1 (to_set_In _ _)) in Hx. exists x.
    split; [assumption | constructor]. }
  split; [intros o Ho; apply (proj2 (to_set_In _ _)); assumption|].
  split; [intros x Hx; left; apply (proj1 (to_set_In _ _)); assumption|].
  apply NoDup_nodup.
Qed.

(** ** The layers of [feed_forward_layers] *)

Lemma layering_end (required : list Z) (cs : list (Z * Z)) (s : list Z)
  (L : list (list Z)) :
  layering required cs s L ->
  next_layer required cs (s ++ concat L) = [].
Proof.
  induction 1 as [s E | s L Hne HL IH].
  - cbn [concat]. rewrite app_nil_r. assumption.
  - cbn [concat]. rewrite app_assoc. assumption.
Qed.

Lemma layering_shape (required : list Z) (cs : list (Z * Z)) (s : list Z)
  (L : list (list Z)) :
  layering required cs s L ->
  forall l, In l L -> l <> [] /\ NoDup l.
Proof.
  induction 1 as [s E | s L Hne HL IH]; intros l Hl; [contradiction|].
  destruct Hl as [<-|Hl]; [|apply IH; assumption].
  split; [assumption|].
  unfold next_layer, get_candidate_nodes, to_set.
  apply NoDup_filter, NoDup_nodup.
Qed.

Lemma layering_members (required : list Z) (cs : list (Z * Z)) (s : list Z)
  (L : list (list Z)) :
  layering required cs s L ->
  forall l n, In l L -> In n l ->
    In n required /\ (exists a, In (a, n) cs) /\
    forall a, In (a, n) cs -> In a (s ++ concat L).
Proof.
  induction 1 as [s E | s L Hne HL IH]; intros l n Hl Hn; [contradiction|].
  destruct Hl as [<-|Hl].
  - apply next_layer_In in Hn.
    destruct Hn as [Hr [_ [[a [Ha _]] Hall]]].
    split; [assumption|]. split; [exists a; assumption|].
    intros a' Ha'. apply in_or_app. left. apply Hall. assumption.
  - destruct (IH l n Hl Hn) as [Hr [He Hall]].
    split; [assumption|]. split; [assumption|].
    intros a Ha. cbn [concat]. rewrite app_assoc. apply Hall. assumption.
Qed.

Lemma placed_concat (g : CPPN) (k : Z) :
  placed g k <-> In k (concat (feed_forward_layers g)).
Proof.
  unfold placed. rewrite in_concat. split.
  - intros [l [Hl Hk]]. exists l. split; assumption.
  - intros [l [Hl Hk]]. exists l. split; assumption.
Qed.

(** X2 (feed_forward_layers).  No layer is empty, no layer lists a node
    twice and no node stands in two layers.  A node is placed in some
    layer exactly when it is no input node, it is required for an output,
    it has an incoming connection (enabled or not), and every incoming
    connection leaves an input node or a placed node. *)
Theorem feed_forward_layers_placed (g : CPPN) :
  (forall l, In l (feed_forward_layers g) -> l <> [] /\ NoDup l) /\
  (forall j k l l' n,
     nth_error (feed_forward_layers g) j = Some l ->
     nth_error (feed_forward_layers g) k = Some l' ->
     In n l -> In n l' -> j = k) /\
  (forall k,
     placed g k <->
     ~ In k (map id (input_nodes g)) /\
     In k (ids_required g) /\
     (exists a, In (a, k) (map key_ (connection_genome g))) /\
     (forall a, In (a, k) (map key_ (connection_genome g)) ->
        In a (map id (input_nodes g)) \/ placed g a)).
Proof.
  assert (HL := feed_forward_layers_layering g).
  split; [exact (layering_shape _ _ _ _ HL)|].
  split; [exact (layering_disjoint _ _ _ _ HL)|].
  intros k. split.
  - intros [l [Hl Hk]].
    destruct (layering_members _ _ _ _ HL l k Hl Hk) as [Hr [He Hall]].
    split.
    { intros Hi. apply (layering_fresh _ _ _ _ HL l k Hl Hk).
      apply (proj2 (to_set_In _ _)). assumption. }
    split; [assumption|]. split; [assumption|].
    intros a Ha. apply Hall in Ha. apply in_app_or in Ha.
    destruct Ha as [Ha|Ha].
    + left. apply (proj1 (to_set_In _ _)). assumption.
    + right. apply placed_concat. assumption.
  - intros [Hi [Hr [[a Ha] Hall]]].
    destruct (in_dec Z.eq_dec k (concat (feed_forward_layers g)))
      as [Hk|Hk]; [apply placed_concat; assumption|].
    exfalso.
    assert (Hend := layering_end _ _ _ _ HL).
    assert (Hin : In k (next_layer (ids_required g)
                          (map key_ (connection_genome g))
                          (to_set (map id (input_nodes g))
                           ++ concat (feed_forward_layers g)))).
    { assert (Hsrc : forall a', In (a', k) (map key_ (connection_genome g)) ->
                In a' (to_set (map id (input_nodes g))
                       ++ concat (feed_forward_layers g))).
      { intros a' Ha'. apply in_or_app.
        destruct (Hall a' Ha') as [H|H].
        - left. apply (proj2 (to_set_In _ _)). assumption.
        - right. apply placed_concat. assumption. }
      apply next_layer_In. split; [assumption|]. split.
      - intros H. apply in_app_or in H. destruct H as [H|H].
        + apply Hi. apply (proj1 (to_set_In _ _)). assumption.
        + contradiction.
      - split; [|assumption]. exists a. split; [assumption|].
        apply Hsrc. assumption. }
    rewrite Hend in Hin. exact Hin.
Qed.

(** ** Excess, disjoint and matching connections *)

Lemma key_ltb_irrefl (k : Z * Z) : key_ltb k k = false.
Proof.
  unfold key_ltb. rewrite Z.ltb_irrefl, Z.ltb_irrefl, andb_false_r.
  reflexivity.
Qed.

Lemma key_ltb_trans (a b c : Z * Z) :
  key_ltb a b = true -> key_ltb b c = true -> key_ltb a c = true.
Proof.
  unfold key_ltb. intros H1 H2.
  apply orb_true_iff in H1. apply orb_true_iff in H2.
  apply orb_true_iff.
  rewrite !andb_true_iff, !Z.ltb_lt, !Z.eqb_eq in *.
  lia.
Qed.

Lemma key_ltb_total (a b : Z * Z) :
  a <> b -> key_ltb a b = negb (key_ltb b a).
Proof.
  intros Hne. unfold key_ltb. destruct a as [a1 a2], b as [b1 b2].
  cbn [fst snd].
  destruct (Z.ltb_spec a1 b1), (Z.ltb_spec b1 a1), (Z.eqb_spec a1 b1),
    (Z.eqb_spec b1 a1), (Z.ltb_spec a2 b2), (Z.ltb_spec b2 a2);
    try reflexivity; try lia.
  exfalso. apply Hne. f_equal; lia.
Qed.

Lemma key_in_In (k : Z * Z) (ks : list (Z * Z)) :
  key_in k ks = true <-> In k ks.
Proof.
  unfold key_in. rewrite existsb_exists. split.
  - intros [x [Hx E]]. apply key_eqb_eq in E. subst. assumption.
  - intros H. exists k. split; [assumption | apply key_eqb_refl].
Qed.

Lemma insert_by_key_perm (c : Connection) (l : list Connection) :
  Permutation (c :: l) (insert_by_key c l).
Proof.
  induction l as [|d l IH]; [apply Permutation_refl|].
  cbn [insert_by_key]. destruct (key_ltb (key_ c) (key_ d)).
  - apply Permutation_refl.
  - eapply perm_trans; [apply perm_swap|]. apply perm_skip. exact IH.
Qed.

Lemma sorted_by_key_perm (l : list Connection) :
  Permutation l (sorted_by_key l).
Proof.
  induction l as [|c l IH]; [constructor|].
  cbn [sorted_by_key fold_right].
  eapply perm_trans; [apply perm_skip; exact IH|].
  apply insert_by_key_perm.
Qed.

Lemma sorted_by_key_length (l : list Connection) :
  List.length (sorted_by_key l) = List.length l.
Proof. symmetry. apply Permutation_length, sorted_by_key_perm. Qed.

Lemma filter_three {A : Type} (p q r : A -> bool) (l : list A) :
  (forall x, In x l ->
     (p x = true /\ q x = false /\ r x = false) \/
     (p x = false /\ q x = true /\ r x = false) \/
     (p x = false /\ q x = false /\ r x = true)) ->
  (List.length (filter p l) + List.length (filter q l)
   + List.length (filter r l) = List.length l)%nat.
Proof.
  induction l as [|a l IH]; intros H; [reflexivity|].
  assert (IH' := IH (fun x Hx => H x (or_intror Hx))).
  cbn [filter List.length].
  destruct (H a (or_introl eq_refl)) as [[-> [-> ->]]|[[-> [-> ->]]|[-> [-> ->]]]];
    cbn [List.length]; lia.
Qed.

(** X3 (get_excess_connections, get_disjoint_connections,
    get_matching_connections).  Against a non-empty list of other
    connections, every connection of [this_cxs] is counted once: as
    excess, as disjoint or as matching.  Against an empty list nothing is
    excess and nothing is disjoint, whatever [this_cxs] holds. *)
Theorem connections_partition (this_cxs other_cxs : list Connection) :
  (other_cxs <> [] ->
   (List.length (get_excess_connections this_cxs (map key_ other_cxs))
    + List.length (get_disjoint_connections this_cxs (map key_ other_cxs))
    + List.length (fst (get_matching_connections this_cxs other_cxs))
    = List.length this_cxs)%nat) /\
  (other_cxs = [] ->
   get_excess_connections this_cxs (map key_ other_cxs) = [] /\
   get_disjoint_connections this_cxs (map key_ other_cxs) = []).
Proof.
  split.
  - intros Hne. unfold get_matching_connections. cbn [fst].
    rewrite sorted_by_key_length.
    unfold get_excess_connections, get_disjoint_connections.
    destruct this_cxs as [|t0 ts]; [reflexivity|].
    set (this := t0 :: ts).
    destruct (rev (map key_ other_cxs)) as [|last_key ks] eqn:Er.
    { exfalso. apply Hne.
      assert (H : rev (rev (map key_ other_cxs)) = []) by (rewrite Er; reflexivity).
      rewrite rev_involutive in H. apply map_eq_nil in H. assumption. }
    assert (Hlast : In last_key (map key_ other_cxs)).
    { apply in_rev. rewrite Er. left. reflexivity. }
    apply filter_three. intros x _.
    destruct (key_in (key_ x) (map key_ other_cxs)) eqn:Ein.
    + right. right. cbn [negb andb]. auto.
    + cbn [negb andb].
      assert (Hneq : key_ x <> last_key).
      { intros E. rewrite E in Ein.
        apply (proj2 (key_in_In _ _)) in Hlast. congruence. }
      rewrite (key_ltb_total _ _ Hneq).
      destruct (key_ltb last_key (key_ x)); cbn [negb]; auto.
  - intros ->. unfold get_excess_connections, get_disjoint_connections.
    cbn [map rev]. destruct this_cxs; split; reflexivity.
Qed.

(** ** Sorted keys *)

Lemma insert_by_key_In (c x : Connection) (l : list Connection) :
  In x (insert_by_key c l) <-> x = c \/ In x l.
Proof.
  split.
  - intros H. apply (Permutation_in _ (Permutation_sym (insert_by_key_perm c l))) in H.
    destruct H as [<-|H]; auto.
  - intros H. apply (Permutation_in _ (insert_by_key_perm c l)).
    destruct H as [->|H]; [left; reflexivity | right; assumption].
Qed.

Lemma insert_by_key_sorted (c : Connection) (l : list Connection) :
  ~ In (key_ c) (map key_ l) ->
  StronglySorted key_lt (map key_ l) ->
  StronglySorted key_lt (map key_ (insert_by_key c l)).
Proof.
  induction l as [|d l IH]; intros Hc Hs.
  - cbn. constructor; constructor.
  - cbn [insert_by_key]. inversion Hs as [|? ? Hs' Hall]; subst.
    destruct (key_ltb (key_ c) (key_ d)) eqn:E.
    + cbn [map]. constructor; [exact Hs|].
      constructor; [exact E|].
      apply Forall_forall. intros k Hk. rewrite Forall_forall in Hall.
      eapply key_ltb_trans; [exact E | apply Hall; exact Hk].
    + cbn [map]. constructor.
      * apply IH; [|assumption]. intros H. apply Hc. right. assumption.
      * apply Forall_forall. intros k Hk. apply in_map_iff in Hk.
        destruct Hk as [x [<- Hx]]. apply insert_by_key_In in Hx.
        destruct Hx as [->|Hx].
        -- assert (Hneq : key_ d <> key_ c)
             by (intros E'; apply Hc; left; assumption).
           unfold key_lt. rewrite (key_ltb_total _ _ Hneq), E. reflexivity.
        -- rewrite Forall_forall in Hall. apply Hall. apply in_map. assumption.
Qed.

Lemma sorted_by_key_sorted (l : list Connection) :
  NoDup (map key_ l) ->
  StronglySorted key_lt (map key_ (sorted_by_key l)).
Proof.
  induction l as [|c l IH]; intros Hnd; [constructor|].
  inversion Hnd as [|? ? Hc Hnd']; subst.
  cbn [sorted_by_key fold_right]. apply insert_by_key_sorted.
  - intros H. apply Hc.
    apply (Permutation_in _
             (Permutation_sym (Permutation_map key_ (sorted_by_key_perm l)))).
    assumption.
  - apply IH. assumption.
Qed.

Lemma strongly_sorted_unique (l m : list (Z * Z)) :
  StronglySorted key_lt l -> StronglySorted key_lt m ->
  (forall k, In k l <-> In k m) -> l = m.
Proof.
  revert m. induction l as [|a l IH]; intros m Hl Hm Heq.
  - destruct m as [|b m]; [reflexivity|].
    exfalso. apply (proj2 (Heq b)). left. reflexivity.
  - destruct m as [|b m].
    { exfalso. apply (proj1 (Heq a)). left. reflexivity. }
    inversion Hl as [|? ? Hl' Hal]; subst.
    inversion Hm as [|? ? Hm' Hbm]; subst.
    rewrite Forall_forall in Hal, Hbm.
    assert (Hab : a = b).
    { destruct (proj1 (Heq a) (or_introl eq_refl)) as [E|Ha]; [auto|].
      destruct (proj2 (Heq b) (or_introl eq_refl)) as [E|Hb]; [auto|].
      exfalso. assert (H1 := Hbm _ Ha). assert (H2 := Hal _ Hb).
      assert (H3 := key_ltb_trans _ _ _ H1 H2).
      rewrite key_ltb_irrefl in H3. discriminate. }
    subst b. f_equal. apply IH; [assumption | assumption |].
    intros k. split; intros Hk.
    + destruct (proj1 (Heq k) (or_intror Hk)) as [E|H]; [|assumption].
      exfalso. subst k. assert (H1 := Hal _ Hk).
      unfold key_lt in H1. rewrite key_ltb_irrefl in H1. discriminate.
    + destruct (proj2 (Heq k) (or_intror Hk)) as [E|H]; [|assumption].
      exfalso. subst k. assert (H1 := Hbm _ Hk).
      unfold key_lt in H1. rewrite key_ltb_irrefl in H1. discriminate.
Qed.

(** X4 (get_matching_connections).  For two lists that hold each key once
    (the values of two dictionaries), the two lists returned carry the same
    keys in the same, strictly ascending order: position by position they
    pair the connections of one key, which is what [genetic_difference]
    relies on when it zips them. *)
Theorem get_matching_connections_aligned (cxs_1 cxs_2 : list Connection) :
  NoDup (map key_ cxs_1) -> NoDup (map key_ cxs_2) ->
  map key_ (fst (get_matching_connections cxs_1 cxs_2))
  = map key_ (snd (get_matching_connections cxs_1 cxs_2)) /\
  StronglySorted (fun a b => key_ltb a b = true)
    (map key_ (fst (get_matching_connections cxs_1 cxs_2))) /\
  (forall k, In k (map key_ (fst (get_matching_connections cxs_1 cxs_2)))
             <-> In k (map key_ cxs_1) /\ In k (map key_ cxs_2)).
Proof.
  intros H1 H2. unfold get_matching_connections. cbn [fst snd].
  set (f1 := filter (fun c1 => key_in (key_ c1) (map key_ cxs_2)) cxs_1).
  set (f2 := filter (fun c2 => key_in (key_ c2) (map key_ cxs_1)) cxs_2).
  assert (Hn1 : NoDup (map key_ f1)) by (apply NoDup_map_filter; assumption).
  assert (Hn2 : NoDup (map key_ f2)) by (apply NoDup_map_filter; assumption).
  assert (Hs1 := sorted_by_key_sorted f1 Hn1).
  assert (Hs2 := sorted_by_key_sorted f2 Hn2).
  assert (Hk1 : forall k, In k (map key_ (sorted_by_key f1)) <->
                          In k (map key_ cxs_1) /\ In k (map key_ cxs_2)).
  { intros k. split.
    - intros H.
      apply (Permutation_in _
               (Permutation_sym (Permutation_map key_ (sorted_by_key_perm f1))))
        in H.
      apply in_map_iff in H. destruct H as [c [<- Hc]].
      apply filter_In in Hc. destruct Hc as [Hc Hin].
      split; [apply in_map; assumption | apply key_in_In; assumption].
    - intros [Ha Hb].
      apply (Permutation_in _ (Permutation_map key_ (sorted_by_key_perm f1))).
      apply in_map_iff in Ha. destruct Ha as [c [<- Hc]].
      apply in_map. apply filter_In. split; [assumption|].
      apply key_in_In. assumption. }
  assert (Hk2 : forall k, In k (map key_ (sorted_by_key f2)) <->
                          In k (map key_ cxs_1) /\ In k (map key_ cxs_2)).
  { intros k. split.
    - intros H.
      apply (Permutation_in _
               (Permutation_sym (Permutation_map key_ (sorted_by_key_perm f2))))
        in H.
      apply in_map_iff in H. destruct H as [c [<- Hc]].
      apply filter_In in Hc. destruct Hc as [Hc Hin].
      split; [apply key_in_In; assumption | apply in_map; assumption].
    - intros [Ha Hb].
      apply (Permutation_in _ (Permutation_map key_ (sorted_by_key_perm f2))).
      apply in_map_iff in Hb. destruct Hb as [c [<- Hc]].
      apply in_map. apply filter_In. split; [assumption|].
      apply key_in_In. assumption. }
  split; [|split; [exact Hs1 | exact Hk1]].
  apply strongly_sorted_unique; [assumption | assumption |].
  intros k. rewrite Hk1, Hk2. tauto.
Qed.

(** ** The range of the genetic distance *)

Lemma nat_to_Q_nonneg (n : nat) : (0 <= nat_to_Q n)%Q.
Proof.
  unfold nat_to_Q, Qle. cbn. lia.
Qed.

Lemma nat_to_Q_pos (n : nat) : (0 < n)%nat -> (0 < nat_to_Q n)%Q.
Proof.
  intros H. unfold nat_to_Q, Qlt. cbn. lia.
Qed.

Lemma Qdiv_nonneg (a b : Q) : (0 <= a)%Q -> (0 < b)%Q -> (0 <= a / b)%Q.
Proof.
  intros Ha Hb. unfold Qdiv. apply Qmult_le_0_compat; [assumption|].
  apply Qlt_le_weak, Qinv_lt_0_compat. assumption.
Qed.

Lemma fold_Qplus_nonneg (l : list Q) :
  Forall (fun q => 0 <= q)%Q l ->
  forall a, (0 <= a)%Q -> (0 <= fold_left Qplus l a)%Q.
Proof.
  induction 1 as [|q l Hq _ IH]; intros a Ha; [assumption|].
  cbn [fold_left]. apply IH.
  rewrite <- (Qplus_0_l 0). apply Qplus_le_compat; assumption.
Qed.

Lemma mean_nonneg (l : list Q) :
  Forall (fun q => 0 <= q)%Q l -> l <> [] -> (0 <= mean l)%Q.
Proof.
  intros Hl Hne. unfold mean, Qsum. apply Qdiv_nonneg.
  - apply fold_Qplus_nonneg; [assumption | apply Qle_refl].
  - apply (nat_to_Q_pos (List.length l)).
    destruct l; [contradiction | cbn; lia].
Qed.

Lemma normalized_count_nonneg (n N : nat) :
  (0 <= (if (0 <? N)%nat then nat_to_Q n / nat_to_Q N else nat_to_Q n) * 1)%Q.
Proof.
  rewrite Qmult_1_r. destruct (Nat.ltb_spec 0 N).
  - apply Qdiv_nonneg; [apply nat_to_Q_nonneg | apply nat_to_Q_pos; assumption].
  - apply nat_to_Q_nonneg.
Qed.

Lemma genetic_difference_range (self other : CPPN) :
  (0 <= genetic_difference self other)%Q.
Proof.
  unfold genetic_difference.
  destruct (get_matching_connections _ _) as [this_matching other_matching].
  set (diffs := map (fun ot => Qabs (weight (fst ot) - weight (snd ot)))
                  (combine other_matching this_matching)).
  assert (Hd : (0 <= match diffs with [] => 0 | _ => mean diffs end)%Q).
  { destruct diffs as [|d ds] eqn:Ed; [apply Qle_refl|].
    rewrite <- Ed. apply mean_nonneg; [|rewrite Ed; discriminate].
    unfold diffs. apply Forall_forall. intros q Hq.
    apply in_map_iff in Hq. destruct Hq as [ot [<- _]]. apply Qabs_nonneg. }
  repeat (apply Qle_trans with (y := (0 + 0)%Q);
          [rewrite Qplus_0_l; apply Qle_refl | apply Qplus_le_compat]).
  - apply normalized_count_nonneg.
  - apply normalized_count_nonneg.
  - apply Qmult_le_0_compat; [exact Hd | discriminate].
  - rewrite Qmult_1_r. apply nat_to_Q_nonneg.
Qed.

(** X5 (genetic_difference, species_comparision).  The distance between
    two genomes is never negative.  So with a threshold of zero or less no
    genome is of the species of another, nor of its own. *)
Theorem species_comparision_threshold (self other : CPPN) (threshold : Q) :
  (0 <= genetic_difference self other)%Q /\
  ((threshold <= 0)%Q -> species_comparision self other threshold = false).
Proof.
  split; [apply genetic_difference_range|].
  intros Ht. unfold species_comparision, Qltb.
  apply negb_false_iff. apply Qle_bool_iff.
  eapply Qle_trans; [exact Ht | apply genetic_difference_range].
Qed.

(** X5 (witness) *)
Lemma species_comparision_threshold_witness :
  (0 <= 0)%Q /\
  species_comparision full_genome full_genome 0 = false.
Proof.
  split; [apply Qle_refl|].
  apply (proj2 (species_comparision_threshold full_genome full_genome 0)).
  apply Qle_refl.
Defined.

(** ** [is_valid_connection] *)

(** X6 (is_valid_connection).  A key with a missing endpoint raises
    KeyError.  With recurrence off the accepted keys order the nodes
    strictly: no node connects to itself, no two nodes connect both ways,
    and when [(a, b)] and [(b, c)] are accepted so is [(a, c)]; every
    accepted key goes from a lower layer to a higher one. *)
Theorem is_valid_connection_order (nodes : list Node) (cfg : Config) :
  (forall a b,
     is_valid_connection nodes (a, b) cfg = Raise KeyError <->
     find_node nodes a = None \/ find_node nodes b = None) /\
  (allow_recurrent cfg = false ->
   (forall a b na nb,
      is_valid_connection nodes (a, b) cfg = Ok true ->
      find_node nodes a = Some na -> find_node nodes b = Some nb ->
      layer na < layer nb) /\
   (forall a, is_valid_connection nodes (a, a) cfg <> Ok true) /\
   (forall a b,
      is_valid_connection nodes (a, b) cfg = Ok true ->
      is_valid_connection nodes (b, a) cfg = Ok false) /\
   (forall a b c,
      is_valid_connection nodes (a, b) cfg = Ok true ->
      is_valid_connection nodes (b, c) cfg = Ok true ->
      is_valid_connection nodes (a, c) cfg = Ok true)).
Proof.
  assert (Hval : allow_recurrent cfg = false ->
            forall a b,
              is_valid_connection nodes (a, b) cfg = Ok true <->
              exists na nb, find_node nodes a = Some na /\
                            find_node nodes b = Some nb /\
                            layer na < layer nb).
  { intros Hr a b. unfold is_valid_connection. cbn [fst snd]. rewrite Hr.
    cbn [negb andb].
    destruct (find_node nodes a) as [na|], (find_node nodes b) as [nb|];
      try (split; [discriminate | intros [? [? [? [? ?]]]]; discriminate]).
    destruct (Z.eqb_spec (layer na) (layer nb)) as [E|E].
    - split; [discriminate|]. intros [x [y [Hx [Hy Hl]]]].
      inversion Hx; inversion Hy; subst. lia.
    - destruct (Z.gtb_spec (layer na) (layer nb)) as [G|G].
      + split; [discriminate|]. intros [x [y [Hx [Hy Hl]]]].
        inversion Hx; inversion Hy; subst. lia.
      + split; [|reflexivity]. intros _. exists na, nb.
        repeat split. lia. }
  split.
  - intros a b. unfold is_valid_connection. cbn [fst snd].
    destruct (find_node nodes a) as [na|], (find_node nodes b) as [nb|].
    + split; [|intros [H|H]; discriminate].
      destruct (layer na =? layer nb); [discriminate|].
      destruct (negb _ && _); discriminate.
    + split; auto.
    + split; auto.
    + split; auto.
  - intros Hr. split; [|split; [|split]].
    + intros a b na nb H Ha Hb. apply (Hval Hr) in H.
      destruct H as [x [y [Hx [Hy Hl]]]]. congruence.
    + intros a H. apply (Hval Hr) in H.
      destruct H as [x [y [Hx [Hy Hl]]]].
      rewrite Hx in Hy. inversion Hy; subst. lia.
    + intros a b H. apply (Hval Hr) in H.
      destruct H as [x [y [Hx [Hy Hl]]]].
      unfold is_valid_connection. cbn [fst snd]. rewrite Hx, Hy, Hr.
      cbn [negb andb].
      destruct (Z.eqb_spec (layer y) (layer x)); [reflexivity|].
      destruct (Z.gtb_spec (layer y) (layer x)); [reflexivity | lia].
    + intros a b c H1 H2. apply (Hval Hr) in H1. apply (Hval Hr) in H2.
      apply (Hval Hr).
      destruct H1 as [x [y [Hx [Hy Hl]]]].
      destruct H2 as [y' [z [Hy' [Hz Hl']]]].
      rewrite Hy in Hy'. inversion Hy'; subst y'.
      exists x, z. repeat split; try assumption. lia.
Qed.

(** X4 (witness) *)
Lemma get_matching_connections_aligned_witness :
  NoDup (map key_ (connection_genome stale_genome)) /\
  NoDup (map key_ (connection_genome full_genome)) /\
  map key_ (fst (get_matching_connections (connection_genome stale_genome)
                   (connection_genome full_genome)))
  = map key_ (snd (get_matching_connections (connection_genome stale_genome)
                     (connection_genome full_genome))).
Proof.
  assert (H1 : NoDup (map key_ (connection_genome stale_genome)))
    by (simpl; solve_NoDup).
  assert (H2 : NoDup (map key_ (connection_genome full_genome)))
    by (simpl; solve_NoDup).
  split; [exact H1|]. split; [exact H2|].
  apply (get_matching_connections_aligned _ _ H1 H2).
Defined.

(** ** Random draws leave the class attributes alone *)

Lemma same_class_refl (gl : Globals) : same_class gl gl.
Proof. repeat split. Qed.

Lemma same_class_trans (a b c : Globals) :
  same_class a b -> same_class b c -> same_class a c.
Proof.
  intros [H1 [H2 H3]] [K1 [K2 K3]]. repeat split; congruence.
Qed.

Lemma torch_rand_class (gl : Globals) :
  torch_rand gl = (Ok (next_rand gl), after_rand gl) /\
  same_class gl (after_rand gl).
Proof. split; [reflexivity | repeat split]. Qed.

Lemma random_uniform_class (lo hi : Q) (gl : Globals) :
  exists r, random_uniform lo hi gl = (Ok r, after_rand gl).
Proof. eexists. reflexivity. Qed.

Lemma draw_index_class (n : nat) (gl : Globals) :
  (0 < n)%nat ->
  exists i gl', draw_index n gl = (Ok i, gl') /\ (i < n)%nat /\
                same_class gl gl'.
Proof.
  intros Hn. unfold draw_index. destruct (pick_tape gl) as [|d t].
  - exists O, gl. split; [reflexivity|]. split; [assumption|].
    apply same_class_refl.
  - eexists _, _. split; [reflexivity|]. split.
    + apply Nat.mod_upper_bound. lia.
    + repeat split.
Qed.

Lemma random_choice1_class {A : Type} (choices : list A) (gl : Globals) :
  choices <> [] ->
  exists a gl', random_choice1 choices gl = (Ok a, gl') /\ In a choices /\
                same_class gl gl'.
Proof.
  intros Hne. destruct choices as [|c cs]; [contradiction|].
  unfold random_choice1, bind.
  destruct (draw_index_class (List.length (c :: cs)) gl) as [i [gl' [E [Hi Hc]]]];
    [simpl; lia|].
  rewrite E.
  destruct (nth_error (c :: cs) i) as [a|] eqn:Hnth.
  - exists a, gl'. split; [reflexivity|]. split; [|assumption].
    apply nth_error_In in Hnth. assumption.
  - apply nth_error_None in Hnth. lia.
Qed.

Lemma random_choice2_class {A : Type} (choices : list A) (gl : Globals) :
  (2 <= List.length choices)%nat ->
  exists a b gl', random_choice2 choices gl = (Ok (a, b), gl') /\
                  In a choices /\ In b choices /\ same_class gl gl'.
Proof.
  intros Hlen. destruct choices as [|c1 [|c2 cs]]; try (simpl in Hlen; lia).
  unfold random_choice2, bind.
  destruct (draw_index_class (List.length (c1 :: c2 :: cs)) gl)
    as [i [gl1 [E1 [Hi Hc1]]]]; [lia|].
  rewrite E1.
  destruct (draw_index_class (List.length (c1 :: c2 :: cs) - 1) gl1)
    as [j [gl2 [E2 [Hj Hc2]]]]; [lia|].
  rewrite E2.
  set (l := c1 :: c2 :: cs) in *.
  destruct (nth_error l i) as [a|] eqn:Ha;
    [|apply nth_error_None in Ha; lia].
  set (j' := if Nat.ltb j i then j else S j).
  assert (Hj' : (j' < List.length l)%nat)
    by (unfold j'; destruct (Nat.ltb j i); lia).
  destruct (nth_error l j') as [b|] eqn:Hb;
    [|apply nth_error_None in Hb; lia].
  exists a, b, gl2. split; [reflexivity|].
  split; [eapply nth_error_In; eassumption|].
  split; [eapply nth_error_In; eassumption|].
  eapply same_class_trans; eassumption.
Qed.

(** ** [get_new_node_id] *)

Lemma fold_max_ge (l : list Z) (a : Z) :
  a <= fold_left Z.max l a /\
  forall k, In k l -> k <= fold_left Z.max l a.
Proof.
  revert a. induction l as [|b l IH]; intros a;
    [split; [simpl; lia | intros k []]|].
  cbn [fold_left]. destruct (IH (Z.max a b)) as [H1 H2]. split; [lia|].
  intros k [->|Hk]; [lia | apply H2; assumption].
Qed.

Lemma get_new_node_id_fresh (g : CPPN) (gl : Globals) :
  node_genome g <> [] -> indexer_fresh (g, gl) ->
  exists c,
    get_new_node_id (g, gl) = (Ok c, (g, set_indexer (Some (c + 1)) gl)) /\
    (forall k, In k (map id (node_genome g)) -> k < c) /\
    (node_indexer gl = None \/ node_indexer gl = Some c).
Proof.
  intros Hne Hf. unfold get_new_node_id, indexer_fresh in *. cbn [fst snd] in *.
  destruct (node_indexer gl) as [c|] eqn:Ei.
  - exists c.
    assert (Hm : mem c (map id (node_genome g)) = false).
    { apply not_mem_In. intros H. apply Hf in H. lia. }
    rewrite Hm. split; [reflexivity|]. split; [assumption | right; reflexivity].
  - destruct (node_genome g) as [|n ns] eqn:En; [contradiction|].
    set (c := fold_left Z.max (map id ns) (id n) + 1).
    assert (Hlt : forall k, In k (map id (n :: ns)) -> k < c).
    { destruct (fold_max_ge (map id ns) (id n)) as [H1 H2].
      intros k [<-|Hk]; unfold c; [lia|]. apply H2 in Hk. lia. }
    exists c.
    assert (Hm : mem c (map id (n :: ns)) = false).
    { apply not_mem_In. intros H. apply Hlt in H. lia. }
    rewrite Hm. split; [reflexivity|]. split; [assumption | left; reflexivity].
Qed.

(** ** [add_node] *)

Lemma update_node_layers_returns (g : CPPN) :
  endpoints_exist g ->
  update_node_layers g = (Ok tt, snd (update_node_layers g)).
Proof.
  intros He. rewrite (update_node_layers_ok g He). reflexivity.
Qed.

Lemma map_key_update_cx (k : Z * Z) (f : Connection -> Connection)
  (cs : list Connection) :
  (forall c, key_ (f c) = key_ c) ->
  map key_ (update_cx k f cs) = map key_ cs.
Proof.
  intros Hf. unfold update_cx. rewrite map_map. apply map_ext.
  intros c. destruct (key_eqb (key_ c) k); [apply Hf | reflexivity].
Qed.

Lemma dict_set_cx_new (c : Connection) (cs : list Connection) :
  ~ In (key_ c) (map key_ cs) -> dict_set_cx c cs = cs ++ [c].
Proof.
  intros H. unfold dict_set_cx. rewrite (proj2 (find_cx_None _ _) H).
  reflexivity.
Qed.

Lemma dict_set_node_new (n : Node) (ns : list Node) :
  ~ In (id n) (map id ns) -> dict_set_node n ns = ns ++ [n].
Proof.
  intros H. unfold dict_set_node. rewrite (proj2 (find_node_None _ _) H).
  reflexivity.
Qed.

Lemma map_key_set_enabled (k : Z * Z) (b : bool) (cs : list Connection) :
  map key_ (update_cx k (set_enabled b) cs) = map key_ cs.
Proof. apply map_key_update_cx. reflexivity. Qed.

Lemma existsb_key_false (k : Z * Z) (ks : list (Z * Z)) :
  ~ In k ks -> existsb (key_eqb k) ks = false.
Proof.
  intros H. apply not_true_is_false. intros E.
  apply existsb_exists in E. destruct E as [x [Hx E]].
  apply key_eqb_eq in E. subst. contradiction.
Qed.

Lemma with_split_endpoints (old : Connection) (c : Z) (fn : Activation)
  (g : CPPN) :
  endpoints_exist g -> In old (connection_genome g) ->
  endpoints_exist (with_split old c fn g).
Proof.
  intros He Hold x Hx. unfold with_split in *.
  cbn [connection_genome node_genome set_connection_genome set_node_genome]
    in *.
  rewrite map_app. cbn [map id].
  destruct (He old Hold) as [Ha Hb].
  apply in_app_or in Hx. destruct Hx as [Hx|Hx].
  - unfold update_cx in Hx. apply in_map_iff in Hx.
    destruct Hx as [y [E Hy]]. destruct (He y Hy) as [H1 H2].
    assert (Ek : key_ x = key_ y)
      by (rewrite <- E; destruct (key_eqb _ _); reflexivity).
    rewrite Ek. split; apply in_or_app; left; assumption.
  - destruct Hx as [<-|[<-|[]]]; cbn [key_ fst snd]; split; apply in_or_app;
      try (left; assumption); right; left; reflexivity.
Qed.

Lemma with_split_dict_ok (old : Connection) (c : Z) (fn : Activation)
  (g : CPPN) :
  dict_ok g -> endpoints_exist g -> In old (connection_genome g) ->
  ~ In c (map id (node_genome g)) ->
  dict_ok (with_split old c fn g).
Proof.
  intros [Hn Hc] He Hold Hfresh. unfold with_split. split;
    cbn [connection_genome node_genome set_connection_genome set_node_genome].
  - rewrite map_app. cbn [map id]. apply NoDup_app; [assumption | | ].
    + constructor; [intros [] | constructor].
    + intros x Hx [<-|[]]. contradiction.
  - rewrite map_app, map_key_set_enabled.
    cbn [map key_].
    destruct (He old Hold) as [Ha Hb].
    apply NoDup_app; [assumption | |].
    + constructor; [|constructor; [intros [] | constructor]].
      intros [E|[]]. inversion E; subst. contradiction.
    + intros k Hk Hk'. apply in_map_iff in Hk. destruct Hk as [x [E Hx]].
      destruct (He x Hx) as [H1 H2]. rewrite E in H1, H2.
      destruct Hk' as [<-|[<-|[]]]; cbn [fst snd] in *; contradiction.
Qed.

(** What [add_node] does to a genome with unique keys whose connections
    join its own nodes. *)
Lemma add_node_run (g : CPPN) (gl : Globals) :
  dict_ok g -> endpoints_exist g -> indexer_fresh (g, gl) ->
  activations (config g) <> [] ->
  (filter (fun cx => negb (is_recurrent cx)) (connection_genome g) = [] /\
   add_node (g, gl) = (Ok tt, (g, gl))) \/
  (exists old c fn gl',
     In old (filter (fun cx => negb (is_recurrent cx)) (connection_genome g))
     /\ In fn (activations (config g)) /\
     (forall k, In k (map id (node_genome g)) -> k < c) /\
     node_indexer gl' = Some (c + 1) /\
     current_id gl' = current_id gl /\ pixel_inputs gl' = pixel_inputs gl /\
     add_node (g, gl) =
     (Ok tt,
      (set_image None (snd (update_node_layers (with_split old c fn g))),
       gl'))).
Proof.
  intros Hd He Hf Hact.
  destruct (filter (fun cx => negb (is_recurrent cx)) (connection_genome g))
    as [|e0 es] eqn:Eel.
  - left. split; [reflexivity|].
    unfold add_node, bind, get_self. cbn [fst snd]. rewrite Eel. reflexivity.
  - right. unfold add_node. unfold bind at 1, get_self at 1. cbn [fst snd].
    rewrite Eel. rewrite <- Eel.
    set (eligible := filter _ (connection_genome g)) in *.
    destruct (random_choice1_class eligible gl) as [old [gl1 [E1 [Hold Hc1]]]];
      [rewrite Eel; discriminate|].
    assert (Hold' : In old (connection_genome g))
      by (apply filter_In in Hold; tauto).
    destruct (He old Hold') as [Ha Hb].
    assert (Hne : node_genome g <> []).
    { intros E. rewrite E in Ha. exact Ha. }
    assert (Hf1 : indexer_fresh (g, gl1)).
    { unfold indexer_fresh in *. cbn [fst snd] in *.
      destruct Hc1 as [-> _]. assumption. }
    destruct (get_new_node_id_fresh g gl1 Hne Hf1) as [c [E2 [Hlt _]]].
    destruct (random_choice1_class (activations (config g))
                (set_indexer (Some (c + 1)) gl1) Hact)
      as [fn [gl3 [E3 [Hfn Hc3]]]].
    assert (Hfresh : ~ In c (map id (node_genome g))).
    { intros H. apply Hlt in H. lia. }
    exists old, c, fn, gl3.
    split; [assumption|]. split; [assumption|]. split; [assumption|].
    destruct Hc1 as [_ [Hid1 Hpi1]]. destruct Hc3 as [Hix3 [Hid3 Hpi3]].
    split; [rewrite Hix3; reflexivity|].
    split; [rewrite Hid3; exact Hid1|].
    split; [rewrite Hpi3; exact Hpi1|].
    unfold bind at 1, lift_glob at 1. cbn [fst snd]. rewrite E1.
    unfold bind at 1. rewrite E2.
    unfold bind at 1, lift_glob at 1, choose_random_function. cbn [fst snd].
    rewrite E3.
    rewrite (proj2 (not_mem_In _ _) Hfresh).
    unfold bind at 1, modify_nodes at 1, modify_self at 1. cbn [fst snd].
    rewrite (dict_set_node_new (mkNode fn c HIDDEN 999 None None)
               (node_genome g) Hfresh).
    unfold bind at 1, modify_cxs at 1, modify_self at 1. cbn [fst snd].
    cbn [connection_genome set_connection_genome set_node_genome].
    unfold bind at 1, assert_new_key at 1, bind at 1, get_self at 1.
    cbn [fst snd key_ connection_genome set_connection_genome].
    rewrite map_key_set_enabled.
    assert (Hk1 : ~ In (fst (key_ old), c) (map key_ (connection_genome g))).
    { intros H. apply in_map_iff in H. destruct H as [x [E Hx]].
      destruct (He x Hx) as [_ H2]. rewrite E in H2. contradiction. }
    rewrite (existsb_key_false _ _ Hk1). unfold ret at 1.
    unfold bind at 1, modify_cxs at 1, modify_self at 1. cbn [fst snd].
    cbn [connection_genome set_connection_genome].
    rewrite (dict_set_cx_new (mkConnection (fst (key_ old), c) 1 true false)
               (update_cx (key_ old) (set_enabled false)
                  (connection_genome g)))
      by (rewrite map_key_set_enabled; exact Hk1).
    unfold bind at 1, assert_new_key at 1, bind at 1, get_self at 1.
    cbn [fst snd key_ connection_genome set_connection_genome].
    assert (Hk2 : ~ In (c, snd (key_ old))
                    (map key_ (update_cx (key_ old) (set_enabled false)
                                 (connection_genome g)
                               ++ [mkConnection (fst (key_ old), c) 1 true
                                     false]))).
    { rewrite map_app, map_key_set_enabled.
      intros H. apply in_app_or in H. destruct H as [H|H].
      - apply in_map_iff in H. destruct H as [x [E Hx]].
        destruct (He x Hx) as [H1 _]. rewrite E in H1. contradiction.
      - destruct H as [E|[]]. cbn [key_] in E. injection E as E' _.
        apply Hfresh. rewrite <- E'. assumption. }
    rewrite (existsb_key_false _ _ Hk2). unfold ret at 1.
    unfold bind at 1, modify_cxs at 1, modify_self at 1. cbn [fst snd].
    cbn [connection_genome set_connection_genome].
    rewrite (dict_set_cx_new
               (mkConnection (c, snd (key_ old)) (weight old) true false) _
               Hk2).
    rewrite <- app_assoc. cbn [app].
    unfold bind at 1, lift_self at 1. cbn [fst snd].
    change (set_connection_genome _ (set_connection_genome _
              (set_connection_genome _ (set_node_genome _ g))))
      with (with_split old c fn g).
    rewrite (update_node_layers_returns _
               (with_split_endpoints old c fn g He Hold')).
    reflexivity.
Qed.

(** ** Rules for total correctness *)

Lemma hoare_ret {S A : Type} (P : S -> Prop) (a : A) :
  hoare P (ret a) (fun _ s => P s).
Proof. intros s Hs. exists a, s. split; [reflexivity | assumption]. Qed.

Lemma hoare_bind {S A B : Type} (P : S -> Prop) (Q : A -> S -> Prop)
  (R : B -> S -> Prop) (m : M S A) (k : A -> M S B) :
  hoare P m Q -> (forall a, hoare (Q a) (k a) R) -> hoare P (bind m k) R.
Proof.
  intros Hm Hk s Hs. destruct (Hm s Hs) as [a [s1 [E1 Hq]]].
  destruct (Hk a s1 Hq) as [b [s2 [E2 Hr]]].
  exists b, s2. split; [|assumption].
  unfold bind. rewrite E1. exact E2.
Qed.

Lemma hoare_weaken {S A : Type} (P P' : S -> Prop) (Q Q' : A -> S -> Prop)
  (m : M S A) :
  (forall s, P' s -> P s) -> (forall a s, Q a s -> Q' a s) ->
  hoare P m Q -> hoare P' m Q'.
Proof.
  intros HP HQ Hm s Hs. destruct (Hm s (HP s Hs)) as [a [s' [E Hq]]].
  exists a, s'. split; [assumption | apply HQ; assumption].
Qed.

Lemma hoare_for_each {S A : Type} (Inv : S -> Prop) (l : list A)
  (f : A -> M S unit) :
  (forall a, In a l -> hoare Inv (f a) (fun _ => Inv)) ->
  hoare Inv (for_each l f) (fun _ => Inv).
Proof.
  induction l as [|a l IH]; intros Hf.
  - apply hoare_ret.
  - cbn [for_each]. eapply hoare_bind.
    + apply Hf. left. reflexivity.
    + intros u. apply IH. intros b Hb. apply Hf. right. assumption.
Qed.

Lemma hoare_get_self (P : St -> Prop) :
  hoare P get_self (fun g s => g = fst s /\ P s).
Proof. intros s Hs. exists (fst s), s. repeat split. assumption. Qed.

Lemma hoare_modify_self (P : St -> Prop) (Q : unit -> St -> Prop)
  (f : CPPN -> CPPN) :
  (forall s, P s -> Q tt (f (fst s), snd s)) -> hoare P (modify_self f) Q.
Proof.
  intros H s Hs. exists tt, (f (fst s), snd s). split; [reflexivity|].
  apply H. assumption.
Qed.

Lemma hoare_lift_glob {A : Type} (P : St -> Prop) (QA : A -> Prop)
  (m : M Globals A) :
  class_stable P ->
  (forall gl, exists a gl', m gl = (Ok a, gl') /\ QA a /\ same_class gl gl') ->
  hoare P (lift_glob m) (fun a s => QA a /\ P s).
Proof.
  intros Hst Hm [g gl] Hs. destruct (Hm gl) as [a [gl' [E [Ha Hc]]]].
  exists a, (g, gl'). unfold lift_glob. cbn [fst snd]. rewrite E.
  split; [reflexivity|]. split; [assumption|].
  eapply Hst; eassumption.
Qed.

Lemma hoare_draw (P : St -> Prop) (lo hi : Q) :
  class_stable P ->
  hoare P (lift_glob (random_uniform lo hi)) (fun _ s => P s).
Proof.
  intros Hst.
  eapply hoare_weaken;
    [| | apply (hoare_lift_glob P (fun _ => True) _ Hst)].
  - auto.
  - intros a s [_ H]. exact H.
  - intros gl. eexists _, (after_rand gl). split; [reflexivity|].
    split; [exact I | repeat split].
Qed.

Lemma hoare_choose (P : St -> Prop) (cfg : Config) :
  class_stable P -> activations cfg <> [] ->
  hoare P (lift_glob (choose_random_function cfg))
    (fun fn s => In fn (activations cfg) /\ P s).
Proof.
  intros Hst Hne. apply hoare_lift_glob; [assumption|].
  intros gl. destruct (random_choice1_class (activations cfg) gl Hne)
    as [a [gl' [E [Ha Hc]]]].
  exists a, gl'. auto.
Qed.

(** ** What well-formedness reads *)

Lemma node_kinds_ids (P S : list Node) :
  node_kinds P = node_kinds S -> map id P = map id S.
Proof.
  unfold node_kinds. intros H.
  apply (f_equal (map (fun x : Z * NodeType => fst x))) in H.
  rewrite !map_map in H. exact H.
Qed.

Lemma node_kinds_count (P S : list Node) (t : NodeType) :
  node_kinds P = node_kinds S ->
  List.length (filter (fun n => NodeType_eqb (type n) t) P)
  = List.length (filter (fun n => NodeType_eqb (type n) t) S).
Proof.
  unfold node_kinds. revert S.
  induction P as [|p P IH]; intros [|s S] E; simpl in *; try discriminate;
    [reflexivity|].
  injection E as E1 E2 E. rewrite E2.
  destruct (NodeType_eqb (type s) t); simpl; [f_equal|]; apply IH; assumption.
Qed.

Lemma well_formed_transfer (g g' : CPPN) (gl gl' : Globals) :
  well_formed (g, gl) ->
  node_kinds (node_genome g') = node_kinds (node_genome g) ->
  map key_ (connection_genome g') = map key_ (connection_genome g) ->
  config g' = config g ->
  node_indexer gl' = node_indexer gl ->
  well_formed (g', gl').
Proof.
  intros [[Hn Hc] [He [Hf [Hcount Hact]]]] Hk Hkeys Hcfg Hix.
  cbn [fst snd] in *.
  assert (Hids := node_kinds_ids _ _ Hk).
  split; [split; cbn [fst]; congruence|].
  split.
  { intros c Hcin. cbn [fst]. rewrite Hids.
    assert (Hin : In (key_ c) (map key_ (connection_genome g)))
      by (rewrite <- Hkeys; apply in_map; assumption).
    apply in_map_iff in Hin. destruct Hin as [c' [E Hc']].
    rewrite <- E. apply He. assumption. }
  split.
  { unfold indexer_fresh in *. cbn [fst snd] in *. rewrite Hix, Hids.
    assumption. }
  cbn [fst]. split; [|rewrite Hcfg; assumption].
  unfold input_nodes, output_nodes in *.
  rewrite (node_kinds_count _ _ INPUT Hk), (node_kinds_count _ _ OUTPUT Hk).
  assumption.
Qed.

Lemma mutable_state_stable (cfg : Config) : class_stable (mutable_state cfg).
Proof.
  intros g gl gl' [Hw Hc] [Hix _]. split; [|assumption].
  eapply well_formed_transfer; try eassumption; reflexivity.
Qed.

Lemma layered_nodes_kinds (g : CPPN) :
  node_kinds (layered_nodes g) = node_kinds (node_genome g).
Proof.
  rewrite layered_nodes_as_map. unfold node_kinds. rewrite map_map.
  reflexivity.
Qed.

Lemma update_node_layers_frame (g : CPPN) :
  node_kinds (node_genome (snd (update_node_layers g)))
  = node_kinds (node_genome g) /\
  map activation (node_genome (snd (update_node_layers g)))
  = map activation (node_genome g) /\
  connection_genome (snd (update_node_layers g)) = connection_genome g /\
  config (snd (update_node_layers g)) = config g /\
  image (snd (update_node_layers g)) = image g.
Proof.
  rewrite update_node_layers_spec. cbn [snd node_genome set_node_genome
    connection_genome config image].
  split; [apply layered_nodes_kinds|]. split; [|repeat split].
  rewrite layered_nodes_as_map, map_map. reflexivity.
Qed.

Lemma hoare_update_node_layers (cfg : Config) :
  hoare (mutable_state cfg) (lift_self update_node_layers)
    (fun _ => mutable_state cfg).
Proof.
  intros [g gl] [Hw Hc]. cbn [fst] in Hc.
  assert (He : endpoints_exist g) by apply Hw.
  exists tt, (snd (update_node_layers g), gl).
  unfold lift_self. cbn [fst snd].
  split; [rewrite (update_node_layers_returns g He); reflexivity|].
  destruct (update_node_layers_frame g) as [Hk [_ [Hcs [Hcf _]]]].
  split; [|cbn [fst]; congruence].
  eapply well_formed_transfer; try eassumption; [rewrite Hcs|]; reflexivity.
Qed.

Lemma hoare_set_image (cfg : Config) (im : option image_t) :
  hoare (mutable_state cfg) (modify_self (set_image im))
    (fun _ => mutable_state cfg).
Proof.
  apply hoare_modify_self. intros [g gl] [Hw Hc]. split; [|exact Hc].
  eapply well_formed_transfer; try eassumption; reflexivity.
Qed.

(** ** The operators keep the genome well formed *)

Lemma node_kinds_app (l m : list Node) :
  node_kinds (l ++ m) = node_kinds l ++ node_kinds m.
Proof. unfold node_kinds. apply map_app. Qed.

Lemma count_type_app (t : NodeType) (l m : list Node) :
  List.length (filter (fun n => NodeType_eqb (type n) t) (l ++ m))
  = (List.length (filter (fun n => NodeType_eqb (type n) t) l)
     + List.length (filter (fun n => NodeType_eqb (type n) t) m))%nat.
Proof. rewrite filter_app, length_app. reflexivity. Qed.

Lemma mutable_state_set_image (cfg : Config) (im : option image_t)
  (g : CPPN) (gl : Globals) :
  mutable_state cfg (g, gl) -> mutable_state cfg (set_image im g, gl).
Proof.
  intros [Hw Hc]. split; [|exact Hc].
  eapply well_formed_transfer; try eassumption; reflexivity.
Qed.

Lemma mutable_state_relayer (cfg : Config) (g : CPPN) (gl : Globals) :
  mutable_state cfg (g, gl) ->
  mutable_state cfg (snd (update_node_layers g), gl).
Proof.
  intros [Hw Hc]. cbn [fst] in Hc.
  destruct (update_node_layers_frame g) as [Hk [_ [Hcs [Hcf _]]]].
  split; [|cbn [fst]; congruence].
  eapply well_formed_transfer; try eassumption; [rewrite Hcs|]; reflexivity.
Qed.

Lemma hoare_add_node (cfg : Config) :
  hoare (mutable_state cfg) add_node (fun _ => mutable_state cfg).
Proof.
  intros [g gl] [Hw Hc]. cbn [fst] in Hc.
  assert (Hw' := Hw). destruct Hw' as [Hd [He [Hf [Hcount Hact]]]].
  cbn [fst snd] in *.
  destruct (add_node_run g gl Hd He Hf Hact)
    as [[_ E] | [old [c [fn [gl' [Hold [Hfn [Hlt [Hix [_ [_ E]]]]]]]]]]].
  - exists tt, (g, gl). split; [assumption|]. split; assumption.
  - eexists tt, _. split; [exact E|].
    assert (Hold' : In old (connection_genome g))
      by (apply filter_In in Hold; tauto).
    assert (Hfresh : ~ In c (map id (node_genome g)))
      by (intros H; apply Hlt in H; lia).
    apply mutable_state_set_image, mutable_state_relayer.
    split; [|exact Hc].
    split; [apply with_split_dict_ok; assumption|].
    split; [apply with_split_endpoints; assumption|].
    unfold with_split.
    cbn [fst snd node_genome connection_genome config
           set_connection_genome set_node_genome].
    split.
    { unfold indexer_fresh.
      cbn [fst snd node_genome set_connection_genome set_node_genome].
      rewrite Hix, map_app. intros k Hk'. apply in_app_or in Hk'.
      destruct Hk' as [Hk'|[<-|[]]]; [apply Hlt in Hk'; lia | cbn; lia]. }
    split; [|exact Hact].
    unfold input_nodes, output_nodes in *.
    cbn [node_genome set_connection_genome set_node_genome].
    rewrite !count_type_app. cbn. lia.
Qed.

Lemma filter_type_without (ns : list Node) (k : Z) (t : NodeType) :
  (forall n, In n ns -> id n = k -> type n <> t) ->
  filter (fun n => NodeType_eqb (type n) t)
    (filter (fun n => negb (id n =? k)) ns)
  = filter (fun n => NodeType_eqb (type n) t) ns.
Proof.
  induction ns as [|n ns IH]; intros H; [reflexivity|].
  cbn [filter].
  assert (IH' := IH (fun m Hm => H m (or_intror Hm))).
  destruct (Z.eqb_spec (id n) k) as [E|E]; cbn [negb].
  - assert (Hf : NodeType_eqb (type n) t = false).
    { apply not_true_is_false. intros Ht. apply NodeType_eqb_eq in Ht.
      exact (H n (or_introl eq_refl) E Ht). }
    rewrite Hf. exact IH'.
  - cbn [filter]. rewrite IH'. reflexivity.
Qed.

Lemma without_node_counts (k : Z) (g : CPPN) (t : NodeType) :
  NoDup (map id (node_genome g)) ->
  In k (map id (hidden_nodes g)) -> t <> HIDDEN ->
  filter (fun n => NodeType_eqb (type n) t) (node_genome (without_node k g))
  = filter (fun n => NodeType_eqb (type n) t) (node_genome g).
Proof.
  intros Hnd Hk Ht. unfold without_node.
  cbn [node_genome set_node_genome set_connection_genome].
  apply in_map_iff in Hk. destruct Hk as [h [Eh Hh]].
  apply filter_In in Hh. destruct Hh as [Hh Hty].
  apply NodeType_eqb_eq in Hty.
  apply filter_type_without. intros n Hn E Hnt.
  assert (n = h) by (apply (NoDup_id_eq (node_genome g)); congruence).
  subst n. congruence.
Qed.

Lemma hoare_remove_node (cfg : Config) :
  hoare (mutable_state cfg) remove_node (fun _ => mutable_state cfg).
Proof.
  intros [g gl] [Hw Hc]. cbn [fst] in Hc.
  assert (Hw' := Hw). destruct Hw' as [Hd [He [Hf [Hcount Hact]]]].
  cbn [fst snd] in *.
  destruct (remove_node_spec g gl Hd He) as [[_ E] | [k [gl' [Hk [Er E]]]]].
  - exists tt, (g, gl). split; [assumption|]. split; assumption.
  - eexists tt, _. split; [exact E|].
    assert (Hcls : same_class gl gl').
    { destruct (random_choice1_class (map id (hidden_nodes g)) gl)
        as [a [gl2 [E2 [_ Hc2]]]].
      - intros Hnil. rewrite Hnil in Hk. exact Hk.
      - rewrite Er in E2. injection E2 as <- <-. assumption. }
    apply mutable_state_set_image, mutable_state_relayer.
    split; [|exact Hc].
    split; [apply without_node_dict_ok; assumption|].
    split; [apply without_node_endpoints; assumption|].
    cbn [fst snd].
    split.
    { unfold indexer_fresh in *. cbn [fst snd] in *.
      destruct Hcls as [-> _]. destruct (node_indexer gl) as [c|]; [|exact I].
      intros x Hx. apply Hf. unfold without_node in Hx.
      cbn [node_genome set_node_genome] in Hx.
      apply in_map_iff in Hx. destruct Hx as [n [<- Hn]].
      apply filter_In in Hn. apply in_map. tauto. }
    split; [|exact Hact].
    unfold input_nodes, output_nodes in *.
    rewrite (without_node_counts k g INPUT (proj1 Hd) Hk) by discriminate.
    rewrite (without_node_counts k g OUTPUT (proj1 Hd) Hk) by discriminate.
    assumption.
Qed.

Lemma count_two_types (ns : list Node) :
  (List.length (filter (fun n => NodeType_eqb (type n) INPUT) ns)
   + List.length (filter (fun n => NodeType_eqb (type n) OUTPUT) ns)
   <= List.length ns)%nat.
Proof.
  induction ns as [|n ns IH]; [simpl; lia|].
  cbn [filter List.length]. destruct (type n); cbn [NodeType_eqb List.length];
    lia.
Qed.

Lemma is_valid_connection_total (nodes : list Node) (a b : Node)
  (cfg : Config) :
  In a nodes -> In b nodes ->
  exists v, is_valid_connection nodes (id a, id b) cfg = Ok v.
Proof.
  intros Ha Hb. unfold is_valid_connection. cbn [fst snd].
  destruct (proj2 (find_node_Some nodes (id a)) (in_map id _ _ Ha))
    as [na ->].
  destruct (proj2 (find_node_Some nodes (id b)) (in_map id _ _ Hb))
    as [nb ->].
  destruct (layer na =? layer nb); [eexists; reflexivity|].
  destruct (negb _ && _); eexists; reflexivity.
Qed.

Lemma mutable_state_class (cfg : Config) (g : CPPN) (gl gl' : Globals) :
  mutable_state cfg (g, gl) -> same_class gl gl' -> mutable_state cfg (g, gl').
Proof. apply mutable_state_stable. Qed.

Lemma same_class_after_rand (gl : Globals) : same_class gl (after_rand gl).
Proof. repeat split. Qed.

Lemma mutable_state_cxs (cfg : Config) (g : CPPN) (gl : Globals)
  (cs : list Connection) :
  mutable_state cfg (g, gl) ->
  map key_ cs = map key_ (connection_genome g) ->
  mutable_state cfg (set_connection_genome cs g, gl).
Proof.
  intros [Hw Hc] Hk. split; [|exact Hc].
  eapply well_formed_transfer; try eassumption; reflexivity.
Qed.

Lemma mutable_state_new_cx (cfg : Config) (g : CPPN) (gl : Globals)
  (a b : Node) (w : Q) :
  mutable_state cfg (g, gl) ->
  In a (node_genome g) -> In b (node_genome g) ->
  find_cx (connection_genome g) (id a, id b) = None ->
  mutable_state cfg
    (set_connection_genome
       (connection_genome g ++ [mkConnection (id a, id b) w true false]) g,
     gl).
Proof.
  intros [[[Hn Hc] [He [Hf [Hcount Hact]]]] Hcfg] Ha Hb Hnone.
  cbn [fst snd] in *. split; [|exact Hcfg].
  split; [split|split; [|split; [exact Hf|split; assumption]]];
    cbn [fst node_genome connection_genome set_connection_genome].
  - assumption.
  - rewrite map_app. cbn [map key_]. apply NoDup_app; [assumption | |].
    + constructor; [intros [] | constructor].
    + intros k Hk [<-|[]]. apply find_cx_None in Hnone. contradiction.
  - intros c Hcin. apply in_app_or in Hcin. destruct Hcin as [Hcin|[<-|[]]].
    + apply He. assumption.
    + cbn [key_ fst snd]. split; apply in_map; assumption.
Qed.

Lemma hoare_add_connection_attempts (cfg : Config) (n : nat) :
  hoare (mutable_state cfg) (add_connection_attempts n)
    (fun _ => mutable_state cfg).
Proof.
  induction n as [|n IH]; [apply hoare_ret|].
  intros [g gl] Hs. rewrite add_connection_attempts_S.
  assert (Hlen : (2 <= List.length (node_genome g))%nat).
  { destruct Hs as [[_ [_ [_ [Hcount _]]]] _]. cbn [fst] in Hcount.
    assert (H := count_two_types (node_genome g)).
    unfold input_nodes, output_nodes in Hcount. lia. }
  destruct (random_choice2_class (node_genome g) gl Hlen)
    as [a [b [gl1 [E [Ha [Hb Hcls]]]]]].
  rewrite E. cbn [fst snd].
  assert (Hs1 : mutable_state cfg (g, gl1))
    by (eapply mutable_state_class; eassumption).
  destruct (find_cx (connection_genome g) (id a, id b)) as [cx|] eqn:Ef.
  - destruct (enabled cx).
    + exists tt, (g, gl1). split; [reflexivity | assumption].
    + destruct (Qltb _ _).
      * eexists tt, _. split; [reflexivity|].
        apply mutable_state_cxs.
        -- eapply mutable_state_class;
             [exact Hs1 | apply same_class_after_rand].
        -- apply map_key_set_enabled.
      * eexists tt, _. split; [reflexivity|].
        eapply mutable_state_class;
          [exact Hs1 | apply same_class_after_rand].
  - destruct (is_valid_connection_total (node_genome g) a b (config g) Ha Hb)
      as [v Ev].
    rewrite Ev. destruct v.
    + set (w := (next_rand gl1 * _ + _)%Q).
      assert (Hs3 := mutable_state_new_cx cfg g (after_rand gl1) a b w
                       (mutable_state_class _ _ _ _ Hs1
                          (same_class_after_rand gl1)) Ha Hb Ef).
      match goal with
      | |- context [update_node_layers ?x] => set (g3 := x) in *
      end.
      assert (He3 : endpoints_exist g3) by apply Hs3.
      rewrite (update_node_layers_returns g3 He3).
      eexists tt, _. split; [reflexivity|].
      apply mutable_state_relayer. exact Hs3.
    + apply IH. assumption.
Qed.

Lemma hoare_add_connection (cfg : Config) :
  hoare (mutable_state cfg) add_connection (fun _ => mutable_state cfg).
Proof.
  unfold add_connection. eapply hoare_bind.
  - apply hoare_add_connection_attempts.
  - intros u. apply hoare_set_image.
Qed.

Lemma hoare_disable_connection (cfg : Config) :
  hoare (mutable_state cfg) disable_connection (fun _ => mutable_state cfg).
Proof.
  intros [g gl] Hs. unfold disable_connection, bind at 1, get_self at 1.
  cbn [fst snd].
  destruct (enabled_connections g) as [|e es] eqn:Een.
  - exists tt, (g, gl). split; [reflexivity | assumption].
  - destruct (random_choice1_class (e :: es) gl) as [cx [gl1 [E [_ Hcls]]]];
      [discriminate|].
    unfold bind at 1, lift_glob at 1. cbn [fst snd]. rewrite E.
    eexists tt, _. split; [reflexivity|].
    apply mutable_state_set_image. cbn [fst snd].
    apply mutable_state_cxs.
    + eapply mutable_state_class; eassumption.
    + apply map_key_set_enabled.
Qed.

(** ** [clamp_weights] *)

Lemma set_connection_genome_same (g : CPPN) :
  set_connection_genome (connection_genome g) g = g.
Proof. destruct g; reflexivity. Qed.

Lemma for_each_update_cx (f : Connection -> Connection)
  (l : list Connection) :
  (forall c, key_ (f c) = key_ c) ->
  NoDup (map key_ l) ->
  forall g gl,
    for_each l (fun c0 => modify_cxs (update_cx (key_ c0) f)) (g, gl)
    = (Ok tt,
       (set_connection_genome
          (map (fun c => if key_in (key_ c) (map key_ l) then f c else c)
             (connection_genome g)) g, gl)).
Proof.
  intros Hf. induction l as [|c0 l IH]; intros Hnd g gl.
  - cbn [for_each map key_in existsb]. unfold ret.
    rewrite map_id, set_connection_genome_same. reflexivity.
  - inversion Hnd as [|? ? Hc0 Hnd']; subst.
    cbn [for_each]. unfold bind, modify_cxs at 1, modify_self at 1.
    cbn [fst snd]. rewrite (IH Hnd').
    cbn [connection_genome set_connection_genome].
    assert (Hmap :
      map (fun c => if key_in (key_ c) (map key_ l) then f c else c)
        (update_cx (key_ c0) f (connection_genome g))
      = map (fun c => if key_in (key_ c) (map key_ (c0 :: l)) then f c
                      else c) (connection_genome g)).
    { unfold update_cx. rewrite map_map. apply map_ext. intros c.
      cbn [map key_in existsb].
      destruct (key_eqb (key_ c) (key_ c0)) eqn:E.
      - rewrite Hf. apply key_eqb_eq in E. rewrite E.
        assert (Hni : key_in (key_ c0) (map key_ l) = false).
        { apply not_true_is_false. intros H. apply key_in_In in H.
          contradiction. }
        rewrite Hni. cbn [orb]. reflexivity.
      - cbn [orb]. reflexivity. }
    rewrite Hmap. reflexivity.
Qed.

Lemma clamp_weights_run (g : CPPN) (gl : Globals) :
  NoDup (map key_ (connection_genome g)) ->
  clamp_weights (g, gl)
  = (Ok tt,
     (set_connection_genome
        (map (fun c => set_weight (clamped (config g) (weight c)) c)
           (connection_genome g)) g, gl)).
Proof.
  intros Hnd. unfold clamp_weights, bind, get_self. cbn [fst snd].
  rewrite (for_each_update_cx
             (fun c => set_weight (clamped (config g) (weight c)) c)
             (connection_genome g) (fun c => eq_refl) Hnd).
  assert (Hmap :
    map (fun c => if key_in (key_ c) (map key_ (connection_genome g))
                  then set_weight (clamped (config g) (weight c)) c else c)
      (connection_genome g)
    = map (fun c => set_weight (clamped (config g) (weight c)) c)
        (connection_genome g)).
  { apply map_ext_in. intros c Hc.
    assert (Hin : key_in (key_ c) (map key_ (connection_genome g)) = true)
      by (apply key_in_In, in_map; assumption).
    rewrite Hin. reflexivity. }
  rewrite Hmap. reflexivity.
Qed.

Lemma Qltb_ge (a b : Q) : Qltb a b = false <-> (b <= a)%Q.
Proof.
  unfold Qltb. rewrite negb_false_iff. apply Qle_bool_iff.
Qed.

Lemma clamp_range (x lo hi : Q) :
  (lo <= hi)%Q -> (lo <= clamp x lo hi)%Q /\ (clamp x lo hi <= hi)%Q.
Proof.
  intros H. unfold clamp.
  destruct (Qltb x lo) eqn:E1.
  - destruct (Qltb hi lo) eqn:E2.
    + apply Qltb_lt in E2. exfalso. apply (Qlt_not_le _ _ E2). assumption.
    + split; [apply Qle_refl | assumption].
  - apply Qltb_ge in E1. destruct (Qltb hi x) eqn:E2.
    + split; [assumption | apply Qle_refl].
    + apply Qltb_ge in E2. split; assumption.
Qed.

Lemma clamp_inside (x lo hi : Q) :
  (lo <= x)%Q -> (x <= hi)%Q -> clamp x lo hi = x.
Proof.
  intros H1 H2. unfold clamp.
  rewrite (proj2 (Qltb_ge x lo) H1), (proj2 (Qltb_ge hi x) H2). reflexivity.
Qed.

Lemma Qopp_le_self (m : Q) : (0 <= m)%Q -> (- m <= m)%Q.
Proof.
  intros H. apply Qle_trans with (y := 0%Q); [|assumption].
  rewrite <- (Qopp_involutive 0). apply Qopp_le_compat.
  exact H.
Qed.

Lemma clamped_range (cfg : Config) (w : Q) :
  (0 <= max_weight cfg)%Q ->
  (- max_weight cfg <= clamped cfg w)%Q /\
  (clamped cfg w <= max_weight cfg)%Q.
Proof.
  intros H. unfold clamped. apply clamp_range, Qopp_le_self. assumption.
Qed.

(** ** [mutate_weights] *)

Lemma weights_only_stable (g0 : CPPN) (gl0 : Globals) :
  class_stable (weights_only g0 gl0).
Proof.
  intros g gl gl' [H1 [H2 H3]] Hc. cbn [fst snd] in *.
  split; [assumption|]. split; [assumption|].
  eapply same_class_trans; eassumption.
Qed.

Lemma map_frame_update_cx (k : Z * Z) (f : Connection -> Connection)
  (cs : list Connection) :
  (forall c, cx_frame (f c) = cx_frame c) ->
  map cx_frame (update_cx k f cs) = map cx_frame cs.
Proof.
  intros Hf. unfold update_cx. rewrite map_map. apply map_ext.
  intros c. destruct (key_eqb (key_ c) k); [apply Hf | reflexivity].
Qed.

Lemma hoare_reweigh (g0 : CPPN) (gl0 : Globals) (k : Z * Z)
  (f : Connection -> Connection) :
  (forall c, cx_frame (f c) = cx_frame c) ->
  hoare (weights_only g0 gl0) (modify_cxs (update_cx k f))
    (fun _ => weights_only g0 gl0).
Proof.
  intros Hf. apply hoare_modify_self. intros [g gl] [H1 [H2 H3]].
  cbn [fst snd] in *. split; [|split; [|assumption]];
    cbn [fst connection_genome set_connection_genome].
  - rewrite (map_frame_update_cx _ _ _ Hf). assumption.
  - rewrite H2 at 2. reflexivity.
Qed.

Lemma weights_loop (prob : Q) (g0 : CPPN) (gl0 : Globals) (cfg : Config)
  (l : list Connection) :
  hoare (weights_only g0 gl0)
    (for_each l (fun connection =>
       bind (lift_glob (random_uniform 0 1)) (fun r =>
         if Qltb r prob
         then
           bind (lift_glob (random_uniform (- weight_mutation_max cfg)
                              (weight_mutation_max cfg)))
             (fun delta =>
                modify_cxs (update_cx (key_ connection)
                              (fun cx => set_weight (weight cx + delta)%Q cx)))
         else
           bind (lift_glob (random_uniform 0 1)) (fun r' =>
             if Qltb r' (prob_weight_reinit cfg)
             then
               bind (lift_glob (random_weight cfg)) (fun w =>
                 modify_cxs (update_cx (key_ connection) (set_weight w)))
             else ret tt))))
    (fun _ => weights_only g0 gl0).
Proof.
  apply hoare_for_each. intros c _.
  eapply hoare_bind; [apply hoare_draw, weights_only_stable|].
  intros r. destruct (Qltb r prob).
  - eapply hoare_bind; [apply hoare_draw, weights_only_stable|].
    intros delta. apply hoare_reweigh. reflexivity.
  - eapply hoare_bind; [apply hoare_draw, weights_only_stable|].
    intros r'. destruct (Qltb r' (prob_weight_reinit cfg)).
    + eapply hoare_bind;
        [unfold random_weight; apply hoare_draw, weights_only_stable|].
      intros w. apply hoare_reweigh. reflexivity.
    + apply hoare_ret.
Qed.

Lemma frame_keys (cs cs' : list Connection) :
  map cx_frame cs' = map cx_frame cs -> map key_ cs' = map key_ cs.
Proof.
  intros H.
  apply (f_equal (map (fun x : Z * Z * bool * bool => fst (fst x)))) in H.
  rewrite !map_map in H. exact H.
Qed.

(** What [mutate_weights] does, for connections of unique keys. *)
Lemma mutate_weights_run (prob : Q) (g : CPPN) (gl : Globals) :
  NoDup (map key_ (connection_genome g)) ->
  exists cs gl',
    mutate_weights prob (g, gl)
    = (Ok tt,
       (set_image None
          (set_connection_genome
             (map (fun c => set_weight (clamped (config g) (weight c)) c) cs)
             g), gl')) /\
    map cx_frame cs = map cx_frame (connection_genome g) /\
    same_class gl gl'.
Proof.
  intros Hnd.
  destruct (weights_loop prob g gl (config g) (connection_genome g) (g, gl))
    as [u [[g1 gl1] [E [Hfr [Heq Hcls]]]]].
  { split; [reflexivity|]. split; [|apply same_class_refl].
    symmetry. apply set_connection_genome_same. }
  cbn [fst snd] in *.
  exists (connection_genome g1), gl1.
  split; [|split; assumption].
  unfold mutate_weights, bind at 1, get_self at 1. cbn [fst snd].
  unfold bind at 1. rewrite E.
  unfold bind at 1.
  rewrite (clamp_weights_run g1 gl1)
    by (rewrite (frame_keys _ _ Hfr); assumption).
  unfold modify_self. cbn [fst snd]. rewrite Heq. reflexivity.
Qed.

Lemma hoare_mutate_weights (cfg : Config) (prob : Q) :
  hoare (mutable_state cfg) (mutate_weights prob)
    (fun _ => mutable_state cfg).
Proof.
  intros [g gl] Hs.
  destruct (mutate_weights_run prob g gl) as [cs [gl' [E [Hfr Hcls]]]];
    [apply Hs|].
  eexists tt, _. split; [exact E|].
  apply mutable_state_set_image, mutable_state_cxs.
  - eapply mutable_state_class; eassumption.
  - rewrite map_map. cbn [key_ set_weight]. apply frame_keys. assumption.
Qed.

(** ** [mutate_activations] *)

Lemma activations_only_stable (g0 : CPPN) (gl0 : Globals) :
  class_stable (activations_only g0 gl0).
Proof.
  intros g gl gl' [H1 [H2 H3]] Hc. cbn [fst snd] in *.
  split; [assumption|]. split; [assumption|].
  eapply same_class_trans; eassumption.
Qed.

Lemma set_activation_twice (a b : Activation) (n : Node) :
  set_activation a (set_activation b n) = set_activation a n.
Proof. reflexivity. Qed.

Lemma activation_mutated_id (g : CPPN) (n n' : Node) :
  activation_mutated g n n' ->
  id n' = id n /\ type n' = type n /\ layer n' = layer n /\
  sum_inputs n' = sum_inputs n /\ outputs n' = outputs n.
Proof.
  intros [->|[_ [fn [_ ->]]]]; repeat split.
Qed.

Lemma activation_mutated_step (g0 : CPPN) (node : Node) (fn : Activation)
  (ns0 ns : list Node) :
  (forall n0, In n0 ns0 -> id n0 = id node -> n0 = node) ->
  mutable_node g0 node -> In fn (activations (config g0)) ->
  Forall2 (activation_mutated g0) ns0 ns ->
  Forall2 (activation_mutated g0) ns0
    (update_node (id node) (set_activation fn) ns).
Proof.
  intros Huniq Hmut Hfn H. induction H as [|n0 n ns0 ns Hn _ IH];
    [constructor|].
  cbn [update_node map]. constructor.
  - destruct (activation_mutated_id _ _ _ Hn) as [Hid _].
    destruct (Z.eqb_spec (id n) (id node)) as [E|E]; [|assumption].
    assert (n0 = node)
      by (apply Huniq; [left; reflexivity | congruence]).
    subst n0. right. split; [assumption|]. exists fn. split; [assumption|].
    destruct Hn as [->|[_ [fn' [_ ->]]]]; reflexivity.
  - apply IH. intros m Hm. apply Huniq. right. assumption.
Qed.

Lemma eligible_mutable (g : CPPN) (node : Node) :
  In node
    (hidden_nodes g
     ++ (match output_activation (config g) with
         | None => output_nodes g
         | Some _ => []
         end)
     ++ (if allow_input_activation_mutation (config g)
         then input_nodes g else [])) ->
  In node (node_genome g) /\ mutable_node g node.
Proof.
  intros H. unfold mutable_node.
  apply in_app_or in H. destruct H as [H|H].
  - apply filter_In in H. destruct H as [H Ht].
    apply NodeType_eqb_eq in Ht. rewrite Ht. split; [assumption | exact I].
  - apply in_app_or in H. destruct H as [H|H].
    + destruct (output_activation (config g)); [contradiction|].
      apply filter_In in H. destruct H as [H Ht].
      apply NodeType_eqb_eq in Ht. rewrite Ht. split; [assumption|].
      reflexivity.
    + destruct (allow_input_activation_mutation (config g)); [|contradiction].
      apply filter_In in H. destruct H as [H Ht].
      apply NodeType_eqb_eq in Ht. rewrite Ht. split; [assumption|].
      reflexivity.
Qed.

Lemma Forall2_same {A : Type} (R : A -> A -> Prop) (l : list A) :
  (forall a, R a a) -> Forall2 R l l.
Proof. intros H. induction l; constructor; auto. Qed.

(** What [mutate_activations] does, for nodes of unique ids and a
    catalogue that is not empty. *)
Lemma mutate_activations_run (prob : Q) (g : CPPN) (gl : Globals) :
  NoDup (map id (node_genome g)) -> activations (config g) <> [] ->
  exists ns gl',
    mutate_activations prob (g, gl)
    = (Ok tt, (set_image None (set_node_genome ns g), gl')) /\
    Forall2 (activation_mutated g) (node_genome g) ns /\
    same_class gl gl'.
Proof.
  intros Hnd Hact.
  set (eligible := hidden_nodes g
     ++ (match output_activation (config g) with
         | None => output_nodes g
         | Some _ => []
         end)
     ++ (if allow_input_activation_mutation (config g)
         then input_nodes g else [])).
  assert (Hloop :
    hoare (activations_only g gl)
      (for_each eligible (fun node =>
         bind (lift_glob (random_uniform 0 1)) (fun r =>
           if Qltb r prob
           then
             bind (lift_glob (choose_random_function (config g))) (fun fn =>
               modify_nodes (update_node (id node) (set_activation fn)))
           else ret tt)))
      (fun _ => activations_only g gl)).
  { apply hoare_for_each. intros node Hnode.
    destruct (eligible_mutable g node Hnode) as [Hin Hmut].
    eapply hoare_bind; [apply hoare_draw, activations_only_stable|].
    intros r. destruct (Qltb r prob); [|apply hoare_ret].
    eapply hoare_bind;
      [apply hoare_choose; [apply activations_only_stable | exact Hact]|].
    intros fn [g1 gl1] [Hfn [H1 [H2 H3]]].
    eexists tt, _. split; [reflexivity|]. cbn [fst snd] in *.
    split; [|split; [|assumption]];
      cbn [fst node_genome set_node_genome].
    - apply activation_mutated_step; try assumption.
      intros n0 Hn0 E. apply (NoDup_id_eq (node_genome g)); assumption.
    - rewrite H2 at 2. reflexivity. }
  destruct (Hloop (g, gl)) as [u [[g1 gl1] [E [Hrel [Heq Hcls]]]]].
  { split; [|split; [|apply same_class_refl]]; cbn [fst].
    - apply Forall2_same. intros a. left. reflexivity.
    - symmetry. apply set_node_genome_same. }
  cbn [fst snd] in *.
  exists (node_genome g1), gl1. split; [|split; assumption].
  unfold mutate_activations, bind at 1, get_self at 1. cbn [fst snd].
  fold eligible. unfold bind at 1. rewrite E.
  unfold modify_self. cbn [fst snd]. rewrite Heq. reflexivity.
Qed.

Lemma mutated_kinds (g : CPPN) (ns0 ns : list Node) :
  Forall2 (activation_mutated g) ns0 ns -> node_kinds ns = node_kinds ns0.
Proof.
  induction 1 as [|n0 n ns0 ns Hn _ IH]; [reflexivity|].
  unfold node_kinds in *. cbn [map].
  destruct (activation_mutated_id _ _ _ Hn) as [-> [-> _]].
  rewrite IH. reflexivity.
Qed.

Lemma hoare_mutate_activations (cfg : Config) (prob : Q) :
  hoare (mutable_state cfg) (mutate_activations prob)
    (fun _ => mutable_state cfg).
Proof.
  intros [g gl] [Hw Hc].
  destruct (mutate_activations_run prob g gl) as [ns [gl' [E [Hrel Hcls]]]];
    [apply Hw | apply Hw |].
  eexists tt, _. split; [exact E|].
  apply mutable_state_set_image.
  split; [|exact Hc].
  eapply well_formed_transfer; [exact Hw | | reflexivity | reflexivity |].
  - cbn [node_genome set_node_genome]. eapply mutated_kinds. eassumption.
  - apply Hcls.
Qed.

(** ** [mutate] *)

Lemma hoare_with_probability (P : St -> Prop) (rate : Q) (op : M St unit) :
  class_stable P -> hoare P op (fun _ => P) ->
  hoare P (with_probability rate op) (fun _ => P).
Proof.
  intros Hst Hop. unfold with_probability.
  eapply hoare_bind; [apply hoare_draw; assumption|].
  intros r. destruct (Qltb r rate); [assumption | apply hoare_ret].
Qed.

Lemma hoare_mutate_operators (cfg : Config) (rates : option Rates) :
  hoare (mutable_state cfg) (mutate_operators rates)
    (fun _ s => mutable_state cfg s /\ image (fst s) = None).
Proof.
  unfold mutate_operators.
  eapply hoare_bind; [apply hoare_get_self|].
  intros g.
  eapply hoare_weaken with (P := mutable_state cfg);
    [intros s [_ H]; exact H | intros a s H; exact H |].
  eapply hoare_bind;
    [apply hoare_with_probability;
       [apply mutable_state_stable | apply hoare_add_node]|].
  intros u1.
  eapply hoare_bind;
    [apply hoare_with_probability;
       [apply mutable_state_stable | apply hoare_remove_node]|].
  intros u2.
  eapply hoare_bind;
    [apply hoare_with_probability;
       [apply mutable_state_stable | apply hoare_add_connection]|].
  intros u3.
  eapply hoare_bind;
    [apply hoare_with_probability;
       [apply mutable_state_stable | apply hoare_disable_connection]|].
  intros u4.
  eapply hoare_bind; [apply hoare_mutate_activations|]. intros u5.
  eapply hoare_bind; [apply hoare_mutate_weights|]. intros u6.
  eapply hoare_bind; [apply hoare_update_node_layers|]. intros u7.
  apply hoare_modify_self. intros [g' gl'] Hs.
  split; [apply mutable_state_set_image; exact Hs | reflexivity].
Qed.

(** X7 (mutate).  On a genome with unique keys, connections between its own
    nodes, at least two nodes that are not hidden, a non-empty catalogue
    of activations and node ids below the class-wide indexer, [mutate]
    never raises, whatever the rates and the random draws; the genome it
    leaves has all of these properties again, the same configuration, and
    no cached image. *)
Theorem mutate_keeps_well_formed (rates : option Rates) (g : CPPN)
  (gl : Globals) :
  well_formed (g, gl) ->
  exists g' gl',
    mutate rates (g, gl) = (Ok tt, (g', gl')) /\
    well_formed (g', gl') /\ config g' = config g /\ image g' = None.
Proof.
  intros Hw.
  assert (H : hoare (mutable_state (config g)) (mutate rates)
                (fun _ s => mutable_state (config g) s /\
                            image (fst s) = None)).
  { unfold mutate. eapply hoare_bind; [|intros u; apply hoare_mutate_operators].
    apply hoare_modify_self. intros [g0 gl0] [Hw0 Hc0]. split; [|exact Hc0].
    eapply well_formed_transfer; try eassumption; reflexivity. }
  destruct (H (g, gl)) as [[] [[g' gl'] [E [[Hw' Hc'] Him]]]];
    [split; [assumption | reflexivity]|].
  exists g', gl'. auto.
Qed.

Lemma full_genome_well_formed (picks : list nat) :
  well_formed (full_genome, example_globals picks).
Proof.
  split; [solve_dict_ok|]. split; [solve_endpoints|].
  split; [exact I|]. split; [simpl; lia | discriminate].
Qed.

(** X7 (witness) *)
Lemma mutate_keeps_well_formed_witness :
  exists g' gl',
    mutate None (full_genome, example_globals [1%nat]) = (Ok tt, (g', gl')) /\
    well_formed (g', gl') /\ config g' = config full_genome /\
    image g' = None.
Proof.
  apply (mutate_keeps_well_formed None full_genome (example_globals [1%nat])
           (full_genome_well_formed [1%nat])).
Defined.

(** ** The operators one by one *)

Lemma statics_relayer (g : CPPN) :
  statics (node_genome (snd (update_node_layers g)))
  = statics (node_genome g).
Proof.
  rewrite update_node_layers_spec. cbn [snd node_genome set_node_genome].
  rewrite layered_nodes_as_map. unfold statics. rewrite map_map.
  reflexivity.
Qed.

(** X8 (get_new_node_id).  On a genome that holds a node, with the
    class-wide indexer unset or above every node id, [get_new_node_id]
    returns an id above every node id of the genome and leaves the indexer
    at the next integer, which a second call returns.  On an empty genome
    with the indexer unset it returns 0 and leaves the indexer unset. *)
Theorem get_new_node_id_above (g : CPPN) (gl : Globals) :
  (node_genome g <> [] -> indexer_fresh (g, gl) ->
   exists c gl' gl'',
     get_new_node_id (g, gl) = (Ok c, (g, gl')) /\
     (forall k, In k (map id (node_genome g)) -> k < c) /\
     node_indexer gl' = Some (c + 1) /\
     get_new_node_id (g, gl') = (Ok (c + 1), (g, gl''))) /\
  (node_genome g = [] -> node_indexer gl = None ->
   get_new_node_id (g, gl) = (Ok 0, (g, gl))).
Proof.
  split.
  - intros Hne Hf.
    destruct (get_new_node_id_fresh g gl Hne Hf) as [c [E [Hlt _]]].
    assert (Hf' : indexer_fresh (g, set_indexer (Some (c + 1)) gl)).
    { unfold indexer_fresh. cbn [fst snd set_indexer node_indexer].
      intros k Hk. apply Hlt in Hk. lia. }
    destruct (get_new_node_id_fresh g _ Hne Hf') as [c' [E' [_ Hc']]].
    cbn [set_indexer node_indexer] in Hc'.
    destruct Hc' as [Hc'|Hc']; [discriminate|]. injection Hc' as <-.
    eexists c, _, _. split; [exact E|]. split; [assumption|].
    split; [reflexivity | exact E'].
  - intros Hg Hi. unfold get_new_node_id. rewrite Hi, Hg. reflexivity.
Qed.

(** X8 (witness) *)
Lemma get_new_node_id_above_witness :
  node_genome full_genome <> [] /\
  indexer_fresh (full_genome, example_globals []) /\
  exists c gl' gl'',
    get_new_node_id (full_genome, example_globals [])
    = (Ok c, (full_genome, gl')) /\
    (forall k, In k (map id (node_genome full_genome)) -> k < c) /\
    node_indexer gl' = Some (c + 1) /\
    get_new_node_id (full_genome, gl') = (Ok (c + 1), (full_genome, gl'')).
Proof.
  assert (H1 : node_genome full_genome <> []) by discriminate.
  assert (H2 : indexer_fresh (full_genome, example_globals [])) by exact I.
  split; [exact H1|]. split; [exact H2|].
  apply (proj1 (get_new_node_id_above full_genome (example_globals []))
           H1 H2).
Defined.

(** X9 (add_node).  On a genome with unique keys whose connections join its
    own nodes, with the indexer unset or above every node id and a
    catalogue of activations that is not empty: with no connection to
    split, [add_node] changes nothing; otherwise it returns, having
    appended one hidden node with a new id and an activation of the
    catalogue, disabled the connection [old] it split, and appended the
    connections (source of [old], new) of weight 1 and (new, target of
    [old]) of the weight of [old], both enabled.  Apart from layers and
    the cached image, which is dropped, nothing else changes, and the
    genome again has unique keys and no dangling connection. *)
Theorem add_node_splits (g : CPPN) (gl : Globals) :
  dict_ok g -> endpoints_exist g -> indexer_fresh (g, gl) ->
  activations (config g) <> [] ->
  (filter (fun cx => negb (is_recurrent cx)) (connection_genome g) = [] ->
   add_node (g, gl) = (Ok tt, (g, gl))) /\
  (filter (fun cx => negb (is_recurrent cx)) (connection_genome g) <> [] ->
   exists g' gl' old c fn,
     add_node (g, gl) = (Ok tt, (g', gl')) /\
     In old (connection_genome g) /\ is_recurrent old = false /\
     In fn (activations (config g)) /\
     ~ In c (map id (node_genome g)) /\
     statics (node_genome g')
     = statics (node_genome g) ++ [(c, HIDDEN, fn)] /\
     connection_genome g'
     = update_cx (key_ old) (set_enabled false) (connection_genome g)
       ++ [mkConnection (fst (key_ old), c) 1 true false;
           mkConnection (c, snd (key_ old)) (weight old) true false] /\
     image g' = None /\ dict_ok g' /\ endpoints_exist g').
Proof.
  intros Hd He Hf Hact.
  destruct (add_node_run g gl Hd He Hf Hact)
    as [[Hnil E] | [old [c [fn [gl' [Hold [Hfn [Hlt [_ [_ [_ E]]]]]]]]]]].
  - split; [intros _; exact E | intros H; contradiction].
  - split; [intros H; rewrite H in Hold; contradiction|]. intros _.
    apply filter_In in Hold. destruct Hold as [Hold Hrec].
    apply negb_true_iff in Hrec.
    assert (Hfresh : ~ In c (map id (node_genome g)))
      by (intros H; apply Hlt in H; lia).
    set (g2 := with_split old c fn g) in *.
    assert (He2 : endpoints_exist g2)
      by (apply with_split_endpoints; assumption).
    assert (Hd2 : dict_ok g2) by (apply with_split_dict_ok; assumption).
    destruct (update_node_layers_endpoints g2 He2) as [He3 Hd3].
    destruct (update_node_layers_frame g2) as [_ [_ [Hcs _]]].
    eexists _, gl', old, c, fn. split; [exact E|].
    split; [assumption|]. split; [assumption|]. split; [assumption|].
    split; [assumption|].
    cbn [node_genome connection_genome image set_image].
    split.
    { rewrite statics_relayer. unfold g2, with_split, statics.
      cbn [node_genome set_connection_genome set_node_genome].
      rewrite map_app. reflexivity. }
    split; [rewrite Hcs; reflexivity|]. split; [reflexivity|].
    split; [apply (Hd3 Hd2) | exact He3].
Qed.

(** X9 (witness) *)
Lemma add_node_splits_witness :
  dict_ok full_genome /\ endpoints_exist full_genome /\
  indexer_fresh (full_genome, example_globals []) /\
  activations (config full_genome) <> [] /\
  filter (fun cx => negb (is_recurrent cx)) (connection_genome full_genome)
  <> [] /\
  exists g' gl' old c fn,
    add_node (full_genome, example_globals []) = (Ok tt, (g', gl')) /\
    In old (connection_genome full_genome) /\ is_recurrent old = false /\
    In fn (activations (config full_genome)) /\
    ~ In c (map id (node_genome full_genome)) /\
    statics (node_genome g')
    = statics (node_genome full_genome) ++ [(c, HIDDEN, fn)] /\
    connection_genome g'
    = update_cx (key_ old) (set_enabled false)
        (connection_genome full_genome)
      ++ [mkConnection (fst (key_ old), c) 1 true false;
          mkConnection (c, snd (key_ old)) (weight old) true false] /\
    image g' = None /\ dict_ok g' /\ endpoints_exist g'.
Proof.
  assert (H1 : dict_ok full_genome) by solve_dict_ok.
  assert (H2 : endpoints_exist full_genome) by solve_endpoints.
  assert (H3 : indexer_fresh (full_genome, example_globals [])) by exact I.
  assert (H4 : activations (config full_genome) <> []) by discriminate.
  assert (H5 : filter (fun cx => negb (is_recurrent cx))
                 (connection_genome full_genome) <> []) by discriminate.
  repeat (split; [assumption|]).
  apply (proj2 (add_node_splits full_genome (example_globals [])
                  H1 H2 H3 H4) H5).
Defined.

(** ** [disable_connection] *)

Lemma disable_one (cs : list Connection) (cx : Connection) :
  NoDup (map key_ cs) -> In cx cs -> enabled cx = true ->
  (List.length (filter enabled
                  (update_cx (key_ cx) (set_enabled false) cs)) + 1
   = List.length (filter enabled cs))%nat.
Proof.
  induction cs as [|c cs IH]; intros Hnd Hin Hen; [contradiction|].
  inversion Hnd as [|? ? Hc Hnd']; subst.
  cbn [update_cx map filter].
  destruct (key_eqb (key_ c) (key_ cx)) eqn:E.
  - apply key_eqb_eq in E.
    assert (c = cx).
    { destruct Hin as [H|H]; [assumption|]. exfalso. apply Hc.
      rewrite E. apply in_map. assumption. }
    subst c. rewrite Hen. cbn [enabled set_enabled List.length].
    assert (Hrest : update_cx (key_ cx) (set_enabled false) cs = cs).
    { unfold update_cx. rewrite <- (map_id cs) at 2. apply map_ext_in.
      intros d Hd. destruct (key_eqb (key_ d) (key_ cx)) eqn:E'; [|reflexivity].
      exfalso. apply key_eqb_eq in E'. apply Hc. rewrite <- E'.
      apply in_map. assumption. }
    fold (update_cx (key_ cx) (set_enabled false) cs). rewrite Hrest. lia.
  - destruct Hin as [H|H]; [subst; rewrite key_eqb_refl in E; discriminate|].
    fold (update_cx (key_ cx) (set_enabled false) cs).
    specialize (IH Hnd' H Hen).
    destruct (enabled c); cbn [List.length]; lia.
Qed.

Lemma feed_forward_layers_keys (g g' : CPPN) :
  node_genome g' = node_genome g ->
  map key_ (connection_genome g') = map key_ (connection_genome g) ->
  feed_forward_layers g' = feed_forward_layers g.
Proof.
  intros Hn Hk.
  unfold feed_forward_layers, get_ids_from_individual, input_nodes,
    output_nodes.
  rewrite Hn, Hk. reflexivity.
Qed.

(** X10 (disable_connection).  With no enabled connection
    [disable_connection] changes nothing, the cached image included.
    Otherwise, on connections of unique keys, it disables exactly one
    enabled connection: one enabled connection fewer, every key and weight
    as before, the nodes and their layers untouched, the layering that
    [feed_forward_layers] computes unchanged, and the cached image
    dropped. *)
Theorem disable_connection_one (g : CPPN) (gl : Globals) :
  NoDup (map key_ (connection_genome g)) ->
  (enabled_connections g = [] ->
   disable_connection (g, gl) = (Ok tt, (g, gl))) /\
  (enabled_connections g <> [] ->
   exists cx gl',
     In cx (enabled_connections g) /\
     disable_connection (g, gl)
     = (Ok tt,
        (set_image None
           (set_connection_genome
              (update_cx (key_ cx) (set_enabled false)
                 (connection_genome g)) g), gl')) /\
     (List.length
        (filter enabled
           (update_cx (key_ cx) (set_enabled false) (connection_genome g)))
      + 1 = List.length (enabled_connections g))%nat /\
     feed_forward_layers
       (set_image None
          (set_connection_genome
             (update_cx (key_ cx) (set_enabled false)
                (connection_genome g)) g))
     = feed_forward_layers g).
Proof.
  intros Hnd. split.
  - intros Hnil. unfold disable_connection, bind, get_self. cbn [fst snd].
    rewrite Hnil. reflexivity.
  - intros Hne.
    destruct (random_choice1_class (enabled_connections g) gl Hne)
      as [cx [gl1 [E [Hin _]]]].
    exists cx, gl1. split; [assumption|].
    split.
    { unfold disable_connection, bind at 1, get_self at 1. cbn [fst snd].
      destruct (enabled_connections g) as [|e es] eqn:Een; [contradiction|].
      unfold bind at 1, lift_glob at 1. cbn [fst snd]. rewrite E.
      reflexivity. }
    split.
    { unfold enabled_connections in *. apply filter_In in Hin.
      apply disable_one; tauto. }
    apply feed_forward_layers_keys; [reflexivity|].
    cbn [connection_genome set_image set_connection_genome].
    apply map_key_set_enabled.
Qed.

(** X10 (witness) *)
Lemma disable_connection_one_witness :
  NoDup (map key_ (connection_genome full_genome)) /\
  enabled_connections full_genome <> [] /\
  exists cx gl',
    In cx (enabled_connections full_genome) /\
    disable_connection (full_genome, example_globals [])
    = (Ok tt,
       (set_image None
          (set_connection_genome
             (update_cx (key_ cx) (set_enabled false)
                (connection_genome full_genome)) full_genome), gl')).
Proof.
  assert (H1 : NoDup (map key_ (connection_genome full_genome)))
    by (simpl; solve_NoDup).
  assert (H2 : enabled_connections full_genome <> []) by discriminate.
  split; [exact H1|]. split; [exact H2|].
  destruct (proj2 (disable_connection_one full_genome (example_globals [])
                     H1) H2) as [cx [gl' [Hin [E _]]]].
  exists cx, gl'. split; assumption.
Defined.

Lemma Forall2_combine_In {A B : Type} (R : A -> B -> Prop) (l : list A)
  (m : list B) (a : A) (b : B) :
  Forall2 R l m -> In (a, b) (combine l m) -> R a b.
Proof.
  induction 1 as [|x y l m Hxy _ IH]; intros Hin; [contradiction|].
  destruct Hin as [Hin|Hin]; [|apply IH; assumption].
  inversion Hin; subst. assumption.
Qed.

(** X11 (mutate_activations).  On nodes of unique ids, with a catalogue of
    activations that is not empty, [mutate_activations] returns.  It
    writes nothing but activations and the cached image, which it drops:
    each node keeps its activation or receives one of the catalogue, and
    only hidden nodes, output nodes when no output activation is
    configured, and input nodes when the configuration allows it, can
    receive one. *)
Theorem mutate_activations_frame (prob : Q) (g : CPPN) (gl : Globals) :
  NoDup (map id (node_genome g)) -> activations (config g) <> [] ->
  exists g' gl',
    mutate_activations prob (g, gl) = (Ok tt, (g', gl')) /\
    g' = set_image None (set_node_genome (node_genome g') g) /\
    Forall2 (activation_mutated g) (node_genome g) (node_genome g') /\
    (forall n n', In (n, n') (combine (node_genome g) (node_genome g')) ->
       id n' = id n /\ type n' = type n /\ layer n' = layer n /\
       (type n = INPUT ->
        allow_input_activation_mutation (config g) = false ->
        n' = n) /\
       (type n = OUTPUT -> output_activation (config g) <> None -> n' = n)).
Proof.
  intros Hnd Hact.
  destruct (mutate_activations_run prob g gl Hnd Hact)
    as [ns [gl' [E [Hrel _]]]].
  eexists _, gl'. split; [exact E|].
  cbn [node_genome set_image set_node_genome].
  split; [reflexivity|]. split; [assumption|].
  intros n n' Hin.
  assert (Hn : activation_mutated g n n')
    by (eapply Forall2_combine_In; eassumption).
  destruct (activation_mutated_id _ _ _ Hn) as [Hid [Hty [Hl _]]].
  split; [assumption|]. split; [assumption|]. split; [assumption|].
  unfold activation_mutated, mutable_node in Hn.
  split.
  - intros Ht Hno. destruct Hn as [Hn|[Hm _]]; [assumption|].
    rewrite Ht in Hm. congruence.
  - intros Ht Hno. destruct Hn as [Hn|[Hm _]]; [assumption|].
    rewrite Ht in Hm. contradiction.
Qed.

(** X11 (witness) *)
Lemma mutate_activations_frame_witness :
  NoDup (map id (node_genome stale_genome)) /\
  activations (config stale_genome) <> [] /\
  exists g' gl',
    mutate_activations 1 (stale_genome, example_globals []) = (Ok tt, (g', gl'))
    /\ Forall2 (activation_mutated stale_genome) (node_genome stale_genome)
         (node_genome g').
Proof.
  assert (H1 : NoDup (map id (node_genome stale_genome)))
    by (simpl; solve_NoDup).
  assert (H2 : activations (config stale_genome) <> []) by discriminate.
  split; [exact H1|]. split; [exact H2|].
  destruct (mutate_activations_frame 1 stale_genome (example_globals [])
              H1 H2) as [g' [gl' [E [_ [Hrel _]]]]].
  exists g', gl'. split; assumption.
Defined.

(** ** Weights within bounds *)

Lemma zeroed_idem (thr w : Q) :
  (if Qltb (if Qltb w thr && Qltb (- thr) w then 0%Q else w) thr &&
      Qltb (- thr) (if Qltb w thr && Qltb (- thr) w then 0%Q else w)
   then 0%Q else (if Qltb w thr && Qltb (- thr) w then 0%Q else w))
  = (if Qltb w thr && Qltb (- thr) w then 0%Q else w).
Proof.
  destruct (Qltb w thr && Qltb (- thr) w) eqn:Es.
  - destruct (Qltb 0 thr && Qltb (- thr) 0); reflexivity.
  - rewrite Es. reflexivity.
Qed.

Lemma clamped_idem (cfg : Config) (w : Q) :
  (0 <= max_weight cfg)%Q -> (weight_threshold cfg <= max_weight cfg)%Q ->
  clamped cfg (clamped cfg w) = clamped cfg w.
Proof.
  intros Hmax Hthr.
  assert (Hlo : (- max_weight cfg <= max_weight cfg)%Q)
    by (apply Qopp_le_self; assumption).
  assert (Hbig : forall v, (max_weight cfg <= v)%Q \/ (v <= - max_weight cfg)%Q ->
            Qltb v (weight_threshold cfg) &&
            Qltb (- weight_threshold cfg) v = false).
  { intros v [Hv|Hv].
    - apply andb_false_iff. left. apply Qltb_ge.
      eapply Qle_trans; eassumption.
    - apply andb_false_iff. right. apply Qltb_ge.
      eapply Qle_trans; [exact Hv|]. apply Qopp_le_compat. assumption. }
  set (z := if Qltb w (weight_threshold cfg) &&
               Qltb (- weight_threshold cfg) w then 0%Q else w).
  assert (Hc : clamped cfg w = clamp z (- max_weight cfg) (max_weight cfg))
    by reflexivity.
  assert (Hz : (if Qltb z (weight_threshold cfg) &&
                   Qltb (- weight_threshold cfg) z then 0%Q else z) = z)
    by (apply zeroed_idem).
  assert (Hv : clamp z (- max_weight cfg) (max_weight cfg)
               = (- max_weight cfg)%Q \/
               clamp z (- max_weight cfg) (max_weight cfg) = max_weight cfg \/
               (clamp z (- max_weight cfg) (max_weight cfg) = z /\
                (- max_weight cfg <= z)%Q /\ (z <= max_weight cfg)%Q)).
  { unfold clamp. destruct (Qltb z (- max_weight cfg)) eqn:E1.
    - destruct (Qltb (max_weight cfg) (- max_weight cfg)); auto.
    - apply Qltb_ge in E1. destruct (Qltb (max_weight cfg) z) eqn:E2; auto.
      apply Qltb_ge in E2. auto. }
  rewrite Hc.
  destruct Hv as [Hv|[Hv|[Hv [H1 H2]]]]; rewrite Hv; unfold clamped.
  - rewrite (Hbig _ (or_intror (Qle_refl _))).
    apply clamp_inside; [apply Qle_refl | assumption].
  - rewrite (Hbig _ (or_introl (Qle_refl _))).
    apply clamp_inside; [assumption | apply Qle_refl].
  - rewrite Hz. apply clamp_inside; assumption.
Qed.

Lemma clamped_keeps (cfg : Config) (cs : list Connection) :
  Forall2 (fun c c' =>
             (- max_weight cfg <= weight c)%Q ->
             (weight c <= max_weight cfg)%Q ->
             ((weight_threshold cfg <= weight c)%Q \/
              (weight c <= - weight_threshold cfg)%Q) ->
             c' = c)
    cs (map (fun c => set_weight (clamped cfg (weight c)) c) cs).
Proof.
  induction cs as [|c cs IH]; [constructor|].
  cbn [map]. constructor; [|apply IH].
  intros H1 H2 H3. destruct c as [k w e r]. cbn [weight] in *.
  unfold set_weight. cbn [key_ weight enabled is_recurrent]. f_equal.
  unfold clamped.
  assert (Hs : Qltb w (weight_threshold cfg) &&
               Qltb (- weight_threshold cfg) w = false).
  { apply andb_false_iff. destruct H3 as [H3|H3].
    - left. apply Qltb_ge. assumption.
    - right. apply Qltb_ge. assumption. }
  rewrite Hs. apply clamp_inside; assumption.
Qed.

(** X12 (clamp_weights).  On connections of unique keys [clamp_weights]
    returns and writes weights only.  With [max_weight] not negative
    every weight then lies between [-max_weight] and [max_weight], and a
    weight that was in that range and at least [weight_threshold] in
    absolute value is kept as it was.  When moreover [weight_threshold] is
    at most [max_weight], clamping again changes nothing. *)
Theorem clamp_weights_bounds (g : CPPN) (gl : Globals) :
  NoDup (map key_ (connection_genome g)) ->
  exists g',
    clamp_weights (g, gl) = (Ok tt, (g', gl)) /\
    g' = set_connection_genome (connection_genome g') g /\
    map cx_frame (connection_genome g') = map cx_frame (connection_genome g)
    /\
    ((0 <= max_weight (config g))%Q ->
     Forall (fun c => (- max_weight (config g) <= weight c)%Q /\
                      (weight c <= max_weight (config g))%Q)
       (connection_genome g') /\
     Forall2 (fun c c' =>
                (- max_weight (config g) <= weight c)%Q ->
                (weight c <= max_weight (config g))%Q ->
                ((weight_threshold (config g) <= weight c)%Q \/
                 (weight c <= - weight_threshold (config g))%Q) ->
                c' = c)
       (connection_genome g) (connection_genome g') /\
     ((weight_threshold (config g) <= max_weight (config g))%Q ->
      clamp_weights (g', gl) = (Ok tt, (g', gl)))).
Proof.
  intros Hnd. rewrite (clamp_weights_run g gl Hnd).
  eexists. split; [reflexivity|].
  cbn [connection_genome set_connection_genome].
  split; [reflexivity|].
  split; [rewrite map_map; reflexivity|].
  intros Hmax. split; [|split].
  - apply Forall_forall. intros c Hc. apply in_map_iff in Hc.
    destruct Hc as [c0 [<- _]]. cbn [weight set_weight].
    apply clamped_range. assumption.
  - apply clamped_keeps.
  - intros Hthr.
    set (g1 := set_connection_genome _ g).
    assert (Hnd1 : NoDup (map key_ (connection_genome g1))).
    { unfold g1. cbn [connection_genome set_connection_genome].
      rewrite map_map. cbn [key_ set_weight]. assumption. }
    rewrite (clamp_weights_run g1 gl Hnd1).
    do 2 f_equal. unfold g1.
    cbn [connection_genome set_connection_genome config].
    unfold set_connection_genome at 1. cbn [config image node_genome
      selected species_id cppn_id parents fitness novelty adjusted_fitness
      n_inputs n_outputs set_connection_genome].
    unfold set_connection_genome. f_equal.
    rewrite map_map. apply map_ext. intros c.
    unfold set_weight. cbn [key_ weight enabled is_recurrent].
    rewrite (clamped_idem (config g) (weight c) Hmax Hthr). reflexivity.
Qed.

(** X12 (witness) *)
Lemma clamp_weights_bounds_witness :
  NoDup (map key_ (connection_genome full_genome)) /\
  (0 <= max_weight (config full_genome))%Q /\
  exists g',
    clamp_weights (full_genome, example_globals []) =
    (Ok tt, (g', example_globals [])) /\
    Forall (fun c => (- max_weight (config full_genome) <= weight c)%Q /\
                     (weight c <= max_weight (config full_genome))%Q)
      (connection_genome g').
Proof.
  assert (H1 : NoDup (map key_ (connection_genome full_genome)))
    by (simpl; solve_NoDup).
  assert (H2 : (0 <= max_weight (config full_genome))%Q) by discriminate.
  split; [exact H1|]. split; [exact H2|].
  destruct (clamp_weights_bounds full_genome (example_globals []) H1)
    as [g' [E [_ [_ H]]]].
  exists g'. split; [exact E | apply (proj1 (H H2))].
Defined.

(** X13 (mutate_weights).  On connections of unique keys [mutate_weights]
    returns, whatever the draws.  It keeps the keys, the enabled flags and
    the order of the connections and writes nothing else than weights and
    the cached image, which it drops; with [max_weight] not negative every
    weight it leaves lies between [-max_weight] and [max_weight]. *)
Theorem mutate_weights_bounds (prob : Q) (g : CPPN) (gl : Globals) :
  NoDup (map key_ (connection_genome g)) ->
  exists g' gl',
    mutate_weights prob (g, gl) = (Ok tt, (g', gl')) /\
    g' = set_image None (set_connection_genome (connection_genome g') g) /\
    map cx_frame (connection_genome g') = map cx_frame (connection_genome g)
    /\
    ((0 <= max_weight (config g))%Q ->
     Forall (fun c => (- max_weight (config g) <= weight c)%Q /\
                      (weight c <= max_weight (config g))%Q)
       (connection_genome g')).
Proof.
  intros Hnd.
  destruct (mutate_weights_run prob g gl Hnd) as [cs [gl' [E [Hfr _]]]].
  eexists _, gl'. split; [exact E|].
  cbn [connection_genome set_image set_connection_genome].
  split; [reflexivity|]. split.
  - rewrite map_map. exact Hfr.
  - intros Hmax. apply Forall_forall. intros c Hc. apply in_map_iff in Hc.
    destruct Hc as [c0 [<- _]]. cbn [weight set_weight].
    apply clamped_range. assumption.
Qed.

(** X13 (witness) *)
Lemma mutate_weights_bounds_witness :
  NoDup (map key_ (connection_genome full_genome)) /\
  exists g' gl',
    mutate_weights 1 (full_genome, example_globals []) = (Ok tt, (g', gl')) /\
    map cx_frame (connection_genome g')
    = map cx_frame (connection_genome full_genome).
Proof.
  assert (H1 : NoDup (map key_ (connection_genome full_genome)))
    by (simpl; solve_NoDup).
  split; [exact H1|].
  destruct (mutate_weights_bounds 1 full_genome (example_globals []) H1)
    as [g' [gl' [E [_ [Hfr _]]]]].
  exists g', gl'. split; assumption.
Defined.

(** ** Construction *)

Lemma hoare_for_each_prefix {S A : Type} (Inv : list A -> S -> Prop)
  (f : A -> M S unit) (l : list A) :
  forall pre,
    (forall p a, hoare (Inv p) (f a) (fun _ => Inv (p ++ [a]))) ->
    hoare (Inv pre) (for_each l f) (fun _ => Inv (pre ++ l)).
Proof.
  induction l as [|a l IH]; intros pre Hf.
  - rewrite app_nil_r. apply hoare_ret.
  - cbn [for_each]. eapply hoare_bind; [apply Hf|].
    intros u. replace (pre ++ a :: l) with ((pre ++ [a]) ++ l)
      by (rewrite <- app_assoc; reflexivity).
    apply IH. assumption.
Qed.

Lemma range_In (lo hi x : Z) : In x (range lo hi) <-> lo <= x < hi.
Proof.
  unfold range. rewrite in_map_iff. split.
  - intros [i [<- Hi]]. apply in_seq in Hi. lia.
  - intros H. exists (Z.to_nat (x - lo)). split; [lia|].
    apply in_seq. lia.
Qed.

Lemma layer_pairs_In (g : CPPN) (L : Z) (a b : Node) :
  In (a, b) (layer_pairs g L) <->
  In a (node_genome g) /\ In b (node_genome g) /\
  0 <= layer a /\ layer a < layer b /\ layer b <= L.
Proof.
  unfold layer_pairs. rewrite in_flat_map. split.
  - intros [li [Hli H]]. apply range_In in Hli.
    apply in_flat_map in H. destruct H as [lt [Hlt H]].
    apply range_In in Hlt.
    destruct (Z.eqb_spec li lt) as [E|E]; [contradiction|].
    apply in_flat_map in H. destruct H as [x [Hx H]].
    apply in_map_iff in H. destruct H as [y [Exy Hy]].
    injection Exy as -> ->.
    unfold get_layer in Hx, Hy. apply filter_In in Hx, Hy.
    destruct Hx as [Hx Hlx], Hy as [Hy Hly].
    apply Z.eqb_eq in Hlx, Hly. repeat split; try assumption; lia.
  - intros [Ha [Hb [H0 [Hlt HL]]]].
    exists (layer a). split; [apply range_In; lia|].
    apply in_flat_map. exists (layer b). split; [apply range_In; lia|].
    destruct (Z.eqb_spec (layer a) (layer b)) as [E|E]; [lia|].
    apply in_flat_map. exists a. split.
    + unfold get_layer. apply filter_In. split; [assumption|].
      apply Z.eqb_refl.
    + apply in_map. unfold get_layer. apply filter_In.
      split; [assumption | apply Z.eqb_refl].
Qed.

Lemma hoare_for_each_split {S A : Type} (Inv : list A -> S -> Prop)
  (f : A -> M S unit) (l : list A) :
  (forall p a q, l = p ++ a :: q ->
     hoare (Inv p) (f a) (fun _ => Inv (p ++ [a]))) ->
  hoare (Inv []) (for_each l f) (fun _ => Inv l).
Proof.
  assert (H : forall rest pre,
            (forall p a q, pre ++ rest = p ++ a :: q ->
               hoare (Inv p) (f a) (fun _ => Inv (p ++ [a]))) ->
            hoare (Inv pre) (for_each rest f) (fun _ => Inv (pre ++ rest))).
  { induction rest as [|a rest IH]; intros pre Hf.
    - rewrite app_nil_r. apply hoare_ret.
    - cbn [for_each]. eapply hoare_bind; [apply (Hf pre a rest eq_refl)|].
      intros u. replace (pre ++ a :: rest) with ((pre ++ [a]) ++ rest)
        by (rewrite <- app_assoc; reflexivity).
      apply IH. intros p b q E. apply (Hf p b q).
      rewrite <- E, <- app_assoc. reflexivity. }
  intros Hf. apply (H l []). exact Hf.
Qed.

Lemma seq_split (s n : nat) (p q : list nat) (a : nat) :
  seq s n = p ++ a :: q ->
  p = seq s (List.length p) /\ a = (s + List.length p)%nat.
Proof.
  revert s n. induction p as [|x p IH]; intros s n E.
  - destruct n as [|n]; [discriminate|]. cbn in E. injection E as <- _.
    split; [reflexivity | cbn; lia].
  - destruct n as [|n]; [discriminate|]. cbn in E. injection E as <- E.
    destruct (IH _ _ E) as [Hp Ha]. split.
    + cbn [List.length seq]. f_equal. exact Hp.
    + cbn [List.length]. lia.
Qed.

Lemma input_ids (n : nat) (k : Z) :
  In k (map id (map (fun idx => mkNode identity (- (1 + Z.of_nat idx)) INPUT
                                  0 None None) (seq 0 n))) ->
  - Z.of_nat n <= k < 0.
Proof.
  rewrite map_map. cbn [id]. intros H. apply in_map_iff in H.
  destruct H as [i [<- Hi]]. apply in_seq in Hi. lia.
Qed.

(** The first loop of [initialize_node_genome] *)
Lemma inputs_loop (g0 : CPPN) (gl : Globals) (len : nat) :
  forall start ns,
    (forall n, In n ns -> - Z.of_nat start <= id n) ->
    for_each (seq start len)
      (fun idx =>
         modify_nodes
           (dict_set_node
              (mkNode identity (- (1 + Z.of_nat idx)) INPUT 0 None None)))
      (set_node_genome ns g0, gl)
    = (Ok tt,
       (set_node_genome
          (ns ++ map (fun idx => mkNode identity (- (1 + Z.of_nat idx)) INPUT
                                   0 None None) (seq start len)) g0, gl)).
Proof.
  induction len as [|len IH]; intros start ns Hns.
  - cbn [seq map for_each]. rewrite app_nil_r. reflexivity.
  - cbn [seq map for_each]. unfold bind, modify_nodes at 1, modify_self at 1.
    cbn [fst snd node_genome set_node_genome].
    rewrite dict_set_node_new.
    + change (set_node_genome ?x (set_node_genome ?y g0))
        with (set_node_genome x g0).
      rewrite IH.
      * rewrite <- app_assoc. reflexivity.
      * intros n Hn. apply in_app_or in Hn. destruct Hn as [Hn|[<-|[]]].
        -- apply Hns in Hn. lia.
        -- cbn [id]. lia.
    + cbn [id]. intros H. apply in_map_iff in H. destruct H as [n [E Hn]].
      apply Hns in Hn. lia.
Qed.

Lemma building_nodes_stable (g0 : CPPN) (gl0 : Globals) (out_idx : list nat)
  (n_hid : nat) :
  class_stable (building_nodes g0 gl0 out_idx n_hid).
Proof.
  intros g gl gl' [H1 [H2 [H3 [H4 [H5 H6]]]]] [Hi [Hc Hp]].
  unfold building_nodes, indexer_fresh in *. cbn [fst snd] in *.
  split; [assumption|]. split; [assumption|].
  split; [rewrite Hc; assumption|]. split; [rewrite Hp; assumption|].
  rewrite Hi. split; assumption.
Qed.

Lemma nodes_so_far_ids (n_in : nat) (out_idx : list nat) (n_hid : nat)
  (ns : list Node) (k : Z) :
  nodes_so_far n_in out_idx n_hid ns -> In k (map id ns) ->
  (- Z.of_nat n_in <= k < 0) \/
  (exists idx, In idx out_idx /\ k = - (1 + Z.of_nat idx)) \/
  (0 <= k /\ n_hid <> O).
Proof.
  intros [outs [hid [-> [Hout [Hlen [Hhid _]]]]]] Hk.
  rewrite !map_app in Hk. apply in_app_or in Hk. destruct Hk as [Hk|Hk].
  - left. apply input_ids. assumption.
  - apply in_app_or in Hk. destruct Hk as [Hk|Hk].
    + right. left. apply in_map_iff in Hk. destruct Hk as [n [<- Hn]].
      clear Hhid Hlen. induction Hout as [|i m idxs ms [Hi _] _ IH];
        [contradiction|].
      destruct Hn as [<-|Hn].
      * exists i. split; [left; reflexivity | assumption].
      * destruct (IH Hn) as [idx [H1 H2]]. exists idx.
        split; [right; assumption | assumption].
    + right. right. apply in_map_iff in Hk. destruct Hk as [n [<- Hn]].
      rewrite Forall_forall in Hhid. split; [apply Hhid; assumption|].
      intros E. rewrite E in Hlen. destruct hid; [contradiction | discriminate].
Qed.

(** One round of the second loop of [initialize_node_genome] *)
Lemma output_step (g0 : CPPN) (gl0 : Globals) (cfg : Config)
  (p : list nat) (a : nat) :
  activations cfg <> [] ->
  p = seq (n_inputs g0) (List.length p) ->
  a = (n_inputs g0 + List.length p)%nat ->
  hoare (building_nodes g0 gl0 p 0)
    (bind (match output_activation cfg with
           | None => lift_glob (choose_random_function cfg)
           | Some fn => ret fn
           end)
       (fun output_fn =>
          modify_nodes
            (dict_set_node
               (mkNode output_fn (- (1 + Z.of_nat a)) OUTPUT 2 None None))))
    (fun _ => building_nodes g0 gl0 (p ++ [a]) 0).
Proof.
  intros Hact Hp Ha.
  eapply hoare_bind with (Q := fun _ => building_nodes g0 gl0 p 0).
  - destruct (output_activation cfg).
    + apply hoare_ret.
    + eapply hoare_weaken;
        [| |apply hoare_choose;
             [apply building_nodes_stable | exact Hact]].
      * intros s H. exact H.
      * intros fn s [_ H]. exact H.
  - intros fn. apply hoare_modify_self.
    intros [g gl] [Hns [Hfr [Hid [Hpi [Hfresh Hix]]]]].
    cbn [fst snd] in *.
    assert (Hnew : ~ In (- (1 + Z.of_nat a)) (map id (node_genome g))).
    { intros H.
      destruct (nodes_so_far_ids _ _ _ _ _ Hns H) as [H1|[[idx [H1 H2]]|[_ H1]]].
      - lia.
      - rewrite Hp in H1. apply in_seq in H1. lia.
      - contradiction. }
    rewrite (dict_set_node_new
               (mkNode fn (- (1 + Z.of_nat a)) OUTPUT 2 None None)
               (node_genome g) Hnew).
    cbn [fst snd node_genome set_node_genome].
    split; [|split; [rewrite Hfr at 2; reflexivity|]].
    + destruct Hns as [outs [hid [E [Hout [Hlen [Hhid Hnd]]]]]].
      destruct hid; [|discriminate].
      exists (outs ++ [mkNode fn (- (1 + Z.of_nat a)) OUTPUT 2 None None]), [].
      split; [rewrite E, !app_nil_r, <- app_assoc; reflexivity|].
      split; [|split; [reflexivity | split; constructor]].
      apply Forall2_app; [assumption|].
      constructor; [|constructor]. repeat split.
    + split; [assumption|]. split; [assumption|].
      split; [|assumption].
      unfold indexer_fresh in *.
      cbn [fst snd node_genome set_node_genome] in *.
      destruct (node_indexer gl) as [c|]; [|exact I].
      intros k Hk. rewrite map_app in Hk. apply in_app_or in Hk.
      destruct Hk as [Hk|[<-|[]]]; [apply Hfresh; assumption|].
      cbn [id]. specialize (Hix c eq_refl). lia.
Qed.

(** One round of the third loop of [initialize_node_genome] *)
Lemma hidden_step (g0 : CPPN) (gl0 : Globals) (cfg : Config)
  (out_idx : list nat) (k : nat) :
  activations cfg <> [] -> (0 < n_inputs g0)%nat ->
  hoare (building_nodes g0 gl0 out_idx k)
    (bind get_new_node_id (fun new_id =>
       bind (lift_glob (choose_random_function cfg)) (fun fn =>
         modify_nodes
           (dict_set_node (mkNode fn new_id HIDDEN 1 None None)))))
    (fun _ => building_nodes g0 gl0 out_idx (S k)).
Proof.
  intros Hact Hin [g gl] Hs. assert (Hs' := Hs).
  destruct Hs' as [Hns [Hfr [Hid [Hpi [Hfresh Hix]]]]]. cbn [fst snd] in *.
  assert (Hm1 : In (-1) (map id (node_genome g))).
  { destruct Hns as [outs [hid [E _]]]. rewrite E, map_app.
    apply in_or_app. left. rewrite map_map. cbn [id].
    destruct (n_inputs g0) as [|n]; [lia|]. cbn. left. reflexivity. }
  assert (Hne : node_genome g <> [])
    by (intros E; rewrite E in Hm1; exact Hm1).
  destruct (get_new_node_id_fresh g gl Hne Hfresh) as [c [E1 [Hlt _]]].
  assert (Hc : 0 <= c) by (apply Hlt in Hm1; lia).
  destruct (random_choice1_class (activations cfg)
              (set_indexer (Some (c + 1)) gl) Hact)
    as [fn [gl' [E2 [_ [Hi [Hci Hpi']]]]]].
  cbn [set_indexer node_indexer current_id pixel_inputs] in Hi, Hci, Hpi'.
  assert (Hnew : ~ In c (map id (node_genome g)))
    by (intros H; apply Hlt in H; lia).
  eexists tt, _. split.
  { unfold bind at 1. rewrite E1.
    unfold bind at 1, lift_glob at 1, choose_random_function.
    cbn [fst snd]. rewrite E2.
    unfold modify_nodes, modify_self. cbn [fst snd].
    rewrite (dict_set_node_new (mkNode fn c HIDDEN 1 None None) _ Hnew).
    reflexivity. }
  unfold building_nodes. cbn [fst snd node_genome set_node_genome].
  split; [|split; [rewrite Hfr at 2; reflexivity|]].
  - destruct Hns as [outs [hid [E [Hout [Hlen [Hhid Hnd]]]]]].
    exists outs, (hid ++ [mkNode fn c HIDDEN 1 None None]).
    split; [rewrite E, <- !app_assoc; reflexivity|].
    split; [assumption|].
    split; [rewrite length_app; cbn; lia|].
    split.
    + apply Forall_app. split; [assumption|].
      constructor; [|constructor]. repeat split. assumption.
    + rewrite map_app. apply NoDup_app; [assumption | |].
      * constructor; [intros [] | constructor].
      * intros x Hx [<-|[]]. apply Hnew. rewrite E, !map_app.
        apply in_or_app. right. apply in_or_app. right. assumption.
  - split; [congruence|]. split; [congruence|].
    unfold indexer_fresh. cbn [fst snd node_genome set_node_genome].
    rewrite Hi. split.
    + intros x Hx. rewrite map_app in Hx. apply in_app_or in Hx.
      destruct Hx as [Hx|[<-|[]]]; [apply Hlt in Hx; lia | cbn; lia].
    + intros c' E'. injection E' as <-. lia.
Qed.

Lemma initialize_node_genome_builds (g0 : CPPN) (gl0 : Globals) :
  node_genome g0 = [] -> activations (config g0) <> [] ->
  (0 < n_inputs g0)%nat ->
  (forall c, node_indexer gl0 = Some c -> 0 <= c) ->
  exists g1 gl1,
    initialize_node_genome (g0, gl0) = (Ok tt, (g1, gl1)) /\
    building_nodes g0 gl0 (seq (n_inputs g0) (n_outputs g0))
      (hidden_nodes_at_start (config g0)) (g1, gl1).
Proof.
  intros Hempty Hact Hin Hix.
  assert (Eg0 : g0 = set_node_genome [] g0)
    by (rewrite <- Hempty; symmetry; apply set_node_genome_same).
  set (inputs := map (fun idx => mkNode identity (- (1 + Z.of_nat idx)) INPUT
                                   0 None None) (seq 0 (n_inputs g0))).
  (* the output nodes *)
  assert (H2 := hoare_for_each_split
                  (fun p => building_nodes g0 gl0 p 0)
                  (fun idx =>
                     bind (match output_activation (config g0) with
                           | None => lift_glob
                                       (choose_random_function (config g0))
                           | Some fn => ret fn
                           end)
                       (fun output_fn =>
                          modify_nodes
                            (dict_set_node
                               (mkNode output_fn (- (1 + Z.of_nat idx))
                                  OUTPUT 2 None None))))
                  (seq (n_inputs g0) (n_outputs g0))).
  destruct (H2 (fun p a q E =>
                  output_step g0 gl0 (config g0) p a Hact
                    (proj1 (seq_split _ _ _ _ _ E))
                    (proj2 (seq_split _ _ _ _ _ E)))
              (set_node_genome inputs g0, gl0))
    as [u2 [[g2 gl2] [E2 Hb2]]].
  { split; [|split; [reflexivity|split; [reflexivity|split; [reflexivity|]]]].
    - exists [], []. cbn [fst node_genome set_node_genome].
      rewrite !app_nil_r. split; [reflexivity|].
      split; [constructor|]. split; [reflexivity|]. split; constructor.
    - unfold indexer_fresh. cbn [fst snd node_genome set_node_genome].
      split; [|exact Hix].
      destruct (node_indexer gl0) as [c|] eqn:Ec; [|exact I].
      intros k Hk. apply input_ids in Hk. specialize (Hix c eq_refl). lia. }
  (* the hidden nodes *)
  set (n_hid := (n_inputs g0 + n_outputs g0
                 + hidden_nodes_at_start (config g0)
                 - (n_inputs g0 + n_outputs g0))%nat).
  assert (H3 := hoare_for_each_split
                  (fun p : list nat =>
                     building_nodes g0 gl0 (seq (n_inputs g0) (n_outputs g0))
                       (List.length p))
                  (fun _ : nat =>
                     bind get_new_node_id (fun new_id =>
                       bind (lift_glob (choose_random_function (config g0)))
                         (fun fn =>
                            modify_nodes
                              (dict_set_node
                                 (mkNode fn new_id HIDDEN 1 None None)))))
                  (seq (n_inputs g0 + n_outputs g0) n_hid)).
  assert (Hstep : forall (p : list nat) (a : nat) (q : list nat),
            seq (n_inputs g0 + n_outputs g0) n_hid = p ++ a :: q ->
            hoare
              (building_nodes g0 gl0 (seq (n_inputs g0) (n_outputs g0))
                 (List.length p))
              (bind get_new_node_id (fun new_id =>
                 bind (lift_glob (choose_random_function (config g0)))
                   (fun fn =>
                      modify_nodes
                        (dict_set_node
                           (mkNode fn new_id HIDDEN 1 None None)))))
              (fun _ =>
                 building_nodes g0 gl0 (seq (n_inputs g0) (n_outputs g0))
                   (List.length (p ++ [a])))).
  { intros p a q _. rewrite length_app. cbn [List.length].
    replace (List.length p + 1)%nat with (S (List.length p)) by lia.
    apply hidden_step; assumption. }
  destruct (H3 Hstep (g2, gl2) Hb2) as [u3 [[g3 gl3] [E3 Hb3]]].
  exists g3, gl3. split.
  - unfold initialize_node_genome, bind at 1, get_self at 1. cbn [fst snd].
    assert (E1 := inputs_loop g0 gl0 (n_inputs g0) 0 []
                    (fun n (H : In n []) => match H with end)).
    cbn [app] in E1. rewrite <- Eg0 in E1. fold inputs in E1.
    unfold bind at 1. rewrite E1. unfold bind at 1. rewrite E2.
    destruct u3. exact E3.
  - rewrite length_seq in Hb3. unfold n_hid in Hb3.
    replace (n_inputs g0 + n_outputs g0 + hidden_nodes_at_start (config g0)
             - (n_inputs g0 + n_outputs g0))%nat
      with (hidden_nodes_at_start (config g0)) in Hb3 by lia.
    exact Hb3.
Qed.

Lemma dict_set_cx_keys (c : Connection) (cs : list Connection) :
  NoDup (map key_ cs) ->
  NoDup (map key_ (dict_set_cx c cs)) /\
  forall k, In k (map key_ (dict_set_cx c cs)) <->
            k = key_ c \/ In k (map key_ cs).
Proof.
  intros Hnd. unfold dict_set_cx.
  destruct (find_cx cs (key_ c)) as [d|] eqn:Ef.
  - assert (Hk : map key_ (update_cx (key_ c) (fun _ => c) cs) = map key_ cs).
    { unfold update_cx. rewrite map_map. apply map_ext. intros x.
      destruct (key_eqb (key_ x) (key_ c)) eqn:E; [|reflexivity].
      apply key_eqb_eq in E. symmetry. exact E. }
    rewrite Hk. split; [assumption|]. intros k. split; [auto|].
    intros [->|H]; [|assumption].
    apply find_cx_key in Ef. destruct Ef as [Hd <-]. apply in_map. assumption.
  - apply find_cx_None in Ef. rewrite map_app. cbn [map]. split.
    + apply NoDup_app; [assumption | |].
      * constructor; [intros [] | constructor].
      * intros k Hk [<-|[]]. contradiction.
    + intros k. rewrite in_app_iff. cbn [In]. split.
      * intros [H|[H|[]]]; auto.
      * intros [H|H]; auto.
Qed.

Lemma building_connections_stable (g1 : CPPN) (gl1 : Globals)
  (pairs : list (Node * Node)) :
  class_stable (building_connections g1 gl1 pairs).
Proof.
  intros g gl gl' [H1 [H2 [H3 H4]]] Hc. cbn [fst snd] in *.
  split; [assumption|]. split; [assumption|]. split; [assumption|].
  eapply same_class_trans; eassumption.
Qed.

(** One round of the loops of [initialize_connection_genome] *)
Lemma connect_pair_step (g1 : CPPN) (gl1 : Globals) (cfg : Config)
  (pairs : list (Node * Node)) (pr : Node * Node) :
  hoare (building_connections g1 gl1 pairs) (connect_pair cfg pr)
    (fun _ => building_connections g1 gl1 (pairs ++ [pr])).
Proof.
  unfold connect_pair.
  eapply hoare_bind;
    [unfold random_weight; apply hoare_draw, building_connections_stable|].
  intros w.
  eapply hoare_bind with
    (Q := fun _ => building_connections g1 gl1 (pairs ++ [pr])).
  - apply hoare_modify_self. intros [g gl] [H1 [H2 [H3 H4]]].
    cbn [fst snd] in *.
    destruct (dict_set_cx_keys
                (mkConnection (id (fst pr), id (snd pr)) w true false)
                (connection_genome g) H2) as [Hnd Hk].
    split; [|split; [|split]];
      cbn [fst snd connection_genome set_connection_genome].
    + rewrite H1 at 2. reflexivity.
    + assumption.
    + intros k. rewrite Hk, map_app, in_app_iff, H3. cbn [key_ map In].
      split.
      * intros [->|H]; [right; left; reflexivity | left; assumption].
      * intros [H|[<-|[]]]; [right; assumption | left; reflexivity].
    + assumption.
  - intros u.
    eapply hoare_bind with
      (Q := fun _ => building_connections g1 gl1 (pairs ++ [pr])).
    + intros [g gl] Hs. eexists (next_rand gl), (g, after_rand gl).
      split; [reflexivity|].
      eapply building_connections_stable;
        [exact Hs | apply same_class_after_rand].
    + intros r. destruct (Qltb (init_connection_probability cfg) r);
        [|apply hoare_ret].
      apply hoare_modify_self. intros [g gl] [H1 [H2 [H3 H4]]].
      cbn [fst snd] in *.
      split; [|split; [|split]];
        cbn [fst snd connection_genome set_connection_genome].
      * rewrite H1 at 2. reflexivity.
      * rewrite map_key_set_enabled. assumption.
      * intros k. rewrite map_key_set_enabled. apply H3.
      * assumption.
Qed.

Lemma nodes_so_far_NoDup (n_in n_out n_hid : nat) (ns : list Node) :
  nodes_so_far n_in (seq n_in n_out) n_hid ns -> NoDup (map id ns).
Proof.
  intros [outs [hid [-> [Hout [_ [Hhid Hnd]]]]]].
  assert (Houts : map id outs
                  = map (fun idx => - (1 + Z.of_nat idx)) (seq n_in n_out)).
  { generalize dependent (seq n_in n_out). intros l Hout.
    induction Hout as [|i m idxs ms [Hi _] _ IH]; [reflexivity|].
    cbn [map]. rewrite Hi, IH. reflexivity. }
  rewrite !map_app, map_map, Houts. cbn [id].
  apply NoDup_app.
  - apply Injective_map_NoDup; [|apply seq_NoDup].
    intros x y E. lia.
  - apply NoDup_app; [|assumption|].
    + apply Injective_map_NoDup; [|apply seq_NoDup].
      intros x y E. lia.
    + intros k Hk Hk'. apply in_map_iff in Hk. destruct Hk as [i [<- _]].
      apply in_map_iff in Hk'. destruct Hk' as [n [E Hn]].
      rewrite Forall_forall in Hhid. apply Hhid in Hn. lia.
  - intros k Hk Hk'. apply in_map_iff in Hk. destruct Hk as [i [<- Hi]].
    apply in_seq in Hi. apply in_app_or in Hk'. destruct Hk' as [Hk'|Hk'].
    + apply in_map_iff in Hk'. destruct Hk' as [j [E Hj]].
      apply in_seq in Hj. lia.
    + apply in_map_iff in Hk'. destruct Hk' as [n [E Hn]].
      rewrite Forall_forall in Hhid. apply Hhid in Hn. lia.
Qed.

Lemma nodes_so_far_views (n_in n_out n_hid : nat) (ns : list Node) :
  nodes_so_far n_in (seq n_in n_out) n_hid ns ->
  filter (fun n => NodeType_eqb (type n) INPUT) ns
  = map (fun idx => mkNode identity (- (1 + Z.of_nat idx)) INPUT 0 None None)
      (seq 0 n_in) /\
  map id (filter (fun n => NodeType_eqb (type n) OUTPUT) ns)
  = map (fun idx => - (1 + Z.of_nat idx)) (seq n_in n_out) /\
  List.length (filter (fun n => NodeType_eqb (type n) HIDDEN) ns) = n_hid /\
  Forall (fun n => (type n = INPUT /\ layer n = 0) \/
                   (type n = OUTPUT /\ layer n = 2) \/
                   (type n = HIDDEN /\ layer n = 1)) ns.
Proof.
  intros [outs [hid [-> [Hout [Hlen [Hhid _]]]]]].
  set (inputs := map _ (seq 0 n_in)).
  assert (Hin : forall t, filter (fun n => NodeType_eqb (type n) t) inputs
                          = if NodeType_eqb INPUT t then inputs else []).
  { intros t. unfold inputs. induction (seq 0 n_in) as [|i l IH].
    - destruct t; reflexivity.
    - cbn [map filter type]. rewrite IH.
      destruct t; reflexivity. }
  assert (Ho : forall t, filter (fun n => NodeType_eqb (type n) t) outs
                         = if NodeType_eqb OUTPUT t then outs else []).
  { intros t. clear Hlen Hhid.
    induction Hout as [|i m idxs ms [_ [Ht _]] _ IH].
    - destruct t; reflexivity.
    - cbn [filter]. rewrite Ht, IH.
      destruct t; reflexivity. }
  assert (Hh : forall t, filter (fun n => NodeType_eqb (type n) t) hid
                         = if NodeType_eqb HIDDEN t then hid else []).
  { intros t. clear Hlen. induction Hhid as [|m ms [Ht _] _ IH].
    - destruct t; reflexivity.
    - cbn [filter]. rewrite Ht, IH.
      destruct t; reflexivity. }
  rewrite !filter_app, !Hin, !Ho, !Hh. cbn [NodeType_eqb app].
  rewrite !app_nil_r.
  split; [reflexivity|]. split.
  - clear Ho. generalize dependent (seq n_in n_out). intros l Hout.
    induction Hout as [|i m idxs ms [Hi _] _ IH]; [reflexivity|].
    cbn [map]. rewrite Hi, IH. reflexivity.
  - split; [assumption|].
    apply Forall_app. split; [|apply Forall_app; split].
    + apply Forall_forall. intros n Hn. unfold inputs in Hn.
      apply in_map_iff in Hn. destruct Hn as [i [<- _]]. left. split; reflexivity.
    + clear Ho. induction Hout as [|i m idxs ms [_ [Ht Hl]] _ IH];
        constructor; auto.
    + eapply Forall_impl; [|exact Hhid]. intros n [Ht [Hl _]]. auto.
Qed.

Lemma initialize_connection_genome_builds (g1 : CPPN) (gl1 : Globals)
  (n_in n_out n_hid : nat) :
  nodes_so_far n_in (seq n_in n_out) n_hid (node_genome g1) ->
  (0 < n_out)%nat -> connection_genome g1 = [] ->
  exists g2 gl2,
    initialize_connection_genome (g1, gl1) = (Ok tt, (g2, gl2)) /\
    building_connections g1 gl1 (layer_pairs g1 2) (g2, gl2).
Proof.
  intros Hns Hout Hempty.
  destruct (nodes_so_far_views _ _ _ _ Hns) as [_ [Hoid [_ Hall]]].
  assert (Hidx : get_output_layer_index g1 = Ok 2).
  { unfold get_output_layer_index, output_nodes.
    destruct (filter _ (node_genome g1)) as [|n ns] eqn:Ef.
    - destruct n_out; [lia | discriminate Hoid].
    - assert (Hn : In n (filter (fun n => NodeType_eqb (type n) OUTPUT)
                           (node_genome g1)))
        by (rewrite Ef; left; reflexivity).
      apply filter_In in Hn. destruct Hn as [Hn Ht].
      apply NodeType_eqb_eq in Ht.
      rewrite Forall_forall in Hall.
      destruct (Hall n Hn) as [[H _]|[[_ H]|[H _]]];
        [congruence | rewrite H; reflexivity | congruence]. }
  destruct (hoare_for_each_split (building_connections g1 gl1)
              (connect_pair (config g1)) (layer_pairs g1 2)
              (fun p a q _ => connect_pair_step g1 gl1 (config g1) p a)
              (g1, gl1))
    as [u [[g2 gl2] [E H]]].
  { split; [|split; [|split]]; cbn [fst snd].
    - symmetry. apply set_connection_genome_same.
    - rewrite Hempty. constructor.
    - rewrite Hempty. cbn. tauto.
    - apply same_class_refl. }
  exists g2, gl2. split; [|exact H].
  unfold initialize_connection_genome, bind at 1, get_self at 1.
  cbn [fst snd]. unfold bind at 1, lift_result at 1. rewrite Hidx.
  rewrite E. destruct u. reflexivity.
Qed.

(** X14 (CPPN.__init__): with a device, a non-empty colour mode and a
    non-empty catalogue of activations, the constructor called without
    nodes and connections returns a well-formed genome that carries the
    next id of the class counter, has the configured numbers of input,
    output and hidden nodes, and connects a node to another exactly when
    the first lies on a lower layer than the second. *)
Theorem CPPN_init_builds (cfg : Config) (gl : Globals) :
  device cfg <> None -> color_mode cfg <> EmptyString ->
  activations cfg <> [] ->
  (forall c, node_indexer gl = Some c -> 0 <= c) ->
  exists g gl',
    CPPN_init cfg None None gl = (Ok g, gl') /\
    well_formed (g, gl') /\ config g = cfg /\
    cppn_id g = current_id gl /\ current_id gl' = current_id gl + 1 /\
    List.length (input_nodes g)
    = (2 + (if use_radial_distance cfg then 1 else 0)
         + (if use_input_bias cfg then 1 else 0))%nat /\
    List.length (output_nodes g) = String.length (color_mode cfg) /\
    List.length (hidden_nodes g) = hidden_nodes_at_start cfg /\
    forall a b, In a (node_genome g) -> In b (node_genome g) ->
      (In (id a, id b) (map key_ (connection_genome g)) <->
       layer a < layer b).
Proof.
  intros Hdev Hmode Hact Hix.
  unfold CPPN_init. destruct (device cfg) as [d|]; [clear Hdev|congruence].
  cbn [get_id].
  set (gl1 := mkGlobals _ _ _ _ _).
  set (g0 := mkCPPN _ _ _ _ _ _ _ _ _ _ _ _ _).
  assert (Hout : (0 < n_outputs g0)%nat).
  { cbn [g0 n_outputs]. destruct (color_mode cfg); [congruence|cbn; lia]. }
  destruct (initialize_node_genome_builds g0 gl1 eq_refl Hact) as
    [g1 [gl1' [E1 [Hns [Eg1 [Hid [_ [Hfresh _]]]]]]]].
  { cbn [g0 n_inputs]. lia. }
  { exact Hix. }
  cbn [fst snd] in Hns, Eg1, Hid, Hfresh.
  destruct (initialize_connection_genome_builds g1 gl1' _ _ _ Hns Hout)
    as [g2 [gl2 [E2 [Eg2 [Hnd [Hkeys [Hix2 [Hid2 _]]]]]]]].
  { rewrite Eg1. reflexivity. }
  cbn [fst snd] in Eg2, Hnd, Hkeys, Hix2, Hid2.
  exists g2, gl2. split.
  { unfold bind. rewrite E1, E2. reflexivity. }
  assert (Hnodes : node_genome g2 = node_genome g1)
    by (rewrite Eg2; reflexivity).
  destruct (nodes_so_far_views _ _ _ _ Hns) as [Hin [Hoid [Hhid Hall]]].
  assert (Hids := nodes_so_far_NoDup _ _ _ _ Hns).
  rewrite Forall_forall in Hall.
  assert (Hpairs : forall a b, In a (node_genome g1) ->
            In b (node_genome g1) ->
            (In (id a, id b) (map key_ (connection_genome g2)) <->
             layer a < layer b)).
  { intros a b Ha Hb. rewrite Hkeys, in_map_iff. split.
    - intros [[a' b'] [E H]]. cbn [fst snd] in E. injection E as Ea Eb.
      apply layer_pairs_In in H. destruct H as [Ha' [Hb' [_ [Hlt _]]]].
      rewrite <- (NoDup_id_eq _ _ _ Hids Ha' Ha Ea).
      rewrite <- (NoDup_id_eq _ _ _ Hids Hb' Hb Eb). exact Hlt.
    - intros Hlt. exists (a, b). split; [reflexivity|].
      apply layer_pairs_In. split; [assumption|]. split; [assumption|].
      destruct (Hall a Ha) as [[_ La]|[[_ La]|[_ La]]];
        destruct (Hall b Hb) as [[_ Lb]|[[_ Lb]|[_ Lb]]]; lia. }
  split; [|split; [|split; [|split; [|split; [|split; [|split]]]]]].
  - split; [split|split; [|split; [|split]]]; cbn [fst snd].
    + rewrite Hnodes. exact Hids.
    + exact Hnd.
    + intros c Hc. rewrite Hnodes.
      assert (Hk : In (key_ c) (map key_ (connection_genome g2)))
        by (apply in_map; exact Hc).
      apply Hkeys in Hk. apply in_map_iff in Hk.
      destruct Hk as [[a b] [E H]]. rewrite <- E. cbn [fst snd].
      apply layer_pairs_In in H. destruct H as [Ha [Hb _]].
      split; apply in_map; assumption.
    + unfold indexer_fresh in *. cbn [fst snd] in *.
      rewrite Hix2, Hnodes. exact Hfresh.
    + unfold input_nodes. rewrite Hnodes, Hin, length_map, length_seq.
      cbn [g0 n_inputs]. lia.
    + rewrite Eg2, Eg1. exact Hact.
  - rewrite Eg2, Eg1. reflexivity.
  - rewrite Eg2, Eg1. reflexivity.
  - rewrite Hid2, Hid. reflexivity.
  - unfold input_nodes. rewrite Hnodes, Hin, length_map, length_seq.
    reflexivity.
  - unfold output_nodes. rewrite Hnodes.
    rewrite <- (length_map id), Hoid, length_map, length_seq. reflexivity.
  - unfold hidden_nodes. rewrite Hnodes. exact Hhid.
  - rewrite Hnodes. exact Hpairs.
Qed.

(** X14 (witness) *)
Lemma CPPN_init_builds_witness :
  exists g gl',
    CPPN_init example_config None None (example_globals []) = (Ok g, gl') /\
    well_formed (g, gl') /\ config g = example_config /\
    cppn_id g = current_id (example_globals []) /\
    current_id gl' = current_id (example_globals []) + 1 /\
    List.length (input_nodes g)
    = (2 + (if use_radial_distance example_config then 1 else 0)
         + (if use_input_bias example_config then 1 else 0))%nat /\
    List.length (output_nodes g)
    = String.length (color_mode example_config) /\
    List.length (hidden_nodes g) = hidden_nodes_at_start example_config /\
    forall a b, In a (node_genome g) -> In b (node_genome g) ->
      (In (id a, id b) (map key_ (connection_genome g)) <->
       layer a < layer b).
Proof.
  apply (CPPN_init_builds example_config (example_globals [])).
  - discriminate.
  - discriminate.
  - discriminate.
  - intros c H. vm_compute in H. congruence.
Defined.

(** X15 (CPPN.__init__, get_output_layer_index): for a configuration with
    an empty colour mode the constructor makes no output node, and it
    raises the assertion error of [get_output_layer_index]; the class
    counter of ids has advanced all the same. *)
Theorem CPPN_init_no_outputs (cfg : Config) (gl : Globals) :
  device cfg <> None -> color_mode cfg = EmptyString ->
  activations cfg <> [] ->
  (forall c, node_indexer gl = Some c -> 0 <= c) ->
  exists gl',
    CPPN_init cfg None None gl = (Raise AssertionError, gl') /\
    current_id gl' = current_id gl + 1.
Proof.
  intros Hdev Hmode Hact Hix.
  unfold CPPN_init. destruct (device cfg) as [d|]; [clear Hdev|congruence].
  cbn [get_id].
  set (gl1 := mkGlobals _ _ _ _ _).
  set (g0 := mkCPPN _ _ _ _ _ _ _ _ _ _ _ _ _).
  destruct (initialize_node_genome_builds g0 gl1 eq_refl Hact) as
    [g1 [gl1' [E1 [Hns [Eg1 [Hid [_ [Hfresh _]]]]]]]].
  { cbn [g0 n_inputs]. lia. }
  { exact Hix. }
  cbn [fst snd] in Hns, Eg1, Hid, Hfresh.
  destruct (nodes_so_far_views _ _ _ _ Hns) as [_ [Hoid _]].
  assert (Hnone : output_nodes g1 = []).
  { unfold output_nodes. cbn [g0 n_outputs] in Hoid. rewrite Hmode in Hoid.
    cbn in Hoid. destruct (filter _ _); [reflexivity|discriminate]. }
  exists gl1'. split; [|rewrite Hid; reflexivity].
  unfold bind at 1. rewrite E1.
  unfold initialize_connection_genome, bind at 1, get_self at 1.
  cbn [fst snd]. unfold bind at 1, lift_result at 1.
  unfold get_output_layer_index. rewrite Hnone. reflexivity.
Qed.

(** X15 (witness) *)
Lemma CPPN_init_no_outputs_witness :
  exists gl',
    CPPN_init colourless_config None None (example_globals [])
    = (Raise AssertionError, gl') /\
    current_id gl' = current_id (example_globals []) + 1.
Proof.
  apply (CPPN_init_no_outputs colourless_config (example_globals [])).
  - discriminate.
  - reflexivity.
  - discriminate.
  - intros c H. vm_compute in H. congruence.
Defined.

Lemma Qlist_max_spec (l : list Q) (q : Q) :
  (forall v, In v (q :: l) -> (v <= Qlist_max q l)%Q) /\
  In (Qlist_max q l) (q :: l).
Proof.
  unfold Qlist_max. revert q. induction l as [|b l IH]; intros q.
  - cbn. split; [|auto]. intros v [<-|[]]. apply Qle_refl.
  - cbn [fold_left].
    destruct (IH (if Qltb q b then b else q)) as [Hle Hin]. split.
    + intros v [E0|[E0|Hv]]; [subst v | subst v |].
      * destruct (Qltb q b) eqn:E.
        -- apply Qltb_lt in E.
           eapply Qle_trans; [apply Qlt_le_weak; exact E|].
           apply Hle. left. reflexivity.
        -- apply Hle. left. reflexivity.
      * destruct (Qltb q b) eqn:E.
        -- apply Hle. left. reflexivity.
        -- apply Qltb_ge in E. eapply Qle_trans; [exact E|].
           apply Hle. left. reflexivity.
      * apply Hle. right. assumption.
    + destruct Hin as [Hin|Hin].
      * rewrite <- Hin. destruct (Qltb q b); [right; left|left]; reflexivity.
      * right. right. assumption.
Qed.

Lemma Qlist_min_spec (l : list Q) (q : Q) :
  (forall v, In v (q :: l) -> (Qlist_min q l <= v)%Q) /\
  In (Qlist_min q l) (q :: l).
Proof.
  unfold Qlist_min. revert q. induction l as [|b l IH]; intros q.
  - cbn. split; [|auto]. intros v [<-|[]]. apply Qle_refl.
  - cbn [fold_left].
    destruct (IH (if Qltb b q then b else q)) as [Hle Hin]. split.
    + intros v [E0|[E0|Hv]]; [subst v | subst v |].
      * destruct (Qltb b q) eqn:E.
        -- apply Qltb_lt in E.
           eapply Qle_trans; [apply Hle; left; reflexivity|].
           apply Qlt_le_weak. exact E.
        -- apply Hle. left. reflexivity.
      * destruct (Qltb b q) eqn:E.
        -- apply Hle. left. reflexivity.
        -- apply Qltb_ge in E.
           eapply Qle_trans; [apply Hle; left; reflexivity|]. exact E.
      * apply Hle. right. assumption.
    + destruct Hin as [Hin|Hin].
      * rewrite <- Hin. destruct (Qltb b q); [right; left|left]; reflexivity.
      * right. right. assumption.
Qed.

Lemma concat_concat_map {A B : Type} (f : A -> B)
  (px : list (list (list A))) :
  concat (concat (map (map (map f)) px)) = map f (concat (concat px)).
Proof.
  rewrite <- !concat_map. reflexivity.
Qed.

(** The arithmetic of [normalize_image], value by value *)
Lemma normalized_value (lo hi v : Q) :
  (lo <= v)%Q -> (v <= hi)%Q ->
  let w := if Qeq_bool (hi - lo) 0 then (v - lo)%Q
           else ((v - lo) / (hi - lo))%Q in
  (0 <= w)%Q /\ (w <= 1)%Q /\ (v == lo -> w == 0)%Q /\
  (Qeq_bool (hi - lo) 0 = false -> v == hi -> w == 1)%Q.
Proof.
  intros Hlo Hhi. cbv zeta.
  destruct (Qeq_bool (hi - lo) 0) eqn:E.
  - apply Qeq_bool_eq in E.
    assert (Hv : (v - lo == 0)%Q) by lra.
    rewrite Hv. repeat split; try lra; try discriminate.
  - apply Qeq_bool_neq in E.
    assert (Hpos : (0 < hi - lo)%Q) by lra.
    repeat split.
    + apply Qle_shift_div_l; [assumption|]. lra.
    + apply Qle_shift_div_r; [assumption|]. lra.
    + intros Hv. assert (Hz : (v - lo == 0)%Q) by lra. rewrite Hz.
      field. lra.
    + intros _ Hv. rewrite Hv. field. lra.
Qed.

Lemma normalize_pixels_values (ext : Externals) (cfg : Config)
  (px : list (list (list Q))) :
  String.eqb (color_mode cfg) "HSL" = false ->
  concat (concat px) <> [] ->
  exists lo hi,
    In lo (concat (concat px)) /\ In hi (concat (concat px)) /\
    (forall v, In v (concat (concat px)) -> (lo <= v)%Q /\ (v <= hi)%Q) /\
    normalize_pixels ext cfg px
    = Ok (map (map (map (fun v =>
            if Qeq_bool (hi - lo) 0 then (v - lo)%Q
            else ((v - lo) / (hi - lo))%Q))) px).
Proof.
  intros Hmode Hne. unfold normalize_pixels. rewrite Hmode.
  destruct (concat (concat px)) as [|q rest] eqn:Ec; [congruence|].
  destruct (Qlist_max_spec rest q) as [Hmax Hmaxin].
  destruct (Qlist_min_spec rest q) as [Hmin Hminin].
  exists (Qlist_min q rest), (Qlist_max q rest).
  split; [assumption|]. split; [assumption|]. split; [auto|].
  destruct (Qeq_bool (Qlist_max q rest - Qlist_min q rest) 0);
    [reflexivity|].
  f_equal. rewrite map_map. apply map_ext. intros r.
  rewrite map_map. apply map_ext. intros c. rewrite map_map. reflexivity.
Qed.

Lemma normalize_image_values (ext : Externals) (cfg : Config)
  (im : image_t) :
  String.eqb (color_mode cfg) "HSL" = false ->
  pixel_values im <> [] ->
  exists lo hi im',
    normalize_image ext cfg im = Ok im' /\
    In lo (pixel_values im) /\ In hi (pixel_values im) /\
    (forall v, In v (pixel_values im) -> (lo <= v)%Q /\ (v <= hi)%Q) /\
    pixel_values im'
    = map (fun v => if Qeq_bool (hi - lo) 0 then (v - lo)%Q
                    else ((v - lo) / (hi - lo))%Q) (pixel_values im).
Proof.
  intros Hmode Hne. destruct im as [px|px]; cbn [pixel_values] in *.
  - assert (Ec : concat (concat (map (map (fun v : Q => [v])) px))
                 = concat px).
    { rewrite <- concat_map. clear Hne.
      induction (concat px) as [|v l IH]; [reflexivity|].
      cbn. f_equal. exact IH. }
    destruct (normalize_pixels_values ext cfg
                (map (map (fun v => [v])) px) Hmode)
      as [lo [hi [Hlo [Hhi [Hall E]]]]].
    { rewrite Ec. exact Hne. }
    rewrite Ec in Hlo, Hhi, Hall.
    exists lo, hi. eexists. unfold normalize_image. rewrite E.
    split; [reflexivity|]. split; [assumption|]. split; [assumption|].
    split; [assumption|]. cbn [pixel_values].
    rewrite concat_map. f_equal. rewrite !map_map. apply map_ext.
    intros r. rewrite !map_map. reflexivity.
  - destruct (normalize_pixels_values ext cfg px Hmode Hne)
      as [lo [hi [Hlo [Hhi [Hall E]]]]].
    exists lo, hi. eexists. unfold normalize_image. rewrite E.
    split; [reflexivity|]. split; [assumption|]. split; [assumption|].
    split; [assumption|]. cbn [pixel_values]. apply concat_concat_map.
Qed.

(** X16 (normalize_image): for a colour mode other than HSL, normalising a
    non-empty image returns an image with as many values, all between 0
    and 1, one of which is 0; unless the image is constant, one of them
    is 1. *)
Theorem normalize_image_unit_range (ext : Externals) (cfg : Config)
  (im : image_t) :
  color_mode cfg <> "HSL"%string -> pixel_values im <> [] ->
  exists im',
    normalize_image ext cfg im = Ok im' /\
    List.length (pixel_values im') = List.length (pixel_values im) /\
    (forall v, In v (pixel_values im') -> (0 <= v)%Q /\ (v <= 1)%Q) /\
    (exists v, In v (pixel_values im') /\ (v == 0)%Q) /\
    ((exists a b, In a (pixel_values im) /\ In b (pixel_values im) /\
                  ~ (a == b)%Q) ->
     exists v, In v (pixel_values im') /\ (v == 1)%Q).
Proof.
  intros Hmode Hne. apply String.eqb_neq in Hmode.
  destruct (normalize_image_values ext cfg im Hmode Hne)
    as [lo [hi [im' [E [Hlo [Hhi [Hall Ev]]]]]]].
  exists im'. split; [exact E|]. rewrite Ev. split; [apply length_map|].
  split; [|split].
  - intros w Hw. apply in_map_iff in Hw. destruct Hw as [v [<- Hv]].
    destruct (Hall v Hv) as [H1 H2].
    destruct (normalized_value lo hi v H1 H2) as [H3 [H4 _]]. auto.
  - eexists. split; [apply in_map; exact Hlo|].
    destruct (Hall lo Hlo) as [H1 H2].
    apply (normalized_value lo hi lo H1 H2). reflexivity.
  - intros [a [b [Ha [Hb Hab]]]].
    eexists. split; [apply in_map; exact Hhi|].
    destruct (Hall hi Hhi) as [H1 H2].
    apply (normalized_value lo hi hi H1 H2); [|reflexivity].
    destruct (Qeq_bool (hi - lo) 0) eqn:Ez; [|reflexivity].
    apply Qeq_bool_eq in Ez. exfalso. apply Hab.
    destruct (Hall a Ha), (Hall b Hb). lra.
Qed.

(** X16 (witness) *)
Lemma normalize_image_unit_range_witness :
  exists im',
    normalize_image (mkExternals (fun x => x) (fun x => x)) example_config
      (Img2 [[1%Q; 3%Q]; [2%Q; 5%Q]]) = Ok im' /\
    List.length (pixel_values im')
    = List.length (pixel_values (Img2 [[1%Q; 3%Q]; [2%Q; 5%Q]])) /\
    (forall v, In v (pixel_values im') -> (0 <= v)%Q /\ (v <= 1)%Q) /\
    (exists v, In v (pixel_values im') /\ (v == 0)%Q) /\
    ((exists a b, In a (pixel_values (Img2 [[1%Q; 3%Q]; [2%Q; 5%Q]])) /\
                  In b (pixel_values (Img2 [[1%Q; 3%Q]; [2%Q; 5%Q]])) /\
                  ~ (a == b)%Q) ->
     exists v, In v (pixel_values im') /\ (v == 1)%Q).
Proof.
  apply (normalize_image_unit_range (mkExternals (fun x => x) (fun x => x))
           example_config (Img2 [[1%Q; 3%Q]; [2%Q; 5%Q]])).
  - discriminate.
  - discriminate.
Defined.

Lemma at_rest_update_node (k : Z) (f : Node -> Node) (ns : list Node) :
  (forall n, set_state None None (f n) = set_state None None n) ->
  at_rest (update_node k f ns) = at_rest ns.
Proof.
  intros Hf. unfold at_rest, update_node. rewrite map_map.
  apply map_ext. intros n. destruct (id n =? k); [apply Hf|reflexivity].
Qed.

Lemma for_each_keeps {S A B : Type} (view : S -> B) (f : A -> M S unit)
  (l : list A) :
  (forall a s, view (snd (f a s)) = view s) ->
  forall s, view (snd (for_each l f s)) = view s.
Proof.
  intros Hf. induction l as [|a l IH]; intros s; [reflexivity|].
  cbn [for_each]. unfold bind. specialize (Hf a s).
  destruct (f a s) as [[u|e] s1]; cbn [snd] in *.
  - rewrite IH. exact Hf.
  - exact Hf.
Qed.

Lemma accumulate_at_rest (k : Z) (cx : Connection) (ns : list Node) :
  at_rest (snd (accumulate k cx ns)) = at_rest ns.
Proof.
  unfold accumulate, bind, get.
  destruct (find_node ns (fst (key_ cx))) as [src|]; [|reflexivity].
  destruct (find_node ns k) as [self|]; [|reflexivity].
  destruct (outputs src); [|reflexivity].
  destruct (sum_inputs self); [|reflexivity].
  unfold modify. cbn [snd]. apply at_rest_update_node.
  intros n. reflexivity.
Qed.

Lemma activate_at_rest (k : Z) (incoming : list Connection)
  (ns : list Node) :
  at_rest (snd (activate k incoming ns)) = at_rest ns.
Proof.
  unfold activate. unfold bind at 1.
  assert (H := for_each_keeps at_rest (accumulate k) incoming
                 (accumulate_at_rest k) ns).
  destruct (for_each incoming (accumulate k) ns) as [[u|e] ns1];
    cbn [snd] in *; [|exact H].
  unfold bind, get.
  destruct (find_node ns1 k) as [self|]; [|exact H].
  destruct (sum_inputs self); [|exact H].
  unfold modify. cbn [snd]. rewrite at_rest_update_node; [exact H|].
  intros n. reflexivity.
Qed.

Lemma parallel_node_step_at_rest (g : CPPN) (p : option PixelInputs)
  (entry : nat * Z) (ns : list Node) :
  at_rest (snd (parallel_node_step g p entry ns)) = at_rest ns.
Proof.
  unfold parallel_node_step. unfold bind at 1, get at 1.
  destruct (find_node ns (snd entry)) as [node|]; [|reflexivity].
  unfold bind at 1.
  assert (Hstart : forall t : tensor,
            at_rest (snd (bind (modify (update_node (id node)
                                   (set_sum_inputs (Some t))))
                            (fun _ => activate (id node)
                                        (get_incoming_connections g node))
                            ns))
            = at_rest ns).
  { intros t. unfold bind, modify. rewrite activate_at_rest.
    apply at_rest_update_node. intros n. reflexivity. }
  destruct (NodeType_eqb (type node) INPUT).
  - destruct p as [p|]; [|reflexivity].
    unfold lift_result. destruct (feature_plane p (fst entry)) as [t|e];
      [apply Hstart | reflexivity].
  - unfold ret. apply Hstart.
Qed.

Lemma at_rest_statics (P S : list Node) :
  at_rest P = at_rest S -> statics P = statics S.
Proof.
  unfold at_rest, statics. intros H.
  apply (f_equal (map (fun n => (id n, type n, activation n)))) in H.
  rewrite !map_map in H. exact H.
Qed.

Lemma at_rest_reset (h : option tensor) (P S : list Node) :
  at_rest P = at_rest S -> map (set_state h h) P = map (set_state h h) S.
Proof.
  unfold at_rest. intros H.
  apply (f_equal (map (set_state h h))) in H.
  rewrite !map_map in H. exact H.
Qed.

Lemma map_m_outputs_reads (l : list Node) :
  exists r : result (list tensor),
    forall s : CPPN,
      map_m (fun node => match outputs node with
                         | Some o => ret o
                         | None => raise TypeError
                         end) l s = (r, s).
Proof.
  induction l as [|n l [r IH]].
  - exists (Ok []). reflexivity.
  - cbn [map_m]. destruct (outputs n) as [o|].
    + destruct r as [ts|e].
      * exists (Ok (o :: ts)). intros s. unfold bind, ret at 1.
        rewrite IH. reflexivity.
      * exists (Raise e). intros s. unfold bind, ret at 1.
        rewrite IH. reflexivity.
    + exists (Raise TypeError). reflexivity.
Qed.

(** [stack_outputs] reads the nodes and writes nothing. *)
Lemma stack_outputs_reads (ns : list Node) :
  exists r : result (list tensor),
    forall s : CPPN, node_genome s = ns -> stack_outputs s = (r, s).
Proof.
  destruct (map_m_outputs_reads
              (filter (fun n => NodeType_eqb (type n) OUTPUT) ns))
    as [r Hr].
  destruct (filter (fun n => NodeType_eqb (type n) OUTPUT) ns)
    as [|o os] eqn:Eo.
  - exists (Raise RuntimeError). intros s <-.
    unfold stack_outputs, bind, get, output_nodes. rewrite Eo. reflexivity.
  - exists r. intros s <-.
    unfold stack_outputs, bind, get, output_nodes. rewrite Eo. apply Hr.
Qed.

(** The feature array after the check at the head of
    [get_image_data_parallel]: once it has passed, it passes again and
    leaves the array alone. *)
Lemma pixel_inputs_checked (ext : Externals) (cfg : Config) (n : nat)
  (g g' : CPPN) (gl gl1 : Globals) :
  (match pixel_inputs gl with
   | Some p =>
       if Nat.eqb (fst (fst (pi_shape p))) (res_h cfg) &&
          Nat.eqb (snd (fst (pi_shape p))) (res_w cfg)
       then ret tt
       else lift_glob (initialize_inputs ext cfg n)
   | None => lift_glob (initialize_inputs ext cfg n)
   end) (g, gl) = (Ok tt, (g', gl1)) ->
  g' = g /\
  forall g2 : CPPN,
    (match pixel_inputs gl1 with
     | Some p =>
         if Nat.eqb (fst (fst (pi_shape p))) (res_h cfg) &&
            Nat.eqb (snd (fst (pi_shape p))) (res_w cfg)
         then ret tt
         else lift_glob (initialize_inputs ext cfg n)
     | None => lift_glob (initialize_inputs ext cfg n)
     end) (g2, gl1) = (Ok tt, (g2, gl1)).
Proof.
  assert (Hinit : lift_glob (initialize_inputs ext cfg n) (g, gl)
                  = (Ok tt, (g', gl1)) ->
                  g' = g /\
                  pixel_inputs gl1
                  = Some (mkPixelInputs (res_h cfg, res_w cfg, n)
                            (map (fun y => map (fun x => features ext cfg y x)
                                             (linspace (res_w cfg)))
                               (linspace (res_h cfg))))).
  { unfold lift_glob, initialize_inputs. cbn [fst snd].
    destruct (forallb _ _); [|discriminate].
    intros E. injection E as <- <-. split; reflexivity. }
  assert (Hdone : forall p, pixel_inputs gl1 = Some p ->
            Nat.eqb (fst (fst (pi_shape p))) (res_h cfg) &&
            Nat.eqb (snd (fst (pi_shape p))) (res_w cfg) = true ->
            forall g2 : CPPN,
              (match pixel_inputs gl1 with
               | Some p =>
                   if Nat.eqb (fst (fst (pi_shape p))) (res_h cfg) &&
                      Nat.eqb (snd (fst (pi_shape p))) (res_w cfg)
                   then ret tt
                   else lift_glob (initialize_inputs ext cfg n)
               | None => lift_glob (initialize_inputs ext cfg n)
               end) (g2, gl1) = (Ok tt, (g2, gl1))).
  { intros p Ep Es g2. rewrite Ep, Es. reflexivity. }
  assert (Hfresh : lift_glob (initialize_inputs ext cfg n) (g, gl)
                   = (Ok tt, (g', gl1)) ->
                   g' = g /\
                   forall g2 : CPPN,
                     (match pixel_inputs gl1 with
                      | Some p =>
                          if Nat.eqb (fst (fst (pi_shape p))) (res_h cfg) &&
                             Nat.eqb (snd (fst (pi_shape p))) (res_w cfg)
                          then ret tt
                          else lift_glob (initialize_inputs ext cfg n)
                      | None => lift_glob (initialize_inputs ext cfg n)
                      end) (g2, gl1) = (Ok tt, (g2, gl1))).
  { intros E. destruct (Hinit E) as [Eg Ep]. split; [exact Eg|].
    apply (Hdone _ Ep). cbn [pi_shape fst snd]. rewrite !Nat.eqb_refl.
    reflexivity. }
  destruct (pixel_inputs gl) as [p|] eqn:Ep; [|exact Hfresh].
  destruct (Nat.eqb _ _ && Nat.eqb _ _) eqn:Es; [|exact Hfresh].
  unfold ret. intros E. injection E as <- <-. split; [reflexivity|].
  apply (Hdone p Ep Es).
Qed.

(** A second run of the parallel evaluation *)
Lemma get_image_data_parallel_again (ext : Externals) (st st1 : St)
  (im : image_t) :
  get_image_data_parallel ext st = (Ok im, st1) ->
  get_image_data_parallel ext st1 = (Ok im, st1) /\
  image (fst st1) = Some im /\ config (fst st1) = config (fst st).
Proof.
  destruct st as [g gl]. intros H.
  unfold get_image_data_parallel in H.
  unfold bind at 1, get_self at 1 in H. cbn [fst snd] in H.
  unfold bind at 1, lift_glob at 1, get at 1 in H. cbn [fst snd] in H.
  unfold bind at 1 in H.
  match type of H with
  | (let (_, _) := ?c in _) = _ =>
      destruct c as [[[]|e0] [g0 gl1]] eqn:Ecache; [|discriminate]
  end.
  destruct (pixel_inputs_checked ext _ _ _ _ _ _ Ecache) as [-> Hagain].
  unfold bind at 1, modify_self at 1 in H. cbn [fst snd] in H.
  unfold bind at 1, lift_glob at 1, get at 1 in H. cbn [fst snd] in H.
  unfold bind at 1, lift_self at 1, lift_nodes at 1 in H. cbn [fst snd] in H.
  destruct (for_each (evaluation_order g)
              (parallel_node_step g (pixel_inputs gl1))
              (node_genome (reset_activations g)))
    as [[[]|e1] P2] eqn:Epass; [|discriminate].
  assert (Hrest : at_rest P2 = at_rest (node_genome (reset_activations g))).
  { rewrite <- (for_each_keeps at_rest
                  (parallel_node_step g (pixel_inputs gl1))
                  (evaluation_order g)
                  (parallel_node_step_at_rest g (pixel_inputs gl1))
                  (node_genome (reset_activations g))).
    rewrite Epass. reflexivity. }
  destruct (stack_outputs_reads P2) as [r Hr].
  unfold bind at 1, lift_self at 1 in H. cbn [fst snd] in H.
  rewrite (Hr (set_node_genome P2 (reset_activations g)) eq_refl) in H.
  destruct r as [outs|e2]; [|discriminate].
  unfold bind at 1, lift_result at 1 in H.
  destruct (image_of_planes (config g)
              (map (fun t => grid_of t (res_h (config g)) (res_w (config g)))
                 outs)) as [im0|e3] eqn:Eim; [|discriminate].
  unfold bind at 1, modify_self at 1 in H. cbn [fst snd] in H.
  set (gA := set_node_genome P2 (reset_activations g)) in *.
  assert (Hsecond : forall i,
            get_image_data_parallel ext (set_image i gA, gl1)
            = (if normalize_outputs (config g)
               then
                 bind (lift_result (normalize_image ext (config g) im0))
                   (fun im' =>
                      bind (modify_self (set_image (Some im')))
                        (fun _ => ret im'))
               else ret im0) (set_image (Some im0) gA, gl1)).
  { intros i. unfold get_image_data_parallel.
    unfold bind at 1, get_self at 1. cbn [fst snd].
    unfold bind at 1, lift_glob at 1, get at 1. cbn [fst snd].
    unfold bind at 1.
    change (config (set_image i gA)) with (config g).
    change (n_inputs (set_image i gA)) with (n_inputs g).
    rewrite (Hagain (set_image i gA)).
    unfold bind at 1, modify_self at 1. cbn [fst snd].
    unfold bind at 1, lift_glob at 1, get at 1. cbn [fst snd].
    unfold bind at 1, lift_self at 1, lift_nodes at 1. cbn [fst snd].
    change (parallel_node_step (set_image i gA) (pixel_inputs gl1))
      with (parallel_node_step g (pixel_inputs gl1)).
    assert (Est : statics (node_genome (set_image i gA))
                  = statics (node_genome g)).
    { change (node_genome (set_image i gA)) with P2.
      rewrite (at_rest_statics _ _ Hrest). apply statics_reset. }
    destruct (statics_types (set_image i gA) g Est eq_refl)
      as [_ [_ [_ ->]]].
    assert (Ens : node_genome (reset_activations (set_image i gA))
                  = node_genome (reset_activations g)).
    { unfold reset_activations at 1. cbn [node_genome set_node_genome].
      change (node_genome (set_image i gA)) with P2.
      change (config (set_image i gA)) with (config g).
      rewrite (at_rest_reset _ _ _ Hrest).
      unfold reset_activations. cbn [node_genome set_node_genome].
      rewrite map_map. reflexivity. }
    rewrite Ens, Epass.
    unfold bind at 1, lift_self at 1. cbn [fst snd].
    rewrite (Hr (set_node_genome P2 (reset_activations (set_image i gA)))
               eq_refl).
    unfold bind at 1, lift_result at 1. rewrite Eim.
    unfold bind at 1, modify_self at 1. cbn [fst snd].
    reflexivity. }
  assert (Hst : st1 = (set_image (Some im) gA, gl1)).
  { destruct (normalize_outputs (config g)).
    - unfold bind at 1, lift_result at 1 in H.
      destruct (normalize_image ext (config g) im0) as [im'|e4];
        [|discriminate].
      unfold bind, modify_self, ret in H. cbn [fst snd] in H.
      injection H as <- <-. reflexivity.
    - unfold ret in H. injection H as <- <-. reflexivity. }
  split; [|rewrite Hst; split; reflexivity].
  rewrite Hst at 1. rewrite Hsecond. exact H.
Qed.

(** X17 (get_image_data_parallel): when the parallel evaluation returns an
    image, evaluating again from the state it has left returns the same
    image and leaves that state as it is; what an evaluation leaves in the
    nodes, in the image and in the feature array of the class does not
    change the next one. *)
Theorem get_image_data_parallel_repeatable (ext : Externals) (st st1 : St)
  (im : image_t) :
  get_image_data_parallel ext st = (Ok im, st1) ->
  get_image_data_parallel ext st1 = (Ok im, st1).
Proof.
  intros H. apply (get_image_data_parallel_again ext st st1 im H).
Qed.

(** X17 (witness) *)
Lemma get_image_data_parallel_repeatable_witness :
  exists im st1,
    get_image_data_parallel (mkExternals (fun x => x) (fun x => x))
      (normalizing_genome, example_globals []) = (Ok im, st1) /\
    get_image_data_parallel (mkExternals (fun x => x) (fun x => x)) st1
    = (Ok im, st1).
Proof.
  eexists. eexists. split.
  - vm_compute. reflexivity.
  - apply (get_image_data_parallel_repeatable
             (mkExternals (fun x => x) (fun x => x))
             (normalizing_genome, example_globals [])).
    vm_compute. reflexivity.
Defined.

Lemma set_res_same (cfg : Config) : set_res (res_h cfg) (res_w cfg) cfg = cfg.
Proof. destruct cfg; reflexivity. Qed.

Lemma set_config_same (g : CPPN) : set_config (config g) g = g.
Proof. destruct g; reflexivity. Qed.

Lemma set_image_same (g : CPPN) : set_image (image g) g = g.
Proof. destruct g; reflexivity. Qed.

(** X19 (get_image): for a genome without recurrence and without size
    overrides, a call that returns an image can be repeated: the next call
    with the same arguments returns the same image and leaves the state as
    the first call left it. *)
Theorem get_image_repeatable (ext : Externals) (force_recalculate : bool)
  (st st1 : St) (im : image_t) :
  allow_recurrent (config (fst st)) = false ->
  get_image ext false force_recalculate None None st = (Ok im, st1) ->
  get_image ext false force_recalculate None None st1 = (Ok im, st1).
Proof.
  destruct st as [g gl]. cbn [fst]. intros Hrec H.
  assert (Hrecalc : forall g0 gl0 im0 st0,
            allow_recurrent (config g0) = false ->
            recalculated ext (g0, gl0) = (Ok im0, st0) ->
            recalculated ext st0 = (Ok im0, st0) /\
            image (fst st0) = Some im0 /\ config (fst st0) = config g0).
  { intros g0 gl0 im0 st0 Hr0 E. unfold recalculated in E.
    unfold bind at 1, get_self at 1 in E. cbn [fst snd] in E.
    rewrite Hr0 in E. unfold bind at 1 in E.
    destruct (get_image_data_parallel ext (g0, gl0)) as [[im1|e] [g1 gl1]]
      eqn:Ep; [|discriminate].
    destruct (get_image_data_parallel_again ext _ _ _ Ep)
      as [Ep' [Hi Hc]]. cbn [fst] in Hi, Hc.
    unfold bind, modify_self, ret in E. cbn [fst snd] in E.
    injection E as <- <-.
    assert (Eg : set_image (Some im1) g1 = g1)
      by (rewrite <- Hi; apply set_image_same).
    rewrite Eg. split; [|split; [exact Hi | exact Hc]].
    unfold recalculated. unfold bind at 1, get_self at 1. cbn [fst snd].
    rewrite Hc, Hr0. unfold bind at 1. rewrite Ep'.
    unfold bind, modify_self, ret. cbn [fst snd].
    rewrite Eg. reflexivity. }
  assert (Hstart : forall g0 gl0,
            get_image ext false force_recalculate None None (g0, gl0)
            = match image g0 with
              | Some im0 =>
                  if force_recalculate
                     || Nat.eqb (res_h (config g0)) (fst (image_shape im0))
                     || Nat.eqb (res_w (config g0)) (snd (image_shape im0))
                  then recalculated ext (g0, gl0)
                  else (Ok im0, (g0, gl0))
              | None => recalculated ext (g0, gl0)
              end).
  { intros g0 gl0. unfold get_image.
    unfold bind at 1, modify_self at 1. cbn [fst snd].
    unfold overridden. rewrite set_res_same, set_config_same.
    unfold bind at 1, get_self at 1. cbn [fst snd].
    destruct (image g0) as [im0|]; [|reflexivity].
    destruct (force_recalculate || _ || _); reflexivity. }
  rewrite Hstart in H.
  assert (Hdone : forall st0,
            recalculated ext (g, gl) = (Ok im, st0) ->
            get_image ext false force_recalculate None None st0
            = (Ok im, st0)).
  { intros [g1 gl1] E. destruct (Hrecalc _ _ _ _ Hrec E) as [E' [Hi Hc]].
    cbn [fst] in Hi, Hc. rewrite Hstart, Hi.
    destruct (force_recalculate || _ || _); [exact E' | reflexivity]. }
  destruct (image g) as [im0|] eqn:Him; [|apply Hdone; exact H].
  destruct (force_recalculate || _ || _) eqn:Er; [apply Hdone; exact H|].
  injection H as <- <-. rewrite Hstart, Him, Er. reflexivity.
Qed.

(** X19 (witness) *)
Lemma get_image_repeatable_witness :
  exists im st1,
    get_image (mkExternals (fun x => x) (fun x => x)) false false None None
      (normalizing_genome, example_globals []) = (Ok im, st1) /\
    get_image (mkExternals (fun x => x) (fun x => x)) false false None None
      st1 = (Ok im, st1).
Proof.
  eexists. eexists. split.
  - vm_compute. reflexivity.
  - apply (get_image_repeatable (mkExternals (fun x => x) (fun x => x))
             false (normalizing_genome, example_globals [])).
    + reflexivity.
    + vm_compute. reflexivity.
Defined.

Lemma scheduled_between (end_mod t p : Q) :
  (0 <= end_mod)%Q -> (end_mod <= 1)%Q -> (0 <= t)%Q -> (t <= 1)%Q ->
  (0 <= p)%Q ->
  (end_mod * p <= scheduled end_mod t p)%Q /\ (scheduled end_mod t p <= p)%Q.
Proof.
  intros H0 H1 Ht0 Ht1 Hp. unfold scheduled.
  assert (Hd : (0 <= p - end_mod * p)%Q) by nra.
  split; nra.
Qed.

Lemma run_progress_unit (gen n : Z) :
  0 <= gen <= n -> 0 < n ->
  (0 <= inject_Z gen / inject_Z n)%Q /\ (inject_Z gen / inject_Z n <= 1)%Q.
Proof.
  intros Hg Hn.
  assert (Hpos : (0 < inject_Z n)%Q).
  { change 0%Q with (inject_Z 0). rewrite <- Zlt_Qlt. exact Hn. }
  split.
  - apply Qle_shift_div_l; [exact Hpos|]. rewrite Qmult_0_l.
    change 0%Q with (inject_Z 0). rewrite <- Zle_Qle. lia.
  - apply Qle_shift_div_r; [exact Hpos|]. rewrite Qmult_1_l.
    rewrite <- Zle_Qle. lia.
Qed.

(** The scheduled rates stay between 0 and the configured rates. *)
Lemma scheduled_rates_within (cfg : Config) (sch : Schedule)
  (gen : Z) :
  use_dynamic_mutation_rates sch = true ->
  0 < num_generations sch -> 0 <= gen <= num_generations sch ->
  (0 <= dynamic_mutation_rate_end_modifier sch)%Q ->
  (dynamic_mutation_rate_end_modifier sch <= 1)%Q ->
  Forall (fun p => 0 <= p)%Q (rates_list (config_rates cfg)) ->
  exists rs,
    get_mutation_rates cfg sch gen = Value rs /\
    Forall2 (fun p r =>
               (0 <= r)%Q /\ (r <= p)%Q /\ (gen = 0 -> (r == p)%Q))
      (rates_list (config_rates cfg)) (rates_list rs).
Proof.
  intros Hdyn Hn Hgen H0 H1 Hp.
  unfold get_mutation_rates. rewrite Hdyn.
  destruct (Z.eqb_spec (num_generations sch) 0) as [E|_]; [lia|].
  eexists. split; [reflexivity|].
  destruct (run_progress_unit gen (num_generations sch) Hgen Hn)
    as [Ht0 Ht1].
  assert (Hone : forall p, (0 <= p)%Q ->
            let r := scheduled (dynamic_mutation_rate_end_modifier sch)
                       (inject_Z gen / inject_Z (num_generations sch)) p in
            (0 <= r)%Q /\ (r <= p)%Q /\ (gen = 0 -> (r == p)%Q)).
  { intros p Hp0. cbv zeta.
    destruct (scheduled_between _ _ p H0 H1 Ht0 Ht1 Hp0) as [Ha Hb].
    split; [|split; [exact Hb|]].
    - eapply Qle_trans; [|exact Ha].
      apply Qmult_le_0_compat; assumption.
    - intros ->. unfold scheduled.
      assert (Ez : (inject_Z 0 / inject_Z (num_generations sch) == 0)%Q).
      { unfold Qdiv. change (inject_Z 0) with 0%Q. apply Qmult_0_l. }
      rewrite Ez. ring. }
  unfold rates_list, config_rates in *. cbn [r_mutate_activations
    r_mutate_weights r_add_connection r_add_node r_remove_node
    r_disable_connection r_weight_mutation_max r_prob_reenable_connection]
    in *.
  repeat match goal with
         | H : Forall _ (_ :: _) |- _ => inversion H; clear H; subst
         end.
  repeat (constructor; [apply Hone; assumption|]). constructor.
Qed.

(** X20 (get_mutation_rates): without a schedule the rates are those of
    the configuration, whatever the generation, and a schedule over zero
    generations divides by zero.  Under a schedule of [n > 0] generations
    with an end modifier between 0 and 1, in a generation from 0 to [n]
    no rate is negative and none exceeds the configured rate, which it
    equals in generation 0. *)
Theorem get_mutation_rates_schedule (cfg : Config) (sch : Schedule)
  (gen : Z) :
  (use_dynamic_mutation_rates sch = false ->
   get_mutation_rates cfg sch gen = Value (config_rates cfg)) /\
  (use_dynamic_mutation_rates sch = true -> num_generations sch = 0 ->
   get_mutation_rates cfg sch gen = ZeroDivisionError) /\
  (use_dynamic_mutation_rates sch = true ->
   0 < num_generations sch -> 0 <= gen <= num_generations sch ->
   (0 <= dynamic_mutation_rate_end_modifier sch)%Q ->
   (dynamic_mutation_rate_end_modifier sch <= 1)%Q ->
   Forall (fun p => 0 <= p)%Q (rates_list (config_rates cfg)) ->
   exists rs,
     get_mutation_rates cfg sch gen = Value rs /\
     Forall2 (fun p r =>
                (0 <= r)%Q /\ (r <= p)%Q /\ (gen = 0 -> (r == p)%Q))
       (rates_list (config_rates cfg)) (rates_list rs)).
Proof.
  split; [|split].
  - unfold get_mutation_rates. intros ->. reflexivity.
  - unfold get_mutation_rates. intros -> ->. reflexivity.
  - apply scheduled_rates_within.
Qed.

(** X20 (witness) *)
Lemma get_mutation_rates_schedule_witness :
  exists rs,
    get_mutation_rates example_config (mkSchedule true 10 (1 # 2)) 5
    = Value rs /\
    Forall2 (fun p r =>
               (0 <= r)%Q /\ (r <= p)%Q /\ (5 = 0 -> (r == p)%Q))
      (rates_list (config_rates example_config)) (rates_list rs).
Proof.
  apply (proj2 (proj2 (get_mutation_rates_schedule example_config
                         (mkSchedule true 10 (1 # 2)) 5))).
  - reflexivity.
  - reflexivity.
  - cbn. lia.
  - discriminate.
  - discriminate.
  - repeat constructor; discriminate.
Defined.

Lemma insert_by_novelty_perm (x : CPPN) (l : list CPPN) :
  Permutation (x :: l) (insert_by_novelty x l).
Proof.
  induction l as [|d l IH]; [apply Permutation_refl|].
  cbn [insert_by_novelty]. destruct (Qltb (novelty x) (novelty d)).
  - eapply perm_trans; [apply perm_swap|]. apply perm_skip. exact IH.
  - apply Permutation_refl.
Qed.

Lemma sorted_by_novelty_perm (l : list CPPN) :
  Permutation l (sorted_by_novelty l).
Proof.
  induction l as [|x l IH]; [apply Permutation_refl|].
  cbn [sorted_by_novelty fold_right].
  eapply perm_trans; [apply perm_skip; exact IH|].
  apply insert_by_novelty_perm.
Qed.

Lemma insert_by_novelty_sorted (x : CPPN) (l : list CPPN) :
  StronglySorted (fun a b => (novelty b <= novelty a)%Q) l ->
  StronglySorted (fun a b => (novelty b <= novelty a)%Q)
    (insert_by_novelty x l).
Proof.
  induction 1 as [|d l Hs IH Hd]; [repeat constructor|].
  cbn [insert_by_novelty]. destruct (Qltb (novelty x) (novelty d)) eqn:E.
  - constructor; [exact IH|].
    apply Qltb_lt in E. rewrite Forall_forall in *. intros y Hy.
    apply (Permutation_in _ (Permutation_sym (insert_by_novelty_perm x l)))
      in Hy.
    destruct Hy as [<-|Hy]; [apply Qlt_le_weak; exact E | apply Hd; exact Hy].
  - apply Qltb_ge in E. constructor; [constructor; assumption|].
    constructor; [exact E|].
    rewrite Forall_forall in *. intros y Hy.
    eapply Qle_trans; [apply Hd; exact Hy | exact E].
Qed.

Lemma sorted_by_novelty_sorted (l : list CPPN) :
  StronglySorted (fun a b => (novelty b <= novelty a)%Q)
    (sorted_by_novelty l).
Proof.
  induction l as [|x l IH]; [constructor|].
  cbn [sorted_by_novelty fold_right]. apply insert_by_novelty_sorted.
  exact IH.
Qed.

Lemma sorted_last_least (l : list CPPN) (least : CPPN) :
  StronglySorted (fun a b => (novelty b <= novelty a)%Q) (l ++ [least]) ->
  forall y, In y l -> (novelty least <= novelty y)%Q.
Proof.
  induction l as [|d l IH]; intros Hs y Hy; [contradiction|].
  cbn [app] in Hs. inversion Hs as [|? ? Hs' Hd]; subst.
  destruct Hy as [<-|Hy].
  - rewrite Forall_forall in Hd. apply Hd. apply in_or_app. right.
    left. reflexivity.
  - apply IH; assumption.
Qed.

(** X21 (update_solution_archive): on an empty archive with a maximal
    length of 0 or less the call raises an index error.  For a positive
    maximal length and an archive within it, the call returns an archive
    within it, made of the genome and of former members; a former member
    is dropped only if it is less novel than the genome and no more novel
    than any member kept. *)
Theorem update_solution_archive_bounded (solution_archive : list CPPN)
  (genome : CPPN) (max_archive_length novelty_k : Z) :
  (solution_archive = [] -> max_archive_length <= 0 ->
   update_solution_archive solution_archive genome max_archive_length
     novelty_k = Raise IndexError) /\
  (0 < max_archive_length ->
   Z.of_nat (List.length solution_archive) <= max_archive_length ->
   exists archive,
     update_solution_archive solution_archive genome max_archive_length
       novelty_k = Ok archive /\
     Z.of_nat (List.length archive) <= max_archive_length /\
     (forall x, In x archive -> x = genome \/ In x solution_archive) /\
     (forall x, In x solution_archive ->
        In x archive \/
        ((novelty x < novelty genome)%Q /\
         forall y, In y archive -> (novelty x <= novelty y)%Q))).
Proof.
  unfold update_solution_archive. split.
  - intros -> Hmax. cbn [sorted_by_novelty fold_right List.length rev].
    destruct (Z.leb_spec max_archive_length (Z.of_nat 0)); [reflexivity|].
    cbn in *. lia.
  - intros Hpos Hlen.
    assert (Hperm := sorted_by_novelty_perm solution_archive).
    assert (Hsorted := sorted_by_novelty_sorted solution_archive).
    assert (Hl := Permutation_length Hperm).
    set (sorted := sorted_by_novelty solution_archive) in *.
    destruct (Z.leb_spec max_archive_length (Z.of_nat (List.length sorted)))
      as [Hfull|Hroom].
    + destruct (rev sorted) as [|least front] eqn:Er.
      * apply (f_equal (@List.length CPPN)) in Er.
        rewrite length_rev in Er. cbn in Er. lia.
      * assert (Es : sorted = rev front ++ [least]).
        { rewrite <- (rev_involutive sorted), Er. reflexivity. }
        destruct (Qltb (novelty least) (novelty genome)) eqn:Eq.
        -- apply Qltb_lt in Eq. eexists. split; [reflexivity|].
           rewrite Es, removelast_last. rewrite Es in Hsorted.
           assert (Hleast := sorted_last_least _ _ Hsorted).
           split; [|split].
           ++ rewrite length_app. rewrite Es, length_app in Hl.
              cbn [List.length] in *. lia.
           ++ intros x Hx. apply in_app_or in Hx.
              destruct Hx as [Hx|[<-|[]]]; [|left; reflexivity].
              right. apply (Permutation_in _ (Permutation_sym Hperm)).
              rewrite Es. apply in_or_app. left. exact Hx.
           ++ intros x Hx. apply (Permutation_in _ Hperm) in Hx.
              rewrite Es in Hx. apply in_app_or in Hx.
              destruct Hx as [Hx|[<-|[]]].
              ** left. apply in_or_app. left. exact Hx.
              ** right. split; [exact Eq|]. intros y Hy.
                 apply in_app_or in Hy. destruct Hy as [Hy|[<-|[]]].
                 --- apply Hleast. exact Hy.
                 --- apply Qlt_le_weak. exact Eq.
        -- eexists. split; [reflexivity|]. split; [lia|]. split.
           ++ intros x Hx. right.
              apply (Permutation_in _ (Permutation_sym Hperm)). exact Hx.
           ++ intros x Hx. left. apply (Permutation_in _ Hperm). exact Hx.
    + eexists. split; [reflexivity|]. split; [|split].
      * rewrite length_app. cbn [List.length]. lia.
      * intros x Hx. apply in_app_or in Hx.
        destruct Hx as [Hx|[<-|[]]]; [|left; reflexivity].
        right. apply (Permutation_in _ (Permutation_sym Hperm)). exact Hx.
      * intros x Hx. left. apply in_or_app. left.
        apply (Permutation_in _ Hperm). exact Hx.
Qed.

Lemma fold_best_spec (rest : list CPPN) (x : CPPN) :
  let best := fold_left (fun best y =>
                           if Qltb (fitness best) (fitness y) then y
                           else best) rest x in
  In best (x :: rest) /\
  forall y, In y (x :: rest) -> (fitness y <= fitness best)%Q.
Proof.
  revert x. induction rest as [|z rest IH]; intros x; cbv zeta.
  - cbn. split; [auto|]. intros y [<-|[]]. apply Qle_refl.
  - cbn [fold_left].
    destruct (IH (if Qltb (fitness x) (fitness z) then z else x))
      as [Hin Hmax]. cbv zeta in Hin, Hmax. split.
    + destruct Hin as [Hin|Hin]; [|right; right; exact Hin].
      rewrite <- Hin.
      destruct (Qltb (fitness x) (fitness z)); [right; left|left];
        reflexivity.
    + intros y [E|[E|Hy]].
      * subst y. destruct (Qltb (fitness x) (fitness z)) eqn:Eq.
        -- apply Qltb_lt in Eq.
           eapply Qle_trans; [apply Qlt_le_weak; exact Eq|].
           apply Hmax. left. reflexivity.
        -- apply Hmax. left. reflexivity.
      * subst y. destruct (Qltb (fitness x) (fitness z)) eqn:Eq.
        -- apply Hmax. left. reflexivity.
        -- apply Qltb_ge in Eq. eapply Qle_trans; [exact Eq|].
           apply Hmax. left. reflexivity.
      * apply Hmax. right. exact Hy.
Qed.

(** X22 (get_best): it returns nothing exactly for an empty population, and
    otherwise a member of the population that no member exceeds in
    fitness. *)
Theorem get_best_fittest (population : list CPPN) :
  (get_best population = None <-> population = []) /\
  forall best, get_best population = Some best ->
    In best population /\
    forall y, In y population -> (fitness y <= fitness best)%Q.
Proof.
  destruct population as [|x rest]; cbn [get_best].
  - split; [tauto|]. discriminate.
  - split; [split; discriminate|].
    intros best E. injection E as <-. apply fold_best_spec.
Qed.

Lemma append_to_layer_spec (k : Z) (node : Node)
  (layers : list (Z * list Node)) :
  NoDup (map fst layers) ->
  NoDup (map fst (append_to_layer k node layers)) /\
  (forall j, In j (map fst (append_to_layer k node layers)) <->
             j = k \/ In j (map fst layers)) /\
  forall j ns, In (j, ns) (append_to_layer k node layers) <->
    (j <> k /\ In (j, ns) layers) \/
    (j = k /\ exists old, ns = old ++ [node] /\
                (In (k, old) layers \/
                 (old = [] /\ ~ In k (map fst layers)))).
Proof.
  induction layers as [|[k' ms] rest IH]; intros Hnd.
  - cbn. split; [repeat constructor; intros []|]. split.
    + intros j. split; [intros [<-|[]]; auto | intros [->|[]]; auto].
    + intros j ns. split.
      * intros [E|[]]. injection E as <- <-. right. split; [reflexivity|].
        exists []. split; [reflexivity|]. right. tauto.
      * intros [[_ []]|[-> [old [-> [[]|[-> _]]]]]]. left. reflexivity.
  - cbn [map fst] in Hnd. inversion Hnd as [|? ? Hk' Hnd']; subst.
    destruct (IH Hnd') as [IH1 [IH2 IH3]].
    cbn [append_to_layer]. destruct (Z.eqb_spec k' k) as [->|Hne].
    + cbn [map fst]. split; [exact Hnd|]. split.
      * intros j. cbn [In]. intuition congruence.
      * intros j ns. cbn [In]. split.
        -- intros [E|H].
           ++ injection E as <- <-. right. split; [reflexivity|].
              exists ms. split; [reflexivity|]. left. left. reflexivity.
           ++ left. split; [|right; exact H]. intros ->. apply Hk'.
              apply (in_map fst) in H. exact H.
        -- intros [[Hj [E|H]]|[-> [old [-> [[E|H]|[_ H]]]]]].
           ++ injection E as E _. congruence.
           ++ right. exact H.
           ++ injection E as <-. left. reflexivity.
           ++ exfalso. apply Hk'. apply (in_map fst) in H. exact H.
           ++ exfalso. apply H. left. reflexivity.
    + cbn [map fst]. split; [|split].
      * constructor; [|exact IH1]. rewrite IH2. intros [E|H]; auto.
      * intros j. cbn [In]. rewrite IH2. intuition congruence.
      * intros j ns. cbn [In]. rewrite IH3. split.
        -- intros [E|[[Hj H]|[-> [old [-> [H|[-> H]]]]]]].
           ++ injection E as <- <-. left. split; [exact Hne|]. left.
              reflexivity.
           ++ left. split; [exact Hj|]. right. exact H.
           ++ right. split; [reflexivity|]. exists old.
              split; [reflexivity|]. left. right. exact H.
           ++ right. split; [reflexivity|]. exists [].
              split; [reflexivity|]. right. split; [reflexivity|].
              intros [E|H']; auto.
        -- intros [[Hj [E|H]]|[-> [old [-> [[E|H]|[-> H]]]]]].
           ++ left. exact E.
           ++ right. left. split; assumption.
           ++ injection E as E _. congruence.
           ++ right. right. split; [reflexivity|]. exists old.
              split; [reflexivity|]. left. exact H.
           ++ right. right. split; [reflexivity|]. exists [].
              split; [reflexivity|]. right. split; [reflexivity|].
              intros H'. apply H. right. exact H'.
Qed.

(** What the loop of [get_layers] has built after the nodes [ns] *)
Lemma get_layers_loop (ns : list Node) :
  forall acc seen,
    NoDup (map fst acc) ->
    (forall j ms, In (j, ms) acc <->
       In j (map layer seen) /\
       ms = filter (fun node => layer node =? j) seen) ->
    let layers :=
      fold_left (fun layers node => append_to_layer (layer node) node layers)
        ns acc in
    NoDup (map fst layers) /\
    forall j ms, In (j, ms) layers <->
      In j (map layer (seen ++ ns)) /\
      ms = filter (fun node => layer node =? j) (seen ++ ns).
Proof.
  induction ns as [|n ns IH]; intros acc seen Hnd Hacc; cbv zeta.
  - cbn [fold_left]. rewrite app_nil_r. split; assumption.
  - cbn [fold_left].
    destruct (append_to_layer_spec (layer n) n acc Hnd) as [H1 [H2 H3]].
    replace (seen ++ n :: ns) with ((seen ++ [n]) ++ ns)
      by (rewrite <- app_assoc; reflexivity).
    apply IH; [exact H1|].
    intros j ms. rewrite H3, map_app, in_app_iff, filter_app.
    cbn [map filter In]. split.
    + intros [[Hj H]|[-> [old [-> [H|[-> H]]]]]].
      * apply Hacc in H. destruct H as [Hin ->]. split; [left; exact Hin|].
        destruct (Z.eqb_spec (layer n) j) as [E|_]; [congruence|].
        rewrite app_nil_r. reflexivity.
      * apply Hacc in H. destruct H as [Hin ->]. split; [left; exact Hin|].
        rewrite Z.eqb_refl. reflexivity.
      * split; [right; left; reflexivity|]. rewrite Z.eqb_refl.
        assert (Hnone : filter (fun node => layer node =? layer n) seen = []).
        { destruct (filter _ seen) as [|m l] eqn:Ef; [reflexivity|].
          exfalso. apply H.
          assert (Hm : In m (filter (fun node => layer node =? layer n) seen))
            by (rewrite Ef; left; reflexivity).
          apply filter_In in Hm. destruct Hm as [Hm Hl].
          apply Z.eqb_eq in Hl.
          assert (Hacc' := proj2 (Hacc (layer n)
                                    (filter (fun node => layer node =? layer n)
                                       seen))).
          apply (in_map fst) in Hacc'; [exact Hacc'|].
          split; [|reflexivity]. rewrite <- Hl. apply in_map. exact Hm. }
        rewrite Hnone. reflexivity.
    + intros [Hin ->]. destruct (Z.eqb_spec (layer n) j) as [E|E].
      * right. split; [symmetry; exact E|]. subst j.
        exists (filter (fun node => layer node =? layer n) seen).
        split; [reflexivity|].
        destruct (in_dec Z.eq_dec (layer n) (map layer seen)) as [Hs|Hs].
        -- left. apply Hacc. split; [exact Hs|reflexivity].
        -- right. split.
           ++ destruct (filter _ seen) as [|m l] eqn:Ef; [reflexivity|].
              exfalso. apply Hs.
              assert (Hm : In m (filter (fun node => layer node =? layer n)
                                   seen))
                by (rewrite Ef; left; reflexivity).
              apply filter_In in Hm. destruct Hm as [Hm Hl].
              apply Z.eqb_eq in Hl. rewrite <- Hl. apply in_map. exact Hm.
           ++ intros Hk. apply in_map_iff in Hk.
              destruct Hk as [[j ms] [Ej Hk]]. cbn [fst] in Ej. subst j.
              apply Hacc in Hk. tauto.
      * left. split; [congruence|]. rewrite app_nil_r.
        apply Hacc. split; [|reflexivity].
        destruct Hin as [Hin|[Hin|[]]]; [exact Hin|contradiction].
Qed.

(** X24 (get_layers, get_layer): the dictionary that [get_layers] returns
    has one entry for each layer index that some node carries, and the
    entry of an index is the list that [get_layer] yields for it, in the
    same order. *)
Theorem get_layers_get_layer (g : CPPN) :
  NoDup (map fst (get_layers g)) /\
  forall j ms, In (j, ms) (get_layers g) <->
    In j (map layer (node_genome g)) /\ ms = get_layer g j.
Proof.
  unfold get_layers, get_layer.
  apply (get_layers_loop (node_genome g) [] []).
  - constructor.
  - intros j ms. cbn. tauto.
Qed.

(** The genome that a shallow [clone] returns *)
Lemma clone_run (self : CPPN) (new_id : bool) (gl : Globals) :
  device (config self) <> None -> endpoints_exist self ->
  exists child gl',
    clone self false new_id gl = (Ok child, gl') /\
    connection_genome child = map Connection_copy (connection_genome self) /\
    node_genome child
    = map (fun n =>
             set_layer
               (final_layer (layer_writes 0 (feed_forward_layers self))
                  (id n) (if NodeType_eqb (type n) INPUT then 0 else 999))
               (Node_copy n))
        (node_genome self) /\
    scores child = (0%Q, 0%Q, 0%Q) /\ image child = None /\
    parents child = (0, 0) /\ config child = config self /\
    cppn_id child = (if new_id then current_id gl else cppn_id self) /\
    current_id gl' = current_id gl + (if new_id then 2 else 1).
Proof.
  intros Hdev He.
  destruct (device (config self)) as [d|] eqn:Ed; [clear Hdev|congruence].
  set (gl0 := if new_id then snd (get_id gl) else gl).
  set (i := if new_id then current_id gl else cppn_id self).
  assert (Ei : (if new_id then get_id else ret (cppn_id self)) gl
               = (Ok i, gl0)).
  { unfold i, gl0. destruct new_id; reflexivity. }
  set (child0 := mkCPPN (config self) None [] [] false 0 (current_id gl0)
                   (0, 0) 0 0 0
                   (2 + (if use_radial_distance (config self) then 1 else 0)
                      + (if use_input_bias (config self) then 1 else 0))%nat
                   (String.length (color_mode (config self)))).
  assert (Einit : CPPN_init (config self) (Some []) (Some []) gl0
                  = (Ok child0, snd (get_id gl0))).
  { unfold CPPN_init. rewrite Ed. reflexivity. }
  set (child1 := set_node_genome (map Node_copy (node_genome self))
                   (set_connection_genome
                      (map Connection_copy (connection_genome self))
                      child0)).
  assert (Hkeys : map key_ (map Connection_copy (connection_genome self))
                  = map key_ (connection_genome self))
    by (rewrite map_map; reflexivity).
  assert (Hids : map id (map Node_copy (node_genome self))
                 = map id (node_genome self))
    by (rewrite map_map; reflexivity).
  assert (He1 : endpoints_exist child1).
  { intros c Hc. cbn [child1 node_genome connection_genome set_node_genome
                        set_connection_genome] in *.
    rewrite Hids. apply in_map_iff in Hc. destruct Hc as [c0 [<- Hc0]].
    apply (He c0 Hc0). }
  assert (Hff : feed_forward_layers child1 = feed_forward_layers self).
  { unfold feed_forward_layers, get_ids_from_individual, input_nodes,
      output_nodes.
    cbn [child1 node_genome connection_genome set_node_genome
           set_connection_genome].
    rewrite Hkeys, !(filter_static Node_copy) by reflexivity.
    reflexivity. }
  assert (Eup := update_node_layers_ok child1 He1).
  rewrite Hff in Eup.
  eexists. eexists. split.
  { unfold clone. unfold bind at 1. rewrite Ei.
    unfold bind at 1. rewrite Einit. fold child1. rewrite Eup.
    reflexivity. }
  cbn [connection_genome node_genome set_id set_node_genome child1
         set_connection_genome scores fitness adjusted_fitness novelty
         image parents config cppn_id child0].
  split; [reflexivity|]. split.
  { rewrite map_map. reflexivity. }
  repeat (split; [reflexivity|]).
  unfold gl0. destruct new_id; cbn; lia.
Qed.

(** X25 (clone): for a genome on a device whose connections join its own
    nodes, the shallow clone carries copies of the connections (key,
    weight and enabled flag) and nodes of the same ids, types and
    activations; its input nodes are on layer 0 and the other nodes that
    the layering does not place on layer 999; its scores, image and
    parents are those of a fresh genome; and the class counter of ids
    advances by one, or by two when a new id is asked for. *)
Theorem clone_shallow (self : CPPN) (new_id : bool) (gl : Globals) :
  device (config self) <> None -> endpoints_exist self ->
  exists child gl',
    clone self false new_id gl = (Ok child, gl') /\
    connection_genome child = map Connection_copy (connection_genome self) /\
    statics (node_genome child) = statics (node_genome self) /\
    (forall n, In n (node_genome child) ->
       (type n = INPUT -> layer n = 0) /\
       (type n <> INPUT -> ~ placed self (id n) -> layer n = 999)) /\
    scores child = (0%Q, 0%Q, 0%Q) /\ image child = None /\
    parents child = (0, 0) /\ config child = config self /\
    cppn_id child = (if new_id then current_id gl else cppn_id self) /\
    current_id gl' = current_id gl + (if new_id then 2 else 1).
Proof.
  intros Hdev He.
  destruct (clone_run self new_id gl Hdev He)
    as [child [gl' [E [Hc [Hn H]]]]].
  exists child, gl'. split; [exact E|]. split; [exact Hc|].
  split; [|split; [|exact H]].
  - rewrite Hn. unfold statics. rewrite map_map. reflexivity.
  - intros n Hin. rewrite Hn in Hin. apply in_map_iff in Hin.
    destruct Hin as [n0 [<- Hn0]]. cbn [type layer id set_layer Node_copy].
    split.
    + intros Ht. rewrite Ht. cbn [NodeType_eqb].
      destruct (in_dec Z.eq_dec (id n0)
                  (map fst (layer_writes 0 (feed_forward_layers self))))
        as [Hw|Hw]; [|apply final_layer_untouched; exact Hw].
      exfalso. apply in_map_iff in Hw. destruct Hw as [w [Ew Hw]].
      apply (writes_miss_inputs self n0 w Hn0 Ht Hw Ew).
    + intros Ht Hp.
      assert (Eb : NodeType_eqb (type n0) INPUT = false).
      { destruct (NodeType_eqb (type n0) INPUT) eqn:Eb; [|reflexivity].
        apply NodeType_eqb_eq in Eb. contradiction. }
      rewrite Eb. apply final_layer_untouched. intros Hw.
      apply layer_writes_In in Hw. destruct Hw as [l [Hl Hk]].
      apply Hp. exists l. split; assumption.
Qed.

(** X25 (witness) *)
Lemma clone_shallow_witness :
  exists child gl',
    clone stale_genome false true (example_globals []) = (Ok child, gl') /\
    connection_genome child
    = map Connection_copy (connection_genome stale_genome) /\
    statics (node_genome child) = statics (node_genome stale_genome) /\
    (forall n, In n (node_genome child) ->
       (type n = INPUT -> layer n = 0) /\
       (type n <> INPUT -> ~ placed stale_genome (id n) -> layer n = 999)) /\
    scores child = (0%Q, 0%Q, 0%Q) /\ image child = None /\
    parents child = (0, 0) /\ config child = config stale_genome /\
    cppn_id child = current_id (example_globals []) /\
    current_id gl' = current_id (example_globals []) + 2.
Proof.
  apply (clone_shallow stale_genome true (example_globals [])).
  - discriminate.
  - solve_endpoints.
Defined.

(** X26 (genetic_difference): when one of the two genomes has no enabled
    connection, the connections of the other do not count: the distance
    is the number of positions at which the two node lists, paired in
    order, carry activations of different names. *)
Theorem genetic_difference_no_connections (self other : CPPN) :
  enabled_connections self = [] \/ enabled_connections other = [] ->
  (genetic_difference self other
   == nat_to_Q
        (List.length
           (filter (fun to =>
                      negb (String.eqb (fn_name (activation (fst to)))
                              (fn_name (activation (snd to)))))
              (combine (node_genome self) (node_genome other)))))%Q.
Proof.
  intros H. unfold genetic_difference.
  set (n := nat_to_Q (List.length (filter _ (combine _ _)))).
  assert (Hzero : forall N : nat,
            ((if (0 <? N)%nat then nat_to_Q 0 / nat_to_Q N else nat_to_Q 0)
             == 0)%Q).
  { intros N. destruct (0 <? N)%nat; [|reflexivity].
    unfold Qdiv. apply Qmult_0_l. }
  destruct H as [E|E]; rewrite E; cbn [sorted_by_key fold_right].
  - unfold get_excess_connections, get_disjoint_connections,
      get_matching_connections. cbn [filter sorted_by_key fold_right].
    assert (Eo : sorted_by_key
                   (filter (fun c2 : Connection =>
                              key_in (key_ c2) (map key_ []))
                      (sorted_by_key (enabled_connections other))) = []).
    { rewrite filter_none; [reflexivity|]. intros x _. reflexivity. }
    rewrite Eo. cbn [combine map List.length Nat.max].
    rewrite Hzero. ring.
  - unfold get_excess_connections, get_disjoint_connections,
      get_matching_connections. cbn [map rev].
    assert (Et : forall l : list Connection,
              filter (fun c1 : Connection => key_in (key_ c1) []) l = []).
    { intros l. apply filter_none. intros x _. reflexivity. }
    rewrite Et. cbn [filter sorted_by_key fold_right combine map].
    assert (Ex : forall l : list Connection,
              List.length (match l with [] => [] | _ :: _ => []
                           end : list Connection) = 0%nat)
      by (intros [|? ?]; reflexivity).
    destruct (sorted_by_key (enabled_connections self)) as [|c l];
      cbn [List.length]; rewrite Hzero; ring.
Qed.

(** X26 (witness) *)
Lemma genetic_difference_no_connections_witness :
  (genetic_difference (example_genome (node_genome full_genome) [])
     stale_genome
   == nat_to_Q
        (List.length
           (filter (fun to =>
                      negb (String.eqb (fn_name (activation (fst to)))
                              (fn_name (activation (snd to)))))
              (combine
                 (node_genome (example_genome (node_genome full_genome) []))
                 (node_genome stale_genome)))))%Q.
Proof.
  apply (genetic_difference_no_connections
           (example_genome (node_genome full_genome) []) stale_genome).
  left. reflexivity.
Defined.

(** ** The nodes that the layering places *)

Lemma required_closed_backwards (g : CPPN) (a b : Z) :
  In (a, b) (map key_ (connection_genome g)) ->
  In b (ids_required g) -> ~ In a (map id (input_nodes g)) ->
  In a (ids_required g).
Proof.
  unfold ids_required, get_ids_from_individual, required_for_output.
  set (inputs := map id (input_nodes g)).
  set (outputs := map id (output_nodes g)).
  set (cs := map key_ (connection_genome g)).
  destruct (required_loop_terminates (S (List.length cs)) inputs cs
              (to_set outputs) (to_set outputs)) as [r Hr].
  { assert (H := unvisited_le cs (to_set outputs)). lia. }
  rewrite Hr. intros Hab Hb Ha.
  assert (Hinv : required_inv inputs outputs cs (to_set outputs)
                   (to_set outputs)).
  { split; [apply incl_refl|]. split; [auto|]. split.
    { intros x Hx. apply (proj1 (to_set_In _ _)) in Hx. exists x.
      split; [assumption | constructor]. }
    split; [intros o Ho; apply (proj2 (to_set_In _ _)); assumption|].
    split; [intros x Hx; left; apply (proj1 (to_set_In _ _)); assumption|].
    apply NoDup_nodup. }
  destruct (required_loop_closure inputs outputs cs _ _ _ _ Hr Hinv)
    as [_ [_ [Hclosed _]]].
  apply (Hclosed a b); assumption.
Qed.

(** A node of a layer is grounded. *)
Lemma placed_grounded (g : CPPN) (k : nat) :
  forall l n,
    nth_error (feed_forward_layers g) k = Some l -> In n l ->
    grounded g n.
Proof.
  assert (HL := feed_forward_layers_layering g).
  induction k as [k IH] using lt_wf_ind. intros l n Hk Hn.
  assert (Hl : In l (feed_forward_layers g))
    by (eapply nth_error_In; eassumption).
  destruct (layering_members _ _ _ _ HL l n Hl Hn) as [Hr [He _]].
  constructor; [|assumption|assumption|].
  - intros Hi. apply (layering_fresh _ _ _ _ HL l n Hl Hn).
    apply (proj2 (to_set_In _ _)). assumption.
  - intros a Ha Hni.
    destruct (layering_sources _ _ _ _ HL k l n a Hk Hn Ha)
      as [Hs | [j [l' [Hj [Hl' Hal']]]]].
    + exfalso. apply Hni. apply (proj1 (to_set_In _ _)). assumption.
    + apply (IH j Hj l' a Hl' Hal').
Qed.

(** A grounded node is in some layer. *)
Lemma grounded_placed (g : CPPN) (k : Z) : grounded g k -> placed g k.
Proof.
  assert (HL := feed_forward_layers_layering g).
  induction 1 as [k Hi Hr [a Ha] _ IH].
  destruct (in_dec Z.eq_dec k (concat (feed_forward_layers g)))
    as [Hk|Hk]; [apply placed_concat; assumption|].
  exfalso.
  assert (Hend := layering_end _ _ _ _ HL).
  assert (Hsrc : forall a', In (a', k) (map key_ (connection_genome g)) ->
            In a' (to_set (map id (input_nodes g))
                   ++ concat (feed_forward_layers g))).
  { intros a' Ha'. apply in_or_app.
    destruct (in_dec Z.eq_dec a' (map id (input_nodes g))) as [H|H].
    - left. apply (proj2 (to_set_In _ _)). assumption.
    - right. apply placed_concat. apply IH; assumption. }
  assert (Hin : In k (next_layer (ids_required g)
                        (map key_ (connection_genome g))
                        (to_set (map id (input_nodes g))
                         ++ concat (feed_forward_layers g)))).
  { apply next_layer_In. split; [assumption|]. split.
    - intros H. apply in_app_or in H. destruct H as [H|H].
      + apply Hi. apply (proj1 (to_set_In _ _)). assumption.
      + contradiction.
    - split; [|assumption]. exists a. split; [assumption|].
      apply Hsrc. assumption. }
  rewrite Hend in Hin. exact Hin.
Qed.

(** Without a cycle, and with an incoming connection at every required
    node that is no input, every such node is grounded. *)
Lemma required_grounded (g : CPPN) (rank : Z -> nat) :
  (forall a b, In (a, b) (map key_ (connection_genome g)) ->
     (rank a < rank b)%nat) ->
  (forall k, In k (ids_required g) -> ~ In k (map id (input_nodes g)) ->
     exists a, In (a, k) (map key_ (connection_genome g))) ->
  forall k, In k (ids_required g) -> ~ In k (map id (input_nodes g)) ->
    grounded g k.
Proof.
  intros Hrank Hinc.
  assert (H : forall n k, rank k = n -> In k (ids_required g) ->
                ~ In k (map id (input_nodes g)) -> grounded g k).
  { induction n as [n IH] using lt_wf_ind. intros k En Hr Hi.
    constructor; [assumption | assumption | apply Hinc; assumption |].
    intros a Ha Hai.
    apply (IH (rank a)); [rewrite <- En; apply Hrank; assumption
                         | reflexivity | | assumption].
    apply (required_closed_backwards g a k); assumption. }
  intros k. apply (H (rank k) k eq_refl).
Qed.

(** C2 (amended). On a genome whose connections join nodes of the genome,
    both loops of the layering end within [length connections + 1] rounds
    and [update_node_layers] returns.  The nodes it places are exactly the
    grounded ones: no input, required for an output, with an incoming
    connection, every incoming connection leaving an input node or a
    grounded node.  When the connections have no cycle and every required
    node that is no input has an incoming connection, these are all the
    required nodes that are no inputs.  The layering leaves every input
    node at layer 0 and every node placed in the layer of index [k], so
    every grounded node, at layer [k + 1] >= 1; every connection whose
    target was placed has layer(source) < layer(target).  Nodes that are
    not placed keep the layer they had. *)
Theorem update_node_layers_layers (g : CPPN) :
  dict_ok g -> endpoints_exist g ->
  (forall fuel, (List.length (connection_genome g) < fuel)%nat ->
     required_loop fuel (map id (input_nodes g))
       (map key_ (connection_genome g))
       (to_set (map id (output_nodes g))) (to_set (map id (output_nodes g)))
     = Some (ids_required g) /\
     layers_loop fuel (ids_required g) (map key_ (connection_genome g))
       (to_set (map id (input_nodes g))) [] = Some (feed_forward_layers g)) /\
  (forall k, placed g k <-> grounded g k) /\
  ((exists rank : Z -> nat,
      forall a b, In (a, b) (map key_ (connection_genome g)) ->
        (rank a < rank b)%nat) ->
   (forall k, In k (ids_required g) -> ~ In k (map id (input_nodes g)) ->
      exists a, In (a, k) (map key_ (connection_genome g))) ->
   forall k, In k (ids_required g) -> ~ In k (map id (input_nodes g)) ->
     placed g k) /\
  exists g',
    update_node_layers g = (Ok tt, g') /\
    connection_genome g' = connection_genome g /\
    map id (node_genome g') = map id (node_genome g) /\
    (forall n, In n (node_genome g') -> type n = INPUT -> layer n = 0) /\
    (forall k l n,
       nth_error (feed_forward_layers g) k = Some l ->
       In n (node_genome g') -> In (id n) l ->
       layer n = Z.of_nat k + 1 /\ 1 <= layer n) /\
    (forall n, In n (node_genome g') -> grounded g (id n) ->
       1 <= layer n) /\
    (forall n, In n (node_genome g') -> type n <> INPUT ->
       ~ placed g (id n) -> In n (node_genome g)) /\
    (forall c a b,
       In c (connection_genome g') ->
       In a (node_genome g') -> In b (node_genome g') ->
       id a = fst (key_ c) -> id b = snd (key_ c) ->
       placed g (id b) -> layer a < layer b).
Proof.
  intros Hd He.
  destruct (update_node_layers_assigns g Hd He)
    as [Hfuel [g' [Hu [Hc [Hids [Hin [Hpl [Hkeep Hlt]]]]]]]].
  split; [exact Hfuel|]. split; [|split].
  - intros k. split.
    + intros [l [Hl Hk]]. apply In_nth_error in Hl. destruct Hl as [j Hj].
      apply (placed_grounded g j l k Hj Hk).
    + apply grounded_placed.
  - intros [rank Hrank] Hinc k Hr Hi.
    apply grounded_placed. apply (required_grounded g rank); assumption.
  - exists g'. repeat (split; [assumption|]). split; [|split; assumption].
    intros n Hn Hg. apply grounded_placed in Hg.
    destruct Hg as [l [Hl Hk]]. apply In_nth_error in Hl.
    destruct Hl as [j Hj]. apply (Hpl j l n Hj Hn Hk).
Qed.

(** C2 (witness) *)
Lemma update_node_layers_layers_witness :
  dict_ok stale_genome /\ endpoints_exist stale_genome /\
  (placed stale_genome 2 <-> grounded stale_genome 2) /\
  (exists g', update_node_layers stale_genome = (Ok tt, g') /\
     forall n, In n (node_genome g') -> type n = INPUT -> layer n = 0) /\
  dict_ok full_genome /\ endpoints_exist full_genome /\
  placed full_genome (-3).
Proof.
  assert (H1 : dict_ok stale_genome) by solve_dict_ok.
  assert (H2 : endpoints_exist stale_genome) by solve_endpoints.
  assert (H3 : dict_ok full_genome) by solve_dict_ok.
  assert (H4 : endpoints_exist full_genome) by solve_endpoints.
  split; [exact H1|]. split; [exact H2|].
  destruct (update_node_layers_layers stale_genome H1 H2)
    as [_ [Hp [_ [g' [Hu [_ [_ [Hi _]]]]]]]].
  split; [exact (Hp 2)|].
  split; [exists g'; split; assumption|].
  split; [exact H3|]. split; [exact H4|].
  destruct (update_node_layers_layers full_genome H3 H4)
    as [_ [_ [Hall _]]].
  apply Hall.
  - exists (fun k => if k =? -3 then 1%nat else 0%nat).
    intros a b Hab. cbn in Hab.
    destruct Hab as [E|[E|[]]]; injection E as <- <-; cbn; lia.
  - intros k Hk _. vm_compute in Hk. destruct Hk as [<-|[]].
    exists (-1). left. reflexivity.
  - vm_compute. left. reflexivity.
  - vm_compute. intros [H|[H|[]]]; discriminate.
Defined.
